(** * MirBFT state machine core: write-ahead log, outstanding requests, orchestrator

    Shallow embedding of
      - [pkg/statemachine/outstanding.go]  (package statemachine: [allOutstandingReqs]),
      - the [StateMachine] orchestrator of package statemachine
        ([initialize], [applyPersisted], [completeInitialization], [applyEvent],
        [reinitialize], [recoverLog], [step], [processResults]),
      - the write-ahead log store [persisted] ([appendInitialLoad], [appendLogEntry],
        [truncate], [iterate]).

    Unsigned 64-bit integers are [Z] with the wrap-around written out.  Go maps are
    stdpp [gmap]s.  A Go [panic] is the outcome [Panic]; a Go [error] return is a sum. *)

From stdpp Require Import gmap strings list fin_maps.
From Stdlib Require Import ZArith Lia.

Local Open Scope Z_scope.

(** ** Machine integers *)

Definition wrap64 (z : Z) : Z := z mod 2 ^ 64.

(** [a + b] on [uint64]. *)
Definition add64 (a b : Z) : Z := wrap64 (a + b).

(** [a - b] on [uint64]. *)
Definition sub64 (a b : Z) : Z := wrap64 (a - b).

(** The conversion [uint64(x)] of a signed integer [x]. *)
Definition to_uint64 (x : Z) : Z := wrap64 x.

(** [[]byte] values and serialized protobuf messages whose declaration the
    state machine never looks into. *)
Abbreviation bytes := string.

(** ** Outcomes of running a piece of the state machine

    Every outcome carries the state reached: a panic leaves the mutations that
    were done before it, and [OutOfFuel] is the state at which the bound on the loop
    iterations was exhausted. *)

Inductive PanicKind :=
| AssertionFailed (text : string)      (* assertFailed, via the assert* helpers *)
| NilDereference                       (* runtime error: nil pointer dereference *)
| ExplicitPanic (text : string).       (* panic(...) in the source *)

Inductive Outcome (S A : Type) :=
| Ok (a : A) (s : S)
| Panic (p : PanicKind) (s : S)
| OutOfFuel (s : S).
Arguments Ok {S A} a s.
Arguments Panic {S A} p s.
Arguments OutOfFuel {S A} s.

Definition M (S A : Type) : Type := S → Outcome S A.

Definition ret {S A} (a : A) : M S A := fun s => Ok a s.

Definition bind {S A B} (m : M S A) (k : A → M S B) : M S B :=
  fun s => match m s with
           | Ok a s' => k a s'
           | Panic p s' => Panic p s'
           | OutOfFuel s' => OutOfFuel s'
           end.

Definition panic {S A} (p : PanicKind) : M S A := fun s => Panic p s.
Definition get {S} : M S S := fun s => Ok s s.
Definition put {S} (s : S) : M S unit := fun _ => Ok tt s.
Definition modify {S} (f : S → S) : M S unit := fun s => Ok tt (f s).

Notation "x <~ m ;; k" := (bind m (fun x => k))
  (at level 100, m at next level, right associativity).
Notation "m ;;; k" := (bind m (fun _ => k))
  (at level 100, right associativity).

(** The state an outcome ends in. *)
Definition out_state {S A} (o : Outcome S A) : S :=
  match o with Ok _ s => s | Panic _ s => s | OutOfFuel s => s end.

(** Runs [m] on a component [get_ s] of a larger state and writes the component back. *)
Definition zoom {S T A} (get_ : T → S) (set_ : S → T → T) (m : M S A) : M T A :=
  fun t => match m (get_ t) with
           | Ok a s => Ok a (set_ s t)
           | Panic p s => Panic p (set_ s t)
           | OutOfFuel s => OutOfFuel (set_ s t)
           end.

(** [for _, x := range xs { body(x) }] *)
Fixpoint forEach {S A} (body : A → M S unit) (xs : list A) : M S unit :=
  match xs with
  | [] => ret tt
  | x :: xs' => body x ;;; forEach body xs'
  end.

(** ** Protobuf messages (package mirbftpb), as far as the state machine reads them *)

Record RequestAck := {
  ClientId : Z;
  ReqNo : Z;
  Digest : bytes
}.

Record NetworkState_Config := {
  Nodes : list Z;
  MaxEpochLength : Z;
  CheckpointInterval : Z;      (* signed, converted with uint64(...) where used *)
  NumberOfBuckets : Z          (* signed, converted with int(...) and uint64(...) *)
}.

Record NetworkState_Client := {
  Id : Z;
  LowWatermark : Z;
  ClientWindow : bytes         (* the remaining fields, read only by isCommitted *)
}.

Record NetworkState := {
  Config : NetworkState_Config;
  Clients : list NetworkState_Client
}.

Record EpochConfig := {
  Number : Z;
  Leaders : list Z
}.

Record PEntry := { PEntry_SeqNo : Z; PEntry_Digest : bytes }.
Record QEntry := { QEntry_SeqNo : Z; QEntry_Digest : bytes; QEntry_Requests : list RequestAck }.
Record CEntry := {
  CEntry_SeqNo : Z;
  CheckpointValue : bytes;
  CEntry_NetworkState : option NetworkState   (* pointer, may be nil *)
}.
Record NEntry := { NEntry_SeqNo : Z; NEntry_EpochConfig : EpochConfig }.
Record FEntry := { EndsEpochConfig : EpochConfig }.

(** [pb.Persistent]: the [Type] oneof; [Persistent_unset] is a message whose [Type]
    is the nil interface. *)
Inductive Persistent :=
| Persistent_PEntry (e : PEntry)
| Persistent_QEntry (e : QEntry)
| Persistent_CEntry (e : CEntry)
| Persistent_NEntry (e : NEntry)
| Persistent_FEntry (e : FEntry)
| Persistent_ECEntry (e : bytes)
| Persistent_TEntry (e : bytes)
| Persistent_Suspect (e : bytes)
| Persistent_unset.

(** ** Action sets

    [pb.StateEventResult], in the field order of [actionsConcat] and
    [clientActionsConcat] of the log replay tool. *)

Record StateEventResult_Write := {
  Append : option (Z * Persistent);
  Truncate : Z
}.

Record actionSet := {
  Send : list bytes;
  Commits : list bytes;
  Hash : list bytes;
  WriteAhead : list StateEventResult_Write;
  StateTransfer : option bytes;
  AllocatedRequests : list bytes;
  StoreRequests : list bytes;
  ForwardRequests : list bytes
}.

(** [&actionSet{}] *)
Definition emptyActions : actionSet :=
  {| Send := []; Commits := []; Hash := []; WriteAhead := []; StateTransfer := None;
     AllocatedRequests := []; StoreRequests := []; ForwardRequests := [] |}.

Definition withWriteAhead (ws : list StateEventResult_Write) : actionSet :=
  {| Send := []; Commits := []; Hash := []; WriteAhead := ws; StateTransfer := None;
     AllocatedRequests := []; StoreRequests := []; ForwardRequests := [] |}.

Definition withCommits (cs : list bytes) : actionSet :=
  {| Send := []; Commits := cs; Hash := []; WriteAhead := []; StateTransfer := None;
     AllocatedRequests := []; StoreRequests := []; ForwardRequests := [] |}.

(** Modelled from the spec: [actionSet.concat] is not among the sources; it is the
    field-wise append that [actionsConcat] and [clientActionsConcat] of the replay
    tool perform on the same message, two state transfer requests being refused. *)
Definition concat (a o : actionSet) : option actionSet :=
  match StateTransfer o, StateTransfer a with
  | Some _, Some _ => None
  | st_o, st_a =>
      Some {| Send := Send a ++ Send o;
              Commits := Commits a ++ Commits o;
              Hash := Hash a ++ Hash o;
              WriteAhead := WriteAhead a ++ WriteAhead o;
              StateTransfer := match st_o with Some t => Some t | None => st_a end;
              AllocatedRequests := AllocatedRequests a ++ AllocatedRequests o;
              StoreRequests := StoreRequests a ++ StoreRequests o;
              ForwardRequests := ForwardRequests a ++ ForwardRequests o |}
  end.

(** [actions.concat(o)] as a statement: the receiver is updated in place. *)
Definition concatM {S} (a o : actionSet) : M S actionSet :=
  match concat a o with
  | Some r => ret r
  | None => panic (ExplicitPanic "attempted to concatenate two concurrent state transfer requests")
  end.

(** Modelled from the spec: [actionSet.isEmpty] is not among the sources; an action
    set is empty when it requests nothing. *)
Definition isEmpty (a : actionSet) : bool :=
  match a with
  | {| Send := []; Commits := []; Hash := []; WriteAhead := []; StateTransfer := None;
       AllocatedRequests := []; StoreRequests := []; ForwardRequests := [] |} => true
  | _ => false
  end.

(** Modelled from the spec: [actionSet.persist] is not among the sources; it requests
    the durable write of a record at an index. *)
Definition persist (a : actionSet) (index : Z) (entry : Persistent) : actionSet :=
  {| Send := Send a; Commits := Commits a; Hash := Hash a;
     WriteAhead := WriteAhead a ++ [{| Append := Some (index, entry); Truncate := 0 |}];
     StateTransfer := StateTransfer a;
     AllocatedRequests := AllocatedRequests a; StoreRequests := StoreRequests a;
     ForwardRequests := ForwardRequests a |}.

(** ** Interface values and the assert helpers

    The helpers take [interface{}] arguments and compare them with [==] / [!=].
    Two interface values are equal when both are the nil interface, or when they
    have the same dynamic type and equal dynamic values.  A nil pointer of type
    [*T] stored in an interface has dynamic type [*T]: it is not the nil
    interface.  Addresses are not modelled; the source compares pointers with
    [nil] only, so a pointer is boxed as its type and whether it is nil. *)

Inductive stateMachineState := smUninitialized | smLoadingPersisted | smInitialized.

Global Instance stateMachineState_eq_dec : EqDecision stateMachineState.
Proof. solve_decision. Defined.

Inductive iface :=
| iface_nil                                    (* the literal nil passed as interface{} *)
| iface_uint64 (v : Z)
| iface_bool (v : bool)
| iface_state (v : stateMachineState)
| iface_ptr (pointee : string) (is_nil : bool). (* a value of pointer type *pointee *)

Global Instance iface_eq_dec : EqDecision iface.
Proof. solve_decision. Defined.

Definition box_ptr {A} (pointee : string) (p : option A) : iface :=
  iface_ptr pointee (match p with None => true | Some _ => false end).

(** [assertEqualf(lhs, rhs, format)]: [if lhs != rhs { assertFailed(...) }] *)
Definition assertEqualf {S} (lhs rhs : iface) (format : string) : M S unit :=
  if decide (lhs = rhs) then ret tt else panic (AssertionFailed format).

Definition assertEqual {S} (lhs rhs : iface) (text : string) : M S unit :=
  assertEqualf lhs rhs text.

(** [assertNotEqualf(lhs, rhs, format)]: [if lhs == rhs { assertFailed(...) }] *)
Definition assertNotEqualf {S} (lhs rhs : iface) (format : string) : M S unit :=
  if decide (lhs = rhs) then panic (AssertionFailed format) else ret tt.

Definition assertNotEqual {S} (lhs rhs : iface) (text : string) : M S unit :=
  assertNotEqualf lhs rhs text.

(** [assertTruef(value, format)] *)
Definition assertTruef {S} (value : bool) (format : string) : M S unit :=
  if value then ret tt else panic (AssertionFailed format).

(** ** The write-ahead log store ([persisted])

    The log is a singly linked list from [logHead] to [logTail]; [log] is the list of
    the entries reachable from [logHead] ([logHead == nil] is the empty list).
    [truncate] only moves [logHead] forward and never rewrites a [next] pointer. *)

Record logEntry := {
  index : Z;
  entry : Persistent
}.

Record persisted := {
  nextIndex : Z;
  log : list logEntry
}.

(** [newPersisted] *)
Definition newPersisted : persisted := {| nextIndex := 0; log := [] |}.

(** [persisted.appendInitialLoad]: the entry is linked in before the index is checked. *)
Definition appendInitialLoad (idx : Z) (data : Persistent) : M persisted unit :=
  fun p =>
    let e := {| index := idx; entry := data |} in
    let p1 := match log p with
              | [] => {| nextIndex := idx; log := [e] |}
              | _ :: _ => {| nextIndex := nextIndex p; log := log p ++ [e] |}
              end in
    if decide (nextIndex p1 = idx)
    then Ok tt {| nextIndex := add64 idx 1; log := log p1 |}
    else Panic (ExplicitPanic "WAL indexes out of order!") p1.

(** [persisted.appendLogEntry]: [p.logTail.next = ...] dereferences a nil [logTail]
    when nothing was ever loaded. *)
Definition appendLogEntry (e : Persistent) : M persisted actionSet :=
  fun p =>
    match log p with
    | [] => Panic NilDereference p
    | _ :: _ =>
        Ok (persist emptyActions (nextIndex p) e)
           {| nextIndex := add64 (nextIndex p) 1;
              log := log p ++ [{| index := nextIndex p; entry := e |}] |}
    end.

(** [persisted.addCEntry]: the guard compares a [*pb.NetworkState] with [nil]
    through [interface{}]. *)
Definition addCEntry (cEntry : CEntry) : M persisted actionSet :=
  assertNotEqual (box_ptr "pb.NetworkState" (CEntry_NetworkState cEntry)) iface_nil
                 "network config must be set" ;;;
  appendLogEntry (Persistent_CEntry cEntry).

(** The [switch] of [truncate]: [true] when the scan stops at this entry. *)
Definition truncate_stops (lowWatermark : Z) (d : Persistent) : bool :=
  match d with
  | Persistent_CEntry c => negb (CEntry_SeqNo c <? lowWatermark)
  | Persistent_NEntry n => negb (NEntry_SeqNo n <=? lowWatermark)
  | _ => false
  end.

(** The loop of [truncate] from some entry on; [at_head] is [p.logHead == logEntry].
    [Some l] is the new list of entries ([p.logHead = logEntry]), [None] is
    the fall-through to [return &actionSet{}]. *)
Fixpoint truncate_scan (lowWatermark : Z) (at_head : bool) (l : list logEntry)
  : option (list logEntry) :=
  match l with
  | [] => None
  | e :: rest =>
      if truncate_stops lowWatermark (entry e)
      then (if at_head then None else Some l)
      else truncate_scan lowWatermark false rest
  end.

(** [persisted.truncate] *)
Definition truncate (lowWatermark : Z) : M persisted actionSet :=
  fun p =>
    match truncate_scan lowWatermark true (log p) with
    | Some (e :: rest) =>
        Ok (withWriteAhead [{| Append := None; Truncate := index e |}])
           {| nextIndex := nextIndex p; log := e :: rest |}
    | _ => Ok emptyActions p
    end.

(** [logIterator]: a nil callback is [None].  The callbacks are closures; [S] is
    the state they capture. *)
Record logIterator (S : Type) := {
  onQEntry : option (QEntry → M S unit);
  onPEntry : option (PEntry → M S unit);
  onCEntry : option (CEntry → M S unit);
  onNEntry : option (NEntry → M S unit);
  onFEntry : option (FEntry → M S unit);
  onECEntry : option (bytes → M S unit);
  onTEntry : option (bytes → M S unit);
  onSuspect : option (bytes → M S unit);
  shouldExit : option (M S bool)
}.
Arguments onQEntry {S}. Arguments onPEntry {S}. Arguments onCEntry {S}.
Arguments onNEntry {S}. Arguments onFEntry {S}. Arguments onECEntry {S}.
Arguments onTEntry {S}. Arguments onSuspect {S}. Arguments shouldExit {S}.

Definition call {S A} (cb : option (A → M S unit)) (a : A) : M S unit :=
  match cb with
  | Some f => f a
  | None => ret tt
  end.

(** The [switch] of [iterate] on one entry. *)
Definition visit {S} (li : logIterator S) (d : Persistent) : M S unit :=
  match d with
  | Persistent_PEntry e => call (onPEntry li) e
  | Persistent_QEntry e => call (onQEntry li) e
  | Persistent_CEntry e => call (onCEntry li) e
  | Persistent_NEntry e => call (onNEntry li) e
  | Persistent_FEntry e => call (onFEntry li) e
  | Persistent_ECEntry e => call (onECEntry li) e
  | Persistent_TEntry e => call (onTEntry li) e
  | Persistent_Suspect e => call (onSuspect li) e
  | Persistent_unset => panic (ExplicitPanic "unsupported log entry type")
  end.

(** [persisted.iterate], from the entry the loop variable points to.  The walk
    follows the [next] pointers, which no callback of this file rewrites, so it
    runs over the entries that were reachable when it started even when a callback
    moves [logHead]. *)
Fixpoint iterate_from {S} (li : logIterator S) (l : list logEntry) : M S unit :=
  match l with
  | [] => ret tt
  | e :: rest =>
      visit li (entry e) ;;;
      stop <~ match shouldExit li with
              | Some f => f
              | None => ret false
              end ;;
      if stop then ret tt else iterate_from li rest
  end.

(** ** Log recovery ([StateMachine.recoverLog])

    The closures capture [lastCEntry], [actions] and the log store. *)

Record recoverState := {
  lastCEntry : option CEntry;
  actions : actionSet;
  wal : persisted
}.

Definition set_lastCEntry (c : option CEntry) (st : recoverState) : recoverState :=
  {| lastCEntry := c; actions := actions st; wal := wal st |}.
Definition set_actions (a : actionSet) (st : recoverState) : recoverState :=
  {| lastCEntry := lastCEntry st; actions := a; wal := wal st |}.
Definition set_wal (p : persisted) (st : recoverState) : recoverState :=
  {| lastCEntry := lastCEntry st; actions := actions st; wal := p |}.

Definition recoverLog_onCEntry (cEntry : CEntry) : M recoverState unit :=
  modify (set_lastCEntry (Some cEntry)).

Definition recoverLog_onFEntry (fEntry : FEntry) : M recoverState unit :=
  st <~ get ;;
  assertNotEqualf (box_ptr "pb.CEntry" (lastCEntry st)) iface_nil
                  "FEntry without corresponding CEntry, log is corrupt" ;;;
  match lastCEntry st with
  | None => panic NilDereference                  (* lastCEntry.SeqNo *)
  | Some c =>
      t <~ zoom wal set_wal (truncate (CEntry_SeqNo c)) ;;
      a <~ concatM (actions st) t ;;
      modify (set_actions a)
  end.

Definition recoverLog_iterator : logIterator recoverState :=
  {| onQEntry := None; onPEntry := None;
     onCEntry := Some recoverLog_onCEntry;
     onNEntry := None;
     onFEntry := Some recoverLog_onFEntry;
     onECEntry := None; onTEntry := None; onSuspect := None;
     shouldExit := None |}.

Definition recoverLog_body : M recoverState actionSet :=
  st0 <~ get ;;
  iterate_from recoverLog_iterator (log (wal st0)) ;;;
  st <~ get ;;
  assertNotEqualf (box_ptr "pb.CEntry" (lastCEntry st)) iface_nil
                  "found no checkpoints in the log" ;;;
  ret (actions st).

(** [recoverLog] on the log store: the actions it returns and the store it leaves. *)
Definition recoverLog : M persisted actionSet :=
  fun p =>
    match recoverLog_body {| lastCEntry := None; actions := emptyActions; wal := p |} with
    | Ok a st => Ok a (wal st)
    | Panic k st => Panic k (wal st)
    | OutOfFuel st => OutOfFuel (wal st)
    end.

(** ** Outstanding requests ([outstanding.go]) *)

Record clientOutstandingReqs := {
  nextReqNo : Z;
  numBuckets : Z;
  client : NetworkState_Client
}.

Definition set_nextReqNo (r : Z) (cors : clientOutstandingReqs) : clientOutstandingReqs :=
  {| nextReqNo := r; numBuckets := numBuckets cors; client := client cors |}.

Record bucketOutstandingReqs := {
  clients : gmap Z clientOutstandingReqs
}.

(** Modelled from the spec: the [availableList] of the client tracker is not among
    the sources; it is the queue of freshly vouched acknowledgements with an
    iterator over it ([resetIterator], [hasNext], [next]). *)
Record availableList := {
  items : list RequestAck;
  position : nat
}.

Definition resetIterator (al : availableList) : availableList :=
  {| items := items al; position := 0%nat |}.

(** What [hasNext] / [next] still yield. *)
Definition remaining (al : availableList) : list RequestAck :=
  drop (position al) (items al).

(** The iterator after one [next()]. *)
Definition advanceIterator (al : availableList) : availableList :=
  {| items := items al; position := S (position al) |}.

(** A [*sequence] is the address of the sequence; the sequences themselves live
    in the heap of the epoch tracker. *)
Abbreviation sequence := Z (only parsing).

Record allOutstandingReqs := {
  buckets : gmap Z bucketOutstandingReqs;
  availableIterator : availableList;
  correctRequests : gmap string RequestAck;
  outstandingRequests : gmap string sequence
}.

Definition set_buckets b (ao : allOutstandingReqs) : allOutstandingReqs :=
  {| buckets := b; availableIterator := availableIterator ao;
     correctRequests := correctRequests ao; outstandingRequests := outstandingRequests ao |}.
Definition set_availableIterator al (ao : allOutstandingReqs) : allOutstandingReqs :=
  {| buckets := buckets ao; availableIterator := al;
     correctRequests := correctRequests ao; outstandingRequests := outstandingRequests ao |}.
Definition set_correctRequests c (ao : allOutstandingReqs) : allOutstandingReqs :=
  {| buckets := buckets ao; availableIterator := availableIterator ao;
     correctRequests := c; outstandingRequests := outstandingRequests ao |}.
Definition set_outstandingRequests o (ao : allOutstandingReqs) : allOutstandingReqs :=
  {| buckets := buckets ao; availableIterator := availableIterator ao;
     correctRequests := correctRequests ao; outstandingRequests := o |}.

(** The functions of the client tracker that [outstanding.go] calls and that are
    not among the sources. *)
Class ClientOps := {
  isCommitted : Z → NetworkState_Client → bool;
  clientReqToBucket : Z → Z → NetworkState_Config → Z
}.

(** The methods of [sequence] that [outstanding.go] calls and that are not among
    the sources.  They run on the heap [W] that holds the sequences. *)
Class SequenceOps (W : Type) := {
  satisfyOutstanding : sequence → RequestAck → M W actionSet;
  allocate : sequence → list RequestAck → gset string → M W actionSet
}.

(** The outstanding requests together with the heap of the sequences. *)
Record tracker (W : Type) := {
  ao : allOutstandingReqs;
  heap : W
}.
Arguments ao {W}. Arguments heap {W}.

Definition set_ao {W} (a : allOutstandingReqs) (t : tracker W) : tracker W :=
  {| ao := a; heap := heap t |}.
Definition set_heap {W} (w : W) (t : tracker W) : tracker W :=
  {| ao := ao t; heap := w |}.

(** What a Go function with an [error] result returns. *)
Inductive applyAcksError :=
| NoSuchClient
| UnexpectedReqNo (clientId bucket expected got : Z).

Inductive result (A : Type) :=
| Success (a : A)                   (* (a, nil) *)
| Failure (err : applyAcksError).   (* (nil, err) *)
Arguments Success {A} a.
Arguments Failure {A} err.

Section Outstanding.
Context {cops : ClientOps}.

(** [clientOutstandingReqs.skipPreviouslyCommitted]; [fuel] bounds the
    iterations of the [for] loop. *)
Fixpoint skipPreviouslyCommitted (fuel : nat) : M clientOutstandingReqs unit :=
  fun cors =>
    match fuel with
    | O => OutOfFuel cors
    | S fuel' =>
        if negb (isCommitted (nextReqNo cors) (client cors))
        then Ok tt cors
        else skipPreviouslyCommitted fuel'
               (set_nextReqNo (add64 (nextReqNo cors) (numBuckets cors)) cors)
    end.

(** The search [for j := 0; j < numBuckets; j++] of [newOutstandingReqs]
    over the values [js] of [j] still to try. *)
Fixpoint firstUncommitted (c : NetworkState_Client) (cfg : NetworkState_Config)
         (i : Z) (js : list Z) : Z :=
  match js with
  | [] => 0
  | j :: js' =>
      let reqNo := add64 (LowWatermark c) (to_uint64 j) in
      if decide (clientReqToBucket (Id c) reqNo cfg = i)
      then reqNo
      else firstUncommitted c cfg i js'
  end.

(** The body of [for _, client := range networkState.Clients] for bucket [i]. *)
Definition initClient (fuel : nat) (cfg : NetworkState_Config) (i : Z)
           (c : NetworkState_Client) : M bucketOutstandingReqs unit :=
  fun bo =>
    let cors := {| nextReqNo := firstUncommitted c cfg i (seqZ 0 (NumberOfBuckets cfg));
                   numBuckets := to_uint64 (NumberOfBuckets cfg);
                   client := c |} in
    match skipPreviouslyCommitted fuel cors with
    | Ok _ cors' => Ok tt {| clients := <[Id c := cors']> (clients bo) |}
    | Panic p _ => Panic p bo
    | OutOfFuel _ => OutOfFuel bo
    end.

(** The body of [for i := bucketID(0); i < bucketID(numBuckets); i++]. *)
Definition initBucket (fuel : nat) (networkState : NetworkState) (i : Z)
  : M allOutstandingReqs unit :=
  fun a =>
    match forEach (initClient fuel (Config networkState) i) (Clients networkState)
                  {| clients := ∅ |} with
    | Ok _ bo => Ok tt (set_buckets (<[i := bo]> (buckets a)) a)
    | Panic p bo => Panic p (set_buckets (<[i := bo]> (buckets a)) a)
    | OutOfFuel bo => OutOfFuel (set_buckets (<[i := bo]> (buckets a)) a)
    end.

Context {W : Type} {sops : SequenceOps W}.

(** The loop of [advanceRequests] over what the iterator still yields. *)
Fixpoint advanceRequests_loop (pending : list RequestAck) (actions : actionSet)
  : M (tracker W) actionSet :=
  match pending with
  | [] => ret actions
  | ack :: pending' =>
      modify (fun t => set_ao (set_availableIterator
                                 (advanceIterator (availableIterator (ao t))) (ao t)) t) ;;;
      t <~ get ;;
      let key := Digest ack in
      match outstandingRequests (ao t) !! key with
      | Some seq =>
          modify (fun t => set_ao (set_outstandingRequests
                                     (delete key (outstandingRequests (ao t))) (ao t)) t) ;;;
          a <~ zoom heap set_heap (satisfyOutstanding seq ack) ;;
          actions' <~ concatM actions a ;;
          advanceRequests_loop pending' actions'
      | None =>
          modify (fun t => set_ao (set_correctRequests
                                     (<[key := ack]> (correctRequests (ao t))) (ao t)) t) ;;;
          advanceRequests_loop pending' actions
      end
  end.

(** [allOutstandingReqs.advanceRequests] *)
Definition advanceRequests : M (tracker W) actionSet :=
  t <~ get ;;
  advanceRequests_loop (remaining (availableIterator (ao t))) emptyActions.

(** [newOutstandingReqs]; the client tracker is given by its [availableList]. *)
Definition newOutstandingReqs (fuel : nat) (al : availableList)
           (networkState : NetworkState) : M W allOutstandingReqs :=
  fun w =>
    let a0 := {| buckets := ∅; availableIterator := resetIterator al;
                 correctRequests := ∅; outstandingRequests := ∅ |} in
    let numBuckets := NumberOfBuckets (Config networkState) in
    match forEach (initBucket fuel networkState) (seqZ 0 (to_uint64 numBuckets)) a0 with
    | Ok _ a1 =>
        match advanceRequests {| ao := a1; heap := w |} with
        | Ok _ t => Ok (ao t) (heap t)
        | Panic p t => Panic p (heap t)
        | OutOfFuel t => OutOfFuel (heap t)
        end
    | Panic p _ => Panic p w
    | OutOfFuel _ => OutOfFuel w
    end.

(** The body of [for _, req := range batch] of [applyAcks]; [outstandingReqs] is
    the local set.  [Failure] is the early [return nil, err]. *)
Definition applyAck (fuel : nat) (bucket : Z) (seq : sequence)
           (outstandingReqs : gset string) (req : RequestAck)
  : M allOutstandingReqs (result (gset string)) :=
  a <~ get ;;
  match buckets a !! bucket with
  | None => panic NilDereference
  | Some bo =>
      match clients bo !! ClientId req with
      | None => ret (Failure NoSuchClient)
      | Some co =>
          if decide (nextReqNo co ≠ ReqNo req)
          then ret (Failure (UnexpectedReqNo (ClientId req) bucket (nextReqNo co) (ReqNo req)))
          else
            let key := Digest req in
            outstandingReqs' <~
              match correctRequests a !! key with
              | Some _ =>
                  modify (fun a => set_correctRequests (delete key (correctRequests a)) a) ;;;
                  ret outstandingReqs
              | None =>
                  modify (fun a => set_outstandingRequests
                                     (<[key := seq]> (outstandingRequests a)) a) ;;;
                  ret ({[ key ]} ∪ outstandingReqs)
              end ;;
            fun a =>
              let write co' :=
                set_buckets (<[bucket := {| clients := <[ClientId req := co']> (clients bo) |}]>
                               (buckets a)) a in
              match skipPreviouslyCommitted fuel
                      (set_nextReqNo (add64 (nextReqNo co) (numBuckets co)) co) with
              | Ok _ co' => Ok (Success outstandingReqs') (write co')
              | Panic p co' => Panic p (write co')
              | OutOfFuel co' => OutOfFuel (write co')
              end
      end
  end.

Fixpoint applyAcks_loop (fuel : nat) (bucket : Z) (seq : sequence)
         (outstandingReqs : gset string) (batch : list RequestAck)
  : M allOutstandingReqs (result (gset string)) :=
  match batch with
  | [] => ret (Success outstandingReqs)
  | req :: batch' =>
      r <~ applyAck fuel bucket seq outstandingReqs req ;;
      match r with
      | Success outstandingReqs' => applyAcks_loop fuel bucket seq outstandingReqs' batch'
      | Failure err => ret (Failure err)
      end
  end.

(** [allOutstandingReqs.applyAcks] *)
Definition applyAcks (fuel : nat) (bucket : Z) (seq : sequence) (batch : list RequestAck)
  : M (tracker W) (result actionSet) :=
  t <~ get ;;
  assertTruef (bool_decide (is_Some (buckets (ao t) !! bucket)))
              "told to apply acks for bucket %d which does not exist" ;;;
  r <~ zoom ao set_ao (applyAcks_loop fuel bucket seq ∅ batch) ;;
  match r with
  | Failure err => ret (Failure err)
  | Success outstandingReqs =>
      a <~ zoom heap set_heap (allocate seq batch outstandingReqs) ;;
      ret (Success a)
  end.

End Outstanding.

(** ** Events and results (package mirbftpb) *)

Record InitialParameters := {
  IP_Id : Z;
  BatchSize : Z;
  HeartbeatTicks : Z;
  SuspectTicks : Z;
  NewEpochTimeoutTicks : Z;
  BufferSize : Z
}.

(** The [Type] oneof of [pb.Msg]; [Msg_unset] is any value outside the cases of
    [StateMachine.step]. *)
Inductive MsgType :=
| Msg_RequestAck | Msg_FetchRequest | Msg_ForwardRequest
| Msg_Checkpoint
| Msg_FetchBatch | Msg_ForwardBatch
| Msg_Suspect | Msg_EpochChange | Msg_EpochChangeAck
| Msg_NewEpoch | Msg_NewEpochEcho | Msg_NewEpochReady
| Msg_Preprepare | Msg_Prepare | Msg_Commit
| Msg_unset.

Record Msg := {
  Msg_Type : MsgType;
  Msg_body : bytes
}.

Record CheckpointResult := {
  CR_SeqNo : Z;
  CR_NetworkState : option NetworkState;
  CR_rest : bytes
}.

Record HashResult_Batch := {
  HB_Epoch : Z;
  HB_SeqNo : Z;
  HB_RequestAcks : list RequestAck
}.

(** The [Type] oneof of [pb.HashResult]; [HashResult_unset] is any value outside
    the cases of [processResults]. *)
Inductive HashResultType :=
| HashResult_Batch_ (batch : HashResult_Batch)
| HashResult_EpochChange_ (epochChange : bytes)
| HashResult_VerifyBatch_ (verifyBatch : bytes)
| HashResult_unset.

Record HashResult := {
  HR_Digest : bytes;
  HR_Type : HashResultType
}.

Record ActionResults := {
  Checkpoints : list CheckpointResult;
  Digests : list HashResult
}.

(** The [Type] oneof of [pb.StateEvent]; the payload pointers are taken non-nil. *)
Inductive StateEvent :=
| StateEvent_Initialize (parameters : InitialParameters)
| StateEvent_LoadEntry (idx : Z) (data : Persistent)
| StateEvent_CompleteInitialization
| StateEvent_Tick
| StateEvent_Step (source : Z) (msg : Msg)
| StateEvent_AddResults (results : ActionResults)
| StateEvent_AddClientResults (persistedAcks : bytes)
| StateEvent_Transfer (transfer : CEntry)
| StateEvent_ActionsReceived
| StateEvent_ClientActionsReceived
| StateEvent_unset.

(** ** The components the orchestrator owns

    [nodeBuffers], [checkpointTracker], [clientTracker], [commitState],
    [clientHashDisseminator], [batchTracker] and [epochTracker] are not among the
    sources.  They hold pointers to each other and to the log store, so they are
    one heap [W] next to the log; a method of a component runs on both. *)

Record store (W : Type) := {
  theLog : persisted;
  theComponents : W
}.
Arguments theLog {W}. Arguments theComponents {W}.

Definition set_theLog {W} (p : persisted) (s : store W) : store W :=
  {| theLog := p; theComponents := theComponents s |}.
Definition set_theComponents {W} (w : W) (s : store W) : store W :=
  {| theLog := theLog s; theComponents := w |}.

(** [epochTracker.currentEpoch], as far as the orchestrator reads it. *)
Record activeEpoch := {
  epochConfig : option EpochConfig
}.

Record epochTarget := {
  currentActiveEpoch : option activeEpoch;   (* currentEpoch.activeEpoch, may be nil *)
  targetState : Z                            (* currentEpoch.state *)
}.

Class Components (W : Type) := {
  (* constructors, in the order of StateMachine.initialize *)
  newNodeBuffers : InitialParameters → W;
  newCheckpointTracker : Z → NetworkState → InitialParameters → M (store W) unit;
  newClientTracker : InitialParameters → M (store W) unit;
  newCommitState : M (store W) unit;
  newClientHashDisseminator : InitialParameters → M (store W) unit;
  newBatchTracker : M (store W) unit;
  newEpochTracker : NetworkState_Config → InitialParameters → M (store W) unit;
  (* commitState *)
  commitState_transferring : W → bool;
  commitState_lowWatermark : W → Z;
  commitState_stopAtSeqNo : W → Z;
  commitState_activeState : W → option NetworkState;
  commitState_reinitialize : M (store W) actionSet;
  commitState_applyCheckpointResult : option EpochConfig → CheckpointResult → M (store W) actionSet;
  commitState_drain : M (store W) (list bytes);
  (* clientTracker *)
  clientTracker_reinitialize : option NetworkState → M (store W) unit;
  clientTracker_allocate : Z → option NetworkState → M (store W) unit;
  (* clientHashDisseminator *)
  clientHashDisseminator_tick : M (store W) actionSet;
  clientHashDisseminator_step : Z → Msg → M (store W) actionSet;
  clientHashDisseminator_applyNewRequests : bytes → M (store W) actionSet;
  clientHashDisseminator_reinitialize : Z → option NetworkState → M (store W) actionSet;
  clientHashDisseminator_allocate : Z → option NetworkState → M (store W) actionSet;
  (* checkpointTracker *)
  cpsGarbageCollectable : Z;
  checkpointTracker_state : W → Z;
  checkpointTracker_networkConfig : W → option NetworkState_Config;
  checkpointTracker_step : Z → Msg → M (store W) unit;
  checkpointTracker_reinitialize : M (store W) unit;
  checkpointTracker_garbageCollect : M (store W) Z;
  (* batchTracker *)
  batchTracker_step : Z → Msg → M (store W) actionSet;
  batchTracker_reinitialize : M (store W) unit;
  batchTracker_addBatch : Z → bytes → list RequestAck → M (store W) unit;
  batchTracker_applyVerifyBatchHashResult : bytes → bytes → M (store W) unit;
  batchTracker_hasFetchInFlight : M (store W) bool;
  batchTracker_truncate : Z → M (store W) unit;
  (* epochTracker *)
  etFetching : Z;
  epochTracker_currentEpoch : W → option epochTarget;
  epochTracker_tick : M (store W) actionSet;
  epochTracker_step : Z → Msg → M (store W) actionSet;
  epochTracker_reinitialize : M (store W) actionSet;
  epochTracker_applyBatchHashResult : Z → Z → bytes → M (store W) actionSet;
  epochTracker_applyEpochChangeDigest : bytes → bytes → M (store W) actionSet;
  epochTracker_fetchNewEpochState : M (store W) actionSet;
  epochTracker_moveLowWatermark : Z → M (store W) actionSet;
  epochTracker_advanceState : M (store W) actionSet
}.

(** ** The orchestrator ([StateMachine]) *)

Record StateMachine (W : Type) := {
  state : stateMachineState;
  myConfig : option InitialParameters;
  thePersisted : option persisted;      (* sm.persisted *)
  components : option W                 (* the component pointers, nil until initialize *)
}.
Arguments state {W}. Arguments myConfig {W}.
Arguments thePersisted {W}. Arguments components {W}.

(** [&StateMachine{Logger: ...}] *)
Definition newStateMachine {W} : StateMachine W :=
  {| state := smUninitialized; myConfig := None; thePersisted := None; components := None |}.

Definition set_state {W} (s : stateMachineState) (sm : StateMachine W) : StateMachine W :=
  {| state := s; myConfig := myConfig sm; thePersisted := thePersisted sm;
     components := components sm |}.

Definition set_store {W} (s : store W) (sm : StateMachine W) : StateMachine W :=
  {| state := state sm; myConfig := myConfig sm; thePersisted := Some (theLog s);
     components := Some (theComponents s) |}.

(** Runs a piece of code that goes through [sm.persisted] and the component
    pointers; they are nil before [initialize]. *)
Definition onStore {W A} (m : M (store W) A) : M (StateMachine W) A :=
  fun sm =>
    match thePersisted sm, components sm with
    | Some p, Some w =>
        match m {| theLog := p; theComponents := w |} with
        | Ok a s => Ok a (set_store s sm)
        | Panic k s => Panic k (set_store s sm)
        | OutOfFuel s => OutOfFuel (set_store s sm)
        end
    | _, _ => Panic NilDereference sm
    end.

(** A field read [sm.component.field]. *)
Definition readW {W A} (f : W → A) : M (store W) A :=
  fun s => Ok (f (theComponents s)) s.

(** A call whose action set is concatenated to [actions]. *)
Definition concatCall {S} (actions : actionSet) (m : M S actionSet) : M S actionSet :=
  o <~ m ;; concatM actions o.

Section Orchestrator.
Context {W : Type} {comps : Components W}.

(** [StateMachine.initialize] *)
Definition initialize (parameters : InitialParameters) : M (StateMachine W) unit :=
  sm <~ get ;;
  assertEqualf (iface_state (state sm)) (iface_state smUninitialized)
               "state machine has already been initialized" ;;;
  let dummyInitialState :=
    {| Config := {| Nodes := [IP_Id parameters]; MaxEpochLength := 1;
                    CheckpointInterval := 1; NumberOfBuckets := 1 |};
       Clients := [] |} in
  put {| state := smLoadingPersisted; myConfig := Some parameters;
         thePersisted := Some newPersisted;
         components := Some (newNodeBuffers parameters) |} ;;;
  onStore (newCheckpointTracker 0 dummyInitialState parameters ;;;
           newClientTracker parameters ;;;
           newCommitState ;;;
           newClientHashDisseminator parameters ;;;
           newBatchTracker ;;;
           newEpochTracker (Config dummyInitialState) parameters).

(** [StateMachine.applyPersisted] *)
Definition applyPersisted (idx : Z) (data : Persistent) : M (StateMachine W) unit :=
  sm <~ get ;;
  assertEqualf (iface_state (state sm)) (iface_state smLoadingPersisted)
               "state machine has already finished loading persisted data" ;;;
  onStore (zoom theLog set_theLog (appendInitialLoad idx data)).

(** [StateMachine.recoverLog], on the log store of the state machine. *)
Definition sm_recoverLog : M (store W) actionSet :=
  zoom theLog set_theLog recoverLog.

(** [StateMachine.reinitialize] *)
Definition reinitialize : M (StateMachine W) actionSet :=
  onStore (
    actions <~ sm_recoverLog ;;
    actions <~ concatCall actions commitState_reinitialize ;;
    activeState <~ readW commitState_activeState ;;
    clientTracker_reinitialize activeState ;;;
    lowWatermark <~ readW commitState_lowWatermark ;;
    activeState <~ readW commitState_activeState ;;
    actions <~ concatCall actions
                 (clientHashDisseminator_reinitialize lowWatermark activeState) ;;
    checkpointTracker_reinitialize ;;;
    batchTracker_reinitialize ;;;
    concatCall actions epochTracker_reinitialize).

(** [StateMachine.completeInitialization] *)
Definition completeInitialization : M (StateMachine W) actionSet :=
  sm <~ get ;;
  assertEqualf (iface_state (state sm)) (iface_state smLoadingPersisted)
               "state machine has already finished loading persisted data" ;;;
  modify (set_state smInitialized) ;;;
  reinitialize.

(** [StateMachine.step] *)
Definition step (source : Z) (msg : Msg) : M (store W) actionSet :=
  let actions := emptyActions in
  match Msg_Type msg with
  | Msg_RequestAck | Msg_FetchRequest | Msg_ForwardRequest =>
      concatCall actions (clientHashDisseminator_step source msg)
  | Msg_Checkpoint =>
      checkpointTracker_step source msg ;;;
      ret emptyActions
  | Msg_FetchBatch | Msg_ForwardBatch =>
      batchTracker_step source msg
  | Msg_Suspect | Msg_EpochChange | Msg_EpochChangeAck
  | Msg_NewEpoch | Msg_NewEpochEcho | Msg_NewEpochReady
  | Msg_Preprepare | Msg_Prepare | Msg_Commit =>
      epochTracker_step source msg
  | Msg_unset => panic (ExplicitPanic "unexpected bad message type")
  end.

(** The rest of the body of [for _, checkpointResult := range results.Checkpoints]
    once the result passed the two guards: [applyCheckpointResult], then the two
    [allocate] calls when [stopAtSeqNo] went up. *)
Definition applyAcceptedCheckpoint (actions : actionSet) (currentEpoch : epochTarget)
           (checkpointResult : CheckpointResult) : M (store W) actionSet :=
  let epochConfig :=
    match currentActiveEpoch currentEpoch with
    | Some ae => epochConfig ae
    | None => None
    end in
  prevStopAtSeqNo <~ readW commitState_stopAtSeqNo ;;
  actions <~ concatCall actions
               (commitState_applyCheckpointResult epochConfig checkpointResult) ;;
  stopAtSeqNo <~ readW commitState_stopAtSeqNo ;;
  if prevStopAtSeqNo <? stopAtSeqNo
  then
    clientTracker_allocate (CR_SeqNo checkpointResult)
                           (CR_NetworkState checkpointResult) ;;;
    concatCall actions
      (clientHashDisseminator_allocate (CR_SeqNo checkpointResult)
                                       (CR_NetworkState checkpointResult))
  else ret actions.

(** The body of [for _, checkpointResult := range results.Checkpoints] of
    [processResults]; [actions] is the action set built so far. *)
Definition processCheckpointResult (actions : actionSet) (checkpointResult : CheckpointResult)
  : M (store W) actionSet :=
  lowWatermark <~ readW commitState_lowWatermark ;;
  if CR_SeqNo checkpointResult <? lowWatermark
  then ret actions                                   (* continue *)
  else
    activeState <~ readW commitState_activeState ;;
    match activeState with
    | None => panic NilDereference
    | Some activeState =>
        let expectedSeqNo :=
          add64 lowWatermark (to_uint64 (CheckpointInterval (Config activeState))) in
        assertEqual (iface_uint64 expectedSeqNo) (iface_uint64 (CR_SeqNo checkpointResult))
          "new checkpoint results muts be exactly one checkpoint interval after the last" ;;;
        currentEpoch <~ readW epochTracker_currentEpoch ;;
        match currentEpoch with
        | None => panic NilDereference
        | Some currentEpoch => applyAcceptedCheckpoint actions currentEpoch checkpointResult
        end
    end.

(** The body of [for _, hashResult := range results.Digests]. *)
Definition processHashResult (actions : actionSet) (hashResult : HashResult)
  : M (store W) actionSet :=
  match HR_Type hashResult with
  | HashResult_Batch_ batch =>
      batchTracker_addBatch (HB_SeqNo batch) (HR_Digest hashResult) (HB_RequestAcks batch) ;;;
      concatCall actions
        (epochTracker_applyBatchHashResult (HB_Epoch batch) (HB_SeqNo batch)
                                           (HR_Digest hashResult))
  | HashResult_EpochChange_ epochChange =>
      concatCall actions
        (epochTracker_applyEpochChangeDigest epochChange (HR_Digest hashResult))
  | HashResult_VerifyBatch_ verifyBatch =>
      batchTracker_applyVerifyBatchHashResult (HR_Digest hashResult) verifyBatch ;;;
      inFlight <~ batchTracker_hasFetchInFlight ;;
      if negb inFlight
      then
        currentEpoch <~ readW epochTracker_currentEpoch ;;
        match currentEpoch with
        | None => panic NilDereference
        | Some currentEpoch =>
            if decide (targetState currentEpoch = etFetching)
            then concatCall actions epochTracker_fetchNewEpochState
            else ret actions
        end
      else ret actions
  | HashResult_unset => panic (ExplicitPanic "no hash result type set")
  end.

(** A [for range] loop that threads the action set built so far. *)
Fixpoint foldActions {A} (body : actionSet → A → M (store W) actionSet)
         (actions : actionSet) (xs : list A) : M (store W) actionSet :=
  match xs with
  | [] => ret actions
  | x :: xs' => actions' <~ body actions x ;; foldActions body actions' xs'
  end.

(** [StateMachine.processResults] *)
Definition processResults (results : ActionResults) : M (store W) actionSet :=
  actions <~ foldActions processCheckpointResult emptyActions (Checkpoints results) ;;
  foldActions processHashResult actions (Digests results).

(** The closure [assertInitialized] of [applyEvent]. *)
Definition assertInitialized : M (StateMachine W) unit :=
  sm <~ get ;;
  assertEqualf (iface_state (state sm)) (iface_state smInitialized)
               "cannot apply events to an uninitialized state machine".

(** The guarded block of [applyEvent] that follows the [switch]: one watermark
    movement.  The action set that [sm.persisted.truncate] returns is dropped. *)
Definition garbageCollectInEvent (actions : actionSet) : M (store W) actionSet :=
  cpState <~ readW checkpointTracker_state ;;
  if decide (cpState = cpsGarbageCollectable)
  then
    newLow <~ checkpointTracker_garbageCollect ;;
    zoom theLog set_theLog (truncate newLow) ;;;
    networkConfig <~ readW checkpointTracker_networkConfig ;;
    match networkConfig with
    | None => panic NilDereference
    | Some networkConfig =>
        let interval := to_uint64 (CheckpointInterval networkConfig) in
        (if interval <? newLow
         then batchTracker_truncate (sub64 newLow interval)
         else ret tt) ;;;
        concatCall actions (epochTracker_moveLowWatermark newLow)
    end
  else ret actions.

(** The closing [for] loop of [applyEvent]; [fuel] bounds its iterations. *)
Fixpoint drainAndAdvance (fuel : nat) (actions : actionSet) : M (store W) actionSet :=
  match fuel with
  | O => fun s => OutOfFuel s
  | S fuel' =>
      actions <~ concatCall actions (cs <~ commitState_drain ;; ret (withCommits cs)) ;;
      loopActions <~ epochTracker_advanceState ;;
      if isEmpty loopActions
      then ret actions
      else
        actions <~ concatM actions loopActions ;;
        drainAndAdvance fuel' actions
  end.

(** The [switch] of [applyEvent] for the events that fall through to the code
    after it. *)
Definition dispatch (stateEvent : StateEvent) : M (StateMachine W) actionSet :=
  let actions := emptyActions in
  match stateEvent with
  | StateEvent_Tick =>
      assertInitialized ;;;
      onStore (actions <~ concatCall actions clientHashDisseminator_tick ;;
               concatCall actions epochTracker_tick)
  | StateEvent_Step source msg =>
      assertInitialized ;;;
      onStore (concatCall actions (step source msg))
  | StateEvent_AddResults results =>
      assertInitialized ;;;
      onStore (concatCall actions (processResults results))
  | StateEvent_AddClientResults persistedAcks =>
      assertInitialized ;;;
      onStore (concatCall actions (clientHashDisseminator_applyNewRequests persistedAcks))
  | StateEvent_Transfer transfer =>
      onStore (transferring <~ readW commitState_transferring ;;
               assertEqualf (iface_bool transferring) (iface_bool true)
                 "state transfer event received but the state machine did not request transfer") ;;;
      actions <~ onStore (concatCall actions (zoom theLog set_theLog (addCEntry transfer))) ;;
      concatCall actions reinitialize
  | _ => ret actions
  end.

(** [StateMachine.applyEvent] *)
Definition applyEvent (fuel : nat) (stateEvent : StateEvent) : M (StateMachine W) actionSet :=
  match stateEvent with
  | StateEvent_Initialize parameters =>
      initialize parameters ;;;
      ret emptyActions
  | StateEvent_LoadEntry idx data =>
      applyPersisted idx data ;;;
      ret emptyActions
  | StateEvent_CompleteInitialization =>
      completeInitialization
  | StateEvent_ActionsReceived =>
      ret emptyActions
  | StateEvent_ClientActionsReceived =>
      ret emptyActions
  | StateEvent_unset =>
      panic (ExplicitPanic "unknown state event type")
  | _ =>
      actions <~ dispatch stateEvent ;;
      onStore (actions <~ garbageCollectInEvent actions ;;
               drainAndAdvance fuel actions)
  end.

(** [StateMachine.ApplyEvent]: the [StateEventResult] of the action set. *)
Definition ApplyEvent (fuel : nat) (stateEvent : StateEvent) : M (StateMachine W) actionSet :=
  applyEvent fuel stateEvent.

(** A state machine fed a stream of events, one [ApplyEvent] per event: the
    outcomes in order.  A panic or an exhausted bound ends the run. *)
Fixpoint run (fuel : nat) (events : list StateEvent) (sm : StateMachine W)
  : list (Outcome (StateMachine W) actionSet) :=
  match events with
  | [] => []
  | ev :: events' =>
      let o := ApplyEvent fuel ev sm in
      match o with
      | Ok _ sm' => o :: run fuel events' sm'
      | _ => [o]
      end
  end.

End Orchestrator.

(** ** Observing the calls made on the components

    The methods of the components are parameters of the orchestrator.  To count how
    often the orchestrator calls one, the components are wrapped: the wrapped heap
    carries counters next to the heap of the components, and the wrapped method
    bumps its counter before it runs the method. *)

Record callCounts := {
  n_garbageCollect : nat;        (* checkpointTracker.garbageCollect *)
  n_batchTruncate : nat;         (* batchTracker.truncate *)
  n_moveLowWatermark : nat       (* epochTracker.moveLowWatermark *)
}.

Definition noCalls : callCounts :=
  {| n_garbageCollect := 0; n_batchTruncate := 0; n_moveLowWatermark := 0 |}.

Definition bump_garbageCollect (c : callCounts) : callCounts :=
  {| n_garbageCollect := S (n_garbageCollect c); n_batchTruncate := n_batchTruncate c;
     n_moveLowWatermark := n_moveLowWatermark c |}.
Definition bump_batchTruncate (c : callCounts) : callCounts :=
  {| n_garbageCollect := n_garbageCollect c; n_batchTruncate := S (n_batchTruncate c);
     n_moveLowWatermark := n_moveLowWatermark c |}.
Definition bump_moveLowWatermark (c : callCounts) : callCounts :=
  {| n_garbageCollect := n_garbageCollect c; n_batchTruncate := n_batchTruncate c;
     n_moveLowWatermark := S (n_moveLowWatermark c) |}.

(** The store of the components alone, under a store with a ghost part [G]. *)
Definition forget {W G} (s : store (W * G)) : store W :=
  {| theLog := theLog s; theComponents := fst (theComponents s) |}.

Definition remember {W G} (g : G) (s : store W) : store (W * G) :=
  {| theLog := theLog s; theComponents := (theComponents s, g) |}.

(** A method of the components run under the ghost part, which it cannot touch. *)
Definition under {W G A} (m : M (store W) A) : M (store (W * G)) A :=
  fun s =>
    let g := snd (theComponents s) in
    match m (forget s) with
    | Ok a s' => Ok a (remember g s')
    | Panic p s' => Panic p (remember g s')
    | OutOfFuel s' => OutOfFuel (remember g s')
    end.

Definition ghost {W G} (f : G → G) : M (store (W * G)) unit :=
  fun s => Ok tt {| theLog := theLog s;
                    theComponents := (fst (theComponents s), f (snd (theComponents s))) |}.

Definition counting {W} (c : Components W) : Components (W * callCounts) :=
  {| newNodeBuffers p := (newNodeBuffers p, noCalls);
     newCheckpointTracker lw ns p := under (newCheckpointTracker lw ns p);
     newClientTracker p := under (newClientTracker p);
     newCommitState := under newCommitState;
     newClientHashDisseminator p := under (newClientHashDisseminator p);
     newBatchTracker := under newBatchTracker;
     newEpochTracker cfg p := under (newEpochTracker cfg p);
     commitState_transferring w := commitState_transferring (fst w);
     commitState_lowWatermark w := commitState_lowWatermark (fst w);
     commitState_stopAtSeqNo w := commitState_stopAtSeqNo (fst w);
     commitState_activeState w := commitState_activeState (fst w);
     commitState_reinitialize := under commitState_reinitialize;
     commitState_applyCheckpointResult ec cr := under (commitState_applyCheckpointResult ec cr);
     commitState_drain := under commitState_drain;
     clientTracker_reinitialize ns := under (clientTracker_reinitialize ns);
     clientTracker_allocate n ns := under (clientTracker_allocate n ns);
     clientHashDisseminator_tick := under clientHashDisseminator_tick;
     clientHashDisseminator_step src m := under (clientHashDisseminator_step src m);
     clientHashDisseminator_applyNewRequests b := under (clientHashDisseminator_applyNewRequests b);
     clientHashDisseminator_reinitialize lw ns := under (clientHashDisseminator_reinitialize lw ns);
     clientHashDisseminator_allocate n ns := under (clientHashDisseminator_allocate n ns);
     cpsGarbageCollectable := cpsGarbageCollectable;
     checkpointTracker_state w := checkpointTracker_state (fst w);
     checkpointTracker_networkConfig w := checkpointTracker_networkConfig (fst w);
     checkpointTracker_step src m := under (checkpointTracker_step src m);
     checkpointTracker_reinitialize := under checkpointTracker_reinitialize;
     checkpointTracker_garbageCollect :=
       ghost bump_garbageCollect ;;; under checkpointTracker_garbageCollect;
     batchTracker_step src m := under (batchTracker_step src m);
     batchTracker_reinitialize := under batchTracker_reinitialize;
     batchTracker_addBatch n d acks := under (batchTracker_addBatch n d acks);
     batchTracker_applyVerifyBatchHashResult d vb :=
       under (batchTracker_applyVerifyBatchHashResult d vb);
     batchTracker_hasFetchInFlight := under batchTracker_hasFetchInFlight;
     batchTracker_truncate n := ghost bump_batchTruncate ;;; under (batchTracker_truncate n);
     etFetching := etFetching;
     epochTracker_currentEpoch w := epochTracker_currentEpoch (fst w);
     epochTracker_tick := under epochTracker_tick;
     epochTracker_step src m := under (epochTracker_step src m);
     epochTracker_reinitialize := under epochTracker_reinitialize;
     epochTracker_applyBatchHashResult e n d := under (epochTracker_applyBatchHashResult e n d);
     epochTracker_applyEpochChangeDigest ec d := under (epochTracker_applyEpochChangeDigest ec d);
     epochTracker_fetchNewEpochState := under epochTracker_fetchNewEpochState;
     epochTracker_moveLowWatermark n :=
       ghost bump_moveLowWatermark ;;; under (epochTracker_moveLowWatermark n);
     epochTracker_advanceState := under epochTracker_advanceState |}.

(** The counters of a state machine over counting components: none before the
    components exist. *)
Definition callsOf {W} (sm : StateMachine (W * callCounts)) : callCounts :=
  match components sm with
  | Some w => snd w
  | None => noCalls
  end.

(** The calls of [sequence.satisfyOutstanding], recorded in order: the wrapped
    heap carries the list of the calls made so far. *)
Abbreviation callLog := (list (sequence * RequestAck)).

Definition recording {W} (s : SequenceOps W) : SequenceOps (W * callLog) :=
  {| satisfyOutstanding seq ack :=
       fun w =>
         let l := snd w ++ [(seq, ack)] in
         match satisfyOutstanding seq ack (fst w) with
         | Ok a w' => Ok a (w', l)
         | Panic p w' => Panic p (w', l)
         | OutOfFuel w' => OutOfFuel (w', l)
         end;
     allocate seq batch os :=
       fun w =>
         match allocate seq batch os (fst w) with
         | Ok a w' => Ok a (w', snd w)
         | Panic p w' => Panic p (w', snd w)
         | OutOfFuel w' => OutOfFuel (w', snd w)
         end |}.

(** ** A small instance of the absent parts

    The smallest components that honour the orchestrator's protocol: a commit
    state with a watermark window, a checkpoint tracker that becomes collectable
    when a checkpoint result is applied, commits that are drained once.  The
    closed examples below run the orchestrator on it. *)

Module Toy.

Record world := {
  low : Z;                          (* commitState.lowWatermark *)
  stop : Z;                         (* commitState.stopAtSeqNo *)
  active : option NetworkState;     (* commitState.activeState *)
  transferring : bool;              (* commitState.transferring *)
  cpState : Z;                      (* checkpointTracker.state *)
  pending : list bytes;             (* commits not yet drained *)
  ticks : Z                         (* epochTracker's tick counter *)
}.

Definition fresh : world :=
  {| low := 0; stop := 0; active := None; transferring := false; cpState := 0;
     pending := []; ticks := 0 |}.

Definition collectable : Z := 1.

(** The last checkpoint of a log, as [commitState.reinitialize] looks for it. *)
Fixpoint lastCheckpoint (l : list logEntry) (found : option CEntry) : option CEntry :=
  match l with
  | [] => found
  | e :: rest =>
      match entry e with
      | Persistent_CEntry c => lastCheckpoint rest (Some c)
      | _ => lastCheckpoint rest found
      end
  end.

Definition reinitializeCommitState : M (store world) actionSet :=
  fun s =>
    match lastCheckpoint (log (theLog s)) None with
    | None => Panic NilDereference s
    | Some c =>
        let w := theComponents s in
        let interval :=
          match CEntry_NetworkState c with
          | Some ns => to_uint64 (CheckpointInterval (Config ns))
          | None => 0
          end in
        Ok emptyActions
           (set_theComponents
              {| low := CEntry_SeqNo c; stop := add64 (CEntry_SeqNo c) interval;
                 active := CEntry_NetworkState c; transferring := false;
                 cpState := cpState w; pending := pending w; ticks := ticks w |} s)
    end.

Definition applyCheckpoint (cr : CheckpointResult) : M (store world) actionSet :=
  fun s =>
    let w := theComponents s in
    let interval :=
      match active w with
      | Some ns => to_uint64 (CheckpointInterval (Config ns))
      | None => 0
      end in
    Ok emptyActions
       (set_theComponents
          {| low := CR_SeqNo cr; stop := add64 (CR_SeqNo cr) interval;
             active := active w; transferring := transferring w;
             cpState := collectable; pending := pending w ++ [CR_rest cr];
             ticks := ticks w |} s).

Definition collect : M (store world) Z :=
  fun s =>
    let w := theComponents s in
    Ok (low w)
       (set_theComponents
          {| low := low w; stop := stop w; active := active w;
             transferring := transferring w; cpState := 0; pending := pending w;
             ticks := ticks w |} s).

Definition drain : M (store world) (list bytes) :=
  fun s =>
    let w := theComponents s in
    Ok (pending w)
       (set_theComponents
          {| low := low w; stop := stop w; active := active w;
             transferring := transferring w; cpState := cpState w; pending := [];
             ticks := ticks w |} s).

Definition tick : M (store world) actionSet :=
  fun s =>
    let w := theComponents s in
    Ok emptyActions
       (set_theComponents
          {| low := low w; stop := stop w; active := active w;
             transferring := transferring w; cpState := cpState w; pending := pending w;
             ticks := add64 (ticks w) 1 |} s).

Definition quiet {A} (a : A) : M (store world) A := ret a.

Definition comps : Components world :=
  {| newNodeBuffers _ := fresh;
     newCheckpointTracker _ _ _ := quiet tt;
     newClientTracker _ := quiet tt;
     newCommitState := quiet tt;
     newClientHashDisseminator _ := quiet tt;
     newBatchTracker := quiet tt;
     newEpochTracker _ _ := quiet tt;
     commitState_transferring := transferring;
     commitState_lowWatermark := low;
     commitState_stopAtSeqNo := stop;
     commitState_activeState := active;
     commitState_reinitialize := reinitializeCommitState;
     commitState_applyCheckpointResult _ cr := applyCheckpoint cr;
     commitState_drain := drain;
     clientTracker_reinitialize _ := quiet tt;
     clientTracker_allocate _ _ := quiet tt;
     clientHashDisseminator_tick := quiet emptyActions;
     clientHashDisseminator_step _ _ := quiet emptyActions;
     clientHashDisseminator_applyNewRequests _ := quiet emptyActions;
     clientHashDisseminator_reinitialize _ _ := quiet emptyActions;
     clientHashDisseminator_allocate _ _ := quiet emptyActions;
     cpsGarbageCollectable := collectable;
     checkpointTracker_state := cpState;
     checkpointTracker_networkConfig w := Config <$> active w;
     checkpointTracker_step _ _ := quiet tt;
     checkpointTracker_reinitialize := quiet tt;
     checkpointTracker_garbageCollect := collect;
     batchTracker_step _ _ := quiet emptyActions;
     batchTracker_reinitialize := quiet tt;
     batchTracker_addBatch _ _ _ := quiet tt;
     batchTracker_applyVerifyBatchHashResult _ _ := quiet tt;
     batchTracker_hasFetchInFlight := quiet false;
     batchTracker_truncate _ := quiet tt;
     etFetching := 2;
     epochTracker_currentEpoch _ := Some {| currentActiveEpoch := None; targetState := 0 |};
     epochTracker_tick := tick;
     epochTracker_step _ _ := quiet emptyActions;
     epochTracker_reinitialize := quiet emptyActions;
     epochTracker_applyBatchHashResult _ _ _ := quiet emptyActions;
     epochTracker_applyEpochChangeDigest _ _ := quiet emptyActions;
     epochTracker_fetchNewEpochState := quiet emptyActions;
     epochTracker_moveLowWatermark _ := quiet emptyActions;
     epochTracker_advanceState := quiet emptyActions |}.

(** Request numbers below the client's low watermark are committed, and so is
    the one request the client's window names. *)
Definition committed (reqNo : Z) (c : NetworkState_Client) : bool :=
  (reqNo <? LowWatermark c) || bool_decide (ClientWindow c = "first" ∧ reqNo = LowWatermark c).

(** Requests go round the buckets. *)
Definition bucketOf (clientId reqNo : Z) (cfg : NetworkState_Config) : Z :=
  (add64 clientId reqNo) mod (to_uint64 (NumberOfBuckets cfg)).

Definition cops : ClientOps :=
  {| isCommitted := committed; clientReqToBucket := bucketOf |}.

(** Sequences as the sets of digests they still wait for. *)
Definition sequences := gmap Z (gset string).

Definition satisfy (seq : sequence) (ack : RequestAck) : M sequences actionSet :=
  fun h =>
    match h !! seq with
    | Some waiting =>
        if decide (Digest ack ∈ waiting)
        then Ok emptyActions (<[seq := waiting ∖ {[Digest ack]}]> h)
        else Panic (AssertionFailed "told request %x was ready but we weren't waiting for it") h
    | None => Panic NilDereference h
    end.

Definition alloc (seq : sequence) (batch : list RequestAck) (os : gset string)
  : M sequences actionSet :=
  fun h =>
    Ok {| Send := []; Commits := []; Hash := Digest <$> batch; WriteAhead := [];
          StateTransfer := None; AllocatedRequests := []; StoreRequests := [];
          ForwardRequests := [] |}
       (<[seq := os]> h).

Definition sops : SequenceOps sequences :=
  {| satisfyOutstanding := satisfy; allocate := alloc |}.

Definition networkState : NetworkState :=
  {| Config := {| Nodes := [0; 1; 2; 3]; MaxEpochLength := 200;
                  CheckpointInterval := 5; NumberOfBuckets := 2 |};
     Clients := [ {| Id := 7; LowWatermark := 4; ClientWindow := "first" |};
                  {| Id := 8; LowWatermark := 0; ClientWindow := "" |} ] |}.

Definition parameters : InitialParameters :=
  {| IP_Id := 1; BatchSize := 1; HeartbeatTicks := 1; SuspectTicks := 2;
     NewEpochTimeoutTicks := 4; BufferSize := 4194304 |}.

Definition checkpoint0 : CEntry :=
  {| CEntry_SeqNo := 0; CheckpointValue := "fake-initial-value";
     CEntry_NetworkState := Some networkState |}.

Definition epoch0 : FEntry :=
  {| EndsEpochConfig := {| Number := 0; Leaders := [0; 1; 2; 3] |} |}.

(** The start-up of the initialization test of the state machine. *)
Definition startup : list StateEvent :=
  [ StateEvent_Initialize parameters;
    StateEvent_LoadEntry 0 (Persistent_CEntry checkpoint0);
    StateEvent_LoadEntry 1 (Persistent_FEntry epoch0);
    StateEvent_CompleteInitialization ].

Definition checkpointAt (seqNo : Z) : CheckpointResult :=
  {| CR_SeqNo := seqNo; CR_NetworkState := Some networkState; CR_rest := "app-state" |}.

(** Start-up, then the application reports the checkpoint at sequence number 5. *)
Definition running : list StateEvent :=
  startup ++ [ StateEvent_AddResults {| Checkpoints := [checkpointAt 5]; Digests := [] |} ].

(** The state machine after a stream of events, when none of them panicked. *)
Definition after (events : list StateEvent) : option (StateMachine world) :=
  match List.last (run (comps := comps) 3 events newStateMachine)
                  (Ok emptyActions newStateMachine) with
  | Ok _ sm => Some sm
  | _ => None
  end.

(** The log and the components of a state machine that has them. *)
Definition storeOf (sm : StateMachine world) : option (store world) :=
  match thePersisted sm, components sm with
  | Some p, Some w => Some {| theLog := p; theComponents := w |}
  | _, _ => None
  end.

(** One acknowledgement is available before the tracker is built. *)
Definition available : availableList :=
  {| items := [ {| ClientId := 8; ReqNo := 0; Digest := "a" |} ]; position := 1 |}.

(** The outstanding requests of [networkState], with no sequence allocated. *)
Definition tracker0 : tracker sequences :=
  Eval vm_compute in
    match newOutstandingReqs (cops := cops) (sops := sops) 3 available networkState ∅ with
    | Ok a h => {| ao := a; heap := h |}
    | Panic _ h | OutOfFuel h =>
        {| ao := {| buckets := ∅; availableIterator := available;
                    correctRequests := ∅; outstandingRequests := ∅ |};
           heap := h |}
    end.

(** Two acknowledgements that bucket 0 expects. *)
Definition goodBatch : list RequestAck :=
  [ {| ClientId := 8; ReqNo := 0; Digest := "a" |};
    {| ClientId := 7; ReqNo := 5; Digest := "b" |} ].

(** Client 7 is at request 7 in bucket 0 by then, not at 9. *)
Definition gapAck : RequestAck := {| ClientId := 7; ReqNo := 9; Digest := "c" |}.

(** The outstanding requests once [goodBatch] was applied for sequence 11. *)
Definition aoAfterGoodBatch : allOutstandingReqs :=
  Eval vm_compute in
    out_state (applyAcks_loop (cops := cops) 3 0 11 ∅ goodBatch (ao tracker0)).

(** The log and the components once [running] was applied. *)
Definition runningStore : store world :=
  Eval vm_compute in
    default {| theLog := newPersisted; theComponents := fresh |} (after running ≫= storeOf).

End Toy.

(** * Further parts of the sources *)

(** ** The write-ahead log store: the typed appends *)

(** [persisted.addPEntry] *)
Definition addPEntry (pEntry : PEntry) : M persisted actionSet :=
  appendLogEntry (Persistent_PEntry pEntry).

(** [persisted.addQEntry] *)
Definition addQEntry (qEntry : QEntry) : M persisted actionSet :=
  appendLogEntry (Persistent_QEntry qEntry).

(** [persisted.addNEntry] *)
Definition addNEntry (nEntry : NEntry) : M persisted actionSet :=
  appendLogEntry (Persistent_NEntry nEntry).

(** [persisted.addSuspect] *)
Definition addSuspect (suspect : bytes) : M persisted actionSet :=
  appendLogEntry (Persistent_Suspect suspect).

(** [persisted.addECEntry] *)
Definition addECEntry (ecEntry : bytes) : M persisted actionSet :=
  appendLogEntry (Persistent_ECEntry ecEntry).

(** [persisted.addTEntry] *)
Definition addTEntry (tEntry : bytes) : M persisted actionSet :=
  appendLogEntry (Persistent_TEntry tEntry).

(** [persisted.iterate]: the walk starts at [logHead]. *)
Definition iterate {S} (li : logIterator S) (p : persisted) : M S unit :=
  iterate_from li (log p).

(** ** The epoch change built from the log ([persisted.constructEpochChange]) *)

Record Checkpoint := {
  Checkpoint_SeqNo : Z;
  Checkpoint_Value : bytes
}.

Record EpochChange_SetEntry := {
  SetEntry_Epoch : Z;
  SetEntry_SeqNo : Z;
  SetEntry_Digest : bytes
}.

Record EpochChange := {
  NewEpoch : Z;
  EC_Checkpoints : list Checkpoint;
  PSet : list EpochChange_SetEntry;
  QSet : list EpochChange_SetEntry
}.

(** Go's [int] on the 64-bit targets: two's complement wrap-around. *)
Definition wrap_int (z : Z) : Z := (z + 2 ^ 63) mod 2 ^ 64 - 2 ^ 63.

(** What the closures of [constructEpochChange] capture: the map [pSkips], the
    pointer [logEpoch] (nil is [None]; it points into a log entry, and the log
    entries are not written while it is held) and the message under
    construction. *)
Record epochChangeState := {
  pSkips : gmap Z Z;
  logEpoch : option Z;
  newEpochChange : EpochChange
}.

Definition set_pSkips (m : gmap Z Z) (st : epochChangeState) : epochChangeState :=
  {| pSkips := m; logEpoch := logEpoch st; newEpochChange := newEpochChange st |}.
Definition set_logEpoch (e : option Z) (st : epochChangeState) : epochChangeState :=
  {| pSkips := pSkips st; logEpoch := e; newEpochChange := newEpochChange st |}.
Definition set_newEpochChange (ec : EpochChange) (st : epochChangeState) : epochChangeState :=
  {| pSkips := pSkips st; logEpoch := logEpoch st; newEpochChange := ec |}.

Definition append_Checkpoint (c : Checkpoint) (ec : EpochChange) : EpochChange :=
  {| NewEpoch := NewEpoch ec; EC_Checkpoints := EC_Checkpoints ec ++ [c];
     PSet := PSet ec; QSet := QSet ec |}.
Definition append_PSet (e : EpochChange_SetEntry) (ec : EpochChange) : EpochChange :=
  {| NewEpoch := NewEpoch ec; EC_Checkpoints := EC_Checkpoints ec;
     PSet := PSet ec ++ [e]; QSet := QSet ec |}.
Definition append_QSet (e : EpochChange_SetEntry) (ec : EpochChange) : EpochChange :=
  {| NewEpoch := NewEpoch ec; EC_Checkpoints := EC_Checkpoints ec;
     PSet := PSet ec; QSet := QSet ec ++ [e] |}.

(** [shouldExit] of both walks: [logEpoch != nil && *logEpoch >= newEpoch] *)
Definition epochChange_shouldExit (newEpoch : Z) : M epochChangeState bool :=
  st <~ get ;;
  ret (match logEpoch st with
       | Some e => bool_decide (newEpoch ≤ e)
       | None => false
       end).

(** [onNEntry] and [onFEntry] of both walks *)
Definition epochChange_onNEntry (nEntry : NEntry) : M epochChangeState unit :=
  modify (set_logEpoch (Some (Number (NEntry_EpochConfig nEntry)))).

Definition epochChange_onFEntry (fEntry : FEntry) : M epochChangeState unit :=
  modify (set_logEpoch (Some (Number (EndsEpochConfig fEntry)))).

(** [onPEntry] of the first walk: a missing key reads as [0]. *)
Definition countSkips_onPEntry (pEntry : PEntry) : M epochChangeState unit :=
  st <~ get ;;
  let count := default 0 (pSkips st !! PEntry_SeqNo pEntry) in
  modify (set_pSkips (<[PEntry_SeqNo pEntry := wrap_int (count + 1)]> (pSkips st))).

Definition countSkips_iterator (newEpoch : Z) : logIterator epochChangeState :=
  {| onQEntry := None;
     onPEntry := Some countSkips_onPEntry;
     onCEntry := None;
     onNEntry := Some epochChange_onNEntry;
     onFEntry := Some epochChange_onFEntry;
     onECEntry := None; onTEntry := None; onSuspect := None;
     shouldExit := Some (epochChange_shouldExit newEpoch) |}.

(** [onPEntry] of the second walk; [*logEpoch] is read only when the entry is
    put into the set. *)
Definition collect_onPEntry (pEntry : PEntry) : M epochChangeState unit :=
  st <~ get ;;
  let count := default 0 (pSkips st !! PEntry_SeqNo pEntry) in
  if decide (count ≠ 1)
  then modify (set_pSkips (<[PEntry_SeqNo pEntry := wrap_int (count - 1)]> (pSkips st)))
  else
    match logEpoch st with
    | None => panic NilDereference
    | Some epoch =>
        modify (fun st => set_newEpochChange
                            (append_PSet {| SetEntry_Epoch := epoch;
                                            SetEntry_SeqNo := PEntry_SeqNo pEntry;
                                            SetEntry_Digest := PEntry_Digest pEntry |}
                                         (newEpochChange st)) st)
    end.

Definition collect_onQEntry (qEntry : QEntry) : M epochChangeState unit :=
  st <~ get ;;
  match logEpoch st with
  | None => panic NilDereference
  | Some epoch =>
      modify (fun st => set_newEpochChange
                          (append_QSet {| SetEntry_Epoch := epoch;
                                          SetEntry_SeqNo := QEntry_SeqNo qEntry;
                                          SetEntry_Digest := QEntry_Digest qEntry |}
                                       (newEpochChange st)) st)
  end.

Definition collect_onCEntry (cEntry : CEntry) : M epochChangeState unit :=
  modify (fun st => set_newEpochChange
                      (append_Checkpoint {| Checkpoint_SeqNo := CEntry_SeqNo cEntry;
                                            Checkpoint_Value := CheckpointValue cEntry |}
                                         (newEpochChange st)) st).

Definition collect_iterator (newEpoch : Z) : logIterator epochChangeState :=
  {| onQEntry := Some collect_onQEntry;
     onPEntry := Some collect_onPEntry;
     onCEntry := Some collect_onCEntry;
     onNEntry := Some epochChange_onNEntry;
     onFEntry := Some epochChange_onFEntry;
     onECEntry := None; onTEntry := None; onSuspect := None;
     shouldExit := Some (epochChange_shouldExit newEpoch) |}.

(** The two walks of [constructEpochChange] on what the closures capture. *)
Definition constructEpochChange_body (newEpoch : Z) (p : persisted) : M epochChangeState unit :=
  iterate (countSkips_iterator newEpoch) p ;;;
  modify (set_logEpoch None) ;;;
  iterate (collect_iterator newEpoch) p.

(** [persisted.constructEpochChange]: the store is only read. *)
Definition constructEpochChange (newEpoch : Z) : M persisted EpochChange :=
  fun p =>
    let st0 := {| pSkips := ∅; logEpoch := None;
                  newEpochChange := {| NewEpoch := newEpoch; EC_Checkpoints := [];
                                       PSet := []; QSet := [] |} |} in
    match constructEpochChange_body newEpoch p st0 with
    | Ok _ st => Ok (newEpochChange st) p
    | Panic k _ => Panic k p
    | OutOfFuel _ => OutOfFuel p
    end.

(** ** The log replay tool ([mircat])

    The tool reads recorded events, filters them by node and by type, and in
    its interactive mode applies them to one state machine per node.  Reading
    the file and printing are left out; what is embedded is what decides which
    events are shown and what the state machines are fed. *)

Module Mircat.

(** The flag values [--eventType] and [--notEventType] accept. *)
Definition allEventTypes : list string :=
  [ "Initialize"; "LoadEntry"; "CompleteInitialization"; "Tick"; "Step"; "Propose";
    "AddResults"; "ActionsReceived"; "ClientActionsReceived" ].

(** The flag values [--stepType] and [--notStepType] accept. *)
Definition allMsgTypes : list string :=
  [ "Preprepare"; "Prepare"; "Commit"; "Checkpoint"; "EpochChange"; "EpochChangeAck";
    "Suspect"; "NewEpoch"; "NewEpochEcho"; "NewEpochReady"; "FetchBatch"; "ForwardBatch";
    "FetchRequest"; "RequestAck"; "ForwardRequest" ].

(** [for _, name := range names { if name == value { return ... } }]: whether the
    loop returns from inside. *)
Fixpoint named (value : string) (names : list string) : bool :=
  match names with
  | [] => false
  | name :: rest => if decide (name = value) then true else named value rest
  end.

(** [excludeByType]; a nil slice is [None]. *)
Definition excludeByType (value : string) (include exclude : option (list string)) : bool :=
  match include with
  | Some names => if named value names then false else true
  | None => if named value (default [] exclude) then true else false
  end.

(** The [Type] oneof of a recorded [pb.StateEvent]: the events of the state
    machine, and [pb.StateEvent_Propose], which the tool still knows and the
    state machine of this package does not. *)
Inductive recorded :=
| Recorded (ev : StateEvent)
| Recorded_Propose.

(** What [ApplyEvent] is given: a [Propose] is outside the cases of its switch. *)
Definition toStateEvent (r : recorded) : StateEvent :=
  match r with
  | Recorded ev => ev
  | Recorded_Propose => StateEvent_unset
  end.

(** [rpb.RecordedEvent]; [StateEvent] is a pointer, nil for a recorded event
    that was decoded without one. *)
Record RecordedEvent := {
  NodeId : Z;
  RecordedStateEvent : option recorded
}.

(** [excludedByNodeID] *)
Fixpoint listed (nodeId : Z) (nodeIDs : list Z) : bool :=
  match nodeIDs with
  | [] => false
  | nodeID :: rest => if decide (nodeID = nodeId) then true else listed nodeId rest
  end.

Definition excludedByNodeID (re : RecordedEvent) (nodeIDs : option (list Z)) : bool :=
  match nodeIDs with
  | None => false
  | Some ids => if listed (NodeId re) ids then false else true
  end.

(** [statemachine.LogLevel] *)
Inductive LogLevel := LevelDebug | LevelInfo | LevelWarn | LevelError.

(** [arguments], without the input file. *)
Record arguments := {
  interactive : bool;
  logLevel : LogLevel;
  nodeIDs : option (list Z);
  eventTypes : option (list string);
  notEventTypes : option (list string);
  stepTypes : option (list string);
  notStepTypes : option (list string);
  statusIndices : option (list Z);
  verboseText : bool
}.

(** The first type switch of [shouldPrint]; [None] is its [default: panic]. *)
Definition eventTypeText (r : recorded) : option string :=
  match r with
  | Recorded (StateEvent_Initialize _) => Some "Initialize"
  | Recorded (StateEvent_LoadEntry _ _) => Some "LoadEntry"
  | Recorded StateEvent_CompleteInitialization => Some "CompleteInitialization"
  | Recorded StateEvent_Tick => Some "Tick"
  | Recorded_Propose => Some "Propose"
  | Recorded (StateEvent_AddResults _) => Some "AddResults"
  | Recorded (StateEvent_AddClientResults _) => Some "AddClientResults"
  | Recorded StateEvent_ActionsReceived => Some "ActionsReceived"
  | Recorded StateEvent_ClientActionsReceived => Some "ClientActionsReceived"
  | Recorded (StateEvent_Step _ _) => Some "Step"
  | Recorded (StateEvent_Transfer _) => Some "StateTransfer"
  | Recorded StateEvent_unset => None
  end.

(** The type switch on the message of a [Step]; [None] is its [default: panic]. *)
Definition stepTypeText (t : MsgType) : option string :=
  match t with
  | Msg_Preprepare => Some "Preprepare"
  | Msg_Prepare => Some "Prepare"
  | Msg_Commit => Some "Commit"
  | Msg_Checkpoint => Some "Checkpoint"
  | Msg_Suspect => Some "Suspect"
  | Msg_EpochChange => Some "EpochChange"
  | Msg_EpochChangeAck => Some "EpochChangeAck"
  | Msg_NewEpoch => Some "NewEpoch"
  | Msg_NewEpochEcho => Some "NewEpochEcho"
  | Msg_NewEpochReady => Some "NewEpochReady"
  | Msg_FetchBatch => Some "FetchBatch"
  | Msg_ForwardBatch => Some "ForwardBatch"
  | Msg_FetchRequest => Some "FetchRequest"
  | Msg_ForwardRequest => Some "ForwardRequest"
  | Msg_RequestAck => Some "RequestAck"
  | Msg_unset => None
  end.

(** [arguments.shouldPrint]; [inl] is a panic.  [event.StateEvent.Type] is read
    first, through the pointer. *)
Definition shouldPrint (a : arguments) (event : RecordedEvent) : PanicKind + bool :=
  match RecordedStateEvent event with
  | None => inl NilDereference
  | Some stateEvent =>
      match eventTypeText stateEvent with
      | None => inl (ExplicitPanic "Unknown event type")
      | Some text =>
          if excludeByType text (eventTypes a) (notEventTypes a)
          then inr false
          else
            match stateEvent with
            | Recorded (StateEvent_Step _ msg) =>
                match stepTypeText (Msg_Type msg) with
                | None => inl (ExplicitPanic "unknown message type")
                | Some stepText =>
                    if excludeByType stepText (stepTypes a) (notStepTypes a)
                    then inr false
                    else inr true
                end
            | _ => inr true
            end
      end
  end.

(** What [app.Parse] leaves in the flag variables; [flag_logLevel] is the empty
    string when the flag was not given. *)
Record flags := {
  flag_interactive : bool;
  flag_nodeIDs : option (list Z);
  flag_eventTypes : option (list string);
  flag_notEventTypes : option (list string);
  flag_stepTypes : option (list string);
  flag_notStepTypes : option (list string);
  flag_verboseText : bool;
  flag_statusIndices : option (list Z);
  flag_logLevel : string
}.

(** [parseArgs] behind [app.Parse]: the checks on the combination of the flags,
    and the arguments built from them; [inl] is the error. *)
Definition parseArgs (f : flags) : string + arguments :=
  if bool_decide (flag_eventTypes f ≠ None ∧ flag_notEventTypes f ≠ None)
  then inl "cannot set both --eventType and --notEventType"
  else if bool_decide (flag_stepTypes f ≠ None ∧ flag_notStepTypes f ≠ None)
  then inl "cannot set both --stepType and --notStepType"
  else if bool_decide (flag_statusIndices f ≠ None) && negb (flag_interactive f)
  then inl "cannot set status indices for non-interactive playback"
  else if negb (String.eqb (flag_logLevel f) "") && negb (flag_interactive f)
  then inl "cannot set logLevel for non-interactive playback"
  else
    let mirLogLevel :=
      if String.eqb (flag_logLevel f) "debug" then LevelDebug
      else if String.eqb (flag_logLevel f) "info" then LevelInfo
      else if String.eqb (flag_logLevel f) "warn" then LevelWarn
      else if String.eqb (flag_logLevel f) "error" then LevelError
      else LevelInfo in
    inr {| interactive := flag_interactive f;
           logLevel := mirLogLevel;
           nodeIDs := flag_nodeIDs f;
           eventTypes := flag_eventTypes f;
           notEventTypes := flag_notEventTypes f;
           stepTypes := flag_stepTypes f;
           notStepTypes := flag_notStepTypes f;
           statusIndices := flag_statusIndices f;
           verboseText := flag_verboseText f |}.

(** [actionsConcat]; [None] is the error.  The receiver that the failed call
    has written to is not reachable afterwards: [apply] overwrites its only
    pointer to it with the nil result. *)
Definition actionsConcat (a o : actionSet) : option actionSet :=
  let a1 := {| Send := Send a ++ Send o;
               Commits := Commits a ++ Commits o;
               Hash := Hash a ++ Hash o;
               WriteAhead := WriteAhead a ++ WriteAhead o;
               StateTransfer := StateTransfer a;
               AllocatedRequests := AllocatedRequests a;
               StoreRequests := StoreRequests a;
               ForwardRequests := ForwardRequests a |} in
  match StateTransfer o with
  | Some t =>
      match StateTransfer a1 with
      | Some _ => None
      | None =>
          Some {| Send := Send a1; Commits := Commits a1; Hash := Hash a1;
                  WriteAhead := WriteAhead a1; StateTransfer := Some t;
                  AllocatedRequests := AllocatedRequests a1;
                  StoreRequests := StoreRequests a1;
                  ForwardRequests := ForwardRequests a1 |}
      end
  | None => Some a1
  end.

(** [clientActionsConcat] *)
Definition clientActionsConcat (a o : actionSet) : actionSet :=
  {| Send := Send a; Commits := Commits a; Hash := Hash a; WriteAhead := WriteAhead a;
     StateTransfer := StateTransfer a;
     AllocatedRequests := AllocatedRequests a ++ AllocatedRequests o;
     StoreRequests := StoreRequests a ++ StoreRequests o;
     ForwardRequests := ForwardRequests a ++ ForwardRequests o |}.

(** [stateMachine]: a node of the replay.  [pendingActions] is nil once a
    concatenation has failed.  The execution time is wall-clock time and is
    left out. *)
Record stateMachine (W : Type) := {
  machine : StateMachine W;
  pendingActions : option actionSet;
  pendingClientActions : actionSet
}.
Arguments machine {W}. Arguments pendingActions {W}. Arguments pendingClientActions {W}.

(** [stateMachines]: the nodes by their id. *)
Abbreviation stateMachines W := (gmap Z (stateMachine W)).

(** [newStateMachines] *)
Definition newStateMachines {W} : stateMachines W := ∅.

(** The errors [apply] returns. *)
Inductive applyError :=
| MalformedLog (nodeId : Z)                  (* applied without initializing first *)
| NodePanicked (nodeId : Z) (p : PanicKind)  (* the recovered panic *)
| ConcatenationFailed.                       (* the error of [actionsConcat] *)

(** The results of [apply]: [(result, nil)] or [(nil, err)]. *)
Inductive applied :=
| Handed (r : option actionSet)
| Failed (err : applyError).

Section Apply.
Context {W : Type} {comps : Components W}.

(** [stateMachines.apply].  The type test on [event.StateEvent.Type] comes
    before the deferred function is installed: on a recorded event without a
    [StateEvent] it is a nil dereference that nothing recovers.  A panic of the
    state machine, and the nil dereference in [actionsConcat] when
    [pendingActions] is nil, are recovered by the deferred function and
    returned as the error; the machine keeps what the event did to it before
    the panic. *)
Definition apply (fuel : nat) (event : RecordedEvent) : M (stateMachines W) applied :=
  fun s =>
    match RecordedStateEvent event with
    | None => Panic NilDereference s
    | Some stateEvent =>
    let id := NodeId event in
    let found :=
      match stateEvent with
      | Recorded (StateEvent_Initialize _) =>
          let node := {| machine := newStateMachine; pendingActions := Some emptyActions;
                         pendingClientActions := emptyActions |} in
          Some (node, <[id := node]> (delete id s))
      | _ =>
          match s !! id with
          | Some node => Some (node, s)
          | None => None
          end
      end in
    match found with
    | None => Ok (Failed (MalformedLog id)) s
    | Some (node, s) =>
        match ApplyEvent fuel (toStateEvent stateEvent) (machine node) with
        | OutOfFuel m =>
            OutOfFuel (<[id := {| machine := m; pendingActions := pendingActions node;
                                  pendingClientActions := pendingClientActions node |}]> s)
        | Panic p m =>
            Ok (Failed (NodePanicked id p))
               (<[id := {| machine := m; pendingActions := pendingActions node;
                           pendingClientActions := pendingClientActions node |}]> s)
        | Ok actions m =>
            match pendingActions node with
            | None =>
                Ok (Failed (NodePanicked id NilDereference))
                   (<[id := {| machine := m; pendingActions := None;
                               pendingClientActions := pendingClientActions node |}]> s)
            | Some pending =>
                match actionsConcat pending actions with
                | None =>
                    Ok (Failed ConcatenationFailed)
                       (<[id := {| machine := m; pendingActions := None;
                                   pendingClientActions := pendingClientActions node |}]> s)
                | Some pending' =>
                    let pendingClient' :=
                      clientActionsConcat (pendingClientActions node) actions in
                    match stateEvent with
                    | Recorded StateEvent_ActionsReceived =>
                        Ok (Handed (Some pending'))
                           (<[id := {| machine := m; pendingActions := Some emptyActions;
                                       pendingClientActions := pendingClient' |}]> s)
                    | Recorded StateEvent_ClientActionsReceived =>
                        Ok (Handed (Some pendingClient'))
                           (<[id := {| machine := m; pendingActions := Some pending';
                                       pendingClientActions := emptyActions |}]> s)
                    | _ =>
                        Ok (Handed None)
                           (<[id := {| machine := m; pendingActions := Some pending';
                                       pendingClientActions := pendingClient' |}]> s)
                    end
                end
            end
        end
    end
    end.

End Apply.

(** The state machine that [apply] runs the event of a recorded event on, and
    the event it gives it: none for a recorded event without a [StateEvent],
    and none for an event that comes before the [Initialize] of its node. *)
Definition applies {W} (event : RecordedEvent) (s : stateMachines W)
  : option (StateMachine W * StateEvent) :=
  match RecordedStateEvent event with
  | None => None
  | Some stateEvent =>
      match stateEvent with
      | Recorded (StateEvent_Initialize _) => Some (newStateMachine, toStateEvent stateEvent)
      | _ =>
          match s !! NodeId event with
          | Some node => Some (machine node, toStateEvent stateEvent)
          | None => None
          end
      end
  end.

(** A line of the output: an event with its number, a line that the logger of
    a node's state machine writes ([namedLogger.Log], under the name of the
    node), the actions handed out, the status of a node, the closing line for a
    node (without the execution time, which is wall-clock time). *)
Inductive line :=
| EventLine (index : Z) (text : bytes)
| LoggerLine (nodeId : Z) (text : bytes)
| ActionsLine (text : bytes)
| StatusLine (text : bytes)
| CompletedLine (nodeId : Z).

(** The errors [execute] returns, once the input is open. *)
Inductive executeError :=
| CouldNotMarshalEvent
| CouldNotMarshalActions
| ApplyFailed (err : applyError).

(** The state machines and what was written to the output. *)
Record replay (W : Type) := {
  nodes : stateMachines W;
  output : list line
}.
Arguments nodes {W}. Arguments output {W}.

Definition set_nodes {W} (s : stateMachines W) (r : replay W) : replay W :=
  {| nodes := s; output := output r |}.

(** [fmt.Fprintf(output, ...)] *)
Definition print {W} (l : line) : M (replay W) unit :=
  modify (fun r => {| nodes := nodes r; output := output r ++ [l] |}).

(** [sort.Slice(nodeIDs, ...)] with [nodeIDs[i] < nodeIDs[j]]: the ids in
    ascending order. *)
Fixpoint insertSorted (id : Z) (ids : list Z) : list Z :=
  match ids with
  | [] => [id]
  | x :: rest => if id <? x then id :: ids else x :: insertSorted id rest
  end.

Definition sortIDs (ids : list Z) : list Z := foldr insertSorted [] ids.

Section Execute.
Context {W : Type} {comps : Components W}.

(** [textFormat], for an event and for actions, and the rendering of the status
    of a state machine are not among the sources. *)
Variable textFormatEvent : RecordedEvent → bool → option bytes.
Variable textFormatActions : actionSet → bool → option bytes.
Variable prettyStatus : StateMachine W → bytes.

(** The state machine of a node writes to the same output, through its
    [Logger]: the calls of [Logger.Log] that a state machine makes while it
    applies an event, with their message and arguments, are left out of the
    model of the state machine.  [logged level sm ev] is the text of the calls
    of level [level] or above, in order, that the state machine [sm] makes on
    the event [ev]. *)
Variable logged : LogLevel → StateMachine W → StateEvent → list bytes.

(** What the loggers write during [s.apply(event)]. *)
Definition loggerLines (a : arguments) (event : RecordedEvent) : M (replay W) unit :=
  r <~ get ;;
  match applies event (nodes r) with
  | Some (sm, ev) =>
      forEach (fun text => print (LoggerLine (NodeId event) text)) (logged (logLevel a) sm ev)
  | None => ret tt
  end.

(** [s.status(event).Pretty()]: a node that is not there is a nil pointer. *)
Definition status (event : RecordedEvent) : M (replay W) bytes :=
  fun r =>
    match nodes r !! NodeId event with
    | None => Panic NilDereference r
    | Some node => Ok (prettyStatus (machine node)) r
    end.

(** The body of the loop of [execute] once an event was read and counted;
    [Some err] is [return err], [None] goes on with the next event. *)
Definition executeEvent (a : arguments) (fuel : nat) (index : Z) (event : RecordedEvent)
  : M (replay W) (option executeError) :=
  if excludedByNodeID event (nodeIDs a)
  then ret None
  else
    let statusIndex := bool_decide (index ∈ default [] (statusIndices a)) in
    shown <~ (if statusIndex then ret true
              else match shouldPrint a event with
                   | inr b => ret b
                   | inl p => panic p
                   end) ;;
    err <~ (if shown
            then match textFormatEvent event (negb (verboseText a)) with
                 | None => ret (Some CouldNotMarshalEvent)
                 | Some text => print (EventLine index text) ;;; ret None
                 end
            else ret None) ;;
    match err with
    | Some e => ret (Some e)
    | None =>
        if interactive a
        then
          loggerLines a event ;;;
          r <~ zoom nodes set_nodes (apply fuel event) ;;
          match r with
          | Failed e => ret (Some (ApplyFailed e))
          | Handed actions =>
              err <~ match actions with
                     | Some acts =>
                         match textFormatActions acts (negb (verboseText a)) with
                         | None => ret (Some CouldNotMarshalActions)
                         | Some text => print (ActionsLine text) ;;; ret None
                         end
                     | None => ret None
                     end ;;
              match err with
              | Some e => ret (Some e)
              | None =>
                  if statusIndex
                  then text <~ status event ;; print (StatusLine text) ;;; ret None
                  else ret None
              end
          end
        else ret None
    end.

(** The loop of [execute] over the events the reader yields before [io.EOF];
    [index] is the number of the event read last. *)
Fixpoint executeLoop (a : arguments) (fuel : nat) (index : Z) (input : list RecordedEvent)
  : M (replay W) (option executeError) :=
  match input with
  | [] => ret None
  | event :: rest =>
      let index := add64 index 1 in
      err <~ executeEvent a fuel index event ;;
      match err with
      | Some e => ret (Some e)
      | None => executeLoop a fuel index rest
      end
  end.

(** The closing lines of the interactive mode, one per node: for the nodes of
    the node filter, or for all nodes in ascending order when there is no
    filter.  [s.nodes[nodeID]] is nil for a node that is not there. *)
Definition completed (a : arguments) : M (replay W) unit :=
  r <~ get ;;
  let ids := match nodeIDs a with
             | Some ids => ids
             | None => sortIDs (elements (dom (nodes r)))
             end in
  forEach (fun nodeID =>
             r <~ get ;;
             match nodes r !! nodeID with
             | None => panic NilDereference
             | Some _ => print (CompletedLine nodeID)
             end) ids.

(** [arguments.execute] on an input that opens and reads without error. *)
Definition execute (a : arguments) (fuel : nat) (input : list RecordedEvent)
  : Outcome (replay W) (option executeError) :=
  (err <~ executeLoop a fuel 0 input ;;
   match err with
   | Some e => ret (Some e)
   | None => if interactive a then completed a ;;; ret None else ret None
   end) {| nodes := newStateMachines; output := [] |}.

End Execute.

End Mircat.

(** * The vocabulary of the properties *)

(** ** Log entries and events *)

Definition neither_checkpoint_nor_epoch_end (e : logEntry) : Prop :=
  match entry e with
  | Persistent_CEntry _ | Persistent_FEntry _ | Persistent_unset => False
  | _ => True
  end.

Definition acknowledgement (ev : StateEvent) : Prop :=
  ev = StateEvent_ActionsReceived ∨ ev = StateEvent_ClientActionsReceived.

(** ** Outstanding requests *)

(** No digest is both known correct and outstanding. *)
Definition digests_apart (a : allOutstandingReqs) : Prop :=
  ∀ key, is_Some (correctRequests a !! key) → outstandingRequests a !! key = None.

(** The digest a recorded call of [satisfyOutstanding] was made for. *)
Definition callDigest (c : Z * RequestAck) : string := Digest (snd c).

(** A known-correct entry filed under its own digest. *)
Definition cached (a : allOutstandingReqs) (key : string) : Prop :=
  ∃ ack, correctRequests a !! key = Some ack ∧ Digest ack = key.

(** What the drain has done when it ends: [calls] are the calls of
    [satisfyOutstanding] it made, from the tracker [t] to the outcome [o]. *)
Definition drained {W} (pending : list RequestAck) (t : tracker (W * callLog))
           (o : Outcome (tracker (W * callLog)) actionSet)
           (calls : list (Z * RequestAck)) : Prop :=
  snd (heap (out_state o)) = snd (heap t) ++ calls
  ∧ NoDup (callDigest <$> calls)
  ∧ (∀ seq ack, (seq, ack) ∈ calls →
       ack ∈ pending ∧ outstandingRequests (ao t) !! Digest ack = Some seq)
  ∧ (∀ key, key ∈ callDigest <$> calls →
       outstandingRequests (ao (out_state o)) !! key = None)
  ∧ (∀ key, key ∉ callDigest <$> calls →
       outstandingRequests (ao (out_state o)) !! key = outstandingRequests (ao t) !! key)
  ∧ (∀ key, cached (ao t) key → cached (ao (out_state o)) key)
  ∧ (∀ a t', o = Ok a t' → ∀ ack, ack ∈ pending →
       match outstandingRequests (ao t) !! Digest ack with
       | Some seq => ∃ ack', (seq, ack') ∈ calls ∧ Digest ack' = Digest ack
       | None => cached (ao t') (Digest ack)
       end).

(** The acknowledgement names a client of the bucket, and its request number is
    the next one expected from that client in the bucket. *)
Definition matches (bucket : Z) (a : allOutstandingReqs) (req : RequestAck) : Prop :=
  ∃ bo co, buckets a !! bucket = Some bo
           ∧ clients bo !! ClientId req = Some co
           ∧ nextReqNo co = ReqNo req.

(** The error [applyAcks] returns for an acknowledgement that does not match. *)
Definition rejection (bucket : Z) (a : allOutstandingReqs) (req : RequestAck)
  : applyAcksError :=
  match buckets a !! bucket ≫= (fun bo => clients bo !! ClientId req) with
  | None => NoSuchClient
  | Some co => UnexpectedReqNo (ClientId req) bucket (nextReqNo co) (ReqNo req)
  end.

(** The boolean form of [matches]. *)
Definition matchesb (bucket : Z) (a : allOutstandingReqs) (req : RequestAck) : bool :=
  match buckets a !! bucket ≫= (fun bo => clients bo !! ClientId req) with
  | Some co => bool_decide (nextReqNo co = ReqNo req)
  | None => false
  end.

(** [nextReqNo] after [n] strides of [numBuckets]. *)
Definition strides (n : nat) (numBuckets reqNo : Z) : Z :=
  Nat.iter n (fun r => add64 r numBuckets) reqNo.

(** The loop of [skipPreviouslyCommitted] comes to an end for this client and
    stride, wherever it starts. *)
Definition skipping_ends {cops : ClientOps} (c : NetworkState_Client) (numBuckets : Z) : Prop :=
  ∀ reqNo, 0 ≤ reqNo < 2 ^ 64 →
    ∃ k : nat, isCommitted (strides k numBuckets reqNo) c = false.

(** The state after an accepted acknowledgement, up to the client's counter. *)
Definition fileDigest (seq : Z) (req : RequestAck) (a : allOutstandingReqs)
  : allOutstandingReqs :=
  match correctRequests a !! Digest req with
  | Some _ => set_correctRequests (delete (Digest req) (correctRequests a)) a
  | None => set_outstandingRequests (<[Digest req := seq]> (outstandingRequests a)) a
  end.

Definition noteOutstanding (req : RequestAck) (a : allOutstandingReqs) (os : gset string)
  : gset string :=
  match correctRequests a !! Digest req with
  | Some _ => os
  | None => {[ Digest req ]} ∪ os
  end.

Definition storeCounter (bucket : Z) (bo : bucketOutstandingReqs) (clientId : Z)
           (co : clientOutstandingReqs) (a : allOutstandingReqs) : allOutstandingReqs :=
  set_buckets (<[bucket := {| clients := <[clientId := co]> (clients bo) |}]> (buckets a)) a.

(** The counter [newOutstandingReqs] computes for a client in a bucket, when the
    skipping ends within the bound. *)
Definition initialCounter {cops : ClientOps} (fuel : nat) (cfg : NetworkState_Config) (i : Z)
           (c : NetworkState_Client) : Outcome clientOutstandingReqs unit :=
  skipPreviouslyCommitted fuel
    {| nextReqNo := firstUncommitted c cfg i (seqZ 0 (NumberOfBuckets cfg));
       numBuckets := to_uint64 (NumberOfBuckets cfg);
       client := c |}.

(** ** Outcomes *)

(** The run came to an end within the bound on the loop iterations. *)
Definition finished {S A} (o : Outcome S A) : bool :=
  match o with
  | OutOfFuel _ => false
  | _ => true
  end.

(** ** Counted calls *)

(** The counters in a store of the counting components. *)
Definition counts {W} (s : store (W * callCounts)) : callCounts := snd (theComponents s).

(** A piece of the orchestrator that leaves the counters as they are, however
    it ends. *)
Definition keeps {W A} (m : M (store (W * callCounts)) A) : Prop :=
  ∀ s, counts (out_state (m s)) = counts s.

(** The same for the pieces that run on the whole state machine. *)
Definition keepsSM {W A} (m : M (StateMachine (W * callCounts)) A) : Prop :=
  ∀ sm, callsOf (out_state (m sm)) = callsOf sm.

(** The calls counted from one state of the counters to another: each method
    at most once, and the batch tracker and the epoch tracker only when the
    checkpoint tracker was asked to collect. *)
Definition one_movement (before after : callCounts) : Prop :=
  (n_garbageCollect before ≤ n_garbageCollect after ≤ n_garbageCollect before + 1)%nat
  ∧ (n_batchTruncate before ≤ n_batchTruncate after)%nat
  ∧ (n_moveLowWatermark before ≤ n_moveLowWatermark after)%nat
  ∧ (n_batchTruncate after + n_garbageCollect before
     ≤ n_batchTruncate before + n_garbageCollect after)%nat
  ∧ (n_moveLowWatermark after + n_garbageCollect before
     ≤ n_moveLowWatermark before + n_garbageCollect after)%nat.

Definition and_then (R1 R2 : relation callCounts) : relation callCounts :=
  fun x z => ∃ y, R1 x y ∧ R2 y z.

Definition at_most (f : callCounts → callCounts) : relation callCounts :=
  fun x y => y = x ∨ y = f x.

(** A piece of the orchestrator that moves the counters by [R], however it ends. *)
Definition moves {W} (R : relation callCounts) {A} (m : M (store (W * callCounts)) A) : Prop :=
  ∀ s, R (counts s) (counts (out_state (m s))).

(** ** Forgetting the observations *)

Definition map_outcome {S T A} (f : S → T) (o : Outcome S A) : Outcome T A :=
  match o with
  | Ok a s => Ok a (f s)
  | Panic p s => Panic p (f s)
  | OutOfFuel s => OutOfFuel (f s)
  end.

Definition unrecorded {W} (t : tracker (W * callLog)) : tracker W :=
  {| ao := ao t; heap := fst (heap t) |}.

Definition uncounted {W} (sm : StateMachine (W * callCounts)) : StateMachine W :=
  {| state := state sm; myConfig := myConfig sm; thePersisted := thePersisted sm;
     components := fst <$> components sm |}.

(** [m'] on the counting components does what [m] does on the components. *)
Definition follows {W A} (m' : M (store (W * callCounts)) A) (m : M (store W) A) : Prop :=
  ∀ s, map_outcome forget (m' s) = m (forget s).

(** The same for the pieces that run on the whole state machine. *)
Definition followsSM {W A} (m' : M (StateMachine (W * callCounts)) A) (m : M (StateMachine W) A) : Prop :=
  ∀ sm, map_outcome uncounted (m' sm) = m (uncounted sm).

(** ** Two replicas

    Two replicas run the same code on the same events, each on components of
    its own: the heaps [W1] and [W2] of the two differ in what the protocol
    does not see, as the addresses of the objects and the layout of the maps
    do.  [R] relates a heap of the one replica to a heap of the other that
    stands for the same state of the components. *)

(** The outcomes agree: the same result, or the same panic, or the bound
    exhausted on both sides, and the states they end in agree. *)
Definition alike_outcome {S1 S2 A} (RS : S1 → S2 → Prop)
           (o1 : Outcome S1 A) (o2 : Outcome S2 A) : Prop :=
  match o1, o2 with
  | Ok a1 s1, Ok a2 s2 => a1 = a2 ∧ RS s1 s2
  | Panic p1 s1, Panic p2 s2 => p1 = p2 ∧ RS s1 s2
  | OutOfFuel s1, OutOfFuel s2 => RS s1 s2
  | _, _ => False
  end.

(** Run from states that agree, the two pieces of code end with outcomes that
    agree. *)
Definition alike_run {S1 S2 A} (RS : S1 → S2 → Prop) (m1 : M S1 A) (m2 : M S2 A) : Prop :=
  ∀ s1 s2, RS s1 s2 → alike_outcome RS (m1 s1) (m2 s2).

Section TwoReplicas.
Context {W1 W2 : Type} (R : W1 → W2 → Prop).

(** The stores agree: the same log, and heaps of the components that agree. *)
Definition alike_store (s1 : store W1) (s2 : store W2) : Prop :=
  theLog s1 = theLog s2 ∧ R (theComponents s1) (theComponents s2).

(** A method of a component of the one replica and of the other. *)
Definition alike_method {A} (m1 : M (store W1) A) (m2 : M (store W2) A) : Prop :=
  alike_run alike_store m1 m2.

(** A field of a component that the orchestrator reads. *)
Definition alike_field {A} (f1 : W1 → A) (f2 : W2 → A) : Prop :=
  ∀ w1 w2, R w1 w2 → f1 w1 = f2 w2.

(** The components of the two replicas behave alike: on heaps that agree, every
    method returns the same result, or panics the same, and leaves heaps that
    agree; every field reads the same. *)
Record alike (c1 : Components W1) (c2 : Components W2) : Prop := {
  alike_newNodeBuffers :
    ∀ (x0 : InitialParameters),
      R (@newNodeBuffers _ c1 x0)
        (@newNodeBuffers _ c2 x0);
  alike_newCheckpointTracker :
    ∀ (x0 : Z) (x1 : NetworkState) (x2 : InitialParameters),
      alike_method (@newCheckpointTracker _ c1 x0 x1 x2)
        (@newCheckpointTracker _ c2 x0 x1 x2);
  alike_newClientTracker :
    ∀ (x0 : InitialParameters),
      alike_method (@newClientTracker _ c1 x0)
        (@newClientTracker _ c2 x0);
  alike_newCommitState :
    alike_method (@newCommitState _ c1)
      (@newCommitState _ c2);
  alike_newClientHashDisseminator :
    ∀ (x0 : InitialParameters),
      alike_method (@newClientHashDisseminator _ c1 x0)
        (@newClientHashDisseminator _ c2 x0);
  alike_newBatchTracker :
    alike_method (@newBatchTracker _ c1)
      (@newBatchTracker _ c2);
  alike_newEpochTracker :
    ∀ (x0 : NetworkState_Config) (x1 : InitialParameters),
      alike_method (@newEpochTracker _ c1 x0 x1)
        (@newEpochTracker _ c2 x0 x1);
  alike_commitState_transferring :
    alike_field (@commitState_transferring _ c1)
      (@commitState_transferring _ c2);
  alike_commitState_lowWatermark :
    alike_field (@commitState_lowWatermark _ c1)
      (@commitState_lowWatermark _ c2);
  alike_commitState_stopAtSeqNo :
    alike_field (@commitState_stopAtSeqNo _ c1)
      (@commitState_stopAtSeqNo _ c2);
  alike_commitState_activeState :
    alike_field (@commitState_activeState _ c1)
      (@commitState_activeState _ c2);
  alike_commitState_reinitialize :
    alike_method (@commitState_reinitialize _ c1)
      (@commitState_reinitialize _ c2);
  alike_commitState_applyCheckpointResult :
    ∀ (x0 : option EpochConfig) (x1 : CheckpointResult),
      alike_method (@commitState_applyCheckpointResult _ c1 x0 x1)
        (@commitState_applyCheckpointResult _ c2 x0 x1);
  alike_commitState_drain :
    alike_method (@commitState_drain _ c1)
      (@commitState_drain _ c2);
  alike_clientTracker_reinitialize :
    ∀ (x0 : option NetworkState),
      alike_method (@clientTracker_reinitialize _ c1 x0)
        (@clientTracker_reinitialize _ c2 x0);
  alike_clientTracker_allocate :
    ∀ (x0 : Z) (x1 : option NetworkState),
      alike_method (@clientTracker_allocate _ c1 x0 x1)
        (@clientTracker_allocate _ c2 x0 x1);
  alike_clientHashDisseminator_tick :
    alike_method (@clientHashDisseminator_tick _ c1)
      (@clientHashDisseminator_tick _ c2);
  alike_clientHashDisseminator_step :
    ∀ (x0 : Z) (x1 : Msg),
      alike_method (@clientHashDisseminator_step _ c1 x0 x1)
        (@clientHashDisseminator_step _ c2 x0 x1);
  alike_clientHashDisseminator_applyNewRequests :
    ∀ (x0 : bytes),
      alike_method (@clientHashDisseminator_applyNewRequests _ c1 x0)
        (@clientHashDisseminator_applyNewRequests _ c2 x0);
  alike_clientHashDisseminator_reinitialize :
    ∀ (x0 : Z) (x1 : option NetworkState),
      alike_method (@clientHashDisseminator_reinitialize _ c1 x0 x1)
        (@clientHashDisseminator_reinitialize _ c2 x0 x1);
  alike_clientHashDisseminator_allocate :
    ∀ (x0 : Z) (x1 : option NetworkState),
      alike_method (@clientHashDisseminator_allocate _ c1 x0 x1)
        (@clientHashDisseminator_allocate _ c2 x0 x1);
  alike_cpsGarbageCollectable : @cpsGarbageCollectable _ c1 = @cpsGarbageCollectable _ c2;
  alike_checkpointTracker_state :
    alike_field (@checkpointTracker_state _ c1)
      (@checkpointTracker_state _ c2);
  alike_checkpointTracker_networkConfig :
    alike_field (@checkpointTracker_networkConfig _ c1)
      (@checkpointTracker_networkConfig _ c2);
  alike_checkpointTracker_step :
    ∀ (x0 : Z) (x1 : Msg),
      alike_method (@checkpointTracker_step _ c1 x0 x1)
        (@checkpointTracker_step _ c2 x0 x1);
  alike_checkpointTracker_reinitialize :
    alike_method (@checkpointTracker_reinitialize _ c1)
      (@checkpointTracker_reinitialize _ c2);
  alike_checkpointTracker_garbageCollect :
    alike_method (@checkpointTracker_garbageCollect _ c1)
      (@checkpointTracker_garbageCollect _ c2);
  alike_batchTracker_step :
    ∀ (x0 : Z) (x1 : Msg),
      alike_method (@batchTracker_step _ c1 x0 x1)
        (@batchTracker_step _ c2 x0 x1);
  alike_batchTracker_reinitialize :
    alike_method (@batchTracker_reinitialize _ c1)
      (@batchTracker_reinitialize _ c2);
  alike_batchTracker_addBatch :
    ∀ (x0 : Z) (x1 : bytes) (x2 : list RequestAck),
      alike_method (@batchTracker_addBatch _ c1 x0 x1 x2)
        (@batchTracker_addBatch _ c2 x0 x1 x2);
  alike_batchTracker_applyVerifyBatchHashResult :
    ∀ (x0 : bytes) (x1 : bytes),
      alike_method (@batchTracker_applyVerifyBatchHashResult _ c1 x0 x1)
        (@batchTracker_applyVerifyBatchHashResult _ c2 x0 x1);
  alike_batchTracker_hasFetchInFlight :
    alike_method (@batchTracker_hasFetchInFlight _ c1)
      (@batchTracker_hasFetchInFlight _ c2);
  alike_batchTracker_truncate :
    ∀ (x0 : Z),
      alike_method (@batchTracker_truncate _ c1 x0)
        (@batchTracker_truncate _ c2 x0);
  alike_etFetching : @etFetching _ c1 = @etFetching _ c2;
  alike_epochTracker_currentEpoch :
    alike_field (@epochTracker_currentEpoch _ c1)
      (@epochTracker_currentEpoch _ c2);
  alike_epochTracker_tick :
    alike_method (@epochTracker_tick _ c1)
      (@epochTracker_tick _ c2);
  alike_epochTracker_step :
    ∀ (x0 : Z) (x1 : Msg),
      alike_method (@epochTracker_step _ c1 x0 x1)
        (@epochTracker_step _ c2 x0 x1);
  alike_epochTracker_reinitialize :
    alike_method (@epochTracker_reinitialize _ c1)
      (@epochTracker_reinitialize _ c2);
  alike_epochTracker_applyBatchHashResult :
    ∀ (x0 : Z) (x1 : Z) (x2 : bytes),
      alike_method (@epochTracker_applyBatchHashResult _ c1 x0 x1 x2)
        (@epochTracker_applyBatchHashResult _ c2 x0 x1 x2);
  alike_epochTracker_applyEpochChangeDigest :
    ∀ (x0 : bytes) (x1 : bytes),
      alike_method (@epochTracker_applyEpochChangeDigest _ c1 x0 x1)
        (@epochTracker_applyEpochChangeDigest _ c2 x0 x1);
  alike_epochTracker_fetchNewEpochState :
    alike_method (@epochTracker_fetchNewEpochState _ c1)
      (@epochTracker_fetchNewEpochState _ c2);
  alike_epochTracker_moveLowWatermark :
    ∀ (x0 : Z),
      alike_method (@epochTracker_moveLowWatermark _ c1 x0)
        (@epochTracker_moveLowWatermark _ c2 x0);
  alike_epochTracker_advanceState :
    alike_method (@epochTracker_advanceState _ c1)
      (@epochTracker_advanceState _ c2)
}.

(** The state machines agree: the same state, parameters and log, and heaps of
    the components that agree. *)
Definition alike_sm (sm1 : StateMachine W1) (sm2 : StateMachine W2) : Prop :=
  state sm1 = state sm2
  ∧ myConfig sm1 = myConfig sm2
  ∧ thePersisted sm1 = thePersisted sm2
  ∧ option_Forall2 R (components sm1) (components sm2).

End TwoReplicas.

(** The heap of the counting components agrees with the heap it wraps. *)
Definition counted_heap {W} (w1 : W) (w2 : W * callCounts) : Prop := w1 = fst w2.

(** ** The write-ahead log store *)

(** The entries carry the indexes [from], [from + 1], ... in this order, and
    [next] is the index after the last one. *)
Fixpoint indexed_from (from : Z) (l : list logEntry) (next : Z) : Prop :=
  match l with
  | [] => next = from
  | e :: rest => index e = from ∧ indexed_from (add64 from 1) rest next
  end.

(** The indexes of the log are consecutive and [nextIndex] follows the last. *)
Definition contiguous (p : persisted) : Prop :=
  match log p with
  | [] => True
  | e :: _ => indexed_from (index e) (log p) (nextIndex p)
  end.

(** Loading entries one after the other, as a stream of [LoadEntry] events does. *)
Definition load (l : list logEntry) : M persisted unit :=
  forEach (fun e => appendInitialLoad (index e) (entry e)) l.

(** Loading what a list of write-ahead requests asks to append. *)
Definition replay (ws : list StateEventResult_Write) : M persisted unit :=
  forEach (fun w => match Append w with
                    | Some (i, d) => appendInitialLoad i d
                    | None => ret tt
                    end) ws.

(** A run of [appendLogEntry]: the write-ahead requests it returns, in order. *)
Fixpoint appendAll (ds : list Persistent) : M persisted (list StateEventResult_Write) :=
  match ds with
  | [] => ret []
  | d :: ds' =>
      a <~ appendLogEntry d ;;
      ws <~ appendAll ds' ;;
      ret (WriteAhead a ++ ws)
  end.

(** The entries that a truncation at [lowWatermark] is to keep, whatever stands
    in front of them: a [CEntry] whose sequence number is [lowWatermark] or
    above, and an [NEntry] whose sequence number is above [lowWatermark].  No
    entry of another type is one of them; an [FEntry] is not. *)
Definition live (lowWatermark : Z) (e : logEntry) : Prop :=
  match entry e with
  | Persistent_CEntry c => lowWatermark ≤ CEntry_SeqNo c
  | Persistent_NEntry n => lowWatermark < NEntry_SeqNo n
  | _ => False
  end.

Global Instance live_dec lowWatermark e : Decision (live lowWatermark e).
Proof. unfold live. destruct (entry e); apply _. Defined.

(** A log as a node that went through two epochs holds it: the checkpoint and
    the end of epoch 0 it started from, then epochs 1 and 2 with their prepared
    and preprepared batches and the checkpoint at sequence number 5. *)
Module Sample.

Definition entries : list Persistent :=
  [ Persistent_CEntry Toy.checkpoint0;
    Persistent_FEntry Toy.epoch0;
    Persistent_NEntry {| NEntry_SeqNo := 1;
                         NEntry_EpochConfig := {| Number := 1; Leaders := [0; 1; 2; 3] |} |};
    Persistent_QEntry {| QEntry_SeqNo := 1; QEntry_Digest := "a"; QEntry_Requests := [] |};
    Persistent_PEntry {| PEntry_SeqNo := 1; PEntry_Digest := "a" |};
    Persistent_PEntry {| PEntry_SeqNo := 2; PEntry_Digest := "b" |};
    Persistent_CEntry {| CEntry_SeqNo := 5; CheckpointValue := "five";
                         CEntry_NetworkState := Some Toy.networkState |};
    Persistent_NEntry {| NEntry_SeqNo := 6;
                         NEntry_EpochConfig := {| Number := 2; Leaders := [0; 1; 2; 3] |} |};
    Persistent_QEntry {| QEntry_SeqNo := 6; QEntry_Digest := "c"; QEntry_Requests := [] |};
    Persistent_PEntry {| PEntry_SeqNo := 6; PEntry_Digest := "c" |};
    Persistent_PEntry {| PEntry_SeqNo := 2; PEntry_Digest := "d" |} ].

(** The entries at the indexes 3, 4, ... *)
Definition wal : persisted :=
  {| nextIndex := 3 + Z.of_nat (length entries);
     log := (fun '(i, d) => {| index := 3 + Z.of_nat i; entry := d |}) <$> imap pair entries |}.

End Sample.

(** ** The epoch change built from the log *)

(** The epoch the log is in after an entry: an [NEntry] starts an epoch, an
    [FEntry] ends one, every other entry leaves the epoch as it is. *)
Definition epochAfter (epoch : option Z) (d : Persistent) : option Z :=
  match d with
  | Persistent_NEntry n => Some (Number (NEntry_EpochConfig n))
  | Persistent_FEntry f => Some (Number (EndsEpochConfig f))
  | _ => epoch
  end.

(** The log is known to be in epoch [newEpoch] or a later one. *)
Definition reached (newEpoch : Z) (epoch : option Z) : bool :=
  match epoch with
  | Some e => bool_decide (newEpoch ≤ e)
  | None => false
  end.

(** The part of the log up to and including the first entry after which the
    log has reached [newEpoch]; the whole log when there is no such entry. *)
Fixpoint walked (newEpoch : Z) (epoch : option Z) (l : list logEntry) : list logEntry :=
  match l with
  | [] => []
  | e :: rest =>
      let epoch' := epochAfter epoch (entry e) in
      e :: (if reached newEpoch epoch' then [] else walked newEpoch epoch' rest)
  end.

(** An entry whose [Type] is not set. *)
Definition unsupported (e : logEntry) : bool :=
  match entry e with
  | Persistent_unset => true
  | _ => false
  end.

(** The sequence numbers of the [PEntry]s, in the order of the log. *)
Definition pSeqNos (l : list logEntry) : list Z :=
  omap (fun e => match entry e with
                 | Persistent_PEntry pe => Some (PEntry_SeqNo pe)
                 | _ => None
                 end) l.

(** The checkpoints of the [CEntry]s, in the order of the log. *)
Definition checkpointsOf (l : list logEntry) : list Checkpoint :=
  omap (fun e => match entry e with
                 | Persistent_CEntry ce =>
                     Some {| Checkpoint_SeqNo := CEntry_SeqNo ce;
                             Checkpoint_Value := CheckpointValue ce |}
                 | _ => None
                 end) l.

(** The [QEntry]s in the order of the log, each with the epoch the log is in
    where it stands; [None] when one stands where no epoch is known yet. *)
Fixpoint preprepared (epoch : option Z) (l : list logEntry)
  : option (list EpochChange_SetEntry) :=
  match l with
  | [] => Some []
  | e :: rest =>
      match entry e with
      | Persistent_QEntry qe =>
          ep ← epoch ;
          qs ← preprepared epoch rest ;
          Some ({| SetEntry_Epoch := ep; SetEntry_SeqNo := QEntry_SeqNo qe;
                   SetEntry_Digest := QEntry_Digest qe |} :: qs)
      | d => preprepared (epochAfter epoch d) rest
      end
  end.

(** The [PEntry]s that no [PEntry] for the same sequence number follows, in the
    order of the log, each with the epoch the log is in where it stands. *)
Fixpoint lastPrepared (epoch : option Z) (l : list logEntry)
  : option (list EpochChange_SetEntry) :=
  match l with
  | [] => Some []
  | e :: rest =>
      match entry e with
      | Persistent_PEntry pe =>
          if decide (PEntry_SeqNo pe ∈ pSeqNos rest)
          then lastPrepared epoch rest
          else
            ep ← epoch ;
            ps ← lastPrepared epoch rest ;
            Some ({| SetEntry_Epoch := ep; SetEntry_SeqNo := PEntry_SeqNo pe;
                     SetEntry_Digest := PEntry_Digest pe |} :: ps)
      | d => lastPrepared (epochAfter epoch d) rest
      end
  end.

(** What [constructEpochChange] is to give for the part of the log it walks. *)
Definition epochChangeOf (newEpoch : Z) (l : list logEntry) : option EpochChange :=
  let w := walked newEpoch None l in
  ps ← lastPrepared None w ;
  qs ← preprepared None w ;
  Some {| NewEpoch := newEpoch; EC_Checkpoints := checkpointsOf w; PSet := ps; QSet := qs |}.

(** How often [seqNo] is the sequence number of a [PEntry]. *)
Definition occurrences (seqNo : Z) (l : list logEntry) : Z :=
  Z.of_nat (length (filter (eq seqNo) (pSeqNos l))).
(** The state of the first walk after an entry with a type. *)
Definition counted (d : Persistent) (st : epochChangeState) : epochChangeState :=
  {| pSkips := match d with
               | Persistent_PEntry pe =>
                   <[PEntry_SeqNo pe :=
                       wrap_int (default 0 (pSkips st !! PEntry_SeqNo pe) + 1)]> (pSkips st)
               | _ => pSkips st
               end;
     logEpoch := epochAfter (logEpoch st) d;
     newEpochChange := newEpochChange st |}.

(** The epoch change with the given entries added at the end of its lists. *)
Definition extended (cs : list Checkpoint) (ps qs : list EpochChange_SetEntry)
           (ec : EpochChange) : EpochChange :=
  {| NewEpoch := NewEpoch ec; EC_Checkpoints := EC_Checkpoints ec ++ cs;
     PSet := PSet ec ++ ps; QSet := QSet ec ++ qs |}.

(** No [PEntry] and no [QEntry] stands before the first [NEntry] or [FEntry]. *)
Fixpoint epoch_comes_first (l : list logEntry) : bool :=
  match l with
  | [] => true
  | e :: rest =>
      match entry e with
      | Persistent_NEntry _ | Persistent_FEntry _ => true
      | Persistent_PEntry _ | Persistent_QEntry _ => false
      | _ => epoch_comes_first rest
      end
  end.

(** The entry starts or ends an epoch that is [newEpoch] or a later one. *)
Definition reaches (newEpoch : Z) (e : logEntry) : bool :=
  match entry e with
  | Persistent_NEntry _ | Persistent_FEntry _ => reached newEpoch (epochAfter None (entry e))
  | _ => false
  end.

(** The epoch changes the log of [Sample] gives for the epochs 2 and 3. *)
Module SampleChange.

Definition to (newEpoch : Z) : EpochChange :=
  match constructEpochChange newEpoch Sample.wal with
  | Ok ec _ => ec
  | _ => {| NewEpoch := newEpoch; EC_Checkpoints := []; PSet := []; QSet := [] |}
  end.

Definition to2 : EpochChange := Eval vm_compute in to 2.
Definition to3 : EpochChange := Eval vm_compute in to 3.

(** A log that was cut in front of its epochs: a checkpoint, then a
    preprepared batch, then the start of epoch 1. *)
Definition cut : persisted :=
  {| nextIndex := 3;
     log := [ {| index := 0; entry := Persistent_CEntry Toy.checkpoint0 |};
              {| index := 1; entry := Persistent_QEntry {| QEntry_SeqNo := 1; QEntry_Digest := "a";
                                                           QEntry_Requests := [] |} |};
              {| index := 2; entry := Persistent_NEntry
                                        {| NEntry_SeqNo := 1;
                                           NEntry_EpochConfig := {| Number := 1; Leaders := [0] |} |} |} ] |}.

End SampleChange.
(** ** The life cycle of the state machine *)

(** The state an event asks for: [Initialize] a machine that was not initialized,
    [LoadEntry] and [CompleteInitialization] one that is loading, the events of
    normal operation one that is initialized.  [Transfer] and the two
    acknowledgements ask for nothing. *)
Definition phase (ev : StateEvent) : option stateMachineState :=
  match ev with
  | StateEvent_Initialize _ => Some smUninitialized
  | StateEvent_LoadEntry _ _ | StateEvent_CompleteInitialization => Some smLoadingPersisted
  | StateEvent_Tick | StateEvent_Step _ _ | StateEvent_AddResults _
  | StateEvent_AddClientResults _ => Some smInitialized
  | _ => None
  end.

(** The text of the assertion that refuses an event in the wrong state. *)
Definition refusal (ev : StateEvent) : string :=
  match ev with
  | StateEvent_Initialize _ => "state machine has already been initialized"
  | StateEvent_LoadEntry _ _ | StateEvent_CompleteInitialization =>
      "state machine has already finished loading persisted data"
  | _ => "cannot apply events to an uninitialized state machine"
  end.

(** The state of the machine after an event, from the state before it. *)
Definition stateAfter (ev : StateEvent) (s : stateMachineState) : stateMachineState :=
  match ev, s with
  | StateEvent_Initialize _, smUninitialized => smLoadingPersisted
  | StateEvent_CompleteInitialization, smLoadingPersisted => smInitialized
  | _, _ => s
  end.

(** A piece of the orchestrator that leaves [sm.state] as it is, however it ends. *)
Definition keeps_state {W A} (m : M (StateMachine W) A) : Prop :=
  ∀ sm, state (out_state (m sm)) = state sm.

(** The [LoadEntry] events for the entries of a log. *)
Definition loadEvents (l : list logEntry) : list StateEvent :=
  (fun e => StateEvent_LoadEntry (index e) (entry e)) <$> l.

(** The state machine with another log store. *)
Definition with_log {W} (p : persisted) (sm : StateMachine W) : StateMachine W :=
  {| state := state sm; myConfig := myConfig sm; thePersisted := Some p;
     components := components sm |}.

(** The write-ahead requests of [actions] are the first ones of what [m] returns. *)
Definition writes_first {S} (actions : actionSet) (m : M S actionSet) : Prop :=
  ∀ s r s', m s = Ok r s' → WriteAhead actions `prefix_of` WriteAhead r.

(** State machines on the small instance of the components. *)
Module SampleMachine.

(** After [Initialize]: loading, with nothing loaded yet. *)
Definition loading : StateMachine Toy.world :=
  Eval vm_compute in
    default newStateMachine (Toy.after [StateEvent_Initialize Toy.parameters]).

(** Running on the log of [Sample], and waiting for a state transfer. *)
Definition waiting : StateMachine Toy.world :=
  {| state := smInitialized; myConfig := Some Toy.parameters;
     thePersisted := Some Sample.wal;
     components := Some {| Toy.low := 5; Toy.stop := 10; Toy.active := Some Toy.networkState;
                           Toy.transferring := true; Toy.cpState := 0; Toy.pending := [];
                           Toy.ticks := 0 |} |}.

(** The checkpoint that the state transfer brings. *)
Definition transferred : CEntry :=
  {| CEntry_SeqNo := 20; CheckpointValue := "twenty";
     CEntry_NetworkState := Some Toy.networkState |}.

Definition afterTransfer : Outcome (StateMachine Toy.world) actionSet :=
  Eval vm_compute in
    applyEvent (comps := Toy.comps) 3 (StateEvent_Transfer transferred) waiting.

Definition transferActions : actionSet :=
  Eval vm_compute in
    match afterTransfer with
    | Ok r _ => r
    | _ => emptyActions
    end.

End SampleMachine.
(** ** Outstanding requests: the buckets and their counters *)

(** Every counter points at a request number that is not committed. *)
Definition counters_uncommitted {cops : ClientOps} (a : allOutstandingReqs) : Prop :=
  ∀ b bo id co, buckets a !! b = Some bo → clients bo !! id = Some co →
    isCommitted (nextReqNo co) (client co) = false.

(** The two buckets hold counters for the same clients, with the same stride. *)
Definition same_clients (bo bo' : bucketOutstandingReqs) : Prop :=
  ∀ id, option_Forall2 (fun co co' => numBuckets co' = numBuckets co ∧ client co' = client co)
                       (clients bo !! id) (clients bo' !! id).

(** The outstanding requests [a'] have the buckets of [a], each for the same
    clients, and no bucket but [bucket] differs. *)
Definition same_buckets (bucket : Z) (a a' : allOutstandingReqs) : Prop :=
  ∀ b, option_Forall2 (fun bo bo' => same_clients bo bo' ∧ (b ≠ bucket → bo' = bo))
                      (buckets a !! b) (buckets a' !! b).

(** The tracker of [Toy] with its iterator set back to the start of the
    available list, and what [advanceRequests] makes of it. *)
Module SampleTracker.

Definition rewound : tracker Toy.sequences :=
  {| ao := set_availableIterator (resetIterator (availableIterator (ao Toy.tracker0)))
                                 (ao Toy.tracker0);
     heap := heap Toy.tracker0 |}.

Definition advanced : tracker Toy.sequences :=
  Eval vm_compute in out_state (advanceRequests (sops := Toy.sops) rewound).

End SampleTracker.
(** ** The log replay tool *)

(** The event is of one of the two types for which the flags have no name. *)
Definition unlisted (event : Mircat.RecordedEvent) : Prop :=
  match Mircat.RecordedStateEvent event with
  | Some (Mircat.Recorded (StateEvent_AddClientResults _))
  | Some (Mircat.Recorded (StateEvent_Transfer _)) => True
  | _ => False
  end.

(** The recorded event is an [Initialize]. *)
Definition initializes (event : Mircat.RecordedEvent) : bool :=
  match Mircat.RecordedStateEvent event with
  | Some (Mircat.Recorded (StateEvent_Initialize _)) => true
  | _ => false
  end.

(** The action set asks nothing of the clients' requests. *)
Definition no_client_actions (a : actionSet) : Prop :=
  AllocatedRequests a = [] ∧ StoreRequests a = [] ∧ ForwardRequests a = [].

(** The action set asks for nothing but the clients' requests. *)
Definition only_client_actions (a : actionSet) : Prop :=
  Send a = [] ∧ Commits a = [] ∧ Hash a = [] ∧ WriteAhead a = [] ∧ StateTransfer a = None.

(** What is pending for the nodes is split: the actions in [pendingActions],
    the actions on the clients' requests in [pendingClientActions]. *)
Definition pending_split {W} (s : Mircat.stateMachines W) : Prop :=
  ∀ id node, s !! id = Some node →
    (∀ p, Mircat.pendingActions node = Some p → no_client_actions p)
    ∧ only_client_actions (Mircat.pendingClientActions node).

(** A replay of one node that has run its start-up, and flags that ask for the
    [Tick] events of node 1. *)
Module SampleReplay.

Definition node1 : Mircat.stateMachine Toy.world :=
  {| Mircat.machine := default newStateMachine (Toy.after Toy.startup);
     Mircat.pendingActions := Some (withCommits ["batch"]);
     Mircat.pendingClientActions := emptyActions |}.

Definition nodes : Mircat.stateMachines Toy.world := {[ 1 := node1 ]}.

Definition ticksOfNode1 : Mircat.flags :=
  {| Mircat.flag_interactive := true;
     Mircat.flag_nodeIDs := Some [1];
     Mircat.flag_eventTypes := Some ["Tick"];
     Mircat.flag_notEventTypes := None;
     Mircat.flag_stepTypes := None;
     Mircat.flag_notStepTypes := None;
     Mircat.flag_verboseText := false;
     Mircat.flag_statusIndices := Some [3];
     Mircat.flag_logLevel := "debug" |}.

Definition accepted : Mircat.arguments :=
  Eval vm_compute in
    match Mircat.parseArgs ticksOfNode1 with
    | inr a => a
    | inl _ => {| Mircat.interactive := false; Mircat.logLevel := Mircat.LevelInfo;
                  Mircat.nodeIDs := None; Mircat.eventTypes := None;
                  Mircat.notEventTypes := None; Mircat.stepTypes := None;
                  Mircat.notStepTypes := None; Mircat.statusIndices := None;
                  Mircat.verboseText := false |}
    end.

End SampleReplay.

(** The event passes the node filter and the filters on the types. *)
Definition selected (a : Mircat.arguments) (event : Mircat.RecordedEvent) : bool :=
  negb (Mircat.excludedByNodeID event (Mircat.nodeIDs a))
  && match Mircat.shouldPrint a event with
     | inr shown => shown
     | inl _ => false
     end.

(** The events with their numbers in the input, counted from [index] on. *)
Definition numbered (index : Z) (input : list Mircat.RecordedEvent)
  : list (Z * Mircat.RecordedEvent) :=
  imap (fun i event => (index + Z.of_nat (S i), event)) input.

(** The lines for the selected events of the input. *)
Definition selectedLines (textFormatEvent : Mircat.RecordedEvent → bool → option bytes)
           (a : Mircat.arguments) (index : Z) (input : list Mircat.RecordedEvent)
  : list Mircat.line :=
  omap (fun '(i, event) =>
          if selected a event
          then Mircat.EventLine i <$> textFormatEvent event (negb (Mircat.verboseText a))
          else None)
       (numbered index input).

Module SampleCat.

Definition textOfEvent (event : Mircat.RecordedEvent) (compact : bool) : option bytes :=
  Some (if compact then "event" else "event in full").

Definition textOfActions (actions : actionSet) (compact : bool) : option bytes :=
  Some "actions".

Definition textOfStatus (sm : StateMachine Toy.world) : bytes := "status".

(** A state machine that logs, at the level of information, that it was
    reinitialized: at the end of its start-up and at a state transfer. *)
Definition logOf (level : Mircat.LogLevel) (sm : StateMachine Toy.world) (ev : StateEvent)
  : list bytes :=
  match level, ev with
  | (Mircat.LevelDebug | Mircat.LevelInfo),
    (StateEvent_CompleteInitialization | StateEvent_Transfer _) =>
      ["state machine reinitialized"]
  | _, _ => []
  end.

Definition none : Mircat.arguments :=
  {| Mircat.interactive := false; Mircat.logLevel := Mircat.LevelInfo;
     Mircat.nodeIDs := None; Mircat.eventTypes := None;
     Mircat.notEventTypes := None; Mircat.stepTypes := None;
     Mircat.notStepTypes := None; Mircat.statusIndices := None;
     Mircat.verboseText := false |}.

Definition ticksOfNode1 : Mircat.flags :=
  {| Mircat.flag_interactive := false;
     Mircat.flag_nodeIDs := Some [1];
     Mircat.flag_eventTypes := Some ["Tick"];
     Mircat.flag_notEventTypes := None;
     Mircat.flag_stepTypes := None;
     Mircat.flag_notStepTypes := None;
     Mircat.flag_verboseText := false;
     Mircat.flag_statusIndices := None;
     Mircat.flag_logLevel := "" |}.

Definition filtering : Mircat.arguments :=
  Eval vm_compute in
    match Mircat.parseArgs ticksOfNode1 with
    | inr a => a
    | inl _ => none
    end.

Definition nodes1and2 : Mircat.flags :=
  {| Mircat.flag_interactive := true;
     Mircat.flag_nodeIDs := Some [1; 2];
     Mircat.flag_eventTypes := None;
     Mircat.flag_notEventTypes := None;
     Mircat.flag_stepTypes := None;
     Mircat.flag_notStepTypes := None;
     Mircat.flag_verboseText := false;
     Mircat.flag_statusIndices := None;
     Mircat.flag_logLevel := "" |}.

Definition replaying : Mircat.arguments :=
  Eval vm_compute in
    match Mircat.parseArgs nodes1and2 with
    | inr a => a
    | inl _ => none
    end.

Definition event (nodeId : Z) (ev : StateEvent) : Mircat.RecordedEvent :=
  {| Mircat.NodeId := nodeId; Mircat.RecordedStateEvent := Some (Mircat.Recorded ev) |}.

Definition input : list Mircat.RecordedEvent :=
  [event 1 StateEvent_Tick; event 2 StateEvent_Tick;
   event 1 StateEvent_CompleteInitialization; event 1 StateEvent_Tick].

Definition inputOfNode1 : list Mircat.RecordedEvent :=
  [event 1 (StateEvent_Initialize Toy.parameters); event 1 StateEvent_ActionsReceived].

(** The start-up of node 1 and one [ActionsReceived], replayed with the status
    asked for after the second event. *)
Definition startupOfNode1 : list Mircat.RecordedEvent :=
  event 1 <$> (Toy.startup ++ [StateEvent_ActionsReceived]).

Definition withStatus : Mircat.arguments :=
  {| Mircat.interactive := true; Mircat.logLevel := Mircat.LevelInfo;
     Mircat.nodeIDs := None; Mircat.eventTypes := None;
     Mircat.notEventTypes := None; Mircat.stepTypes := None;
     Mircat.notStepTypes := None; Mircat.statusIndices := Some [2];
     Mircat.verboseText := false |}.

End SampleCat.

(** * Properties *)

(** ** Monad equations *)

Lemma bind_Ok {S A B} (m : M S A) (k : A → M S B) s a s' :
  m s = Ok a s' → bind m k s = k a s'.
Proof. intros H. unfold bind. by rewrite H. Qed.

Lemma bind_Panic {S A B} (m : M S A) (k : A → M S B) s p s' :
  m s = Panic p s' → bind m k s = Panic p s'.
Proof. intros H. unfold bind. by rewrite H. Qed.

Lemma bind_OutOfFuel {S A B} (m : M S A) (k : A → M S B) s s' :
  m s = OutOfFuel s' → bind m k s = OutOfFuel s'.
Proof. intros H. unfold bind. by rewrite H. Qed.

Lemma assertEqualf_outcome {S} lhs rhs format (s : S) :
  assertEqualf lhs rhs format s = Ok tt s
  ∨ assertEqualf lhs rhs format s = Panic (AssertionFailed format) s.
Proof. unfold assertEqualf. case_decide; [by left | by right]. Qed.

Lemma concat_empty_l o : concat emptyActions o = Some o.
Proof. destruct o as [? ? ? ? [t|] ? ? ?]; reflexivity. Qed.

Lemma concat_empty_r a : concat a emptyActions = Some a.
Proof.
  destruct a as [? ? ? ? st ? ? ?]; unfold concat; simpl.
  rewrite !app_nil_r. by destruct st.
Qed.

Lemma concatM_empty_l {S} o (s : S) : concatM emptyActions o s = Ok o s.
Proof. unfold concatM. by rewrite concat_empty_l. Qed.

(** ** Interface comparison

    A pointer passed as [interface{}] never equals the nil interface, whether the
    pointer is nil or not: the guard [assertNotEqualf(p, nil, ...)] cannot fail. *)

Lemma boxed_pointer_is_not_nil_interface {A} pointee (p : option A) :
  box_ptr pointee p ≠ iface_nil.
Proof. unfold box_ptr. discriminate. Qed.

Lemma assertNotEqualf_pointer_nil {S A} pointee (p : option A) format (s : S) :
  assertNotEqualf (box_ptr pointee p) iface_nil format s = Ok tt s.
Proof.
  unfold assertNotEqualf. case_decide as H; [|reflexivity].
  by apply boxed_pointer_is_not_nil_interface in H.
Qed.

(** ** Log recovery *)

Lemma iterate_from_recoverLog_skips l st :
  Forall neither_checkpoint_nor_epoch_end l →
  iterate_from recoverLog_iterator l st = Ok tt st.
Proof.
  induction 1 as [|e l He _ IH]; [reflexivity|].
  cbn [iterate_from]. unfold neither_checkpoint_nor_epoch_end in He.
  destruct (entry e) eqn:E; try done;
    unfold bind; cbn; rewrite ?E; cbn; exact IH.
Qed.

(** A log that holds no checkpoint and no epoch end is recovered without any
    panic: [recoverLog] returns the empty action set. *)
Lemma recoverLog_no_checkpoint p :
  Forall neither_checkpoint_nor_epoch_end (log p) →
  recoverLog p = Ok emptyActions p.
Proof.
  intros H. unfold recoverLog, recoverLog_body.
  unfold bind at 1. cbn [get wal].
  unfold bind at 1. rewrite (iterate_from_recoverLog_skips _ _ H).
  unfold bind at 1. cbn [get lastCEntry].
  unfold bind. rewrite assertNotEqualf_pointer_nil. cbn. by destruct p.
Qed.

(** C6 (the code departs from the claim).  [recoverLog] on a log without any
    [CEntry]: on the empty log, and on a log that holds one [PEntry], it returns
    the empty action set and does not panic, because the guard compares the nil
    [*pb.CEntry] with the nil interface; on a log that starts with an [FEntry] it
    panics, with the nil dereference of [lastCEntry.SeqNo] and not with the
    assertion. *)
Theorem recoverLog_without_CEntry :
  recoverLog newPersisted = Ok emptyActions newPersisted
  ∧ (let p := {| nextIndex := 1;
                 log := [ {| index := 0;
                             entry := Persistent_PEntry
                                        {| PEntry_SeqNo := 1; PEntry_Digest := "d" |} |} ] |} in
     recoverLog p = Ok emptyActions p)
  ∧ (let p := {| nextIndex := 1;
                 log := [ {| index := 0; entry := Persistent_FEntry Toy.epoch0 |} ] |} in
     recoverLog p = Panic NilDereference p).
Proof. repeat split; reflexivity. Qed.

(** On a log whose checkpoint comes first, every [FEntry] runs
    [persisted.truncate] at the sequence number of the last [CEntry] before it. *)
Lemma recoverLog_onFEntry_truncates f st c :
  lastCEntry st = Some c →
  recoverLog_onFEntry f st =
  (t <~ zoom wal set_wal (truncate (CEntry_SeqNo c)) ;;
   a <~ concatM (actions st) t ;;
   modify (set_actions a)) st.
Proof.
  intros H. unfold recoverLog_onFEntry.
  unfold bind at 1. cbn [get].
  unfold bind at 1. rewrite assertNotEqualf_pointer_nil. by rewrite H.
Qed.

(** ** Acknowledgement events *)

(** C8.  [ActionsReceived] and [ClientActionsReceived] return the empty action
    set and leave the state machine as it was, in whatever state it is; so does
    any stream of them, applied one after the other. *)
Theorem acknowledgements_are_noops {W} {comps : Components W}
        (fuel : nat) (sm : StateMachine W) (events : list StateEvent) :
  Forall acknowledgement events →
  applyEvent fuel StateEvent_ActionsReceived sm = Ok emptyActions sm
  ∧ applyEvent fuel StateEvent_ClientActionsReceived sm = Ok emptyActions sm
  ∧ run fuel events sm = (fun _ => Ok emptyActions sm) <$> events.
Proof.
  intros H. split; [reflexivity|]. split; [reflexivity|].
  induction H as [|ev events [-> | ->] _ IH]; [reflexivity| |];
    cbn [run fmap list_fmap]; cbn; f_equal; exact IH.
Qed.

Lemma acknowledgements_are_noops_witness :
  let sm := out_state (List.last (run (comps := Toy.comps) 3 Toy.startup newStateMachine)
                                 (OutOfFuel newStateMachine)) in
  state sm = smInitialized
  ∧ run (comps := Toy.comps) 3
        [StateEvent_ActionsReceived; StateEvent_ClientActionsReceived;
         StateEvent_ActionsReceived] sm
    = [Ok emptyActions sm; Ok emptyActions sm; Ok emptyActions sm].
Proof.
  split; [reflexivity|].
  refine (proj2 (proj2 (acknowledgements_are_noops (comps := Toy.comps) 3 _ _ _))).
  repeat (apply Forall_cons; split; [unfold acknowledgement; tauto|]).
  apply Forall_nil_2.
Defined.

(** ** Checkpoint results *)

Lemma add64_exact a b : 0 ≤ a → 0 ≤ b → a + b < 2 ^ 64 → add64 a (to_uint64 b) = a + b.
Proof.
  intros Ha Hb Hlt. unfold add64, to_uint64, wrap64.
  rewrite (Z.mod_small b) by lia. apply Z.mod_small. lia.
Qed.

(** C3.  One checkpoint result of an [AddResults] event, in a state machine whose
    commit state has an active network state and whose epoch tracker has a current
    epoch.  Below the low watermark it is skipped: same action set, same state, no
    panic.  Otherwise the assertion fails unless its sequence number is the low
    watermark plus the checkpoint interval (in [uint64] arithmetic, which is the
    plain sum when that fits); when it is, [applyCheckpointResult] runs, and the
    allocations follow exactly when [stopAtSeqNo] went up. *)
Theorem processCheckpointResult_cases {W} {comps : Components W}
        (actions : actionSet) (cr : CheckpointResult) (s : store W)
        (ns : NetworkState) (ce : epochTarget) :
  commitState_activeState (theComponents s) = Some ns →
  epochTracker_currentEpoch (theComponents s) = Some ce →
  let lw := commitState_lowWatermark (theComponents s) in
  let interval := CheckpointInterval (Config ns) in
  let expected := add64 lw (to_uint64 interval) in
  (CR_SeqNo cr < lw →
     processCheckpointResult actions cr s = Ok actions s)
  ∧ (lw ≤ CR_SeqNo cr → CR_SeqNo cr ≠ expected →
     processCheckpointResult actions cr s =
     Panic (AssertionFailed
              "new checkpoint results muts be exactly one checkpoint interval after the last") s)
  ∧ (lw ≤ CR_SeqNo cr → CR_SeqNo cr = expected →
     processCheckpointResult actions cr s = applyAcceptedCheckpoint actions ce cr s
     ∧ applyAcceptedCheckpoint actions ce cr s =
       match commitState_applyCheckpointResult
               (currentActiveEpoch ce ≫= epochConfig) cr s with
       | Ok o s' =>
           match concat actions o with
           | Some actions' =>
               (if commitState_stopAtSeqNo (theComponents s)
                   <? commitState_stopAtSeqNo (theComponents s')
                then
                  clientTracker_allocate (CR_SeqNo cr) (CR_NetworkState cr) ;;;
                  concatCall actions'
                    (clientHashDisseminator_allocate (CR_SeqNo cr) (CR_NetworkState cr))
                else ret actions') s'
           | None =>
               Panic (ExplicitPanic
                        "attempted to concatenate two concurrent state transfer requests") s'
           end
       | Panic p s' => Panic p s'
       | OutOfFuel s' => OutOfFuel s'
       end)
  ∧ (0 ≤ lw → 0 ≤ interval → lw + interval < 2 ^ 64 → expected = lw + interval).
Proof.
  intros Hactive Hepoch lw interval expected.
  assert (Hguards : lw ≤ CR_SeqNo cr →
            processCheckpointResult actions cr s =
            (assertEqual (iface_uint64 expected) (iface_uint64 (CR_SeqNo cr))
               "new checkpoint results muts be exactly one checkpoint interval after the last" ;;;
             applyAcceptedCheckpoint actions ce cr) s).
  { intros Hle. unfold processCheckpointResult, bind, readW. fold lw.
    destruct (Z.ltb_spec (CR_SeqNo cr) lw); [lia|].
    cbn. rewrite Hactive. fold interval. fold expected.
    destruct (assertEqual _ _ _ s) as [[] s1|p s1|s1] eqn:E; try reflexivity.
    unfold assertEqual, assertEqualf in E. case_decide; [|discriminate].
    injection E as <-. cbn. by rewrite Hepoch. }
  split; [|split; [|split]].
  - intros Hlt. unfold processCheckpointResult, bind, readW. fold lw.
    destruct (Z.ltb_spec (CR_SeqNo cr) lw); [reflexivity | lia].
  - intros Hle Hne. rewrite Hguards by done.
    unfold bind, assertEqual, assertEqualf. case_decide as E; [|reflexivity].
    injection E as E. congruence.
  - intros Hle Heq. split.
    + rewrite Hguards by done.
      unfold bind, assertEqual, assertEqualf. case_decide as E; [reflexivity|congruence].
    + unfold applyAcceptedCheckpoint, bind, readW, concatCall, bind.
      destruct (currentActiveEpoch ce) as [ae|]; cbn;
        match goal with |- context [commitState_applyCheckpointResult ?e cr s] =>
          destruct (commitState_applyCheckpointResult e cr s) as [o s'|p s'|s']
        end; try reflexivity;
        unfold concatM; destruct (concat actions o); reflexivity.
  - intros. by apply add64_exact.
Qed.

(** Stale checkpoint results alone change nothing. *)
Lemma stale_checkpoint_results_skipped {W} {comps : Components W}
      (actions : actionSet) (crs : list CheckpointResult) (s : store W) :
  Forall (fun cr => CR_SeqNo cr < commitState_lowWatermark (theComponents s)) crs →
  foldActions processCheckpointResult actions crs s = Ok actions s.
Proof.
  induction 1 as [|cr crs Hcr _ IH]; [reflexivity|].
  cbn [foldActions]. unfold bind at 1.
  unfold processCheckpointResult at 1, bind at 1, readW at 1.
  destruct (Z.ltb_spec (CR_SeqNo cr) (commitState_lowWatermark (theComponents s)));
    [exact IH | lia].
Qed.

Lemma processCheckpointResult_cases_witness :
  let s := Toy.runningStore in
  Toy.after Toy.running ≫= Toy.storeOf = Some s
  ∧ commitState_lowWatermark (Components := Toy.comps) (theComponents s) = 5
  ∧ processCheckpointResult (comps := Toy.comps) emptyActions (Toy.checkpointAt 3) s
    = Ok emptyActions s
  ∧ processCheckpointResult (comps := Toy.comps) emptyActions (Toy.checkpointAt 7) s
    = Panic (AssertionFailed
         "new checkpoint results muts be exactly one checkpoint interval after the last") s
  ∧ processCheckpointResult (comps := Toy.comps) emptyActions (Toy.checkpointAt 10) s
    = applyAcceptedCheckpoint (comps := Toy.comps) emptyActions
        {| currentActiveEpoch := None; targetState := 0 |} (Toy.checkpointAt 10) s.
Proof.
  cbv zeta.
  split; [vm_compute; reflexivity|]. split; [vm_compute; reflexivity|].
  assert (Hactive : commitState_activeState (Components := Toy.comps)
                      (theComponents Toy.runningStore) = Some Toy.networkState)
    by (vm_compute; reflexivity).
  assert (Hepoch : epochTracker_currentEpoch (Components := Toy.comps)
                     (theComponents Toy.runningStore)
                   = Some {| currentActiveEpoch := None; targetState := 0 |})
    by (vm_compute; reflexivity).
  split; [|split].
  - apply (processCheckpointResult_cases (comps := Toy.comps) emptyActions
             (Toy.checkpointAt 3) Toy.runningStore _ _ Hactive Hepoch).
    vm_compute. reflexivity.
  - apply (processCheckpointResult_cases (comps := Toy.comps) emptyActions
             (Toy.checkpointAt 7) Toy.runningStore _ _ Hactive Hepoch).
    + vm_compute. discriminate.
    + vm_compute. discriminate.
  - apply (processCheckpointResult_cases (comps := Toy.comps) emptyActions
             (Toy.checkpointAt 10) Toy.runningStore _ _ Hactive Hepoch).
    + vm_compute. discriminate.
    + vm_compute. reflexivity.
Defined.

(** ** Outstanding requests: the two digest maps *)

Lemma skipPreviouslyCommitted_no_panic {cops : ClientOps} fuel cors p cors' :
  skipPreviouslyCommitted fuel cors ≠ Panic p cors'.
Proof.
  revert cors. induction fuel as [|fuel IH]; intros cors; cbn; [discriminate|].
  destruct (isCommitted _ _); cbn; [apply IH | discriminate].
Qed.

(** [skipPreviouslyCommitted] only moves [nextReqNo]. *)
Lemma skipPreviouslyCommitted_fields {cops : ClientOps} fuel cors :
  numBuckets (out_state (skipPreviouslyCommitted fuel cors)) = numBuckets cors
  ∧ client (out_state (skipPreviouslyCommitted fuel cors)) = client cors.
Proof.
  revert cors. induction fuel as [|fuel IH]; intros cors; cbn; [done|].
  destruct (isCommitted _ _); cbn; [|done].
  destruct (IH (set_nextReqNo (add64 (nextReqNo cors) (numBuckets cors)) cors)) as [-> ->].
  done.
Qed.

(** One acknowledgement drained by [advanceRequests]: a digest that is
    outstanding against a sequence is taken out of the outstanding map and
    [satisfyOutstanding] runs once on that sequence; any other digest is cached as
    known correct. *)
Lemma advanceRequests_loop_step {W} {sops : SequenceOps W} ack pending actions (t : tracker W) :
  advanceRequests_loop (ack :: pending) actions t =
  let t0 := set_ao (set_availableIterator (advanceIterator (availableIterator (ao t))) (ao t)) t in
  match outstandingRequests (ao t) !! Digest ack with
  | Some seq =>
      let t1 := set_ao (set_outstandingRequests
                          (delete (Digest ack) (outstandingRequests (ao t))) (ao t0)) t0 in
      match satisfyOutstanding seq ack (heap t) with
      | Ok o w =>
          match concat actions o with
          | Some actions' => advanceRequests_loop pending actions' (set_heap w t1)
          | None =>
              Panic (ExplicitPanic
                       "attempted to concatenate two concurrent state transfer requests")
                    (set_heap w t1)
          end
      | Panic p w => Panic p (set_heap w t1)
      | OutOfFuel w => OutOfFuel (set_heap w t1)
      end
  | None =>
      advanceRequests_loop pending actions
        (set_ao (set_correctRequests (<[Digest ack := ack]> (correctRequests (ao t))) (ao t0)) t0)
  end.
Proof.
  cbn [advanceRequests_loop]. unfold bind at 1. cbn [modify].
  unfold bind at 1. cbn [get]. cbn [ao set_ao set_availableIterator outstandingRequests].
  destruct (outstandingRequests (ao t) !! Digest ack) as [seq|]; [|reflexivity].
  unfold bind at 1. cbn [modify]. unfold bind at 1, zoom. cbn [heap set_ao].
  destruct (satisfyOutstanding seq ack (heap t)) as [o w|p w|w]; try reflexivity.
  unfold bind, concatM. destruct (concat actions o); reflexivity.
Qed.

Section OutstandingFacts.
Context {cops : ClientOps} {W : Type} {sops : SequenceOps W}.

(** One acknowledgement of [applyAcks] touches the two digest maps at its own
    digest only, and keeps them apart. *)
Lemma applyAck_digests_apart fuel bucket seq os req a :
  digests_apart a →
  digests_apart (out_state (applyAck fuel bucket seq os req a)).
Proof.
  intros Hinv. unfold applyAck, bind. cbn [get].
  destruct (buckets a !! bucket) as [bo|]; [|exact Hinv].
  destruct (clients bo !! ClientId req) as [co|]; [|exact Hinv].
  case_decide; [exact Hinv|].
  destruct (correctRequests a !! Digest req) as [known|] eqn:Hknown; cbn.
  - destruct (skipPreviouslyCommitted fuel _) as [[] co'|p co'|co']; cbn;
      intros key [v Hv]; cbn in *;
      (destruct (decide (key = Digest req)) as [->|Hne];
       [by rewrite lookup_delete_eq in Hv
       |rewrite lookup_delete_ne in Hv by done; apply Hinv; eauto]).
  - destruct (skipPreviouslyCommitted fuel _) as [[] co'|p co'|co']; cbn;
      intros key [v Hv]; cbn in *;
      (destruct (decide (key = Digest req)) as [->|Hne];
       [congruence
       |rewrite lookup_insert_ne by done; apply Hinv; eauto]).
Qed.

Lemma applyAcks_loop_digests_apart fuel bucket seq batch os a :
  digests_apart a →
  digests_apart (out_state (applyAcks_loop fuel bucket seq os batch a)).
Proof.
  revert os a. induction batch as [|req batch IH]; intros os a Hinv; [exact Hinv|].
  cbn [applyAcks_loop]. unfold bind.
  pose proof (applyAck_digests_apart fuel bucket seq os req a Hinv) as H1.
  destruct (applyAck fuel bucket seq os req a) as [[os'|err] a'|p a'|a']; cbn in *; auto.
Qed.

Lemma advanceRequests_loop_digests_apart pending actions (t : tracker W) :
  digests_apart (ao t) →
  digests_apart (ao (out_state (advanceRequests_loop pending actions t))).
Proof.
  revert actions t. induction pending as [|ack pending IH]; intros actions t Hinv; [exact Hinv|].
  rewrite advanceRequests_loop_step. cbv zeta.
  destruct (outstandingRequests (ao t) !! Digest ack) as [seq|] eqn:Hout.
  - match goal with |- context [set_heap _ ?x] => set (t1 := x) end.
    assert (H1 : digests_apart (ao t1)).
    { intros key Hkey. cbn in *.
      destruct (decide (key = Digest ack)) as [->|Hne];
        [apply lookup_delete_eq | rewrite lookup_delete_ne by done; by apply Hinv]. }
    destruct (satisfyOutstanding seq ack (heap t)) as [o w|p w|w]; try exact H1.
    destruct (concat actions o); [|exact H1].
    apply IH. exact H1.
  - apply IH. intros key [v Hv]. cbn in *.
    destruct (decide (key = Digest ack)) as [->|Hne]; [done|].
    rewrite lookup_insert_ne in Hv by done. apply Hinv. eauto.
Qed.

Lemma initBucket_maps fuel ns i a :
  ∃ b, out_state (initBucket fuel ns i a) = set_buckets b a.
Proof.
  unfold initBucket.
  destruct (forEach (initClient fuel (Config ns) i) (Clients ns) _) as [[] bo|p bo|bo];
    by eexists.
Qed.

Lemma forEach_initBucket_maps fuel ns (ids : list Z) a :
  ∃ b, out_state (forEach (initBucket fuel ns) ids a) = set_buckets b a.
Proof.
  revert a. induction ids as [|i ids IH]; intros a.
  { exists (buckets a). by destruct a. }
  cbn [forEach]. unfold bind.
  destruct (initBucket_maps fuel ns i a) as [b Hb].
  destruct (initBucket fuel ns i a) as [[] a1|p a1|a1]; cbn in Hb; subst a1;
    [|by eexists..].
  destruct (IH (set_buckets b a)) as [b' ->]. by exists b'.
Qed.

End OutstandingFacts.

(** C10.  The two digest maps of [allOutstandingReqs] never share a key: they
    are apart in what [newOutstandingReqs] returns, and [advanceRequests] and
    [applyAcks] keep them apart, in whatever way they end (an error return or a
    panic included). *)
Theorem correct_and_outstanding_digests_apart
        {cops : ClientOps} {W : Type} {sops : SequenceOps W} :
  (∀ fuel al networkState w a w',
      newOutstandingReqs fuel al networkState w = Ok a w' → digests_apart a)
  ∧ (∀ t : tracker W,
      digests_apart (ao t) → digests_apart (ao (out_state (advanceRequests t))))
  ∧ (∀ fuel bucket seq batch (t : tracker W),
      digests_apart (ao t) →
      digests_apart (ao (out_state (applyAcks fuel bucket seq batch t)))).
Proof.
  split; [|split].
  - intros fuel al ns w a w' H. unfold newOutstandingReqs in H.
    set (a0 := {| buckets := ∅; availableIterator := resetIterator al;
                  correctRequests := ∅; outstandingRequests := ∅ |}) in H.
    destruct (forEach_initBucket_maps fuel ns
                (seqZ 0 (to_uint64 (NumberOfBuckets (Config ns)))) a0) as [b Hb].
    destruct (forEach _ _ a0) as [[] a1|p a1|a1]; try discriminate.
    cbn in Hb. subst a1.
    assert (H1 : digests_apart (set_buckets b a0)).
    { intros key [v Hv]. cbn in Hv. by rewrite lookup_empty in Hv. }
    pose proof (advanceRequests_loop_digests_apart
                  (remaining (availableIterator (set_buckets b a0))) emptyActions
                  {| ao := set_buckets b a0; heap := w |} H1) as H2.
    unfold advanceRequests, bind in H. cbn [get ao] in H.
    destruct (advanceRequests_loop _ _ _) as [o t|p t|t]; try discriminate.
    injection H as <- <-. exact H2.
  - intros t Hinv. unfold advanceRequests, bind. cbn [get].
    by apply advanceRequests_loop_digests_apart.
  - intros fuel bucket seq batch t Hinv. unfold applyAcks, bind. cbn [get].
    unfold assertTruef. destruct (bool_decide _); cbn; [|exact Hinv].
    unfold zoom.
    pose proof (applyAcks_loop_digests_apart fuel bucket seq batch ∅ (ao t) Hinv) as H1.
    destruct (applyAcks_loop fuel bucket seq ∅ batch (ao t)) as [[os|err] a'|p a'|a'];
      cbn in *; try exact H1.
    destruct (allocate seq batch os (heap t)) as [o w|p w|w]; cbn; exact H1.
Qed.

(** ** Outstanding requests: draining the available acknowledgements *)

Lemma recording_satisfyOutstanding {W} (sops : SequenceOps W) seq ack (w : W * callLog) :
  satisfyOutstanding (SequenceOps := recording sops) seq ack w =
  match satisfyOutstanding seq ack (fst w) with
  | Ok a w' => Ok a (w', snd w ++ [(seq, ack)])
  | Panic p w' => Panic p (w', snd w ++ [(seq, ack)])
  | OutOfFuel w' => OutOfFuel (w', snd w ++ [(seq, ack)])
  end.
Proof. reflexivity. Qed.

(** The drain stopped right after its first call. *)
Lemma drained_stopped {W} ack pending (t : tracker (W * callLog)) seq o :
  outstandingRequests (ao t) !! Digest ack = Some seq →
  correctRequests (ao (out_state o)) = correctRequests (ao t) →
  outstandingRequests (ao (out_state o)) = delete (Digest ack) (outstandingRequests (ao t)) →
  snd (heap (out_state o)) = snd (heap t) ++ [(seq, ack)] →
  (∀ a t', o ≠ Ok a t') →
  drained (ack :: pending) t o [(seq, ack)].
Proof.
  intros Hout Hc Ho Hlog Hstop. unfold drained. rewrite Ho.
  split; [exact Hlog|]. split; [apply NoDup_singleton|].
  split.
  { intros seq0 ack0 H. apply list_elem_of_singleton in H. injection H as -> ->.
    split; [apply list_elem_of_here | exact Hout]. }
  split.
  { intros key H. cbn in H. apply list_elem_of_singleton in H. subst key.
    apply lookup_delete_eq. }
  split.
  { intros key H. cbn in H. rewrite list_elem_of_singleton in H.
    by apply lookup_delete_ne. }
  split.
  { intros key (ack' & H1 & H2). exists ack'. by rewrite Hc. }
  intros a t' H. by apply Hstop in H.
Qed.

Lemma advanceRequests_loop_calls {W} (sops : SequenceOps W)
      pending actions (t : tracker (W * callLog)) :
  ∃ calls, drained pending t
             (advanceRequests_loop (sops := recording sops) pending actions t) calls.
Proof.
  revert actions t. induction pending as [|ack pending IH]; intros actions t.
  { exists []. unfold drained. cbn [advanceRequests_loop ret out_state]. rewrite app_nil_r.
    split; [done|]. split; [constructor|].
    split; [intros seq ack H; by apply elem_of_nil in H|].
    split; [intros key H; by apply elem_of_nil in H|].
    split; [done|]. split; [done|].
    intros a t' _ ack H. by apply elem_of_nil in H. }
  rewrite advanceRequests_loop_step. cbv zeta.
  destruct (outstandingRequests (ao t) !! Digest ack) as [seq|] eqn:Hout.
  - (* the digest is outstanding against [seq] *)
    rewrite recording_satisfyOutstanding.
    destruct (satisfyOutstanding seq ack (heap t).1) as [o w|p w|w];
      [destruct (concat actions o) as [actions'|]| |];
      try (exists [(seq, ack)]; apply drained_stopped; (done || discriminate)).
    match goal with |- context [advanceRequests_loop pending actions' ?x] => set (t1 := x) end.
    destruct (IH actions' t1) as (calls & Hlog & Hnd & Hin & Hgone & Hkept & Hcached & Hok).
    assert (Hfresh : Digest ack ∉ callDigest <$> calls).
    { intros Hmem. apply list_elem_of_fmap in Hmem as ([seq' ack'] & Heq & Hmem).
      apply Hin in Hmem as [_ Hmem]. unfold callDigest in Heq. cbn in Heq, Hmem.
      rewrite <- Heq in Hmem. by rewrite lookup_delete_eq in Hmem. }
    exists ((seq, ack) :: calls). unfold drained.
    split. { rewrite Hlog. cbn. by rewrite <- app_assoc. }
    split. { cbn. by apply NoDup_cons. }
    split.
    { intros seq0 ack0 H. apply elem_of_cons in H as [H|H].
      - injection H as -> ->. split; [apply list_elem_of_here | exact Hout].
      - apply Hin in H as [H1 H2]. split; [by apply list_elem_of_further|].
        cbn in H2. apply lookup_delete_Some in H2 as [_ H2]. exact H2. }
    split.
    { intros key Hkey. cbn in Hkey. apply elem_of_cons in Hkey as [->|Hkey].
      - rewrite Hkept by done. cbn. apply lookup_delete_eq.
      - by apply Hgone. }
    split.
    { intros key Hkey. cbn in Hkey. rewrite not_elem_of_cons in Hkey.
      destruct Hkey as [Hne Hkey]. rewrite Hkept by done. cbn.
      by apply lookup_delete_ne. }
    split. { intros key Hkey. by apply Hcached. }
    intros a t' Ha ack0 Hack0.
    destruct (decide (Digest ack0 = Digest ack)) as [Heq|Hne].
    + rewrite Heq, Hout. exists ack. split; [apply list_elem_of_here|done].
    + apply elem_of_cons in Hack0 as [->|Hack0]; [done|].
      specialize (Hok a t' Ha ack0 Hack0). cbn in Hok.
      rewrite lookup_delete_ne in Hok by done.
      destruct (outstandingRequests (ao t) !! Digest ack0); [|exact Hok].
      destruct Hok as (ack' & H1 & H2). exists ack'.
      split; [by apply list_elem_of_further|done].
  - (* the digest is cached *)
    match goal with |- context [advanceRequests_loop pending actions ?x] => set (t1 := x) end.
    destruct (IH actions t1) as (calls & Hlog & Hnd & Hin & Hgone & Hkept & Hcached & Hok).
    assert (Hnew : cached (ao t1) (Digest ack)).
    { exists ack. cbn. by rewrite lookup_insert_eq. }
    exists calls. unfold drained.
    split; [exact Hlog|]. split; [exact Hnd|].
    split.
    { intros seq0 ack0 H. apply Hin in H as [H1 H2].
      split; [by apply list_elem_of_further | exact H2]. }
    split; [exact Hgone|]. split; [exact Hkept|].
    split.
    { intros key (ack' & H1 & H2). apply Hcached.
      destruct (decide (key = Digest ack)) as [->|Hne]; [exact Hnew|].
      exists ack'. cbn. by rewrite lookup_insert_ne. }
    intros a t' Ha ack0 Hack0.
    apply elem_of_cons in Hack0 as [->|Hack0].
    + rewrite Hout. rewrite Ha in Hcached. by apply Hcached.
    + by apply (Hok a t' Ha ack0 Hack0).
Qed.

(** C4.  [advanceRequests] run with the calls of [satisfyOutstanding] recorded.
    The calls it makes are for pairwise different digests, so no digest
    satisfies a sequence twice, however often it is in the queue; each call is
    for an acknowledgement of the queue whose digest was outstanding against that
    very sequence, and the digest is outstanding no more afterwards.  When the
    drain returns, every acknowledgement of the queue whose digest was outstanding
    has had its sequence satisfied, and the digest of every other one is cached as
    known correct. *)
Theorem advanceRequests_satisfies_once {W} (sops : SequenceOps W) (t : tracker (W * callLog)) :
  let o := advanceRequests (sops := recording sops) t in
  let queue := remaining (availableIterator (ao t)) in
  ∃ calls,
    snd (heap (out_state o)) = snd (heap t) ++ calls
    ∧ NoDup (callDigest <$> calls)
    ∧ (∀ seq ack, (seq, ack) ∈ calls →
         ack ∈ queue
         ∧ outstandingRequests (ao t) !! Digest ack = Some seq
         ∧ outstandingRequests (ao (out_state o)) !! Digest ack = None)
    ∧ (∀ a t', o = Ok a t' → ∀ ack, ack ∈ queue →
         match outstandingRequests (ao t) !! Digest ack with
         | Some seq => ∃ ack', (seq, ack') ∈ calls ∧ Digest ack' = Digest ack
         | None => cached (ao t') (Digest ack)
         end).
Proof.
  cbv zeta. unfold advanceRequests, bind. cbn [get].
  destruct (advanceRequests_loop_calls sops (remaining (availableIterator (ao t)))
              emptyActions t) as (calls & Hlog & Hnd & Hin & Hgone & Hkept & Hcached & Hok).
  exists calls.
  split; [exact Hlog|]. split; [exact Hnd|]. split; [|exact Hok].
  intros seq ack H. destruct (Hin _ _ H) as [H1 H2].
  split; [exact H1|]. split; [exact H2|].
  apply Hgone. apply list_elem_of_fmap. by exists (seq, ack).
Qed.

(** ** Outstanding requests: applying a batch of acknowledgements *)

Section ApplyAcksFacts.
Context {cops : ClientOps}.

Lemma strides_succ_r n nb r : strides (S n) nb r = strides n nb (add64 r nb).
Proof. unfold strides. by rewrite Nat.iter_succ_r. Qed.

Lemma strides_add n m nb r : strides (n + m) nb r = strides n nb (strides m nb r).
Proof. unfold strides. by rewrite Nat.iter_add. Qed.

(** Where [skipPreviouslyCommitted] stops. *)
Lemma skipPreviouslyCommitted_Ok fuel cors cors' :
  skipPreviouslyCommitted fuel cors = Ok tt cors' →
  ∃ k : nat,
    cors' = set_nextReqNo (strides k (numBuckets cors) (nextReqNo cors)) cors
    ∧ isCommitted (nextReqNo cors') (client cors') = false
    ∧ ∀ j : nat, (j < k)%nat →
        isCommitted (strides j (numBuckets cors) (nextReqNo cors)) (client cors) = true.
Proof.
  revert cors. induction fuel as [|fuel IH]; intros cors H; [discriminate|].
  cbn in H. destruct (isCommitted (nextReqNo cors) (client cors)) eqn:E; cbn in H.
  - apply IH in H as (k & -> & Hstop & Hbefore). cbn in *.
    exists (S k). rewrite strides_succ_r. split; [done|]. split; [done|].
    intros [|j] Hj; [exact E|]. rewrite strides_succ_r. apply Hbefore. lia.
  - injection H as <-. exists 0%nat. cbn. split; [by destruct cors|].
    split; [done|]. intros j Hj. lia.
Qed.

(** More fuel does not change a run that ended. *)
Lemma skipPreviouslyCommitted_more_fuel fuel fuel' cors cors' :
  skipPreviouslyCommitted fuel cors = Ok tt cors' → (fuel ≤ fuel')%nat →
  skipPreviouslyCommitted fuel' cors = Ok tt cors'.
Proof.
  revert fuel' cors. induction fuel as [|fuel IH]; intros fuel' cors H Hle; [discriminate|].
  destruct fuel' as [|fuel']; [lia|]. cbn in *.
  destruct (isCommitted (nextReqNo cors) (client cors)); cbn in *; [|done].
  apply (IH fuel'); [done|lia].
Qed.

(** Enough fuel ends the run when the skipping ends. *)
Lemma skipPreviouslyCommitted_ends cors :
  0 ≤ nextReqNo cors < 2 ^ 64 →
  skipping_ends (client cors) (numBuckets cors) →
  ∃ fuel cors', skipPreviouslyCommitted fuel cors = Ok tt cors'.
Proof.
  intros Hrange H. destruct (H (nextReqNo cors) Hrange) as [k Hk]. clear H Hrange.
  revert cors Hk. induction k as [|k IH]; intros cors Hk.
  - exists 1%nat, cors. cbn in *. by rewrite Hk.
  - rewrite strides_succ_r in Hk.
    destruct (IH (set_nextReqNo (add64 (nextReqNo cors) (numBuckets cors)) cors) Hk)
      as (fuel & cors' & H).
    destruct (isCommitted (nextReqNo cors) (client cors)) eqn:E.
    + exists (S fuel), cors'. cbn. by rewrite E.
    + exists 1%nat, cors. cbn. by rewrite E.
Qed.

Lemma add64_range a b : 0 ≤ add64 a b < 2 ^ 64.
Proof. unfold add64, wrap64. apply Z.mod_pos_bound. lia. Qed.

Lemma matches_dec bucket a req : Decision (matches bucket a req).
Proof.
  unfold matches.
  destruct (buckets a !! bucket) as [bo|] eqn:Hb;
    [|right; intros (? & ? & ? & _); congruence].
  destruct (clients bo !! ClientId req) as [co|] eqn:Hc;
    [|right; intros (? & ? & H1 & H2 & _); congruence].
  destruct (decide (nextReqNo co = ReqNo req)) as [Hn|Hn].
  - left. eauto.
  - right. intros (? & ? & H1 & H2 & H3). congruence.
Qed.

(** An acknowledgement that does not match is refused with an error, and
    nothing is written. *)
Lemma applyAck_rejects fuel bucket seq os req a :
  is_Some (buckets a !! bucket) → ¬ matches bucket a req →
  applyAck fuel bucket seq os req a = Ok (Failure (rejection bucket a req)) a.
Proof.
  intros [bo Hb] Hno. unfold applyAck, rejection, bind. cbn [get]. rewrite Hb. cbn.
  destruct (clients bo !! ClientId req) as [co|] eqn:Hc; [|done].
  case_decide as Hn; [done|].
  exfalso. apply Hno. exists bo, co. split; [done|]. split; [done|].
  by destruct (decide (nextReqNo co = ReqNo req)).
Qed.

(** An acknowledgement that matches is filed, and the client's counter moves on. *)
Lemma applyAck_accepts fuel bucket seq os req a bo co :
  buckets a !! bucket = Some bo → clients bo !! ClientId req = Some co →
  nextReqNo co = ReqNo req →
  applyAck fuel bucket seq os req a =
  match skipPreviouslyCommitted fuel
          (set_nextReqNo (add64 (nextReqNo co) (numBuckets co)) co) with
  | Ok _ co' =>
      Ok (Success (noteOutstanding req a os))
         (storeCounter bucket bo (ClientId req) co' (fileDigest seq req a))
  | Panic p co' => Panic p (storeCounter bucket bo (ClientId req) co' (fileDigest seq req a))
  | OutOfFuel co' => OutOfFuel (storeCounter bucket bo (ClientId req) co' (fileDigest seq req a))
  end.
Proof.
  intros Hb Hc Hn. unfold applyAck, bind. cbn [get]. rewrite Hb, Hc.
  case_decide as Hne; [done|].
  unfold fileDigest, noteOutstanding.
  destruct (correctRequests a !! Digest req); cbn;
    destruct (skipPreviouslyCommitted fuel _) as [[] co'|p co'|co']; reflexivity.
Qed.

Lemma applyAck_outcome fuel bucket seq os req a :
  is_Some (buckets a !! bucket) →
  match applyAck fuel bucket seq os req a with
  | Ok (Success os') a' =>
      ∃ bo co k,
        buckets a !! bucket = Some bo ∧ clients bo !! ClientId req = Some co
        ∧ nextReqNo co = ReqNo req
        ∧ os' = noteOutstanding req a os
        ∧ a' = storeCounter bucket bo (ClientId req)
                 (set_nextReqNo (strides (S k) (numBuckets co) (ReqNo req)) co)
                 (fileDigest seq req a)
  | Ok (Failure _) a' => a' = a ∧ ¬ matches bucket a req
  | Panic _ _ => False
  | OutOfFuel _ => True
  end.
Proof.
  intros Hsome. destruct (matches_dec bucket a req) as [(bo & co & Hb & Hc & Hn)|Hno].
  - rewrite (applyAck_accepts fuel bucket seq os req a bo co Hb Hc Hn).
    destruct (skipPreviouslyCommitted fuel _) as [[] co'|p co'|co'] eqn:E; [| |done].
    + apply skipPreviouslyCommitted_Ok in E as (k & -> & _).
      exists bo, co, k. rewrite strides_succ_r, <- Hn.
      split; [done|]. split; [done|]. split; [done|]. split; reflexivity.
    + by apply skipPreviouslyCommitted_no_panic in E.
  - rewrite (applyAck_rejects fuel bucket seq os req a Hsome Hno). done.
Qed.

Lemma applyAcks_loop_app fuel bucket seq os pre post a :
  applyAcks_loop fuel bucket seq os (pre ++ post) a =
  match applyAcks_loop fuel bucket seq os pre a with
  | Ok (Success os') a' => applyAcks_loop fuel bucket seq os' post a'
  | o => o
  end.
Proof.
  revert os a. induction pre as [|req pre IH]; intros os a; [reflexivity|].
  cbn [app applyAcks_loop]. unfold bind.
  destruct (applyAck fuel bucket seq os req a) as [[os'|err] a'|p a'|a']; try reflexivity.
  apply IH.
Qed.

Lemma storeCounter_bucket bucket bo id co a :
  buckets (storeCounter bucket bo id co a) !! bucket
  = Some {| clients := <[id := co]> (clients bo) |}.
Proof. unfold storeCounter. cbn. apply lookup_insert_eq. Qed.

Lemma fileDigest_buckets seq req a : buckets (fileDigest seq req a) = buckets a.
Proof. unfold fileDigest. by destruct (correctRequests a !! Digest req). Qed.

Lemma applyAcks_loop_bucket fuel bucket seq batch os a :
  is_Some (buckets a !! bucket) →
  is_Some (buckets (out_state (applyAcks_loop fuel bucket seq os batch a)) !! bucket).
Proof.
  revert os a. induction batch as [|req batch IH]; intros os a Hsome; [exact Hsome|].
  cbn [applyAcks_loop]. unfold bind.
  destruct (matches_dec bucket a req) as [(bo & co & Hb & Hc & Hn)|Hno].
  - rewrite (applyAck_accepts fuel bucket seq os req a bo co Hb Hc Hn).
    destruct (skipPreviouslyCommitted fuel _) as [[] co'|p co'|co'];
      [apply IH| |]; cbn [out_state]; rewrite storeCounter_bucket; eauto.
  - rewrite (applyAck_rejects fuel bucket seq os req a Hsome Hno). exact Hsome.
Qed.

(** How the loop of [applyAcks] can end: it never panics; it returns an error
    at the first acknowledgement that does not match when its turn comes, with
    the state that the acknowledgements before it left. *)
Lemma applyAcks_loop_outcome fuel bucket seq batch os a :
  is_Some (buckets a !! bucket) →
  match applyAcks_loop fuel bucket seq os batch a with
  | Ok (Success _) _ => True
  | Ok (Failure _) a' =>
      ∃ pre req post os1,
        batch = pre ++ req :: post
        ∧ applyAcks_loop fuel bucket seq os pre a = Ok (Success os1) a'
        ∧ ¬ matches bucket a' req
  | Panic _ _ => False
  | OutOfFuel _ => True
  end.
Proof.
  revert os a. induction batch as [|req batch IH]; intros os a Hsome; [done|].
  cbn [applyAcks_loop]. unfold bind.
  pose proof (applyAck_outcome fuel bucket seq os req a Hsome) as H1.
  destruct (applyAck fuel bucket seq os req a) as [[os'|err] a'|p a'|a'] eqn:E; [| |done..].
  - destruct H1 as (bo & co & k & _ & _ & _ & _ & ->).
    match goal with |- context [applyAcks_loop _ _ _ _ _ ?x] =>
      assert (Hsome' : is_Some (buckets x !! bucket))
        by (rewrite storeCounter_bucket; eauto);
      specialize (IH os' x Hsome');
      destruct (applyAcks_loop fuel bucket seq os' batch x) as [[os2|err] a2|p a2|a2]
    end; try done.
    destruct IH as (pre & req' & post & os1 & -> & Hpre & Hno).
    exists (req :: pre), req', post, os1. split; [done|]. split; [|done].
    cbn [applyAcks_loop]. unfold bind. by rewrite E.
  - destruct H1 as [-> Hno]. exists [], req, batch, os. by repeat split.
Qed.

End ApplyAcksFacts.

Section ApplyAcksTheorems.
Context {cops : ClientOps} {W : Type} {sops : SequenceOps W}.

(** [applyAcks] around its loop, when the bucket exists. *)
Lemma applyAcks_unfold fuel bucket seq batch (t : tracker W) :
  is_Some (buckets (ao t) !! bucket) →
  applyAcks fuel bucket seq batch t =
  match applyAcks_loop fuel bucket seq ∅ batch (ao t) with
  | Ok (Success os) a1 =>
      match allocate seq batch os (heap t) with
      | Ok a w => Ok (Success a) {| ao := a1; heap := w |}
      | Panic p w => Panic p {| ao := a1; heap := w |}
      | OutOfFuel w => OutOfFuel {| ao := a1; heap := w |}
      end
  | Ok (Failure err) a1 => Ok (Failure err) {| ao := a1; heap := heap t |}
  | Panic p a1 => Panic p {| ao := a1; heap := heap t |}
  | OutOfFuel a1 => OutOfFuel {| ao := a1; heap := heap t |}
  end.
Proof.
  intros Hsome. unfold applyAcks, bind. cbn [get]. unfold assertTruef.
  rewrite bool_decide_eq_true_2 by done. cbn. unfold zoom.
  destruct (applyAcks_loop fuel bucket seq ∅ batch (ao t)) as [[os|err] a1|p a1|a1];
    try reflexivity.
  cbn. destruct (allocate seq batch os (heap t)); reflexivity.
Qed.

(** What a run of accepted acknowledgements leaves behind. *)
Lemma applyAcks_loop_effects fuel bucket seq pre os a os1 a1 :
  is_Some (buckets a !! bucket) →
  applyAcks_loop fuel bucket seq os pre a = Ok (Success os1) a1 →
  (∀ key, correctRequests a !! key = None → correctRequests a1 !! key = None)
  ∧ (∀ key, outstandingRequests a !! key = Some seq → outstandingRequests a1 !! key = Some seq)
  ∧ (∀ key, key ∈ os1 → key ∈ os ∨ outstandingRequests a1 !! key = Some seq)
  ∧ (∀ r, r ∈ pre →
       correctRequests a1 !! Digest r = None
       ∧ (correctRequests a !! Digest r = None →
          outstandingRequests a1 !! Digest r = Some seq))
  ∧ (∀ bo id co, buckets a !! bucket = Some bo → clients bo !! id = Some co →
       ∃ bo1 n, buckets a1 !! bucket = Some bo1
                ∧ clients bo1 !! id
                  = Some (set_nextReqNo (strides n (numBuckets co) (nextReqNo co)) co))
  ∧ (∀ r, r ∈ pre →
       ∃ bo1 co1 n, buckets a1 !! bucket = Some bo1
                    ∧ clients bo1 !! ClientId r = Some co1
                    ∧ (0 < n)%nat
                    ∧ nextReqNo co1 = strides n (numBuckets co1) (ReqNo r)).
Proof.
  revert os a. induction pre as [|req pre IH]; intros os a Hsome H.
  { injection H as <- <-.
    split; [done|]. split; [done|]. split; [by left|].
    split; [intros r Hr; by apply elem_of_nil in Hr|].
    split.
    - intros bo id co Hb Hc. exists bo, 0%nat. split; [done|].
      rewrite Hc. by destruct co.
    - intros r Hr. by apply elem_of_nil in Hr. }
  cbn [applyAcks_loop] in H. unfold bind in H.
  pose proof (applyAck_outcome fuel bucket seq os req a Hsome) as H1.
  destruct (applyAck fuel bucket seq os req a) as [[os'|err] a'|p a'|a']; try discriminate.
  destruct H1 as (bo & co & k & Hb & Hc & Hn & -> & ->).
  set (co' := set_nextReqNo (strides (S k) (numBuckets co) (ReqNo req)) co) in *.
  set (a' := storeCounter bucket bo (ClientId req) co' (fileDigest seq req a)) in *.
  assert (Hsome' : is_Some (buckets a' !! bucket))
    by (unfold a'; rewrite storeCounter_bucket; eauto).
  destruct (IH _ _ Hsome' H) as (Hc1 & Ho1 & Hos1 & Hr1 & Hcnt1 & Hreq1). clear IH.
  assert (Hcorrect : ∀ key, correctRequests a !! key = None →
                            correctRequests a' !! key = None).
  { intros key Hkey. unfold a', storeCounter, fileDigest. cbn.
    destruct (correctRequests a !! Digest req); cbn; [|done].
    destruct (decide (key = Digest req)) as [->|Hne];
      [apply lookup_delete_eq | by rewrite lookup_delete_ne]. }
  assert (Hout : ∀ key, outstandingRequests a !! key = Some seq →
                        outstandingRequests a' !! key = Some seq).
  { intros key Hkey. unfold a', storeCounter, fileDigest. cbn.
    destruct (correctRequests a !! Digest req); cbn; [done|].
    destruct (decide (key = Digest req)) as [->|Hne];
      [apply lookup_insert_eq | by rewrite lookup_insert_ne]. }
  assert (Hmine : correctRequests a' !! Digest req = None
                  ∧ (correctRequests a !! Digest req = None →
                     outstandingRequests a' !! Digest req = Some seq)).
  { unfold a', storeCounter, fileDigest. cbn.
    destruct (correctRequests a !! Digest req) eqn:E; cbn.
    - split; [apply lookup_delete_eq | done].
    - split; [done | intros _; apply lookup_insert_eq]. }
  assert (Hcounter : ∀ id co0, clients bo !! id = Some co0 →
            ∃ n, buckets a' !! bucket = Some {| clients := <[ClientId req := co']> (clients bo) |}
                 ∧ <[ClientId req := co']> (clients bo) !! id
                   = Some (set_nextReqNo (strides n (numBuckets co0) (nextReqNo co0)) co0)).
  { intros id co0 Hid. destruct (decide (id = ClientId req)) as [->|Hne].
    - exists (S k). split; [apply storeCounter_bucket|].
      rewrite lookup_insert_eq. replace co0 with co by congruence.
      unfold co'. by rewrite Hn.
    - exists 0%nat. split; [apply storeCounter_bucket|].
      rewrite lookup_insert_ne by done. rewrite Hid. cbn. by destruct co0. }
  split; [|split; [|split; [|split; [|split]]]].
  - intros key Hkey. apply Hc1, Hcorrect, Hkey.
  - intros key Hkey. apply Ho1, Hout, Hkey.
  - intros key Hkey. apply Hos1 in Hkey as [Hkey|Hkey]; [|by right].
    unfold noteOutstanding in Hkey.
    destruct (correctRequests a !! Digest req) eqn:E; [by left|].
    apply elem_of_union in Hkey as [Hkey|Hkey]; [|by left].
    apply elem_of_singleton in Hkey as ->. right. apply Ho1. by apply Hmine.
  - intros r Hr. apply elem_of_cons in Hr as [->|Hr].
    + split; [apply Hc1, Hmine|]. intros E. apply Ho1. by apply Hmine.
    + destruct (Hr1 r Hr) as [H2 H3]. split; [done|]. intros E. by apply H3, Hcorrect.
  - intros bo0 id co0 Hb0 Hc0. replace bo0 with bo in * by congruence.
    destruct (Hcounter id co0 Hc0) as (n & Hb' & Hc').
    destruct (Hcnt1 _ _ _ Hb' Hc') as (bo1 & m & Hb1 & Hc1').
    exists bo1, (m + n)%nat. split; [done|]. rewrite Hc1'. cbn.
    by rewrite strides_add.
  - intros r Hr. apply elem_of_cons in Hr as [->|Hr]; [|by apply Hreq1].
    destruct (Hcounter _ _ Hc) as (n & Hb' & Hc').
    rewrite lookup_insert_eq in Hc'.
    assert (Hown : <[ClientId req := co']> (clients bo) !! ClientId req = Some co')
      by apply lookup_insert_eq.
    destruct (Hcnt1 _ _ _ Hb' Hown) as (bo1 & m & Hb1 & Hc1').
    eexists bo1, _, (m + S k)%nat. split; [done|]. split; [exact Hc1'|].
    split; [lia|]. cbn. by rewrite strides_add.
Qed.

(** With enough fuel the loop of [applyAcks] does not run out of it, when the
    skipping ends for the clients of the bucket. *)
Lemma applyAcks_loop_ends bucket seq batch os a :
  is_Some (buckets a !! bucket) →
  (∀ bo id co, buckets a !! bucket = Some bo → clients bo !! id = Some co →
               skipping_ends (client co) (numBuckets co)) →
  ∃ fuel0 : nat, ∀ fuel : nat, (fuel0 ≤ fuel)%nat →
    ∀ s, applyAcks_loop fuel bucket seq os batch a ≠ OutOfFuel s.
Proof.
  revert os a. induction batch as [|req batch IH]; intros os a Hsome Hends.
  { exists 0%nat. intros fuel _ s. discriminate. }
  destruct (matches_dec bucket a req) as [(bo & co & Hb & Hc & Hn)|Hno].
  - set (cors := set_nextReqNo (add64 (nextReqNo co) (numBuckets co)) co).
    destruct (skipPreviouslyCommitted_ends cors (add64_range _ _) (Hends bo _ co Hb Hc))
      as (fuel1 & co' & Hskip).
    pose proof (skipPreviouslyCommitted_Ok _ _ _ Hskip) as (k & Hco' & _).
    set (a' := storeCounter bucket bo (ClientId req) co' (fileDigest seq req a)).
    destruct (IH (noteOutstanding req a os) a') as [fuel2 Hfuel2].
    { unfold a'. rewrite storeCounter_bucket. eauto. }
    { intros bo1 id co1 Hb1 Hc1. unfold a' in Hb1. rewrite storeCounter_bucket in Hb1.
      injection Hb1 as <-. cbn in Hc1.
      destruct (decide (id = ClientId req)) as [->|Hne].
      - rewrite lookup_insert_eq in Hc1. injection Hc1 as <-. rewrite Hco'. cbn.
        by apply (Hends bo (ClientId req) co).
      - rewrite lookup_insert_ne in Hc1 by done. by apply (Hends bo id co1). }
    exists (fuel1 `max` fuel2)%nat. intros fuel Hfuel s.
    cbn [applyAcks_loop]. unfold bind.
    rewrite (applyAck_accepts fuel bucket seq os req a bo co Hb Hc Hn).
    fold cors. rewrite (skipPreviouslyCommitted_more_fuel fuel1 fuel cors co' Hskip) by lia.
    apply Hfuel2. lia.
  - exists 0%nat. intros fuel _ s. cbn [applyAcks_loop]. unfold bind.
    rewrite (applyAck_rejects fuel bucket seq os req a Hsome Hno). discriminate.
Qed.

End ApplyAcksTheorems.

Section ApplyAcksClaims.
Context {cops : ClientOps} {W : Type} {sops : SequenceOps W}.

(** The error return of [applyAcks]: the acknowledgements [pre] were accepted
    and left the outstanding requests [a1], the next one does not match. *)
Lemma applyAcks_error fuel bucket seq batch (t : tracker W) pre req post os a1 :
  is_Some (buckets (ao t) !! bucket) →
  batch = pre ++ req :: post →
  applyAcks_loop fuel bucket seq ∅ pre (ao t) = Ok (Success os) a1 →
  ¬ matches bucket a1 req →
  applyAcks fuel bucket seq batch t
  = Ok (Failure (rejection bucket a1 req)) {| ao := a1; heap := heap t |}.
Proof.
  intros Hsome -> Hpre Hno. rewrite applyAcks_unfold by done.
  rewrite applyAcks_loop_app, Hpre. cbn [applyAcks_loop]. unfold bind.
  pose proof (applyAcks_loop_bucket fuel bucket seq pre ∅ (ao t) Hsome) as Hsome1.
  rewrite Hpre in Hsome1. cbn [out_state] in Hsome1.
  by rewrite (applyAck_rejects fuel bucket seq os req a1 Hsome1 Hno).
Qed.

(** C2.  [applyAcks] on a bucket that exists.  (1) When the acknowledgements
    before some acknowledgement were accepted and that one names an unknown
    client, or a request number that is not the next one expected from its client
    in the bucket, [applyAcks] returns an error and no action set, and
    [seq.allocate] has not run on the heap.  (2) When every acknowledgement
    matches as its turn comes and the skipping loops end within the bound,
    [applyAcks] returns what [seq.allocate] returns for the batch and the set of
    digests still outstanding, whatever that set is; those digests are registered
    against the sequence.  (3) The skipping loops do end within some bound when
    the committed request numbers of the clients of the bucket run out. *)
Theorem applyAcks_rejects_or_allocates fuel bucket seq batch (t : tracker W) :
  is_Some (buckets (ao t) !! bucket) →
  (∀ pre req post os a1,
      batch = pre ++ req :: post →
      applyAcks_loop fuel bucket seq ∅ pre (ao t) = Ok (Success os) a1 →
      ¬ matches bucket a1 req →
      applyAcks fuel bucket seq batch t
      = Ok (Failure (rejection bucket a1 req)) {| ao := a1; heap := heap t |})
  ∧ ((∀ pre req post os a1,
        batch = pre ++ req :: post →
        applyAcks_loop fuel bucket seq ∅ pre (ao t) = Ok (Success os) a1 →
        matches bucket a1 req) →
     (∀ a', applyAcks_loop fuel bucket seq ∅ batch (ao t) ≠ OutOfFuel a') →
     ∃ os a1,
       applyAcks_loop fuel bucket seq ∅ batch (ao t) = Ok (Success os) a1
       ∧ (∀ key, key ∈ os → outstandingRequests a1 !! key = Some seq)
       ∧ applyAcks fuel bucket seq batch t
         = match allocate seq batch os (heap t) with
           | Ok a w => Ok (Success a) {| ao := a1; heap := w |}
           | Panic p w => Panic p {| ao := a1; heap := w |}
           | OutOfFuel w => OutOfFuel {| ao := a1; heap := w |}
           end)
  ∧ ((∀ bo id co, buckets (ao t) !! bucket = Some bo → clients bo !! id = Some co →
                  skipping_ends (client co) (numBuckets co)) →
     ∃ fuel0 : nat, ∀ fuel' : nat, (fuel0 ≤ fuel')%nat →
       ∀ a', applyAcks_loop fuel' bucket seq ∅ batch (ao t) ≠ OutOfFuel a').
Proof.
  intros Hsome. split; [|split].
  - intros pre req post os a1 Hbatch Hpre Hno.
    by apply (applyAcks_error fuel bucket seq batch t pre req post os a1).
  - intros Hall Hfuel.
    pose proof (applyAcks_loop_outcome fuel bucket seq batch ∅ (ao t) Hsome) as Hout.
    rewrite applyAcks_unfold by done.
    destruct (applyAcks_loop fuel bucket seq ∅ batch (ao t)) as [[os|err] a1|p a1|a1] eqn:E.
    + exists os, a1. split; [done|]. split; [|done].
      destruct (applyAcks_loop_effects fuel bucket seq batch ∅ (ao t) os a1 Hsome E)
        as (_ & _ & Hos & _).
      intros key Hkey. destruct (Hos key Hkey) as [H|H]; [|done].
      by apply not_elem_of_empty in H.
    + destruct Hout as (pre & req & post & os1 & Hbatch & Hpre & Hno).
      exfalso. apply Hno. by apply (Hall pre req post os1 a1).
    + done.
    + exfalso. by apply (Hfuel a1).
  - intros Hends. by apply applyAcks_loop_ends.
Qed.

(** C9.  Nothing is rolled back when [applyAcks] returns an error.  The
    acknowledgements [pre] were accepted, the next one is refused: the outstanding
    requests that [applyAcks] leaves are the ones [pre] left, and for every
    acknowledgement of [pre] its digest is gone from the known-correct map, it is
    registered as outstanding against the sequence when it was not known correct
    to begin with, and the counter of its client stands at least one stride
    past its request number; while no action set is returned for the sequence. *)
Theorem applyAcks_error_keeps_mutations fuel bucket seq batch (t : tracker W)
        pre req post os a1 :
  is_Some (buckets (ao t) !! bucket) →
  batch = pre ++ req :: post →
  applyAcks_loop fuel bucket seq ∅ pre (ao t) = Ok (Success os) a1 →
  ¬ matches bucket a1 req →
  applyAcks fuel bucket seq batch t
  = Ok (Failure (rejection bucket a1 req)) {| ao := a1; heap := heap t |}
  ∧ ∀ r, r ∈ pre →
      correctRequests a1 !! Digest r = None
      ∧ (correctRequests (ao t) !! Digest r = None →
         outstandingRequests a1 !! Digest r = Some seq)
      ∧ ∃ bo1 co1 (n : nat),
          buckets a1 !! bucket = Some bo1
          ∧ clients bo1 !! ClientId r = Some co1
          ∧ (0 < n)%nat
          ∧ nextReqNo co1 = strides n (numBuckets co1) (ReqNo r).
Proof.
  intros Hsome Hbatch Hpre Hno.
  split; [by apply (applyAcks_error fuel bucket seq batch t pre req post os a1)|].
  destruct (applyAcks_loop_effects fuel bucket seq pre ∅ (ao t) os a1 Hsome Hpre)
    as (_ & _ & _ & Hdigests & _ & Hcounters).
  intros r Hr. destruct (Hdigests r Hr) as [H1 H2].
  split; [exact H1|]. split; [exact H2|]. by apply Hcounters.
Qed.

End ApplyAcksClaims.

Lemma toy_gapAck_does_not_match : ¬ matches 0 Toy.aoAfterGoodBatch Toy.gapAck.
Proof.
  intros (bo & co & Hb & Hc & Hn).
  vm_compute in Hb. injection Hb as <-.
  vm_compute in Hc. injection Hc as <-.
  vm_compute in Hn. discriminate.
Defined.

Lemma toy_goodBatch_accepted :
  applyAcks_loop (cops := Toy.cops) 3 0 11 ∅ Toy.goodBatch (ao Toy.tracker0)
  = Ok (Success {[ "b" ]}) Toy.aoAfterGoodBatch.
Proof. vm_compute. reflexivity. Defined.

Lemma matchesb_matches bucket a req : matchesb bucket a req = true ↔ matches bucket a req.
Proof.
  unfold matchesb, matches. split.
  - destruct (buckets a !! bucket) as [bo|]; cbn; [|done].
    destruct (clients bo !! ClientId req) as [co|] eqn:Hc; [|done].
    intros H. apply bool_decide_eq_true in H. eauto.
  - intros (bo & co & -> & Hc & Hn). cbn. rewrite Hc. by apply bool_decide_eq_true.
Qed.

Lemma toy_skipping_ends (c : NetworkState_Client) :
  LowWatermark c ≤ 4 → skipping_ends (cops := Toy.cops) c 2.
Proof.
  intros Hlow reqNo Hrange. cbn [isCommitted Toy.cops]. unfold Toy.committed.
  destruct (decide (4 < reqNo)) as [Hlt|Hge].
  - exists 0%nat. cbn. apply orb_false_intro.
    + apply Z.ltb_ge. lia.
    + apply bool_decide_eq_false. lia.
  - exists 3%nat.
    assert (Hval : strides 3 2 reqNo = reqNo + 6).
    { unfold strides, Nat.iter. cbn [nat_rect]. unfold add64, wrap64.
      rewrite (Z.mod_small (reqNo + 2)) by lia.
      rewrite (Z.mod_small (reqNo + 2 + 2)) by lia.
      rewrite (Z.mod_small (reqNo + 2 + 2 + 2)) by lia. lia. }
    rewrite Hval. apply orb_false_intro.
    + apply Z.ltb_ge. lia.
    + apply bool_decide_eq_false. lia.
Qed.

Lemma toy_bucket0_skipping_ends bo id co :
  buckets (ao Toy.tracker0) !! 0 = Some bo → clients bo !! id = Some co →
  skipping_ends (cops := Toy.cops) (client co) (numBuckets co).
Proof.
  intros Hb Hc.
  assert (Hall : map_Forall (fun _ co => numBuckets co = 2 ∧ LowWatermark (client co) ≤ 4)
                            (clients bo)).
  { vm_compute in Hb. injection Hb as <-.
    apply (bool_decide_unpack _). vm_compute. exact I. }
  destruct (Hall id co Hc) as [-> Hlow]. by apply toy_skipping_ends.
Qed.

Lemma applyAcks_rejects_or_allocates_witness :
  is_Some (buckets (ao Toy.tracker0) !! 0)
  ∧ applyAcks (cops := Toy.cops) (sops := Toy.sops) 3 0 11
              (Toy.goodBatch ++ [Toy.gapAck]) Toy.tracker0
    = Ok (Failure (UnexpectedReqNo 7 0 7 9))
         {| ao := Toy.aoAfterGoodBatch; heap := heap Toy.tracker0 |}
  ∧ (∃ os a1,
       applyAcks (cops := Toy.cops) (sops := Toy.sops) 3 0 11 Toy.goodBatch Toy.tracker0
       = match allocate (SequenceOps := Toy.sops) 11 Toy.goodBatch os (heap Toy.tracker0) with
         | Ok a w => Ok (Success a) {| ao := a1; heap := w |}
         | Panic p w => Panic p {| ao := a1; heap := w |}
         | OutOfFuel w => OutOfFuel {| ao := a1; heap := w |}
         end)
  ∧ ∃ fuel0 : nat, ∀ fuel' : nat, (fuel0 ≤ fuel')%nat →
      ∀ a', applyAcks_loop (cops := Toy.cops) fuel' 0 11 ∅ Toy.goodBatch (ao Toy.tracker0)
            ≠ OutOfFuel a'.
Proof.
  assert (Hsome : is_Some (buckets (ao Toy.tracker0) !! 0)) by (vm_compute; eauto).
  split; [exact Hsome|]. split; [|split].
  - destruct (applyAcks_rejects_or_allocates (cops := Toy.cops) (sops := Toy.sops)
                3 0 11 (Toy.goodBatch ++ [Toy.gapAck]) Toy.tracker0 Hsome) as (H & _ & _).
    exact (H Toy.goodBatch Toy.gapAck [] _ _ eq_refl
             toy_goodBatch_accepted toy_gapAck_does_not_match).
  - destruct (applyAcks_rejects_or_allocates (cops := Toy.cops) (sops := Toy.sops)
                3 0 11 Toy.goodBatch Toy.tracker0 Hsome) as (_ & H & _).
    destruct H as (os & a1 & _ & _ & H).
    + intros pre req post os a1 Hbatch Hpre. apply matchesb_matches.
      destruct pre as [|x [|y pre]]; cbn in Hbatch.
      * injection Hbatch as <- _. injection Hpre as <- <-. vm_compute. reflexivity.
      * injection Hbatch as <- <- _.
        vm_compute in Hpre. injection Hpre as <- <-. vm_compute. reflexivity.
      * exfalso. injection Hbatch as _ _ Hnil. by destruct pre.
    + vm_compute. discriminate.
    + by exists os, a1.
  - destruct (applyAcks_rejects_or_allocates (cops := Toy.cops) (sops := Toy.sops)
                3 0 11 Toy.goodBatch Toy.tracker0 Hsome) as (_ & _ & H).
    apply H. exact toy_bucket0_skipping_ends.
Defined.

Lemma applyAcks_error_keeps_mutations_witness :
  applyAcks (cops := Toy.cops) (sops := Toy.sops) 3 0 11
            (Toy.goodBatch ++ [Toy.gapAck]) Toy.tracker0
  = Ok (Failure (UnexpectedReqNo 7 0 7 9))
       {| ao := Toy.aoAfterGoodBatch; heap := heap Toy.tracker0 |}
  ∧ is_Some (correctRequests (ao Toy.tracker0) !! "a")
  ∧ correctRequests Toy.aoAfterGoodBatch !! "a" = None
  ∧ outstandingRequests (ao Toy.tracker0) !! "b" = None
  ∧ outstandingRequests Toy.aoAfterGoodBatch !! "b" = Some 11
  ∧ ∃ bo1 co1 (n : nat),
      buckets Toy.aoAfterGoodBatch !! 0 = Some bo1
      ∧ clients bo1 !! 7 = Some co1
      ∧ (0 < n)%nat
      ∧ nextReqNo co1 = strides n (numBuckets co1) 5.
Proof.
  assert (Hsome : is_Some (buckets (ao Toy.tracker0) !! 0)) by (vm_compute; eauto).
  destruct (applyAcks_error_keeps_mutations (cops := Toy.cops) (sops := Toy.sops)
              3 0 11 (Toy.goodBatch ++ [Toy.gapAck]) Toy.tracker0
              Toy.goodBatch Toy.gapAck [] _ _ Hsome eq_refl
              toy_goodBatch_accepted toy_gapAck_does_not_match) as [Herr Hkept].
  split; [exact Herr|].
  split; [vm_compute; eauto|].
  destruct (Hkept {| ClientId := 8; ReqNo := 0; Digest := "a" |}) as (Ha & _ & _).
  { apply list_elem_of_here. }
  split; [exact Ha|].
  split; [vm_compute; reflexivity|].
  destruct (Hkept {| ClientId := 7; ReqNo := 5; Digest := "b" |}) as (_ & Hb & Hc).
  { apply list_elem_of_further, list_elem_of_here. }
  split; [apply Hb; vm_compute; reflexivity|].
  exact Hc.
Defined.

(** ** Outstanding requests: the counters [newOutstandingReqs] starts from *)

Section NewOutstandingReqsFacts.
Context {cops : ClientOps}.

Lemma initClient_Ok fuel cfg i c bo bo' :
  initClient fuel cfg i c bo = Ok tt bo' →
  ∃ cors, initialCounter fuel cfg i c = Ok tt cors
          ∧ bo' = {| clients := <[Id c := cors]> (clients bo) |}.
Proof.
  unfold initClient, initialCounter.
  destruct (skipPreviouslyCommitted fuel _) as [[] cors|p cors|cors]; try discriminate.
  intros H. injection H as <-. by exists cors.
Qed.

Lemma forEach_initClient_other fuel cfg i cs bo bo' id :
  forEach (initClient fuel cfg i) cs bo = Ok tt bo' →
  id ∉ Id <$> cs → clients bo' !! id = clients bo !! id.
Proof.
  revert bo. induction cs as [|c cs IH]; intros bo H Hid.
  { by injection H as <-. }
  cbn [forEach] in H. unfold bind in H.
  destruct (initClient fuel cfg i c bo) as [[] bo1|p bo1|bo1] eqn:E; try discriminate.
  apply initClient_Ok in E as (cors & _ & ->).
  cbn in Hid. apply not_elem_of_cons in Hid as [Hne Hid].
  rewrite (IH _ H Hid). cbn. by apply lookup_insert_ne.
Qed.

Lemma forEach_initClient_lookup fuel cfg i cs bo bo' c :
  forEach (initClient fuel cfg i) cs bo = Ok tt bo' →
  NoDup (Id <$> cs) → c ∈ cs →
  ∃ cors, initialCounter fuel cfg i c = Ok tt cors ∧ clients bo' !! Id c = Some cors.
Proof.
  revert bo. induction cs as [|c0 cs IH]; intros bo H Hnd Hc.
  { by apply elem_of_nil in Hc. }
  cbn [forEach] in H. unfold bind in H.
  destruct (initClient fuel cfg i c0 bo) as [[] bo1|p bo1|bo1] eqn:E; try discriminate.
  cbn in Hnd. apply NoDup_cons in Hnd as [Hfresh Hnd].
  apply elem_of_cons in Hc as [->|Hc].
  - apply initClient_Ok in E as (cors & Hcors & ->).
    exists cors. split; [done|].
    rewrite (forEach_initClient_other _ _ _ _ _ _ _ H Hfresh). cbn.
    apply lookup_insert_eq.
  - by apply (IH bo1).
Qed.

Lemma initBucket_Ok fuel ns i a a' :
  initBucket fuel ns i a = Ok tt a' →
  ∃ bo, forEach (initClient fuel (Config ns) i) (Clients ns) {| clients := ∅ |} = Ok tt bo
        ∧ a' = set_buckets (<[i := bo]> (buckets a)) a.
Proof.
  unfold initBucket.
  destruct (forEach _ _ _) as [[] bo|p bo|bo]; try discriminate.
  intros H. injection H as <-. by exists bo.
Qed.

Lemma forEach_initBucket_other fuel ns ids a a' j :
  forEach (initBucket fuel ns) ids a = Ok tt a' →
  j ∉ ids → buckets a' !! j = buckets a !! j.
Proof.
  revert a. induction ids as [|i ids IH]; intros a H Hj.
  { by injection H as <-. }
  cbn [forEach] in H. unfold bind in H.
  destruct (initBucket fuel ns i a) as [[] a1|p a1|a1] eqn:E; try discriminate.
  apply initBucket_Ok in E as (bo & _ & ->).
  apply not_elem_of_cons in Hj as [Hne Hj].
  rewrite (IH _ H Hj). cbn. by apply lookup_insert_ne.
Qed.

Lemma forEach_initBucket_lookup fuel ns ids a a' i :
  forEach (initBucket fuel ns) ids a = Ok tt a' →
  NoDup ids → i ∈ ids →
  ∃ bo, forEach (initClient fuel (Config ns) i) (Clients ns) {| clients := ∅ |} = Ok tt bo
        ∧ buckets a' !! i = Some bo.
Proof.
  revert a. induction ids as [|i0 ids IH]; intros a H Hnd Hi.
  { by apply elem_of_nil in Hi. }
  cbn [forEach] in H. unfold bind in H.
  destruct (initBucket fuel ns i0 a) as [[] a1|p a1|a1] eqn:E; try discriminate.
  apply NoDup_cons in Hnd as [Hfresh Hnd].
  apply elem_of_cons in Hi as [->|Hi].
  - apply initBucket_Ok in E as (bo & Hbo & ->).
    exists bo. split; [done|].
    rewrite (forEach_initBucket_other _ _ _ _ _ _ H Hfresh). cbn.
    apply lookup_insert_eq.
  - by apply (IH a1).
Qed.

Context {W : Type} {sops : SequenceOps W}.

Lemma advanceRequests_loop_buckets pending actions (t : tracker W) :
  buckets (ao (out_state (advanceRequests_loop pending actions t))) = buckets (ao t).
Proof.
  revert actions t. induction pending as [|ack pending IH]; intros actions t; [done|].
  rewrite advanceRequests_loop_step. cbv zeta.
  destruct (outstandingRequests (ao t) !! Digest ack) as [seq|].
  - destruct (satisfyOutstanding seq ack (heap t)) as [o w|p w|w]; try done.
    destruct (concat actions o); [|done]. by rewrite IH.
  - by rewrite IH.
Qed.

(** With nothing outstanding the drain caches every acknowledgement and returns. *)
Lemma advanceRequests_loop_nothing_outstanding pending actions (t : tracker W) :
  outstandingRequests (ao t) = ∅ →
  ∃ t', advanceRequests_loop pending actions t = Ok actions t'.
Proof.
  revert t. induction pending as [|ack pending IH]; intros t Hnone; [by eexists|].
  rewrite advanceRequests_loop_step. cbv zeta. rewrite Hnone, lookup_empty.
  apply IH. exact Hnone.
Qed.

(** The counters in what [newOutstandingReqs] returns. *)
Lemma newOutstandingReqs_counter fuel al ns (w w' : W) a i c :
  newOutstandingReqs fuel al ns w = Ok a w' →
  0 ≤ i < to_uint64 (NumberOfBuckets (Config ns)) →
  NoDup (Id <$> Clients ns) → c ∈ Clients ns →
  ∃ bo cors, buckets a !! i = Some bo
             ∧ clients bo !! Id c = Some cors
             ∧ initialCounter fuel (Config ns) i c = Ok tt cors.
Proof.
  intros H Hi Hnd Hc. unfold newOutstandingReqs in H.
  destruct (forEach _ _ _) as [[] a1|p a1|a1] eqn:E; try discriminate.
  pose proof (advanceRequests_loop_buckets (remaining (availableIterator a1)) emptyActions
                {| ao := a1; heap := w |}) as Hb.
  unfold advanceRequests, bind in H. cbn [get ao] in H.
  destruct (advanceRequests_loop _ _ _) as [o t|p t|t]; try discriminate.
  injection H as <- <-. cbn [out_state ao] in Hb.
  destruct (forEach_initBucket_lookup _ _ _ _ _ i E) as (bo & Hbo & Hlookup).
  { apply NoDup_seqZ. }
  { apply elem_of_seqZ. lia. }
  destruct (forEach_initClient_lookup _ _ _ _ _ _ c Hbo Hnd Hc) as (cors & Hcors & Hcl).
  exists bo, cors. rewrite Hb. done.
Qed.

End NewOutstandingReqsFacts.

Lemma strides_exact (n : nat) nb r :
  0 ≤ r → 0 ≤ nb → r + Z.of_nat n * nb < 2 ^ 64 → strides n nb r = r + Z.of_nat n * nb.
Proof.
  intros Hr Hnb. induction n as [|n IH]; intros Hfit.
  - cbn. lia.
  - change (strides (S n) nb r) with (add64 (strides n nb r) nb).
    rewrite IH by lia. unfold add64, wrap64. rewrite Z.mod_small; lia.
Qed.

Lemma small_multiple nb z x : 0 < nb → x = z * nb → - nb < x < nb → x = 0.
Proof.
  intros Hnb -> Hx.
  destruct (decide (z ≤ -1)) as [Hneg|Hnn].
  { assert (z * nb ≤ -1 * nb) by (apply Z.mul_le_mono_nonneg_r; lia). lia. }
  destruct (decide (1 ≤ z)) as [Hpos|Hnp].
  { assert (1 * nb ≤ z * nb) by (apply Z.mul_le_mono_nonneg_r; lia). lia. }
  replace z with 0 by lia. lia.
Qed.

Lemma mul_nonneg_inv q nb : 0 < nb → 0 ≤ q * nb → 0 ≤ q.
Proof.
  intros Hnb Hq. destruct (decide (0 ≤ q)) as [|Hneg]; [done|].
  assert (q * nb ≤ -1 * nb) by (apply Z.mul_le_mono_nonneg_r; lia). lia.
Qed.

Section FirstUncommitted.
Context {cops : ClientOps}.
Variables (c : NetworkState_Client) (cfg : NetworkState_Config) (b R : Z).

Local Abbreviation LW := (LowWatermark c).
Local Abbreviation nb := (NumberOfBuckets cfg).
Local Abbreviation bucketOf r := (clientReqToBucket (Id c) r cfg).

Hypothesis Hnb : 0 < nb < 2 ^ 64.
Hypothesis Hrange : 0 ≤ LW ≤ R ∧ R < 2 ^ 64.
Hypothesis HR : bucketOf R = b.
Hypothesis Huncommitted : isCommitted R c = false.
Hypothesis Hround : ∀ r r', LW ≤ r ≤ R → LW ≤ r' ≤ R →
                            (bucketOf r = bucketOf r' ↔ (nb | r - r')).

Lemma firstUncommitted_found (s len m : Z) :
  0 ≤ m < len → 0 ≤ s →
  (∀ j, s ≤ j < s + m → bucketOf (add64 LW (to_uint64 j)) ≠ b) →
  bucketOf (add64 LW (to_uint64 (s + m))) = b →
  firstUncommitted c cfg b (seqZ s len) = add64 LW (to_uint64 (s + m)).
Proof.
  intros Hm. remember (Z.to_nat m) as k eqn:Hk.
  revert s len m Hm Hk. induction k as [|k IH]; intros s len m Hm Hk Hs Hbefore Hat.
  - assert (m = 0) as -> by lia. rewrite Z.add_0_r in *.
    rewrite seqZ_cons by lia. cbn [firstUncommitted].
    by rewrite decide_True.
  - rewrite seqZ_cons by lia. cbn [firstUncommitted].
    rewrite decide_False by (apply Hbefore; lia).
    replace (s + m) with (Z.succ s + (m - 1)) in * by lia.
    apply IH; try lia.
    intros j Hj. apply Hbefore. lia.
Qed.

Local Abbreviation first := (LW + (R - LW) mod nb).

Lemma first_facts :
  LW ≤ first ∧ first < LW + nb ∧ first ≤ R ∧ (nb | R - first) ∧ bucketOf first = b
  ∧ ∀ r, LW ≤ r < first → bucketOf r ≠ b.
Proof.
  pose proof (Z.mod_pos_bound (R - LW) nb ltac:(lia)) as Hj0.
  pose proof (Z.div_mod (R - LW) nb ltac:(lia)) as Hdm.
  pose proof (Z.div_pos (R - LW) nb ltac:(lia) ltac:(lia)) as Hq.
  set (j0 := (R - LW) mod nb) in *. set (q := (R - LW) / nb) in *.
  assert (Hqnb : 0 ≤ nb * q) by (apply Z.mul_nonneg_nonneg; lia).
  assert (Hle : LW + j0 ≤ R) by lia.
  assert (Hdiv : (nb | R - (LW + j0))).
  { exists q. lia. }
  split; [lia|]. split; [lia|]. split; [exact Hle|].
  split; [exact Hdiv|]. split.
  - rewrite <- HR. apply Hround; [lia | lia |].
    destruct Hdiv as [z Hz]. exists (- z). lia.
  - intros r Hr Hb. rewrite <- HR in Hb. apply Hround in Hb; [|lia..].
    destruct Hb as [z Hz]. destruct Hdiv as [z' Hz'].
    assert (r - (LW + j0) = (z + z') * nb) as Hmul by lia.
    apply small_multiple in Hmul; lia.
Qed.

Lemma firstUncommitted_first : firstUncommitted c cfg b (seqZ 0 nb) = first.
Proof.
  destruct first_facts as (H1 & H2 & H3 & _ & H5 & H6).
  assert (Hexact : ∀ j, 0 ≤ j ≤ first - LW → add64 LW (to_uint64 j) = LW + j).
  { intros j Hj. apply add64_exact; lia. }
  rewrite (firstUncommitted_found 0 nb (first - LW)); try lia.
  - rewrite Z.add_0_l, Hexact by lia. lia.
  - intros j Hj. rewrite Hexact by lia. apply H6. lia.
  - rewrite Z.add_0_l, Hexact by lia. by replace (LW + (first - LW)) with first by lia.
Qed.

(** Where the skipping stops from [first]: at the smallest uncommitted request
    number of the bucket from the low watermark on. *)
Lemma initialCounter_smallest fuel cors :
  initialCounter fuel cfg b c = Ok tt cors →
  LW ≤ nextReqNo cors
  ∧ bucketOf (nextReqNo cors) = b
  ∧ isCommitted (nextReqNo cors) c = false
  ∧ ∀ r, LW ≤ r < nextReqNo cors → ¬ (bucketOf r = b ∧ isCommitted r c = false).
Proof.
  intros H. unfold initialCounter in H. rewrite firstUncommitted_first in H.
  assert (Hnbu : to_uint64 nb = nb) by (unfold to_uint64, wrap64; apply Z.mod_small; lia).
  rewrite Hnbu in H.
  apply skipPreviouslyCommitted_Ok in H as (k & -> & Hstop & Hbefore).
  cbn [numBuckets nextReqNo client set_nextReqNo] in *.
  destruct first_facts as (H1 & H2 & H3 & [q Hq] & H5 & H6).
  set (f := LW + (R - LW) mod nb) in *.
  assert (Hq0 : 0 ≤ q) by (apply (mul_nonneg_inv q nb); lia).
  assert (Hstride : ∀ j : nat, Z.of_nat j ≤ q → strides j nb f = f + Z.of_nat j * nb).
  { intros j Hj. apply strides_exact; [lia|lia|].
    assert (Z.of_nat j * nb ≤ q * nb) by (apply Z.mul_le_mono_nonneg_r; lia). lia. }
  assert (Hk : Z.of_nat k ≤ q).
  { destruct (decide (Z.of_nat k ≤ q)) as [|Hgt]; [done|].
    specialize (Hbefore (Z.to_nat q) ltac:(lia)).
    rewrite Hstride in Hbefore by lia. rewrite Z2Nat.id in Hbefore by lia.
    replace (f + q * nb) with R in Hbefore by lia.
    congruence. }
  rewrite (Hstride k Hk) in Hstop |- *.
  assert (Hkq : Z.of_nat k * nb ≤ q * nb) by (apply Z.mul_le_mono_nonneg_r; lia).
  assert (Hk0 : 0 ≤ Z.of_nat k * nb) by (apply Z.mul_nonneg_nonneg; lia).
  split; [lia|]. split; [|split; [exact Hstop|]].
  - rewrite <- HR. apply Hround; [lia | lia |].
    exists (Z.of_nat k - q). lia.
  - intros r Hr [Hb Hun].
    destruct (decide (r < f)) as [Hlt|Hge]; [by apply (H6 r ltac:(lia))|].
    rewrite <- HR in Hb. apply Hround in Hb; [|lia|lia].
    destruct Hb as [z Hz].
    assert (Hr' : r = f + (z + q) * nb) by lia.
    assert (Hz0 : 0 ≤ z + q) by (apply (mul_nonneg_inv (z + q) nb); lia).
    assert (Hzk : z + q < Z.of_nat k) by (apply (Z.mul_lt_mono_pos_r nb); lia).
    specialize (Hbefore (Z.to_nat (z + q)) ltac:(lia)).
    rewrite Hstride in Hbefore by lia. rewrite Z2Nat.id in Hbefore by lia.
    rewrite <- Hr' in Hbefore. congruence.
Qed.

End FirstUncommitted.

Section NewOutstandingReqsReturns.
Context {cops : ClientOps}.

Lemma firstUncommitted_range c cfg i js : 0 ≤ firstUncommitted c cfg i js < 2 ^ 64.
Proof.
  induction js as [|j js IH]; cbn [firstUncommitted]; [lia|].
  case_decide; [apply add64_range | exact IH].
Qed.

Lemma initialCounter_ends cfg i c :
  skipping_ends c (to_uint64 (NumberOfBuckets cfg)) →
  ∃ (fuel0 : nat) cors, ∀ fuel : nat, (fuel0 ≤ fuel)%nat →
    initialCounter fuel cfg i c = Ok tt cors.
Proof.
  intros Hends. unfold initialCounter.
  destruct (skipPreviouslyCommitted_ends
              {| nextReqNo := firstUncommitted c cfg i (seqZ 0 (NumberOfBuckets cfg));
                 numBuckets := to_uint64 (NumberOfBuckets cfg); client := c |})
    as (fuel0 & cors & H).
  { apply firstUncommitted_range. }
  { exact Hends. }
  exists fuel0, cors. intros fuel Hfuel.
  by apply (skipPreviouslyCommitted_more_fuel fuel0).
Qed.

Lemma forEach_initClient_ends cfg i cs :
  (∀ c, c ∈ cs → skipping_ends c (to_uint64 (NumberOfBuckets cfg))) →
  ∃ fuel0 : nat, ∀ fuel : nat, (fuel0 ≤ fuel)%nat →
    ∀ bo, ∃ bo', forEach (initClient fuel cfg i) cs bo = Ok tt bo'.
Proof.
  induction cs as [|c cs IH]; intros Hends.
  { exists 0%nat. intros fuel _ bo. by exists bo. }
  destruct IH as [fuel1 H1].
  { intros c' Hc'. apply Hends. by apply list_elem_of_further. }
  destruct (initialCounter_ends cfg i c) as (fuel2 & cors & H2).
  { apply Hends. apply list_elem_of_here. }
  exists (fuel1 `max` fuel2)%nat. intros fuel Hfuel bo.
  cbn [forEach]. unfold bind, initClient.
  specialize (H2 fuel ltac:(lia)). unfold initialCounter in H2. rewrite H2.
  apply H1. lia.
Qed.

Lemma forEach_initBucket_ends ns ids :
  (∀ c, c ∈ Clients ns → skipping_ends c (to_uint64 (NumberOfBuckets (Config ns)))) →
  ∃ fuel0 : nat, ∀ fuel : nat, (fuel0 ≤ fuel)%nat →
    ∀ a, ∃ a', forEach (initBucket fuel ns) ids a = Ok tt a'.
Proof.
  intros Hends. induction ids as [|i ids [fuel1 H1]].
  { exists 0%nat. intros fuel _ a. by exists a. }
  destruct (forEach_initClient_ends (Config ns) i (Clients ns) Hends) as [fuel2 H2].
  exists (fuel1 `max` fuel2)%nat. intros fuel Hfuel a.
  cbn [forEach]. unfold bind, initBucket.
  destruct (H2 fuel ltac:(lia) {| clients := ∅ |}) as [bo ->].
  apply H1. lia.
Qed.

Context {W : Type} {sops : SequenceOps W}.

(** [newOutstandingReqs] returns, given enough fuel for the skipping. *)
Lemma newOutstandingReqs_returns al ns (w : W) :
  (∀ c, c ∈ Clients ns → skipping_ends c (to_uint64 (NumberOfBuckets (Config ns)))) →
  ∃ fuel0 : nat, ∀ fuel : nat, (fuel0 ≤ fuel)%nat →
    ∃ a w', newOutstandingReqs fuel al ns w = Ok a w'.
Proof.
  intros Hends.
  destruct (forEach_initBucket_ends ns (seqZ 0 (to_uint64 (NumberOfBuckets (Config ns)))) Hends)
    as [fuel0 H0].
  exists fuel0. intros fuel Hfuel. unfold newOutstandingReqs.
  set (a0 := {| buckets := ∅; availableIterator := resetIterator al;
                correctRequests := ∅; outstandingRequests := ∅ |}).
  destruct (forEach_initBucket_maps fuel ns
              (seqZ 0 (to_uint64 (NumberOfBuckets (Config ns)))) a0) as [b Hb].
  destruct (H0 fuel Hfuel a0) as [a1 Ha1]. rewrite Ha1 in Hb |- *.
  cbn [out_state] in Hb. subst a1.
  unfold advanceRequests, bind. cbn [get ao].
  destruct (advanceRequests_loop_nothing_outstanding
              (remaining (availableIterator (set_buckets b a0))) emptyActions
              {| ao := set_buckets b a0; heap := w |}) as [t' ->]; [done|].
  by eexists _, _.
Qed.

(** C7.  The counters [newOutstandingReqs] starts from.  The network state has
    [nb] buckets, [0 < nb], and clients with pairwise different identifiers whose
    committed request numbers run out along every stride of [nb]; [b] is a bucket
    and [c] a client; from the low watermark of [c] up to some uncommitted request
    number [R] of bucket [b] the bucket function goes round the buckets (two
    request numbers map to the same bucket exactly when they differ by a multiple
    of [nb]).  Then [newOutstandingReqs] returns, given enough fuel, and in what
    it returns the counter of [c] in bucket [b] is the smallest request number
    from the low watermark on that maps to [b] and is not committed; the search
    over the first [nb] request numbers from the low watermark finds the first
    one that maps to [b]. *)
Theorem newOutstandingReqs_nextReqNo al ns (w : W) (b : Z) (c : NetworkState_Client) (R : Z) :
  let cfg := Config ns in
  let nb := NumberOfBuckets cfg in
  0 < nb < 2 ^ 64 → 0 ≤ b < nb →
  NoDup (Id <$> Clients ns) → c ∈ Clients ns →
  (∀ c', c' ∈ Clients ns → skipping_ends c' (to_uint64 nb)) →
  0 ≤ LowWatermark c ≤ R ∧ R < 2 ^ 64 →
  clientReqToBucket (Id c) R cfg = b →
  isCommitted R c = false →
  (∀ r r', LowWatermark c ≤ r ≤ R → LowWatermark c ≤ r' ≤ R →
           (clientReqToBucket (Id c) r cfg = clientReqToBucket (Id c) r' cfg
            ↔ (nb | r - r'))) →
  ∃ fuel0 : nat, ∀ fuel : nat, (fuel0 ≤ fuel)%nat →
    ∃ a w' bo co,
      newOutstandingReqs fuel al ns w = Ok a w'
      ∧ buckets a !! b = Some bo
      ∧ clients bo !! Id c = Some co
      ∧ LowWatermark c ≤ nextReqNo co
      ∧ clientReqToBucket (Id c) (nextReqNo co) cfg = b
      ∧ isCommitted (nextReqNo co) c = false
      ∧ (∀ r, LowWatermark c ≤ r < nextReqNo co →
              ¬ (clientReqToBucket (Id c) r cfg = b ∧ isCommitted r c = false))
      ∧ (let first := firstUncommitted c cfg b (seqZ 0 nb) in
         LowWatermark c ≤ first < LowWatermark c + nb
         ∧ clientReqToBucket (Id c) first cfg = b
         ∧ ∀ r, LowWatermark c ≤ r < first → clientReqToBucket (Id c) r cfg ≠ b).
Proof.
  intros cfg nb Hnb Hb Hnd Hc Hends Hrange HR Hun Hround.
  destruct (newOutstandingReqs_returns al ns w Hends) as [fuel0 Hret].
  exists fuel0. intros fuel Hfuel.
  destruct (Hret fuel Hfuel) as (a & w' & Hnew).
  assert (Hnbu : to_uint64 nb = nb) by (unfold to_uint64, wrap64; apply Z.mod_small; lia).
  destruct (newOutstandingReqs_counter fuel al ns w w' a b c Hnew) as (bo & co & Hbo & Hco & Hinit);
    [fold cfg; fold nb; lia | done | done |].
  exists a, w', bo, co.
  split; [exact Hnew|]. split; [exact Hbo|]. split; [exact Hco|].
  destruct (initialCounter_smallest c cfg b R Hnb Hrange HR Hun Hround fuel co Hinit)
    as (H1 & H2 & H3 & H4).
  split; [exact H1|]. split; [exact H2|]. split; [exact H3|]. split; [exact H4|].
  cbv zeta. unfold nb, cfg in *.
  rewrite (firstUncommitted_first c (Config ns) b R Hnb Hrange HR Hround).
  destruct (first_facts c (Config ns) b R Hnb Hrange HR Hround)
    as (F1 & F2 & _ & _ & F5 & F6).
  split; [split; [exact F1 | exact F2]|]. split; [exact F5 | exact F6].
Qed.

End NewOutstandingReqsReturns.

Lemma toy_round_robin r r' :
  4 ≤ r ≤ 6 → 4 ≤ r' ≤ 6 →
  Toy.bucketOf 7 r (Config Toy.networkState) = Toy.bucketOf 7 r' (Config Toy.networkState)
  ↔ (2 | r - r').
Proof.
  intros Hr Hr'.
  assert (Hcases : r = 4 ∨ r = 5 ∨ r = 6) by lia.
  assert (Hcases' : r' = 4 ∨ r' = 5 ∨ r' = 6) by lia.
  destruct Hcases as [-> | [-> | ->]], Hcases' as [-> | [-> | ->]];
    (split;
     [ intros H;
       first [ by (vm_compute in H; discriminate)
             | by (exists 0; lia) | by (exists 1; lia) | by (exists (-1); lia) ]
     | intros [z Hz]; first [ lia | vm_compute; reflexivity ] ]).
Qed.

Lemma newOutstandingReqs_nextReqNo_witness :
  ∃ fuel0 : nat, ∀ fuel : nat, (fuel0 ≤ fuel)%nat →
    ∃ a w' bo co,
      newOutstandingReqs (cops := Toy.cops) (sops := Toy.sops) fuel
                         Toy.available Toy.networkState ∅ = Ok a w'
      ∧ buckets a !! 1 = Some bo
      ∧ clients bo !! 7 = Some co
      ∧ nextReqNo co = 6.
Proof.
  pose proof (newOutstandingReqs_nextReqNo (cops := Toy.cops) (sops := Toy.sops)
                Toy.available Toy.networkState ∅ 1
                {| Id := 7; LowWatermark := 4; ClientWindow := "first" |} 6) as H.
  cbv zeta in H.
  change (NumberOfBuckets (Config Toy.networkState)) with 2 in H.
  change (to_uint64 2) with 2 in H.
  cbn [Id LowWatermark] in H.
  destruct H as [fuel0 H].
  - lia.
  - lia.
  - apply (bool_decide_unpack _). vm_compute. exact I.
  - apply list_elem_of_here.
  - intros c' Hc'. apply toy_skipping_ends.
    apply elem_of_cons in Hc' as [->|Hc']; [cbn; lia|].
    apply list_elem_of_singleton in Hc' as ->. cbn. lia.
  - lia.
  - vm_compute. reflexivity.
  - vm_compute. reflexivity.
  - exact toy_round_robin.
  - exists fuel0. intros fuel Hfuel.
    destruct (H fuel Hfuel) as (a & w' & bo & co & Hnew & Hbo & Hco & Hlow & Hbucket
                                & Hfree & Hleast & _).
    exists a, w', bo, co. split; [exact Hnew|]. split; [exact Hbo|]. split; [exact Hco|].
    assert (Hle : nextReqNo co ≤ 6).
    { destruct (decide (nextReqNo co ≤ 6)) as [|Hgt]; [done|].
      exfalso. apply (Hleast 6); [lia|]. split; vm_compute; reflexivity. }
    assert (Hcases : nextReqNo co = 4 ∨ nextReqNo co = 5 ∨ nextReqNo co = 6) by lia.
    destruct Hcases as [E | [E | E]]; [| |exact E].
    + rewrite E in Hfree. vm_compute in Hfree. discriminate.
    + rewrite E in Hbucket. vm_compute in Hbucket. discriminate.
Defined.

(** ** One watermark movement per event *)

Section CountingCalls.
Context {W : Type} (c : Components W).

Local Abbreviation CW := (W * callCounts)%type.
Local Abbreviation keeps := (@keeps W _).
Local Abbreviation keepsSM := (@keepsSM W _).
Local Abbreviation moves R := (@moves W R _).

Lemma keeps_ret {A} (a : A) : keeps (ret a).
Proof. by intros s. Qed.

Lemma keeps_panic {A} p : keeps (panic (A := A) p).
Proof. by intros s. Qed.

Lemma keeps_bind {A B} (m : M (store CW) A) (k : A → M (store CW) B) :
  keeps m → (∀ a, keeps (k a)) → keeps (bind m k).
Proof.
  intros Hm Hk s. unfold bind. specialize (Hm s).
  destruct (m s) as [a s'|p s'|s']; cbn in *; [|done..].
  by rewrite Hk.
Qed.

Lemma keeps_under {A} (m : M (store W) A) : keeps (under m).
Proof. intros s. unfold under. by destruct (m (forget s)). Qed.

Lemma keeps_readW {A} (f : CW → A) : keeps (readW f).
Proof. by intros s. Qed.

Lemma keeps_concatM a o : keeps (concatM a o).
Proof. intros s. unfold concatM. by destruct (concat a o). Qed.

Lemma keeps_concatCall a (m : M (store CW) actionSet) : keeps m → keeps (concatCall a m).
Proof. intros H. apply keeps_bind; [done|]. intros o. apply keeps_concatM. Qed.

Lemma keeps_log {A} (m : M persisted A) : keeps (zoom theLog set_theLog m).
Proof. intros s. unfold zoom. by destruct (m (theLog s)). Qed.

Lemma keeps_assertEqualf lhs rhs format : keeps (assertEqualf lhs rhs format).
Proof. intros s. unfold assertEqualf. by case_decide. Qed.

Lemma keeps_foldActions {A} (body : actionSet → A → M (store CW) actionSet) actions xs :
  (∀ a x, keeps (body a x)) → keeps (foldActions body actions xs).
Proof.
  intros Hbody. revert actions. induction xs as [|x xs IH]; intros actions.
  - apply keeps_ret.
  - cbn [foldActions]. apply keeps_bind; [apply Hbody | intros a; apply IH].
Qed.

Ltac keeps_step :=
  first [ apply keeps_ret | apply keeps_panic | apply keeps_under | apply keeps_readW
        | apply keeps_concatM | apply keeps_log | apply keeps_assertEqualf
        | apply keeps_concatCall
        | apply keeps_bind; [|intros ?] ].

Lemma keeps_step_ source msg : keeps (step (comps := counting c) source msg).
Proof.
  unfold step. destruct (Msg_Type msg); cbn [counting clientHashDisseminator_step
    checkpointTracker_step batchTracker_step epochTracker_step]; repeat keeps_step.
Qed.

Lemma keeps_applyAcceptedCheckpoint actions ce cr :
  keeps (applyAcceptedCheckpoint (comps := counting c) actions ce cr).
Proof.
  unfold applyAcceptedCheckpoint.
  cbn [counting commitState_stopAtSeqNo commitState_applyCheckpointResult
       clientTracker_allocate clientHashDisseminator_allocate].
  repeat keeps_step.
  match goal with |- keeps (if ?b then _ else _) => destruct b end; repeat keeps_step.
Qed.

Lemma keeps_processCheckpointResult actions cr :
  keeps (processCheckpointResult (comps := counting c) actions cr).
Proof.
  unfold processCheckpointResult.
  cbn [counting commitState_lowWatermark commitState_activeState epochTracker_currentEpoch].
  apply keeps_bind; [apply keeps_readW|]. intros lw.
  destruct (_ <? lw); [apply keeps_ret|].
  apply keeps_bind; [apply keeps_readW|]. intros [ns|]; [|apply keeps_panic].
  apply keeps_bind; [apply keeps_assertEqualf|]. intros _.
  apply keeps_bind; [apply keeps_readW|]. intros [ce|]; [|apply keeps_panic].
  apply keeps_applyAcceptedCheckpoint.
Qed.

Lemma keeps_processHashResult actions hr :
  keeps (processHashResult (comps := counting c) actions hr).
Proof.
  unfold processHashResult.
  destruct (HR_Type hr);
    cbn [counting batchTracker_addBatch epochTracker_applyBatchHashResult
         epochTracker_applyEpochChangeDigest batchTracker_applyVerifyBatchHashResult
         batchTracker_hasFetchInFlight epochTracker_currentEpoch etFetching
         epochTracker_fetchNewEpochState];
    repeat keeps_step.
  match goal with |- keeps (if ?b then _ else _) => destruct b end; repeat keeps_step.
  match goal with |- keeps (match ?x with _ => _ end) => destruct x end; repeat keeps_step.
  case_decide; repeat keeps_step.
Qed.

Lemma keeps_processResults results : keeps (processResults (comps := counting c) results).
Proof.
  unfold processResults. apply keeps_bind.
  - apply keeps_foldActions. intros a x. apply keeps_processCheckpointResult.
  - intros a. apply keeps_foldActions. intros a' x. apply keeps_processHashResult.
Qed.

Lemma keeps_drainAndAdvance fuel actions :
  keeps (drainAndAdvance (comps := counting c) fuel actions).
Proof.
  revert actions. induction fuel as [|fuel IH]; intros actions; [by intros s|].
  cbn [drainAndAdvance]. cbn [counting commitState_drain epochTracker_advanceState].
  repeat keeps_step.
  match goal with |- keeps (if ?b then _ else _) => destruct b end; repeat keeps_step.
  apply IH.
Qed.

Lemma one_movement_refl x : one_movement x x.
Proof. unfold one_movement. lia. Qed.

Lemma moves_keeps {A} (m : M (store CW) A) : keeps m → moves eq m.
Proof. intros H s. by rewrite H. Qed.

Lemma moves_ghost f : moves (fun x y => y = f x) (ghost f).
Proof. by intros s. Qed.

Lemma moves_weaken (R R' : relation callCounts) {A} (m : M (store CW) A) :
  (∀ x y, R x y → R' x y) → moves R m → moves R' m.
Proof. intros HR H s. apply HR, H. Qed.

Lemma moves_bind (R1 R2 : relation callCounts) {A B}
      (m : M (store CW) A) (k : A → M (store CW) B) :
  (∀ x, R2 x x) → moves R1 m → (∀ a, moves R2 (k a)) → moves (and_then R1 R2) (bind m k).
Proof.
  intros Hrefl Hm Hk s. unfold bind. specialize (Hm s).
  destruct (m s) as [a s'|p s'|s']; cbn [out_state] in *.
  - exists (counts s'). split; [done|]. apply Hk.
  - exists (counts s'). split; [done|]. apply Hrefl.
  - exists (counts s'). split; [done|]. apply Hrefl.
Qed.

Lemma at_most_refl f x : at_most f x x.
Proof. by left. Qed.

Lemma and_then_refl (R1 R2 : relation callCounts) x : R1 x x → R2 x x → and_then R1 R2 x x.
Proof. intros H1 H2. by exists x. Qed.

(** The guarded block of [applyEvent], entered: the checkpoint tracker collects,
    then the batch tracker truncates or not, then the epoch tracker moves its low
    watermark, unless something panicked on the way. *)
Lemma garbageCollectInEvent_moves actions :
  moves (fun x z => z = x
                    ∨ and_then (fun x y => y = bump_garbageCollect x)
                        (and_then (at_most bump_batchTruncate)
                                  (at_most bump_moveLowWatermark)) x z)
        (garbageCollectInEvent (comps := counting c) actions).
Proof.
  assert (Hgc : moves (fun x y => y = bump_garbageCollect x)
                      (ghost bump_garbageCollect ;;; under checkpointTracker_garbageCollect)).
  { eapply moves_weaken; [|apply (moves_bind (fun x y => y = bump_garbageCollect x) eq)].
    - intros x y (z & -> & <-). done.
    - done.
    - apply moves_ghost.
    - intros _. apply moves_keeps, keeps_under. }
  assert (Hbt : ∀ n (b : bool),
             moves (at_most bump_batchTruncate)
                   (if b then ghost bump_batchTruncate ;;; under (batchTracker_truncate n)
                    else ret tt)).
  { intros n [|].
    - eapply moves_weaken; [|apply (moves_bind (fun x y => y = bump_batchTruncate x) eq)].
      + intros x y (z & -> & <-). by right.
      + done.
      + apply moves_ghost.
      + intros _. apply moves_keeps, keeps_under.
    - intros s'. by left. }
  assert (Hmv : ∀ n, moves (at_most bump_moveLowWatermark)
                       (concatCall actions
                          (ghost bump_moveLowWatermark ;;;
                           under (epochTracker_moveLowWatermark n)))).
  { intros n. unfold concatCall.
    eapply moves_weaken; [|apply (moves_bind (fun x y => y = bump_moveLowWatermark x) eq)].
    - intros x y (z & -> & <-). by right.
    - done.
    - eapply moves_weaken;
        [|apply (moves_bind (fun x y => y = bump_moveLowWatermark x) eq)].
      + intros x y (z & -> & <-). done.
      + done.
      + apply moves_ghost.
      + intros _. apply moves_keeps, keeps_under.
    - intros o. apply moves_keeps, keeps_concatM. }
  unfold garbageCollectInEvent.
  cbn [counting checkpointTracker_state cpsGarbageCollectable checkpointTracker_garbageCollect
       checkpointTracker_networkConfig batchTracker_truncate epochTracker_moveLowWatermark].
  eapply moves_weaken; [|apply (moves_bind eq)].
  { intros x y (z & -> & H). exact H. }
  { intros x. by left. }
  { apply moves_keeps, keeps_readW. }
  intros cpState. case_decide; [|intros s; by left].
  eapply moves_weaken; [intros x y H'; right; exact H'|].
  apply moves_bind; [|exact Hgc|].
  { intros x. apply and_then_refl; apply at_most_refl. }
  intros newLow.
  eapply moves_weaken; [|apply (moves_bind eq (and_then (at_most bump_batchTruncate)
                                                 (at_most bump_moveLowWatermark)))].
  { intros x y (z & -> & H'). exact H'. }
  { intros x. apply and_then_refl; apply at_most_refl. }
  { apply moves_keeps, keeps_log. }
  intros _.
  eapply moves_weaken; [|apply (moves_bind eq (and_then (at_most bump_batchTruncate)
                                                 (at_most bump_moveLowWatermark)))].
  { intros x y (z & -> & H'). exact H'. }
  { intros x. apply and_then_refl; apply at_most_refl. }
  { apply moves_keeps, keeps_readW. }
  intros [networkConfig|].
  - apply moves_bind; [apply at_most_refl | apply Hbt | intros _; apply Hmv].
  - intros s. apply and_then_refl; apply at_most_refl.
Qed.

Lemma garbageCollectInEvent_one_movement actions s :
  one_movement (counts s)
               (counts (out_state (garbageCollectInEvent (comps := counting c) actions s))).
Proof.
  destruct (garbageCollectInEvent_moves actions s)
    as [-> | (x & -> & y & [-> | ->] & [-> | ->])];
    unfold one_movement; cbn; lia.
Qed.

Lemma keepsSM_ret {A} (a : A) : keepsSM (ret a).
Proof. by intros sm. Qed.

Lemma keepsSM_panic {A} p : keepsSM (panic (A := A) p).
Proof. by intros sm. Qed.

Lemma keepsSM_get : keepsSM get.
Proof. by intros sm. Qed.

Lemma keepsSM_set_state st : keepsSM (modify (set_state st)).
Proof. by intros sm. Qed.

Lemma keepsSM_assertEqualf lhs rhs format : keepsSM (assertEqualf lhs rhs format).
Proof. intros sm. unfold assertEqualf. by case_decide. Qed.

Lemma keepsSM_bind {A B} (m : M (StateMachine CW) A) (k : A → M (StateMachine CW) B) :
  keepsSM m → (∀ a, keepsSM (k a)) → keepsSM (bind m k).
Proof.
  intros Hm Hk sm. unfold bind. specialize (Hm sm).
  destruct (m sm) as [a sm'|p sm'|sm']; cbn in *; [|done..].
  by rewrite Hk.
Qed.

Lemma onStore_moves (R : relation callCounts) {A} (m : M (store CW) A) sm :
  (∀ x, R x x) → moves R m → R (callsOf sm) (callsOf (out_state (onStore m sm))).
Proof.
  intros Hrefl Hm. unfold onStore, callsOf.
  destruct (thePersisted sm) as [p|] eqn:Hp, (components sm) as [w|] eqn:Hw;
    cbn; rewrite ?Hw; try apply Hrefl.
  specialize (Hm {| theLog := p; theComponents := w |}).
  destruct (m _) as [a s|k s|s]; exact Hm.
Qed.

Lemma keepsSM_onStore {A} (m : M (store CW) A) : keeps m → keepsSM (onStore m).
Proof.
  intros H sm. symmetry. apply (onStore_moves eq); [done|]. by apply moves_keeps.
Qed.

Lemma keepsSM_concatCall a (m : M (StateMachine CW) actionSet) :
  keepsSM m → keepsSM (concatCall a m).
Proof.
  intros H. apply keepsSM_bind; [done|]. intros o sm. unfold concatM.
  by destruct (concat a o).
Qed.

Lemma keeps_reinitialize : keepsSM (reinitialize (comps := counting c)).
Proof.
  unfold reinitialize, sm_recoverLog. apply keepsSM_onStore.
  cbn [counting commitState_reinitialize commitState_activeState clientTracker_reinitialize
       commitState_lowWatermark clientHashDisseminator_reinitialize
       checkpointTracker_reinitialize batchTracker_reinitialize epochTracker_reinitialize].
  repeat keeps_step.
Qed.

Lemma keeps_applyPersisted idx data : keepsSM (applyPersisted (W := CW) idx data).
Proof.
  unfold applyPersisted.
  apply keepsSM_bind; [apply keepsSM_get|]. intros sm.
  apply keepsSM_bind; [apply keepsSM_assertEqualf|]. intros _.
  apply keepsSM_onStore, keeps_log.
Qed.

Lemma keeps_completeInitialization : keepsSM (completeInitialization (comps := counting c)).
Proof.
  unfold completeInitialization.
  apply keepsSM_bind; [apply keepsSM_get|]. intros sm.
  apply keepsSM_bind; [apply keepsSM_assertEqualf|]. intros _.
  apply keepsSM_bind; [apply keepsSM_set_state|]. intros _.
  apply keeps_reinitialize.
Qed.

Lemma keeps_assertInitialized : keepsSM (assertInitialized (W := CW)).
Proof.
  unfold assertInitialized.
  apply keepsSM_bind; [apply keepsSM_get|]. intros sm. apply keepsSM_assertEqualf.
Qed.

Lemma keeps_dispatch ev : keepsSM (dispatch (comps := counting c) ev).
Proof.
  unfold dispatch. destruct ev; try apply keepsSM_ret.
  - apply keepsSM_bind; [apply keeps_assertInitialized|]. intros _.
    apply keepsSM_onStore. cbn [counting clientHashDisseminator_tick epochTracker_tick].
    repeat keeps_step.
  - apply keepsSM_bind; [apply keeps_assertInitialized|]. intros _.
    apply keepsSM_onStore, keeps_concatCall, keeps_step_.
  - apply keepsSM_bind; [apply keeps_assertInitialized|]. intros _.
    apply keepsSM_onStore, keeps_concatCall, keeps_processResults.
  - apply keepsSM_bind; [apply keeps_assertInitialized|]. intros _.
    apply keepsSM_onStore. cbn [counting clientHashDisseminator_applyNewRequests].
    repeat keeps_step.
  - apply keepsSM_bind.
    { apply keepsSM_onStore. cbn [counting commitState_transferring]. repeat keeps_step. }
    intros _. apply keepsSM_bind.
    { apply keepsSM_onStore, keeps_concatCall, keeps_log. }
    intros a. apply keepsSM_concatCall, keeps_reinitialize.
Qed.

Lemma initialize_counts parameters sm :
  let after := callsOf (out_state (initialize (comps := counting c) parameters sm)) in
  after = callsOf sm ∨ after = noCalls.
Proof.
  cbv zeta. unfold initialize.
  rewrite (bind_Ok get _ sm sm sm eq_refl).
  destruct (assertEqualf_outcome (S := StateMachine CW)
              (iface_state (state sm)) (iface_state smUninitialized)
              "state machine has already been initialized" sm) as [E|E].
  - rewrite (bind_Ok _ _ _ _ _ E). cbv zeta.
    erewrite bind_Ok by reflexivity. right.
    match goal with |- callsOf (out_state (onStore ?m ?sm0)) = _ =>
      assert (K : keeps m);
        [|exact (eq_sym (onStore_moves eq m sm0 (fun x => eq_refl) (moves_keeps m K)))]
    end.
    cbn [counting newCheckpointTracker newClientTracker newCommitState
         newClientHashDisseminator newBatchTracker newEpochTracker].
    repeat keeps_step.
  - rewrite (bind_Panic _ _ _ _ _ E). by left.
Qed.

(** C5.  The calls the orchestrator makes during one [applyEvent], counted on
    the wrapped components.  [Initialize] builds the components afresh, with
    counters at zero.  During any other event [checkpointTracker.garbageCollect]
    is called at most once, and [batchTracker.truncate] and
    [epochTracker.moveLowWatermark] at most once and only after it: the guarded
    block, with the truncation of the log between its first and its last call,
    runs at most once.  The closing loop of [applyEvent] calls none of the
    three, however many times it goes round. *)
Theorem garbage_collection_once_per_event fuel (ev : StateEvent) (sm : StateMachine CW) :
  let after := callsOf (out_state (applyEvent (comps := counting c) fuel ev sm)) in
  match ev with
  | StateEvent_Initialize _ => after = callsOf sm ∨ after = noCalls
  | _ => one_movement (callsOf sm) after
  end
  ∧ ∀ actions s,
      counts (out_state (drainAndAdvance (comps := counting c) fuel actions s)) = counts s.
Proof.
  cbv zeta. split; [|intros actions s; apply keeps_drainAndAdvance].
  assert (Hkeeps : ∀ m : M (StateMachine CW) actionSet,
             keepsSM m → one_movement (callsOf sm) (callsOf (out_state (m sm)))).
  { intros m Hm. rewrite Hm. apply one_movement_refl. }
  assert (Hfall : ∀ ev', one_movement (callsOf sm)
            (callsOf (out_state
               ((actions <~ dispatch (comps := counting c) ev' ;;
                 onStore (actions <~ garbageCollectInEvent (comps := counting c) actions ;;
                          drainAndAdvance (comps := counting c) fuel actions)) sm)))).
  { intros ev'. unfold bind at 1.
    pose proof (keeps_dispatch ev' sm) as Hd.
    destruct (dispatch ev' sm) as [actions sm1|p sm1|sm1]; cbn [out_state] in *;
      rewrite <- Hd; [|apply one_movement_refl..].
    apply (onStore_moves one_movement); [apply one_movement_refl|].
    intros s. unfold bind.
    pose proof (garbageCollectInEvent_one_movement actions s) as Hgc.
    destruct (garbageCollectInEvent actions s) as [actions' s1|p s1|s1];
      cbn [out_state] in *; [|exact Hgc..].
    by rewrite keeps_drainAndAdvance. }
  destruct ev; cbn [applyEvent]; try apply Hfall.
  - unfold bind. pose proof (initialize_counts parameters sm) as H. cbv zeta in H.
    by destruct (initialize parameters sm).
  - apply Hkeeps. apply keepsSM_bind; [apply keeps_applyPersisted|]. intros _.
    apply keepsSM_ret.
  - apply Hkeeps, keeps_completeInitialization.
  - apply one_movement_refl.
  - apply one_movement_refl.
  - apply one_movement_refl.
Qed.

End CountingCalls.

(** ** Determinism *)

Section Determinism.
Context {W : Type} {comps : Components W}.

Lemma bind_finished {S A B} (m : M S A) (k k' : A → M S B) (s : S) :
  (∀ a s', finished (k a s') = true → k' a s' = k a s') →
  finished (bind m k s) = true → bind m k' s = bind m k s.
Proof.
  intros H Hfin. unfold bind in *. destruct (m s) as [a s'|p s'|s']; [|done..].
  by apply H.
Qed.

(** The closing loop of [applyEvent] does what it does whatever the bound,
    once the bound is large enough for it to end. *)
Lemma drainAndAdvance_more_fuel (fuel fuel' : nat) actions (s : store W) :
  finished (drainAndAdvance fuel actions s) = true → (fuel ≤ fuel')%nat →
  drainAndAdvance fuel' actions s = drainAndAdvance fuel actions s.
Proof.
  revert fuel' actions s. induction fuel as [|fuel IH]; intros fuel' actions s Hfin Hle.
  { discriminate. }
  destruct fuel' as [|fuel']; [lia|].
  cbn [drainAndAdvance] in *.
  apply bind_finished; [|exact Hfin]. intros actions1 s1 H1.
  apply bind_finished; [|exact H1]. intros loopActions s2 H2.
  destruct (isEmpty loopActions); [done|].
  apply bind_finished; [|exact H2]. intros actions2 s3 H3.
  apply IH; [exact H3 | lia].
Qed.

Lemma onStore_finished {A} (m m' : M (store W) A) (sm : StateMachine W) :
  (∀ s, finished (m s) = true → m' s = m s) →
  finished (onStore m sm) = true → onStore m' sm = onStore m sm.
Proof.
  intros H Hfin. unfold onStore in *.
  destruct (thePersisted sm) as [p|], (components sm) as [w|]; try done.
  rewrite H; [done|]. by destruct (m _).
Qed.

Lemma applyEvent_more_fuel (fuel fuel' : nat) ev (sm : StateMachine W) :
  finished (applyEvent fuel ev sm) = true → (fuel ≤ fuel')%nat →
  applyEvent fuel' ev sm = applyEvent fuel ev sm.
Proof.
  intros Hfin Hle.
  assert (Hfall : ∀ (d : M (StateMachine W) actionSet),
            finished ((actions <~ d ;;
                       onStore (actions <~ garbageCollectInEvent actions ;;
                                drainAndAdvance fuel actions)) sm) = true →
            (actions <~ d ;;
             onStore (actions <~ garbageCollectInEvent actions ;;
                      drainAndAdvance fuel' actions)) sm
            = (actions <~ d ;;
               onStore (actions <~ garbageCollectInEvent actions ;;
                        drainAndAdvance fuel actions)) sm).
  { intros d Hd. apply bind_finished; [|exact Hd]. intros actions sm1 H1.
    apply onStore_finished; [|exact H1]. intros s Hs.
    apply bind_finished; [|exact Hs]. intros actions1 s1 H2.
    by apply drainAndAdvance_more_fuel. }
  destruct ev; cbn [applyEvent] in *; try reflexivity; by apply Hfall.
Qed.

Lemma applyEvent_any_fuel (fuel1 fuel2 : nat) ev (sm : StateMachine W) :
  finished (applyEvent fuel1 ev sm) = true → finished (applyEvent fuel2 ev sm) = true →
  applyEvent fuel1 ev sm = applyEvent fuel2 ev sm.
Proof.
  intros H1 H2. destruct (Nat.le_ge_cases fuel1 fuel2) as [Hle|Hle].
  - symmetry. by apply applyEvent_more_fuel.
  - by apply applyEvent_more_fuel.
Qed.

(** A run that comes to the end of every event it runs does the same under
    any larger bound on the closing loop. *)
Lemma run_more_fuel (events : list StateEvent) (fuel fuel' : nat) (sm : StateMachine W) :
  forallb finished (run fuel events sm) = true → (fuel ≤ fuel')%nat →
  run fuel' events sm = run fuel events sm.
Proof.
  intros H Hle. revert sm H. induction events as [|ev events IH]; intros sm H; [done|].
  cbn [run] in *. unfold ApplyEvent in *.
  assert (E : applyEvent fuel' ev sm = applyEvent fuel ev sm).
  { apply applyEvent_more_fuel; [|done]. by destruct (applyEvent fuel ev sm). }
  rewrite E.
  destruct (applyEvent fuel ev sm) as [a sm'|p sm'|sm']; [|done..].
  cbn in H. f_equal. by apply IH.
Qed.

End Determinism.

(** ** Determinism: two replicas *)

Section Replicas.
Context {W1 W2 : Type} (R : W1 → W2 → Prop).
Context (c1 : Components W1) (c2 : Components W2).
Hypothesis Hc : alike R c1 c2.

Local Abbreviation onStores := (alike_run (alike_store R)).
Local Abbreviation onMachines := (alike_run (alike_sm R)).

Lemma alike_ret {S1 S2 A} (RS : S1 → S2 → Prop) (a : A) : alike_run RS (ret a) (ret a).
Proof. by intros s1 s2 H. Qed.

Lemma alike_panic {S1 S2 A} (RS : S1 → S2 → Prop) p :
  alike_run RS (panic (A := A) p) (panic p).
Proof. by intros s1 s2 H. Qed.

Lemma alike_bind {S1 S2 A B} (RS : S1 → S2 → Prop)
      (m1 : M S1 A) (m2 : M S2 A) (k1 : A → M S1 B) (k2 : A → M S2 B) :
  alike_run RS m1 m2 → (∀ a, alike_run RS (k1 a) (k2 a)) →
  alike_run RS (bind m1 k1) (bind m2 k2).
Proof.
  intros Hm Hk s1 s2 H. unfold bind. specialize (Hm s1 s2 H).
  destruct (m1 s1) as [a1 s1'|p1 s1'|s1'], (m2 s2) as [a2 s2'|p2 s2'|s2']; try done.
  destruct Hm as [<- Hs]. by apply Hk.
Qed.

Lemma alike_concatM {S1 S2} (RS : S1 → S2 → Prop) a o :
  alike_run RS (concatM a o) (concatM a o).
Proof. intros s1 s2 H. unfold concatM. by destruct (concat a o). Qed.

Lemma alike_concatCall {S1 S2} (RS : S1 → S2 → Prop) a
      (m1 : M S1 actionSet) (m2 : M S2 actionSet) :
  alike_run RS m1 m2 → alike_run RS (concatCall a m1) (concatCall a m2).
Proof. intros H. apply alike_bind; [done|]. intros o. apply alike_concatM. Qed.

Lemma alike_assertEqualf {S1 S2} (RS : S1 → S2 → Prop) lhs rhs format :
  alike_run RS (assertEqualf lhs rhs format) (assertEqualf lhs rhs format).
Proof. intros s1 s2 H. unfold assertEqualf. by case_decide. Qed.

Lemma alike_readW {A} (f1 : W1 → A) (f2 : W2 → A) :
  alike_field R f1 f2 → onStores (readW f1) (readW f2).
Proof. intros Hf s1 s2 H. unfold readW. cbn. split; [|done]. apply Hf, H. Qed.

Lemma alike_log {A} (m : M persisted A) :
  onStores (zoom theLog set_theLog m) (zoom theLog set_theLog m).
Proof.
  intros s1 s2 [Hl Hw]. unfold zoom. rewrite Hl.
  by destruct (m (theLog s2)).
Qed.

Lemma alike_foldActions {A} (body1 : actionSet → A → M (store W1) actionSet)
      (body2 : actionSet → A → M (store W2) actionSet) actions xs :
  (∀ a x, onStores (body1 a x) (body2 a x)) →
  onStores (foldActions body1 actions xs) (foldActions body2 actions xs).
Proof.
  intros Hbody. revert actions. induction xs as [|x xs IH]; intros actions.
  - apply alike_ret.
  - cbn [foldActions]. apply alike_bind; [apply Hbody | intros a; apply IH].
Qed.

Ltac alike_method :=
  let H := fresh in
  pose proof Hc as H; destruct H;
  match goal with
  | Hm : _ |- alike_run _ _ _ => solve [apply Hm]
  end.

Ltac alike_field :=
  let H := fresh in
  pose proof Hc as H; destruct H;
  match goal with
  | Hf : _ |- alike_field _ _ _ => solve [apply Hf]
  end.

Ltac alike_step :=
  first [ apply alike_ret | apply alike_panic
        | apply alike_concatM | apply alike_log | apply alike_assertEqualf
        | apply alike_readW; alike_field
        | alike_method
        | apply alike_concatCall
        | apply alike_bind; [|intros ?] ].

Lemma alike_step_ source msg :
  onStores (step (comps := c1) source msg) (step (comps := c2) source msg).
Proof. unfold step. destruct (Msg_Type msg); repeat alike_step. Qed.

Lemma alike_applyAcceptedCheckpoint actions ce cr :
  onStores (applyAcceptedCheckpoint (comps := c1) actions ce cr)
           (applyAcceptedCheckpoint (comps := c2) actions ce cr).
Proof.
  unfold applyAcceptedCheckpoint. repeat alike_step.
  match goal with |- alike_run _ (if ?b then _ else _) _ => destruct b end; repeat alike_step.
Qed.

Lemma alike_processCheckpointResult actions cr :
  onStores (processCheckpointResult (comps := c1) actions cr)
           (processCheckpointResult (comps := c2) actions cr).
Proof.
  unfold processCheckpointResult.
  apply alike_bind; [apply alike_readW; alike_field|]. intros lw.
  destruct (_ <? lw); [apply alike_ret|].
  apply alike_bind; [apply alike_readW; alike_field|]. intros [ns|]; [|apply alike_panic].
  apply alike_bind; [apply alike_assertEqualf|]. intros _.
  apply alike_bind; [apply alike_readW; alike_field|]. intros [ce|]; [|apply alike_panic].
  apply alike_applyAcceptedCheckpoint.
Qed.

Lemma alike_processHashResult actions hr :
  onStores (processHashResult (comps := c1) actions hr)
           (processHashResult (comps := c2) actions hr).
Proof.
  unfold processHashResult. rewrite <- (alike_etFetching R c1 c2 Hc).
  destruct (HR_Type hr); repeat alike_step.
  match goal with |- alike_run _ (if ?b then _ else _) _ => destruct b end; repeat alike_step.
  match goal with |- alike_run _ (match ?x with _ => _ end) _ => destruct x end;
    repeat alike_step.
  case_decide; repeat alike_step.
Qed.

Lemma alike_processResults results :
  onStores (processResults (comps := c1) results) (processResults (comps := c2) results).
Proof.
  unfold processResults. apply alike_bind.
  - apply alike_foldActions. intros a x. apply alike_processCheckpointResult.
  - intros a. apply alike_foldActions. intros a' x. apply alike_processHashResult.
Qed.

Lemma alike_garbageCollectInEvent actions :
  onStores (garbageCollectInEvent (comps := c1) actions)
           (garbageCollectInEvent (comps := c2) actions).
Proof.
  unfold garbageCollectInEvent. rewrite <- (alike_cpsGarbageCollectable R c1 c2 Hc).
  apply alike_bind; [apply alike_readW; alike_field|]. intros cpState.
  case_decide; [|apply alike_ret].
  apply alike_bind; [alike_method|]. intros newLow.
  apply alike_bind; [apply alike_log|]. intros _.
  apply alike_bind; [apply alike_readW; alike_field|].
  intros [networkConfig|]; [|apply alike_panic].
  apply alike_bind; [|intros _; repeat alike_step].
  destruct (_ <? newLow); repeat alike_step.
Qed.

Lemma alike_drainAndAdvance fuel actions :
  onStores (drainAndAdvance (comps := c1) fuel actions)
           (drainAndAdvance (comps := c2) fuel actions).
Proof.
  revert actions. induction fuel as [|fuel IH]; intros actions; [by intros s1 s2 H|].
  cbn [drainAndAdvance]. repeat alike_step.
  match goal with |- alike_run _ (if ?b then _ else _) _ => destruct b end; repeat alike_step.
Qed.

Lemma alike_onStore {A} (m1 : M (store W1) A) (m2 : M (store W2) A) :
  onStores m1 m2 → onMachines (onStore m1) (onStore m2).
Proof.
  intros H sm1 sm2 Hsm. pose proof Hsm as (Hst & Hcfg & Hp & Hw). unfold onStore.
  rewrite Hp. destruct (thePersisted sm2) as [p|] eqn:Ep; [|done].
  destruct Hw as [w1 w2 Hw|]; [|done].
  specialize (H {| theLog := p; theComponents := w1 |}
                {| theLog := p; theComponents := w2 |}).
  lapply H; [clear H; intros H|by split].
  assert (Hset : ∀ s1 s2, alike_store R s1 s2 → alike_sm R (set_store s1 sm1) (set_store s2 sm2)).
  { intros s1 s2 [Hl HR]. unfold alike_sm, set_store. cbn. rewrite Hl.
    repeat split; try done. by constructor. }
  destruct (m1 _) as [a1 s1|p1 s1|s1], (m2 _) as [a2 s2|p2 s2|s2]; try done; cbn in H |- *.
  - destruct H as [-> H]. split; [done|]. by apply Hset.
  - destruct H as [-> H]. split; [done|]. by apply Hset.
  - by apply Hset.
Qed.

Lemma alike_get {A} (k1 : StateMachine W1 → M (StateMachine W1) A)
      (k2 : StateMachine W2 → M (StateMachine W2) A) :
  (∀ sm1 sm2, alike_sm R sm1 sm2 → onMachines (k1 sm1) (k2 sm2)) →
  onMachines (bind get k1) (bind get k2).
Proof. intros H sm1 sm2 Hsm. unfold bind. cbn [get]. by apply H. Qed.

Lemma alike_set_state s :
  onMachines (modify (set_state s)) (modify (set_state s)).
Proof. intros sm1 sm2 (Hst & Hcfg & Hp & Hw). by repeat split. Qed.

Lemma alike_reinitialize :
  onMachines (reinitialize (comps := c1)) (reinitialize (comps := c2)).
Proof. unfold reinitialize, sm_recoverLog. apply alike_onStore. repeat alike_step. Qed.

Lemma alike_assertInitialized :
  onMachines (assertInitialized (W := W1)) (assertInitialized (W := W2)).
Proof.
  unfold assertInitialized. apply alike_get. intros sm1 sm2 (-> & _).
  apply alike_assertEqualf.
Qed.

Lemma alike_dispatch ev :
  onMachines (dispatch (comps := c1) ev) (dispatch (comps := c2) ev).
Proof.
  unfold dispatch. destruct ev; try apply alike_ret.
  - apply alike_bind; [apply alike_assertInitialized|].
    intros _. apply alike_onStore. repeat alike_step.
  - apply alike_bind; [apply alike_assertInitialized|].
    intros _. apply alike_onStore, alike_concatCall, alike_step_.
  - apply alike_bind; [apply alike_assertInitialized|].
    intros _. apply alike_onStore, alike_concatCall, alike_processResults.
  - apply alike_bind; [apply alike_assertInitialized|].
    intros _. apply alike_onStore. repeat alike_step.
  - apply alike_bind.
    { apply alike_onStore. repeat alike_step. }
    intros _. apply alike_bind.
    { apply alike_onStore, alike_concatCall, alike_log. }
    intros a. apply alike_concatCall, alike_reinitialize.
Qed.

Lemma alike_initialize parameters :
  onMachines (initialize (comps := c1) parameters) (initialize (comps := c2) parameters).
Proof.
  unfold initialize. apply alike_get. intros sm1 sm2 (-> & _).
  apply alike_bind; [apply alike_assertEqualf|]. intros _. cbv zeta.
  apply alike_bind.
  { intros s1 s2 _. cbn. split; [done|]. repeat split. constructor.
    apply (alike_newNodeBuffers R c1 c2 Hc). }
  intros _. apply alike_onStore. repeat alike_step.
Qed.

(** On state machines that agree, [applyEvent] ends alike on the two replicas. *)
Lemma alike_applyEvent fuel ev :
  onMachines (applyEvent (comps := c1) fuel ev) (applyEvent (comps := c2) fuel ev).
Proof.
  assert (Hfall : onMachines
            (actions <~ dispatch (comps := c1) ev ;;
             onStore (actions <~ garbageCollectInEvent (comps := c1) actions ;;
                      drainAndAdvance (comps := c1) fuel actions))
            (actions <~ dispatch (comps := c2) ev ;;
             onStore (actions <~ garbageCollectInEvent (comps := c2) actions ;;
                      drainAndAdvance (comps := c2) fuel actions))).
  { apply alike_bind; [apply alike_dispatch|]. intros actions.
    apply alike_onStore, alike_bind; [apply alike_garbageCollectInEvent|].
    intros a. apply alike_drainAndAdvance. }
  destruct ev; cbn [applyEvent]; try exact Hfall; try apply alike_ret;
    try apply alike_panic.
  - apply alike_bind; [apply alike_initialize|intros _; apply alike_ret].
  - apply alike_bind; [|intros _; apply alike_ret].
    unfold applyPersisted. apply alike_get. intros sm1 sm2 (-> & _).
    apply alike_bind; [apply alike_assertEqualf|]. intros _.
    apply alike_onStore, alike_log.
  - unfold completeInitialization. apply alike_get. intros sm1 sm2 (-> & _).
    apply alike_bind; [apply alike_assertEqualf|]. intros _.
    apply alike_bind; [apply alike_set_state|]. intros _. apply alike_reinitialize.
Qed.

Lemma alike_run_events fuel events : ∀ sm1 sm2,
  alike_sm R sm1 sm2 →
  Forall2 (alike_outcome (alike_sm R))
          (run (comps := c1) fuel events sm1) (run (comps := c2) fuel events sm2).
Proof.
  induction events as [|ev events IH]; intros sm1 sm2 Hsm; [constructor|].
  cbn [run]. unfold ApplyEvent.
  pose proof (alike_applyEvent fuel ev sm1 sm2 Hsm) as H.
  destruct (applyEvent fuel ev sm1) as [a1 s1|p1 s1|s1],
           (applyEvent fuel ev sm2) as [a2 s2|p2 s2|s2]; try done.
  - constructor; [done|]. apply IH, H.
  - constructor; [done|constructor].
  - constructor; [done|constructor].
Qed.


End Replicas.

(** The counting components and the components they wrap are two such
    replicas: their heaps agree when the wrapped heap, under its counters, is
    the heap of the other. *)
Section CountingReplica.
Context {W : Type} (c : Components W).

Lemma alike_under {A} (m : M (store W) A) :
  alike_run (alike_store (W2 := W * callCounts) counted_heap) m (under m).
Proof.
  intros s1 s2 [Hl Hw]. unfold counted_heap in Hw. unfold under.
  assert (Hs : forget s2 = s1).
  { destruct s1, s2. unfold forget. cbn in *. by subst. }
  rewrite Hs. destruct (m s1) as [a s|p s|s]; by cbn.
Qed.

Lemma alike_counted {A} f (m : M (store W) A) :
  alike_run (alike_store (W2 := W * callCounts) counted_heap) m (ghost f ;;; under m).
Proof.
  intros s1 s2 [Hl Hw]. unfold bind. cbn [ghost].
  apply (alike_under m). by split.
Qed.

Lemma alike_counting : alike counted_heap c (counting c).
Proof.
  constructor; cbn [counting newNodeBuffers newCheckpointTracker newClientTracker
    newCommitState newClientHashDisseminator newBatchTracker newEpochTracker
    commitState_transferring commitState_lowWatermark commitState_stopAtSeqNo
    commitState_activeState commitState_reinitialize commitState_applyCheckpointResult
    commitState_drain clientTracker_reinitialize clientTracker_allocate
    clientHashDisseminator_tick clientHashDisseminator_step
    clientHashDisseminator_applyNewRequests clientHashDisseminator_reinitialize
    clientHashDisseminator_allocate cpsGarbageCollectable checkpointTracker_state
    checkpointTracker_networkConfig checkpointTracker_step checkpointTracker_reinitialize
    checkpointTracker_garbageCollect batchTracker_step batchTracker_reinitialize
    batchTracker_addBatch batchTracker_applyVerifyBatchHashResult
    batchTracker_hasFetchInFlight batchTracker_truncate etFetching
    epochTracker_currentEpoch epochTracker_tick epochTracker_step
    epochTracker_reinitialize epochTracker_applyBatchHashResult
    epochTracker_applyEpochChangeDigest epochTracker_fetchNewEpochState
    epochTracker_moveLowWatermark epochTracker_advanceState];
    intros;
    first [ apply alike_under | apply alike_counted | reflexivity
          | by intros w1 w2 -> ].
Qed.

End CountingReplica.


(** ** The claims on the small instance *)

(** The digest ["b"] is outstanding against sequence 11 and arrives twice: the
    sequence is satisfied once, by the first arrival, and the second arrival is
    cached. *)
Lemma advanceRequests_same_digest_twice :
  let ack := {| ClientId := 7; ReqNo := 5; Digest := "b" |} in
  let t := {| ao := {| buckets := ∅;
                       availableIterator := {| items := [ack; ack]; position := 0 |};
                       correctRequests := ∅;
                       outstandingRequests := {[ "b" := 11 ]} |};
              heap := ({[ 11 := {[ "b" ]} ]} : Toy.sequences, [] : callLog) |} in
  let o := advanceRequests (sops := recording Toy.sops) t in
  finished o = true
  ∧ snd (heap (out_state o)) = [(11, ack)]
  ∧ fst (heap (out_state o)) !! 11 = Some ∅
  ∧ outstandingRequests (ao (out_state o)) !! "b" = None
  ∧ correctRequests (ao (out_state o)) !! "b" = Some ack.
Proof. vm_compute. repeat split; reflexivity. Qed.

(** The start-up and one checkpoint result on the counting components: the
    checkpoint result makes the checkpoint tracker collectable, and the event that
    delivers it moves the watermark once. *)
Lemma running_moves_watermark_once :
  match List.last (run (comps := counting Toy.comps) 1 Toy.running newStateMachine)
                  (OutOfFuel newStateMachine) with
  | Ok _ sm =>
      callsOf sm = {| n_garbageCollect := 1; n_batchTruncate := 0; n_moveLowWatermark := 1 |}
  | _ => False
  end.
Proof. vm_compute. reflexivity. Qed.

(** ** The wrapped components run as the components do

    Wrapping the components to observe their calls changes nothing that the
    orchestrator or the outstanding requests do: forgetting the ghost part of
    the outcome of a wrapped run gives the outcome of the plain run. *)

Lemma advanceRequests_loop_recording {W} (sops : SequenceOps W)
      pending actions (t : tracker (W * callLog)) :
  map_outcome unrecorded (advanceRequests_loop (sops := recording sops) pending actions t)
  = advanceRequests_loop (sops := sops) pending actions (unrecorded t).
Proof.
  revert actions t. induction pending as [|ack pending IH]; intros actions t; [done|].
  rewrite !advanceRequests_loop_step. cbv zeta. cbn [unrecorded ao heap].
  destruct (outstandingRequests (ao t) !! Digest ack) as [seq|]; [|apply IH].
  rewrite recording_satisfyOutstanding.
  destruct (satisfyOutstanding seq ack (heap t).1) as [o w|p w|w]; try done.
  destruct (concat actions o); [apply IH | done].
Qed.

Lemma advanceRequests_recording {W} (sops : SequenceOps W) (t : tracker (W * callLog)) :
  map_outcome unrecorded (advanceRequests (sops := recording sops) t)
  = advanceRequests (sops := sops) (unrecorded t).
Proof. unfold advanceRequests, bind. cbn [get]. apply advanceRequests_loop_recording. Qed.

Section CountingErased.
Context {W : Type} (c : Components W).

Local Abbreviation CW := (W * callCounts)%type.
Local Abbreviation follows := (@follows W _).
Local Abbreviation followsSM := (@followsSM W _).

Lemma follows_ret {A} (a : A) : follows (ret a) (ret a).
Proof. by intros s. Qed.

Lemma follows_panic {A} p : follows (panic (A := A) p) (panic p).
Proof. by intros s. Qed.

Lemma follows_bind {A B} (m' : M (store CW) A) m (k' : A → M (store CW) B) k :
  follows m' m → (∀ a, follows (k' a) (k a)) → follows (bind m' k') (bind m k).
Proof.
  intros Hm Hk s. unfold bind. specialize (Hm s).
  destruct (m' s) as [a s'|p s'|s']; cbn in Hm; rewrite <- Hm; [apply Hk|done..].
Qed.

Lemma follows_under {A} (m : M (store W) A) : follows (under m) m.
Proof.
  intros s. unfold under. destruct (m (forget s)) as [a s'|p s'|s']; cbn;
    by destruct s'.
Qed.

Lemma follows_counted {A} f (m : M (store W) A) : follows (ghost f ;;; under m) m.
Proof.
  intros s. unfold bind. cbn [ghost].
  apply (follows_under m {| theLog := theLog s;
                            theComponents := (fst (theComponents s), f (snd (theComponents s))) |}).
Qed.

Lemma follows_readW {A} (f' : CW → A) (f : W → A) :
  (∀ w, f' w = f (fst w)) → follows (readW f') (readW f).
Proof. intros H s. unfold readW. cbn. by rewrite H. Qed.

Lemma follows_concatM a o : follows (concatM a o) (concatM a o).
Proof. intros s. unfold concatM. by destruct (concat a o). Qed.

Lemma follows_concatCall a (m' : M (store CW) actionSet) m :
  follows m' m → follows (concatCall a m') (concatCall a m).
Proof. intros H. apply follows_bind; [done|]. intros o. apply follows_concatM. Qed.

Lemma follows_log {A} (m : M persisted A) :
  follows (zoom theLog set_theLog m) (zoom theLog set_theLog m).
Proof. intros s. unfold zoom. cbn. by destruct (m (theLog s)). Qed.

Lemma follows_assertEqualf lhs rhs format :
  follows (assertEqualf lhs rhs format) (assertEqualf lhs rhs format).
Proof. intros s. unfold assertEqualf. by case_decide. Qed.

Lemma follows_foldActions {A} (body' : actionSet → A → M (store CW) actionSet) body actions xs :
  (∀ a x, follows (body' a x) (body a x)) →
  follows (foldActions body' actions xs) (foldActions body actions xs).
Proof.
  intros Hbody. revert actions. induction xs as [|x xs IH]; intros actions.
  - apply follows_ret.
  - cbn [foldActions]. apply follows_bind; [apply Hbody | intros a; apply IH].
Qed.

Ltac follows_step :=
  first [ apply follows_ret | apply follows_panic | apply follows_under
        | apply follows_counted
        | apply follows_readW; intros ?; reflexivity
        | apply follows_concatM | apply follows_log | apply follows_assertEqualf
        | apply follows_concatCall
        | apply follows_bind; [|intros ?] ].

Lemma follows_step_ source msg :
  follows (step (comps := counting c) source msg) (step (comps := c) source msg).
Proof.
  unfold step. destruct (Msg_Type msg); cbn [counting clientHashDisseminator_step
    checkpointTracker_step batchTracker_step epochTracker_step]; repeat follows_step.
Qed.

Lemma follows_applyAcceptedCheckpoint actions ce cr :
  follows (applyAcceptedCheckpoint (comps := counting c) actions ce cr)
          (applyAcceptedCheckpoint (comps := c) actions ce cr).
Proof.
  unfold applyAcceptedCheckpoint.
  cbn [counting commitState_stopAtSeqNo commitState_applyCheckpointResult
       clientTracker_allocate clientHashDisseminator_allocate].
  repeat follows_step.
  match goal with |- follows (if ?b then _ else _) _ => destruct b end; repeat follows_step.
Qed.

Lemma follows_processCheckpointResult actions cr :
  follows (processCheckpointResult (comps := counting c) actions cr)
          (processCheckpointResult (comps := c) actions cr).
Proof.
  unfold processCheckpointResult.
  cbn [counting commitState_lowWatermark commitState_activeState epochTracker_currentEpoch].
  apply follows_bind; [by apply follows_readW|]. intros lw.
  destruct (_ <? lw); [apply follows_ret|].
  apply follows_bind; [by apply follows_readW|]. intros [ns|]; [|apply follows_panic].
  apply follows_bind; [apply follows_assertEqualf|]. intros _.
  apply follows_bind; [by apply follows_readW|]. intros [ce|]; [|apply follows_panic].
  apply follows_applyAcceptedCheckpoint.
Qed.

Lemma follows_processHashResult actions hr :
  follows (processHashResult (comps := counting c) actions hr)
          (processHashResult (comps := c) actions hr).
Proof.
  unfold processHashResult.
  destruct (HR_Type hr);
    cbn [counting batchTracker_addBatch epochTracker_applyBatchHashResult
         epochTracker_applyEpochChangeDigest batchTracker_applyVerifyBatchHashResult
         batchTracker_hasFetchInFlight epochTracker_currentEpoch etFetching
         epochTracker_fetchNewEpochState];
    repeat follows_step.
  match goal with |- follows (if ?b then _ else _) _ => destruct b end; repeat follows_step.
  match goal with |- follows (match ?x with _ => _ end) _ => destruct x end;
    repeat follows_step.
  case_decide; repeat follows_step.
Qed.

Lemma follows_processResults results :
  follows (processResults (comps := counting c) results)
          (processResults (comps := c) results).
Proof.
  unfold processResults. apply follows_bind.
  - apply follows_foldActions. intros a x. apply follows_processCheckpointResult.
  - intros a. apply follows_foldActions. intros a' x. apply follows_processHashResult.
Qed.

Lemma follows_garbageCollectInEvent actions :
  follows (garbageCollectInEvent (comps := counting c) actions)
          (garbageCollectInEvent (comps := c) actions).
Proof.
  unfold garbageCollectInEvent.
  cbn [counting checkpointTracker_state cpsGarbageCollectable checkpointTracker_garbageCollect
       checkpointTracker_networkConfig batchTracker_truncate epochTracker_moveLowWatermark].
  apply follows_bind; [by apply follows_readW|]. intros cpState.
  case_decide; [|apply follows_ret].
  repeat follows_step.
  destruct a1 as [networkConfig|]; [|apply follows_panic].
  apply follows_bind; [|intros _; repeat follows_step].
  destruct (_ <? a); repeat follows_step.
Qed.

Lemma follows_drainAndAdvance fuel actions :
  follows (drainAndAdvance (comps := counting c) fuel actions)
          (drainAndAdvance (comps := c) fuel actions).
Proof.
  revert actions. induction fuel as [|fuel IH]; intros actions; [by intros s|].
  cbn [drainAndAdvance]. cbn [counting commitState_drain epochTracker_advanceState].
  repeat follows_step.
  match goal with |- follows (if ?b then _ else _) _ => destruct b end; repeat follows_step.
  apply IH.
Qed.

Lemma followsSM_ret {A} (a : A) : followsSM (ret a) (ret a).
Proof. by intros sm. Qed.

Lemma followsSM_panic {A} p : followsSM (panic (A := A) p) (panic p).
Proof. by intros sm. Qed.

Lemma followsSM_bind {A B} (m' : M (StateMachine CW) A) m (k' : A → M (StateMachine CW) B) k :
  followsSM m' m → (∀ a, followsSM (k' a) (k a)) → followsSM (bind m' k') (bind m k).
Proof.
  intros Hm Hk sm. unfold bind. specialize (Hm sm).
  destruct (m' sm) as [a sm'|p sm'|sm']; cbn in Hm; rewrite <- Hm; [apply Hk|done..].
Qed.

Lemma followsSM_onStore {A} (m' : M (store CW) A) m :
  follows m' m → followsSM (onStore m') (onStore m).
Proof.
  intros H sm. unfold onStore. cbn [uncounted thePersisted components].
  destruct (thePersisted sm) as [p|] eqn:Hp; [|reflexivity].
  destruct (components sm) as [w|] eqn:Hw; [|reflexivity].
  cbn [fmap option_fmap option_map].
  specialize (H {| theLog := p; theComponents := w |}).
  change (forget {| theLog := p; theComponents := w |})
    with {| theLog := p; theComponents := fst w |} in H.
  rewrite <- H.
  destruct (m' {| theLog := p; theComponents := w |}) as [a s|k s|s]; reflexivity.
Qed.

Lemma followsSM_get {A} (k' : StateMachine CW → M (StateMachine CW) A) k :
  (∀ sm, followsSM (k' sm) (k (uncounted sm))) → followsSM (bind get k') (bind get k).
Proof. intros H sm. unfold bind. cbn [get]. apply H. Qed.

Lemma followsSM_assertEqualf lhs rhs format :
  followsSM (assertEqualf lhs rhs format) (assertEqualf lhs rhs format).
Proof. intros sm. unfold assertEqualf. by case_decide. Qed.

Lemma followsSM_concatCall a (m' : M (StateMachine CW) actionSet) m :
  followsSM m' m → followsSM (concatCall a m') (concatCall a m).
Proof.
  intros H. apply followsSM_bind; [done|]. intros o sm. unfold concatM.
  by destruct (concat a o).
Qed.

Lemma follows_reinitialize :
  followsSM (reinitialize (comps := counting c)) (reinitialize (comps := c)).
Proof.
  unfold reinitialize, sm_recoverLog. apply followsSM_onStore.
  cbn [counting commitState_reinitialize commitState_activeState clientTracker_reinitialize
       commitState_lowWatermark clientHashDisseminator_reinitialize
       checkpointTracker_reinitialize batchTracker_reinitialize epochTracker_reinitialize].
  repeat follows_step.
Qed.

Lemma follows_dispatch ev :
  followsSM (dispatch (comps := counting c) ev) (dispatch (comps := c) ev).
Proof.
  assert (Hinit : followsSM (assertInitialized (W := CW)) (assertInitialized (W := W))).
  { unfold assertInitialized. apply followsSM_get. intros sm0. cbn [uncounted state].
    apply followsSM_assertEqualf. }
  unfold dispatch.
  destruct ev; try apply followsSM_ret.
  - apply followsSM_bind; [exact Hinit|].
    intros _. apply followsSM_onStore.
    cbn [counting clientHashDisseminator_tick epochTracker_tick]. repeat follows_step.
  - apply followsSM_bind; [exact Hinit|].
    intros _. apply followsSM_onStore, follows_concatCall, follows_step_.
  - apply followsSM_bind; [exact Hinit|].
    intros _. apply followsSM_onStore, follows_concatCall, follows_processResults.
  - apply followsSM_bind; [exact Hinit|].
    intros _. apply followsSM_onStore.
    cbn [counting clientHashDisseminator_applyNewRequests]. repeat follows_step.
  - apply followsSM_bind.
    { apply followsSM_onStore. cbn [counting commitState_transferring].
      repeat follows_step. }
    intros _. apply followsSM_bind.
    { apply followsSM_onStore, follows_concatCall, follows_log. }
    intros a. apply followsSM_concatCall, follows_reinitialize.
Qed.

(** The counting components run the orchestrator as the components do. *)
Lemma applyEvent_counting fuel ev (sm : StateMachine CW) :
  map_outcome uncounted (applyEvent (comps := counting c) fuel ev sm)
  = applyEvent (comps := c) fuel ev (uncounted sm).
Proof.
  revert sm. change (followsSM (applyEvent (comps := counting c) fuel ev)
                               (applyEvent (comps := c) fuel ev)).
  assert (Hfall : followsSM
            (actions <~ dispatch (comps := counting c) ev ;;
             onStore (actions <~ garbageCollectInEvent (comps := counting c) actions ;;
                      drainAndAdvance (comps := counting c) fuel actions))
            (actions <~ dispatch (comps := c) ev ;;
             onStore (actions <~ garbageCollectInEvent (comps := c) actions ;;
                      drainAndAdvance (comps := c) fuel actions))).
  { apply followsSM_bind; [apply follows_dispatch|]. intros actions.
    apply followsSM_onStore, follows_bind; [apply follows_garbageCollectInEvent|].
    intros a. apply follows_drainAndAdvance. }
  destruct ev; cbn [applyEvent]; try exact Hfall; try apply followsSM_ret;
    try apply followsSM_panic.
  - apply followsSM_bind; [|intros _; apply followsSM_ret].
    unfold initialize. apply followsSM_get. intros sm0. cbn [uncounted state].
    apply followsSM_bind; [apply followsSM_assertEqualf|]. intros _.
    cbv zeta. apply followsSM_bind; [by intros sm|]. intros _.
    apply followsSM_onStore.
    cbn [counting newCheckpointTracker newClientTracker newCommitState
         newClientHashDisseminator newBatchTracker newEpochTracker].
    repeat follows_step.
  - apply followsSM_bind; [|intros _; apply followsSM_ret].
    unfold applyPersisted. apply followsSM_get. intros sm0. cbn [uncounted state].
    apply followsSM_bind; [apply followsSM_assertEqualf|]. intros _.
    apply followsSM_onStore, follows_log.
  - unfold completeInitialization. apply followsSM_get. intros sm0. cbn [uncounted state].
    apply followsSM_bind; [apply followsSM_assertEqualf|]. intros _.
    apply followsSM_bind; [by intros sm|]. intros _. apply follows_reinitialize.
Qed.

End CountingErased.

(** ** The write-ahead log store: loading *)

Lemma appendInitialLoad_first idx d p :
  log p = [] →
  appendInitialLoad idx d p
  = Ok tt {| nextIndex := add64 idx 1; log := [{| index := idx; entry := d |}] |}.
Proof.
  intros H. unfold appendInitialLoad. rewrite H. cbn.
  by rewrite decide_True.
Qed.

Lemma appendInitialLoad_next idx d p :
  log p ≠ [] → nextIndex p = idx →
  appendInitialLoad idx d p
  = Ok tt {| nextIndex := add64 idx 1; log := log p ++ [{| index := idx; entry := d |}] |}.
Proof.
  intros H1 H2. unfold appendInitialLoad.
  destruct (log p) as [|e l] eqn:E; [done|]. cbn.
  by rewrite decide_True.
Qed.

Lemma appendInitialLoad_gap idx d p :
  log p ≠ [] → nextIndex p ≠ idx →
  appendInitialLoad idx d p
  = Panic (ExplicitPanic "WAL indexes out of order!")
          {| nextIndex := nextIndex p; log := log p ++ [{| index := idx; entry := d |}] |}.
Proof.
  intros H1 H2. unfold appendInitialLoad.
  destruct (log p) as [|e l] eqn:E; [done|]. cbn.
  by rewrite decide_False.
Qed.

Lemma logEntry_eta e : {| index := index e; entry := entry e |} = e.
Proof. by destruct e. Qed.

Lemma load_onto l : ∀ p next,
  log p ≠ [] → indexed_from (nextIndex p) l next →
  load l p = Ok tt {| nextIndex := next; log := log p ++ l |}.
Proof.
  induction l as [|e l IH]; intros p next Hp H; cbn in H.
  - subst next. rewrite app_nil_r. by destruct p.
  - destruct H as [He H]. unfold load. cbn [forEach].
    erewrite bind_Ok; [|by apply appendInitialLoad_next].
    fold (load l). rewrite logEntry_eta.
    rewrite (IH _ next); cbn [log nextIndex].
    + by rewrite <- app_assoc.
    + by destruct (log p).
    + by rewrite He.
Qed.

Lemma load_from_empty (l : list logEntry) (p : persisted) (from next : Z) :
  log p = [] → l ≠ [] → indexed_from from l next →
  load l p = Ok tt {| nextIndex := next; log := l |}.
Proof.
  intros Hp Hl H. destruct l as [|e l]; [done|]. cbn in H. destruct H as [He H].
  unfold load. cbn [forEach].
  erewrite bind_Ok; [|by apply appendInitialLoad_first].
  fold (load l). rewrite logEntry_eta.
  rewrite (load_onto l _ next); cbn [log nextIndex]; [done|done|by rewrite He].
Qed.

Lemma load_app l1 l2 p :
  load (l1 ++ l2) p
  = match load l1 p with
    | Ok _ p' => load l2 p'
    | o => o
    end.
Proof.
  revert p. induction l1 as [|e l1 IH]; intros p; [done|].
  unfold load in *. cbn [forEach app]. unfold bind.
  destruct (appendInitialLoad _ _ p) as [[] p'|k p'|p']; [apply IH|done|done].
Qed.

(** X1.  Loading stops at the first entry whose index does not follow: the load
    panics there, the entries before it and the offending entry itself are in
    the log, and nothing behind it is looked at. *)
Theorem load_stops_at_gap (pre post : list logEntry) (e : logEntry) (p : persisted)
        (from next : Z) :
  log p = [] → pre ≠ [] → indexed_from from pre next → index e ≠ next →
  load (pre ++ e :: post) p
  = Panic (ExplicitPanic "WAL indexes out of order!")
          {| nextIndex := next; log := pre ++ [e] |}.
Proof.
  intros Hp Hpre H He. rewrite load_app.
  rewrite (load_from_empty pre p from next) by done.
  unfold load. cbn [forEach]. unfold bind.
  rewrite appendInitialLoad_gap; cbn [log nextIndex]; [|done|congruence].
  by rewrite logEntry_eta.
Qed.

Lemma load_stops_at_gap_witness :
  load ([ {| index := 5; entry := Persistent_CEntry Toy.checkpoint0 |} ]
        ++ {| index := 7; entry := Persistent_FEntry Toy.epoch0 |}
        :: [ {| index := 8; entry := Persistent_TEntry "t" |} ]) newPersisted
  = Panic (ExplicitPanic "WAL indexes out of order!")
          {| nextIndex := 6;
             log := [ {| index := 5; entry := Persistent_CEntry Toy.checkpoint0 |} ]
                    ++ [ {| index := 7; entry := Persistent_FEntry Toy.epoch0 |} ] |}.
Proof.
  apply (load_stops_at_gap _ _ _ newPersisted 5 6); [reflexivity|discriminate| |discriminate].
  cbn. vm_compute. auto.
Defined.

(** ** The write-ahead log store: the indexes stay consecutive *)

Lemma indexed_from_app from l1 l2 next :
  indexed_from from (l1 ++ l2) next
  ↔ ∃ mid, indexed_from from l1 mid ∧ indexed_from mid l2 next.
Proof.
  revert from. induction l1 as [|e l1 IH]; intros from; cbn.
  - split; [intros H; by exists from | intros (mid & -> & H); done].
  - rewrite IH. split.
    + intros (He & mid & H1 & H2). by exists mid.
    + intros (mid & (He & H1) & H2). split; [done|]. by exists mid.
Qed.

Lemma indexed_from_next from l next next' :
  indexed_from from l next → indexed_from from l next' → next = next'.
Proof.
  revert from. induction l as [|e l IH]; intros from; cbn; [congruence|].
  intros [_ H1] [_ H2]. eauto.
Qed.

Lemma contiguous_snoc p d :
  contiguous p → log p ≠ [] →
  contiguous {| nextIndex := add64 (nextIndex p) 1;
                log := log p ++ [{| index := nextIndex p; entry := d |}] |}.
Proof.
  unfold contiguous. cbn [log nextIndex].
  destruct (log p) as [|e l] eqn:E; [done|]. intros H _.
  change ((e :: l) ++ ?x) with (e :: (l ++ x)). cbn [hd].
  change (e :: (l ++ ?x)) with ((e :: l) ++ x).
  apply indexed_from_app. exists (nextIndex p). split; [done|]. cbn. done.
Qed.

Lemma appendLogEntry_Ok d p :
  log p ≠ [] →
  appendLogEntry d p
  = Ok (persist emptyActions (nextIndex p) d)
       {| nextIndex := add64 (nextIndex p) 1;
          log := log p ++ [{| index := nextIndex p; entry := d |}] |}.
Proof. unfold appendLogEntry. by destruct (log p). Qed.

Lemma appendLogEntry_empty d p :
  log p = [] → appendLogEntry d p = Panic NilDereference p.
Proof. unfold appendLogEntry. by intros ->. Qed.

Lemma appendLogEntry_contiguous d p :
  contiguous p → contiguous (out_state (appendLogEntry d p)).
Proof.
  intros H. destruct (log p) as [|e l] eqn:E.
  - by rewrite appendLogEntry_empty.
  - rewrite appendLogEntry_Ok by (by rewrite E). cbn [out_state].
    apply contiguous_snoc; [done | by rewrite E].
Qed.

Lemma addCEntry_appendLogEntry cEntry p :
  addCEntry cEntry p = appendLogEntry (Persistent_CEntry cEntry) p.
Proof.
  unfold addCEntry, assertNotEqual. unfold bind.
  by rewrite assertNotEqualf_pointer_nil.
Qed.

Lemma truncate_scan_suffix lw at_head l l' :
  truncate_scan lw at_head l = Some l' →
  ∃ pre e post, l = pre ++ e :: post ∧ l' = e :: post
                ∧ Forall (fun x => truncate_stops lw (entry x) = false) pre
                ∧ truncate_stops lw (entry e) = true
                ∧ (at_head = true → pre ≠ []).
Proof.
  revert at_head. induction l as [|x l IH]; intros at_head; cbn; [done|].
  destruct (truncate_stops lw (entry x)) eqn:Ex.
  - destruct at_head; [done|]. intros [= <-].
    exists [], x, l. by repeat split.
  - intros H. destruct (IH _ H) as (pre & e & post & -> & -> & Hpre & He & _).
    exists (x :: pre), e, post. repeat split; try done. by constructor.
Qed.

Lemma indexed_from_suffix from pre e post next :
  indexed_from from (pre ++ e :: post) next →
  indexed_from (index e) (e :: post) next.
Proof.
  intros H. apply indexed_from_app in H as (mid & _ & H).
  cbn in H |- *. destruct H as [-> H]. done.
Qed.

Lemma truncate_contiguous lw p :
  contiguous p → contiguous (out_state (truncate lw p)).
Proof.
  intros H. unfold truncate.
  destruct (truncate_scan lw true (log p)) as [[|e rest]|] eqn:E; try done.
  cbn [out_state]. unfold contiguous in *. cbn [log nextIndex].
  destruct (truncate_scan_suffix _ _ _ _ E) as (pre & e' & post & Hl & [= <- <-] & _).
  rewrite Hl in H. destruct pre as [|x pre]; cbn [app] in H.
  - done.
  - change (x :: pre ++ e :: rest) with ((x :: pre) ++ e :: rest) in H.
    by eapply indexed_from_suffix.
Qed.

(** X2.  Consecutive indexes are an invariant of the store: a load that is accepted,
    every append (also the typed ones) and every truncation lead from a log with
    consecutive indexes, followed by [nextIndex], to such a log. *)
Theorem store_keeps_indexes_consecutive (p : persisted) :
  contiguous p →
  (∀ idx d p', appendInitialLoad idx d p = Ok tt p' → contiguous p')
  ∧ (∀ d, contiguous (out_state (appendLogEntry d p)))
  ∧ (∀ e, contiguous (out_state (addPEntry e p)))
  ∧ (∀ e, contiguous (out_state (addQEntry e p)))
  ∧ (∀ e, contiguous (out_state (addNEntry e p)))
  ∧ (∀ e, contiguous (out_state (addCEntry e p)))
  ∧ (∀ e, contiguous (out_state (addSuspect e p)))
  ∧ (∀ e, contiguous (out_state (addECEntry e p)))
  ∧ (∀ e, contiguous (out_state (addTEntry e p)))
  ∧ (∀ lowWatermark, contiguous (out_state (truncate lowWatermark p))).
Proof.
  intros H. split; [|repeat split; intros;
    rewrite ?addCEntry_appendLogEntry;
    try apply appendLogEntry_contiguous; try apply truncate_contiguous; done].
  intros idx d p' Hl.
  destruct (log p) as [|e l] eqn:E.
  - rewrite appendInitialLoad_first in Hl by done. injection Hl as <-.
    unfold contiguous. cbn. done.
  - destruct (decide (nextIndex p = idx)) as [Hi|Hi].
    + rewrite appendInitialLoad_next in Hl; [|by rewrite E|done].
      injection Hl as <-. rewrite <- Hi. apply contiguous_snoc; [done|by rewrite E].
    + rewrite appendInitialLoad_gap in Hl; [done|by rewrite E|done].
Qed.

Lemma store_keeps_indexes_consecutive_witness :
  contiguous Sample.wal ∧ contiguous (out_state (truncate 5 Sample.wal)).
Proof.
  assert (H : contiguous Sample.wal) by (vm_compute; tauto).
  split; [exact H|].
  apply (store_keeps_indexes_consecutive Sample.wal H).
Defined.

(** ** The write-ahead log store: what was written ahead loads again *)

(** X3.  The appends [ds] made one after the other on a store that was loaded return
    write-ahead requests which, loaded again on the store as it was before,
    rebuild the store as it is after: same entries, same indexes, same
    [nextIndex]. *)
Theorem appended_entries_load_again (ds : list Persistent) (p : persisted) :
  log p ≠ [] →
  ∃ ws p', appendAll ds p = Ok ws p'
           ∧ replay ws p = Ok tt p'
           ∧ entry <$> log p' = (entry <$> log p) ++ ds.
Proof.
  revert p.
  induction ds as [|d ds IH]; intros p Hp.
  - exists [], p. cbn. by rewrite app_nil_r.
  - set (p1 := {| nextIndex := add64 (nextIndex p) 1;
                  log := log p ++ [{| index := nextIndex p; entry := d |}] |}).
    destruct (IH p1) as (ws & p' & H1 & H2 & H3); [cbn; by destruct (log p)|].
    exists (WriteAhead (persist emptyActions (nextIndex p) d) ++ ws), p'.
    split; [|split].
    + cbn [appendAll]. erewrite bind_Ok; [|by apply appendLogEntry_Ok].
      fold p1. erewrite bind_Ok; [|exact H1]. done.
    + cbn [persist emptyActions WriteAhead app]. unfold replay. cbn [forEach Append].
      erewrite bind_Ok; [|by apply appendInitialLoad_next]. exact H2.
    + rewrite H3. subst p1. cbn [log]. rewrite fmap_app. cbn. by rewrite <- app_assoc.
Qed.

Lemma appended_entries_load_again_witness :
  ∃ ws p', appendAll [Persistent_TEntry "t"; Persistent_Suspect "s"] Sample.wal = Ok ws p'
           ∧ replay ws Sample.wal = Ok tt p'
           ∧ entry <$> log p'
             = (entry <$> log Sample.wal) ++ [Persistent_TEntry "t"; Persistent_Suspect "s"].
Proof. apply (appended_entries_load_again _ Sample.wal). discriminate. Defined.

(** X4.  A store with consecutive indexes is the store that loading its own log gives:
    what the log holds is enough to rebuild it after a restart. *)
Theorem reload_rebuilds_store (p : persisted) :
  contiguous p → log p ≠ [] →
  load (log p) newPersisted = Ok tt p.
Proof.
  intros H Hp. unfold contiguous in H.
  destruct (log p) as [|e l] eqn:E; [done|].
  rewrite (load_from_empty (e :: l) newPersisted (index e) (nextIndex p));
    [|done|done|done].
  rewrite <- E. by destruct p.
Qed.

Lemma reload_rebuilds_store_witness :
  load (log Sample.wal) newPersisted = Ok tt Sample.wal.
Proof.
  apply (reload_rebuilds_store Sample.wal); [vm_compute; tauto | discriminate].
Defined.

(** ** The write-ahead log store: truncation *)

Lemma live_truncate_stops lw e : live lw e ↔ truncate_stops lw (entry e) = true.
Proof.
  unfold live, truncate_stops. destruct (entry e); try done.
  - rewrite negb_true_iff, Z.ltb_ge. done.
  - rewrite negb_true_iff, Z.leb_gt. done.
Qed.

Lemma not_live_truncate_stops lw e : ¬ live lw e → truncate_stops lw (entry e) = false.
Proof. rewrite live_truncate_stops. apply not_true_is_false. Qed.

Lemma truncate_scan_found lw pre e post at_head :
  Forall (fun x => ¬ live lw x) pre → live lw e →
  truncate_scan lw at_head (pre ++ e :: post)
  = match pre with
    | [] => if at_head then None else Some (e :: post)
    | _ :: _ => Some (e :: post)
    end.
Proof.
  intros Hpre He. apply live_truncate_stops in He. revert at_head.
  induction Hpre as [|x pre Hx Hpre IH]; intros at_head; cbn [truncate_scan app].
  - by rewrite He.
  - apply not_live_truncate_stops in Hx. rewrite Hx. rewrite IH. by destruct pre.
Qed.

Lemma truncate_scan_none lw l at_head :
  Forall (fun x => ¬ live lw x) l → truncate_scan lw at_head l = None.
Proof.
  intros H. revert at_head.
  induction H as [|x l Hx _ IH]; intros at_head; cbn [truncate_scan]; [done|].
  apply not_live_truncate_stops in Hx. by rewrite Hx.
Qed.

Lemma truncate_scan_list_find lw l : ∀ at_head,
  truncate_scan lw at_head l
  = match list_find (live lw) l with
    | Some (O, _) => if at_head then None else Some l
    | Some (S k, _) => Some (drop (S k) l)
    | None => None
    end.
Proof.
  induction l as [|x l IH]; intros at_head; [done|].
  cbn [truncate_scan list_find].
  destruct (decide (live lw x)) as [Hx|Hx].
  - apply live_truncate_stops in Hx. by rewrite Hx.
  - apply not_live_truncate_stops in Hx. rewrite Hx, IH.
    destruct (list_find (live lw) l) as [[[|k] e]|]; done.
Qed.

(** X5.  [truncate] moves the head of the log to the first entry that is a
    [CEntry] with a sequence number of [lowWatermark] or above, or an [NEntry]
    with a sequence number above [lowWatermark], and asks for the truncation at
    the index of that entry; when that entry is the head already, or when the
    log has no such entry, the log stays whole and nothing is asked for.  An
    entry of any other type, an [FEntry] too, is passed over. *)
Theorem truncate_to_first_live_entry (lowWatermark : Z) (p : persisted) :
  truncate lowWatermark p
  = match list_find (live lowWatermark) (log p) with
    | Some (S k, e) =>
        Ok (withWriteAhead [{| Append := None; Truncate := index e |}])
           {| nextIndex := nextIndex p; log := drop (S k) (log p) |}
    | _ => Ok emptyActions p
    end.
Proof.
  unfold truncate. rewrite truncate_scan_list_find.
  destruct (list_find (live lowWatermark) (log p)) as [[[|k] e]|] eqn:E; try done.
  apply list_find_Some in E as (Hk & _ & _).
  rewrite (drop_S _ _ _ Hk). done.
Qed.

Lemma truncate_log_cases lw p :
  log (out_state (truncate lw p)) = log p
  ∨ ∃ pre e post, pre ≠ [] ∧ log p = pre ++ e :: post
                  ∧ Forall (fun x => ¬ live lw x) pre ∧ live lw e
                  ∧ truncate lw p
                    = Ok (withWriteAhead [{| Append := None; Truncate := index e |}])
                         {| nextIndex := nextIndex p; log := e :: post |}.
Proof.
  unfold truncate.
  destruct (truncate_scan lw true (log p)) as [[|e rest]|] eqn:E; [by left| |by left].
  right. destruct (truncate_scan_suffix _ _ _ _ E)
    as (pre & e' & post & Hl & [= <- <-] & Hpre & He & Hne).
  exists pre, e, rest. repeat split; try done; [by apply Hne| |by apply live_truncate_stops].
  eapply Forall_impl; [exact Hpre|]. intros x Hx. rewrite live_truncate_stops. by rewrite Hx.
Qed.

(** X6.  Whatever the low watermark, [truncate] only drops entries from the front of
    the log, leaves [nextIndex] alone, and keeps every [CEntry] with a sequence
    number of [lowWatermark] or above and every [NEntry] with a sequence number
    above [lowWatermark].  An [FEntry] is not among the entries it is sure to
    keep. *)
Theorem truncate_keeps_live_entries (lowWatermark : Z) (p : persisted) :
  log (out_state (truncate lowWatermark p)) `suffix_of` log p
  ∧ nextIndex (out_state (truncate lowWatermark p)) = nextIndex p
  ∧ ∀ e, e ∈ log p → live lowWatermark e → e ∈ log (out_state (truncate lowWatermark p)).
Proof.
  destruct (truncate_log_cases lowWatermark p)
    as [H | (pre & e & post & _ & Hl & Hpre & He & ->)].
  - rewrite H. split; [done|]. split; [|done].
    unfold truncate. by destruct (truncate_scan _ _ _) as [[|]|].
  - cbn [out_state log nextIndex]. split; [by exists pre|]. split; [done|].
    intros x Hx Hlive. rewrite Hl in Hx. apply elem_of_app in Hx as [Hx|Hx]; [|done].
    rewrite Forall_forall in Hpre. by destruct (Hpre x Hx).
Qed.

(** X7.  Truncating a second time at the same low watermark changes nothing and asks
    for nothing. *)
Theorem truncate_twice (lowWatermark : Z) (p : persisted) :
  truncate lowWatermark (out_state (truncate lowWatermark p))
  = Ok emptyActions (out_state (truncate lowWatermark p)).
Proof.
  destruct (truncate_log_cases lowWatermark p)
    as [H | (pre & e & post & _ & Hl & Hpre & He & ->)].
  - assert (Hst : out_state (truncate lowWatermark p) = p).
    { unfold truncate in *. destruct (truncate_scan _ _ _) as [[|e rest]|] eqn:E; try done.
      cbn in H |- *. destruct p as [n l]. cbn in *. by subst. }
    rewrite Hst. unfold truncate in *.
    destruct (truncate_scan _ _ _) as [[|e rest]|] eqn:E; try done.
    exfalso. cbn in H.
    destruct (truncate_scan_suffix _ _ _ _ E) as (pre & e' & post & Hl & [= <- <-] & _ & _ & Hne).
    rewrite Hl in H. apply (f_equal length) in H. rewrite length_app in H. cbn in H.
    destruct pre; [by apply Hne|]. cbn in H. lia.
  - cbn [out_state]. unfold truncate. cbn [log].
    change (e :: post) with ([] ++ e :: post) at 1.
    by rewrite (truncate_scan_found lowWatermark [] e post true).
Qed.

(** ** The write-ahead log store: the guard of [addCEntry] *)

(** X8.  [addCEntry] appends the checkpoint whether or not it carries a network state:
    the guard that the network state be set compares a pointer of type
    [*pb.NetworkState] with the nil interface and so never fails. *)
Theorem addCEntry_without_NetworkState (seqNo : Z) (value : bytes) (p : persisted) :
  log p ≠ [] →
  let cEntry := {| CEntry_SeqNo := seqNo; CheckpointValue := value;
                   CEntry_NetworkState := None |} in
  addCEntry cEntry p
  = Ok (persist emptyActions (nextIndex p) (Persistent_CEntry cEntry))
       {| nextIndex := add64 (nextIndex p) 1;
          log := log p ++ [{| index := nextIndex p; entry := Persistent_CEntry cEntry |}] |}.
Proof.
  intros Hp cEntry. rewrite addCEntry_appendLogEntry. by apply appendLogEntry_Ok.
Qed.

Lemma addCEntry_without_NetworkState_witness :
  addCEntry {| CEntry_SeqNo := 9; CheckpointValue := "v"; CEntry_NetworkState := None |}
            Sample.wal
  = appendLogEntry (Persistent_CEntry {| CEntry_SeqNo := 9; CheckpointValue := "v";
                                         CEntry_NetworkState := None |}) Sample.wal.
Proof.
  rewrite (addCEntry_without_NetworkState 9 "v" Sample.wal); [reflexivity|discriminate].
Defined.

(** ** The epoch change built from the log *)

Lemma wrap_int_small z : - 2 ^ 63 ≤ z < 2 ^ 63 → wrap_int z = z.
Proof. intros H. unfold wrap_int. rewrite Z.mod_small; lia. Qed.

Lemma iterate_from_epochChange li newEpoch e rest st :
  shouldExit li = Some (epochChange_shouldExit newEpoch) →
  iterate_from li (e :: rest) st
  = match visit li (entry e) st with
    | Ok _ st1 => if reached newEpoch (logEpoch st1) then Ok tt st1
                  else iterate_from li rest st1
    | Panic k st1 => Panic k st1
    | OutOfFuel st1 => OutOfFuel st1
    end.
Proof.
  intros H. cbn [iterate_from]. rewrite H. unfold bind.
  destruct (visit li (entry e) st) as [[] st1|k st1|st1]; try done.
  unfold epochChange_shouldExit, bind, get, ret, reached.
  by destruct (logEpoch st1) as [ep|]; [destruct (bool_decide _)|].
Qed.

Lemma countSkips_visit newEpoch e st :
  visit (countSkips_iterator newEpoch) (entry e) st
  = if unsupported e then Panic (ExplicitPanic "unsupported log entry type") st
    else Ok tt (counted (entry e) st).
Proof. unfold unsupported. by destruct (entry e), st. Qed.

Lemma occurrences_cons s e l :
  occurrences s (e :: l) = occurrences s [e] + occurrences s l.
Proof.
  unfold occurrences, pSeqNos. cbn [omap list_omap].
  destruct (entry e); rewrite ?filter_nil; cbn [length]; try lia.
  rewrite !filter_cons. destruct (decide (s = _)); rewrite ?filter_nil; cbn [length]; lia.
Qed.

Lemma occurrences_one s e :
  occurrences s [e]
  = match entry e with
    | Persistent_PEntry pe => if decide (s = PEntry_SeqNo pe) then 1 else 0
    | _ => 0
    end.
Proof.
  unfold occurrences, pSeqNos. cbn [omap list_omap].
  destruct (entry e); try done.
  rewrite filter_cons. by destruct (decide (s = _)).
Qed.

Lemma occurrences_nonneg s l : 0 ≤ occurrences s l.
Proof. unfold occurrences. lia. Qed.

Lemma occurrences_le_length s l : occurrences s l ≤ Z.of_nat (length l).
Proof.
  induction l as [|e l IH]; [done|]. rewrite occurrences_cons, occurrences_one. cbn [length].
  destruct (entry e); try lia. destruct (decide _); lia.
Qed.

Lemma occurrences_pos s l : s ∈ pSeqNos l ↔ 0 < occurrences s l.
Proof.
  unfold occurrences. split.
  - intros H. assert (s ∈ filter (eq s) (pSeqNos l)) as Hin by (by apply list_elem_of_filter).
    destruct (filter (eq s) (pSeqNos l)); [by apply elem_of_nil in Hin|cbn; lia].
  - intros H. destruct (filter (eq s) (pSeqNos l)) as [|x f] eqn:E; [cbn in H; lia|].
    assert (x ∈ filter (eq s) (pSeqNos l)) as Hin by (rewrite E; left).
    apply list_elem_of_filter in Hin as [-> Hin]. done.
Qed.

Lemma walked_length newEpoch epoch l : (length (walked newEpoch epoch l) ≤ length l)%nat.
Proof.
  revert epoch. induction l as [|e l IH]; intros epoch; cbn; [done|].
  destruct (reached _ _); cbn; [lia|]. specialize (IH (epochAfter epoch (entry e))). lia.
Qed.

Lemma counted_pSkips e st s :
  0 ≤ default 0 (pSkips st !! s) < 2 ^ 63 - 1 →
  default 0 (pSkips (counted (entry e) st) !! s)
  = default 0 (pSkips st !! s) + occurrences s [e].
Proof.
  intros H. rewrite occurrences_one. unfold counted. cbn [pSkips].
  destruct (entry e) as [pe| | | | | | | |]; try lia.
  destruct (decide (s = PEntry_SeqNo pe)) as [->|Hs].
  - rewrite lookup_insert_eq. cbn. rewrite wrap_int_small; lia.
  - rewrite lookup_insert_ne by done. lia.
Qed.

Lemma countSkips_walk_panics newEpoch l : ∀ st,
  existsb unsupported (walked newEpoch (logEpoch st) l) = true →
  ∃ st', iterate_from (countSkips_iterator newEpoch) l st
         = Panic (ExplicitPanic "unsupported log entry type") st'.
Proof.
  induction l as [|e l IH]; intros st; [done|].
  cbn [walked existsb]. rewrite (iterate_from_epochChange _ newEpoch) by done.
  rewrite countSkips_visit. destruct (unsupported e); [by eexists|].
  cbn [orb]. change (logEpoch (counted (entry e) st)) with (epochAfter (logEpoch st) (entry e)).
  destruct (reached newEpoch _); [done|]. apply (IH (counted (entry e) st)).
Qed.

Lemma countSkips_walk newEpoch l : ∀ st,
  let w := walked newEpoch (logEpoch st) l in
  existsb unsupported w = false →
  (∀ s, 0 ≤ default 0 (pSkips st !! s)) →
  (∀ s, default 0 (pSkips st !! s) + Z.of_nat (length l) < 2 ^ 63) →
  ∃ st', iterate_from (countSkips_iterator newEpoch) l st = Ok tt st'
         ∧ newEpochChange st' = newEpochChange st
         ∧ ∀ s, default 0 (pSkips st' !! s) = default 0 (pSkips st !! s) + occurrences s w.
Proof.
  induction l as [|e l IH]; intros st w Hu H0 Hb.
  - exists st. repeat split; try done. intros s. unfold occurrences. cbn. lia.
  - subst w. revert Hu. cbn [walked existsb]. cbn [length] in Hb.
    rewrite (iterate_from_epochChange _ newEpoch) by done.
    rewrite countSkips_visit. destruct (unsupported e); [done|].
    cbn [orb]. change (logEpoch (counted (entry e) st)) with (epochAfter (logEpoch st) (entry e)).
    assert (Hstep : ∀ s, default 0 (pSkips (counted (entry e) st) !! s)
                         = default 0 (pSkips st !! s) + occurrences s [e]).
    { intros s. apply counted_pSkips. specialize (H0 s). specialize (Hb s).
      rewrite Nat2Z.inj_succ in Hb.
      destruct (pSkips st !! s); cbn [default] in *; lia. }
    destruct (reached newEpoch _) eqn:Er.
    + intros _. eexists. split; [done|]. split; [done|]. exact Hstep.
    + intros Hu. destruct (IH (counted (entry e) st)) as (st' & Hst & Hec & Hc).
      * exact Hu.
      * intros s. rewrite Hstep. specialize (H0 s). pose proof (occurrences_nonneg s [e]). lia.
      * intros s. rewrite Hstep. specialize (Hb s).
        pose proof (occurrences_le_length s [e]). cbn [length] in *. lia.
      * exists st'. split; [done|]. split; [done|].
        intros s. rewrite Hc, Hstep.
        change (logEpoch (counted (entry e) st)) with (epochAfter (logEpoch st) (entry e)).
        rewrite (occurrences_cons s e (walked _ _ _)). lia.
Qed.

Lemma extended_nil ec : extended [] [] [] ec = ec.
Proof. destruct ec. unfold extended. cbn. by rewrite !app_nil_r. Qed.

Lemma extended_extended cs ps qs cs' ps' qs' ec :
  extended cs' ps' qs' (extended cs ps qs ec) = extended (cs ++ cs') (ps ++ ps') (qs ++ qs') ec.
Proof. unfold extended. cbn. by rewrite !app_assoc. Qed.

Lemma pSeqNos_cons e l :
  pSeqNos (e :: l)
  = match entry e with
    | Persistent_PEntry pe => PEntry_SeqNo pe :: pSeqNos l
    | _ => pSeqNos l
    end.
Proof. unfold pSeqNos. cbn [omap list_omap]. by destruct (entry e). Qed.

Lemma checkpointsOf_cons e l :
  checkpointsOf (e :: l)
  = match entry e with
    | Persistent_CEntry ce => {| Checkpoint_SeqNo := CEntry_SeqNo ce;
                                 Checkpoint_Value := CheckpointValue ce |} :: checkpointsOf l
    | _ => checkpointsOf l
    end.
Proof. unfold checkpointsOf. cbn [omap list_omap]. by destruct (entry e). Qed.

Lemma collect_walk newEpoch l : ∀ st,
  let w := walked newEpoch (logEpoch st) l in
  existsb unsupported w = false →
  (∀ s, s ∈ pSeqNos w → default 0 (pSkips st !! s) = occurrences s w) →
  Z.of_nat (length l) < 2 ^ 63 →
  match lastPrepared (logEpoch st) w, preprepared (logEpoch st) w with
  | Some ps, Some qs =>
      ∃ st', iterate_from (collect_iterator newEpoch) l st = Ok tt st'
             ∧ newEpochChange st' = extended (checkpointsOf w) ps qs (newEpochChange st)
  | _, _ => ∃ st', iterate_from (collect_iterator newEpoch) l st = Panic NilDereference st'
  end.
Proof.
  induction l as [|e l IH]; intros st w Hu Hinv Hlen.
  - cbn. exists st. by rewrite extended_nil.
  - subst w. revert Hu Hinv. cbn [walked]. cbn [length] in Hlen.
    set (le' := epochAfter (logEpoch st) (entry e)).
    set (w' := if reached newEpoch le' then [] else walked newEpoch le' l).
    intros Hu Hinv. cbn [existsb] in Hu. apply orb_false_iff in Hu as [Hue Hu].
    assert (Hrest : ∀ st1, logEpoch st1 = le' →
              (∀ s, s ∈ pSeqNos w' → default 0 (pSkips st1 !! s) = occurrences s w') →
              match lastPrepared le' w', preprepared le' w' with
              | Some ps, Some qs =>
                  ∃ st', (if reached newEpoch (logEpoch st1) then Ok tt st1
                          else iterate_from (collect_iterator newEpoch) l st1) = Ok tt st'
                         ∧ newEpochChange st' = extended (checkpointsOf w') ps qs (newEpochChange st1)
              | _, _ =>
                  ∃ st', (if reached newEpoch (logEpoch st1) then Ok tt st1
                          else iterate_from (collect_iterator newEpoch) l st1)
                         = Panic NilDereference st'
              end).
    { intros st1 Hle Hinv1. rewrite Hle. subst w'.
      destruct (reached newEpoch le') eqn:Er.
      - cbn. exists st1. by rewrite extended_nil.
      - specialize (IH st1). rewrite Hle in IH. apply IH; [done|done|lia]. }
    assert (Hlenw : Z.of_nat (length w') < 2 ^ 63 - 1).
    { subst w'. destruct (reached _ _); [cbn; lia|].
      pose proof (walked_length newEpoch le' l). lia. }
    clearbody w'. clear IH.
    rewrite (iterate_from_epochChange _ newEpoch) by done.
    unfold unsupported in Hue.
    destruct (entry e) as [pe|qe|ce|ne|fe|x|x|x|] eqn:Ee; try done.
    + (* PEntry *)
      cbn [lastPrepared preprepared]. rewrite Ee. subst le'. cbn [epochAfter] in *.
      cbn [visit collect_iterator onPEntry call]. unfold collect_onPEntry, bind, get.
      assert (Hc : default 0 (pSkips st !! PEntry_SeqNo pe)
                   = 1 + occurrences (PEntry_SeqNo pe) w').
      { rewrite Hinv; [|rewrite pSeqNos_cons, Ee; left].
        rewrite occurrences_cons, occurrences_one, Ee. by rewrite decide_True. }
      destruct (decide (PEntry_SeqNo pe ∈ pSeqNos w')) as [Hin|Hin].
      * apply occurrences_pos in Hin as Hpos.
        rewrite decide_True by lia. unfold modify.
        match goal with |- context [reached newEpoch (logEpoch ?s)] => specialize (Hrest s) end.
        cbn [logEpoch set_pSkips pSkips newEpochChange] in Hrest |- *.
        lapply Hrest; [clear Hrest; intros Hrest|done].
        lapply Hrest; [clear Hrest; intros Hrest|].
        -- destruct (lastPrepared _ w') as [ps|]; [|done].
           destruct (preprepared _ w') as [qs|]; [|done].
           destruct Hrest as (st' & -> & Hec). exists st'. split; [done|].
           rewrite Hec, checkpointsOf_cons, Ee. done.
        -- intros s Hs. destruct (decide (s = PEntry_SeqNo pe)) as [->|Hne].
           ++ rewrite lookup_insert_eq. cbn [default from_option id]. rewrite Hc.
              pose proof (occurrences_le_length (PEntry_SeqNo pe) w').
              rewrite wrap_int_small; lia.
           ++ rewrite lookup_insert_ne by done. rewrite Hinv.
              ** rewrite occurrences_cons, occurrences_one, Ee. rewrite decide_False by done. lia.
              ** rewrite pSeqNos_cons, Ee. by right.
      * assert (occurrences (PEntry_SeqNo pe) w' = 0) as H0.
        { pose proof (occurrences_nonneg (PEntry_SeqNo pe) w').
          destruct (decide (0 < occurrences (PEntry_SeqNo pe) w')) as [Hp|Hp]; [|lia].
          by apply occurrences_pos in Hp. }
        rewrite decide_False by lia.
        destruct (logEpoch st) as [ep|] eqn:Ele; [|by eexists].
        unfold modify. cbn [mbind option_bind].
        match goal with |- context [reached newEpoch (logEpoch ?s)] => specialize (Hrest s) end.
        cbn [logEpoch set_newEpochChange pSkips newEpochChange] in Hrest |- *.
        lapply Hrest; [clear Hrest; intros Hrest|done].
        lapply Hrest; [clear Hrest; intros Hrest|].
        -- rewrite ?Ele in Hrest |- *.
           destruct (lastPrepared _ w') as [ps|]; cbn [mbind option_bind]; [|done].
           destruct (preprepared _ w') as [qs|]; [|done].
           destruct Hrest as (st' & -> & Hec). exists st'. split; [done|].
           rewrite Hec, checkpointsOf_cons, Ee. unfold extended, append_PSet. cbn.
           by rewrite <- app_assoc.
        -- intros s Hs. rewrite Hinv.
           ++ rewrite occurrences_cons, occurrences_one, Ee.
              rewrite decide_False; [lia|]. intros ->. done.
           ++ rewrite pSeqNos_cons, Ee. by right.
    + (* QEntry *)
      assert (Hinv' : ∀ s, s ∈ pSeqNos w' → default 0 (pSkips st !! s) = occurrences s w').
      { intros s Hs. rewrite Hinv; [|by rewrite pSeqNos_cons, Ee].
        rewrite occurrences_cons, occurrences_one, Ee. lia. }
      cbn [lastPrepared preprepared]. rewrite Ee. subst le'. cbn [epochAfter] in *.
      cbn [visit collect_iterator onQEntry call]. unfold collect_onQEntry, bind, get.
      destruct (logEpoch st) as [ep|] eqn:Ele; cbn [mbind option_bind];
        [|destruct (lastPrepared _ _); by eexists].
      unfold modify.
      match goal with |- context [reached newEpoch (logEpoch ?s)] => specialize (Hrest s) end.
      cbn [logEpoch set_newEpochChange pSkips newEpochChange] in Hrest |- *.
      specialize (Hrest Ele Hinv'). rewrite ?Ele in Hrest |- *.
      destruct (lastPrepared _ w') as [ps|]; [|done].
      destruct (preprepared _ w') as [qs|]; cbn [mbind option_bind]; [|done].
      destruct Hrest as (st' & -> & Hec). exists st'. split; [done|].
      rewrite Hec, checkpointsOf_cons, Ee. unfold extended, append_QSet. cbn.
      by rewrite <- app_assoc.
    + (* CEntry *)
      assert (Hinv' : ∀ s, s ∈ pSeqNos w' → default 0 (pSkips st !! s) = occurrences s w').
      { intros s Hs. rewrite Hinv; [|by rewrite pSeqNos_cons, Ee].
        rewrite occurrences_cons, occurrences_one, Ee. lia. }
      cbn [lastPrepared preprepared]. rewrite Ee. subst le'. cbn [epochAfter] in *.
      cbn [visit collect_iterator onCEntry call]. unfold collect_onCEntry, modify.
      match goal with |- context [reached newEpoch (logEpoch ?s)] => specialize (Hrest s) end.
      cbn [logEpoch set_newEpochChange pSkips newEpochChange] in Hrest |- *.
      specialize (Hrest eq_refl Hinv').
      destruct (lastPrepared _ w') as [ps|]; [|done].
      destruct (preprepared _ w') as [qs|]; [|done].
      destruct Hrest as (st' & -> & Hec). exists st'. split; [done|].
      rewrite Hec, checkpointsOf_cons, Ee. unfold extended, append_Checkpoint. cbn.
      by rewrite <- app_assoc.
    + (* NEntry *)
      assert (Hinv' : ∀ s, s ∈ pSeqNos w' → default 0 (pSkips st !! s) = occurrences s w').
      { intros s Hs. rewrite Hinv; [|by rewrite pSeqNos_cons, Ee].
        rewrite occurrences_cons, occurrences_one, Ee. lia. }
      cbn [lastPrepared preprepared]. rewrite Ee. subst le'. cbn [epochAfter] in *.
      cbn [visit collect_iterator onNEntry call]. unfold epochChange_onNEntry, modify.
      match goal with |- context [reached newEpoch (logEpoch ?s)] => specialize (Hrest s) end.
      cbn [logEpoch set_logEpoch pSkips newEpochChange] in Hrest |- *.
      specialize (Hrest eq_refl Hinv').
      destruct (lastPrepared _ w') as [ps|]; [|done].
      destruct (preprepared _ w') as [qs|]; [|done].
      destruct Hrest as (st' & -> & Hec). exists st'. split; [done|].
      by rewrite Hec, checkpointsOf_cons, Ee.
    + (* FEntry *)
      assert (Hinv' : ∀ s, s ∈ pSeqNos w' → default 0 (pSkips st !! s) = occurrences s w').
      { intros s Hs. rewrite Hinv; [|by rewrite pSeqNos_cons, Ee].
        rewrite occurrences_cons, occurrences_one, Ee. lia. }
      cbn [lastPrepared preprepared]. rewrite Ee. subst le'. cbn [epochAfter] in *.
      cbn [visit collect_iterator onFEntry call]. unfold epochChange_onFEntry, modify.
      match goal with |- context [reached newEpoch (logEpoch ?s)] => specialize (Hrest s) end.
      cbn [logEpoch set_logEpoch pSkips newEpochChange] in Hrest |- *.
      specialize (Hrest eq_refl Hinv').
      destruct (lastPrepared _ w') as [ps|]; [|done].
      destruct (preprepared _ w') as [qs|]; [|done].
      destruct Hrest as (st' & -> & Hec). exists st'. split; [done|].
      by rewrite Hec, checkpointsOf_cons, Ee.
    + (* ECEntry *)
      assert (Hinv' : ∀ s, s ∈ pSeqNos w' → default 0 (pSkips st !! s) = occurrences s w').
      { intros s Hs. rewrite Hinv; [|by rewrite pSeqNos_cons, Ee].
        rewrite occurrences_cons, occurrences_one, Ee. lia. }
      cbn [lastPrepared preprepared]. rewrite Ee. subst le'. cbn [epochAfter] in *.
      cbn [visit collect_iterator onECEntry call ret].
      specialize (Hrest st eq_refl Hinv').
      destruct (lastPrepared _ w') as [ps|]; [|done].
      destruct (preprepared _ w') as [qs|]; [|done].
      destruct Hrest as (st' & -> & Hec). exists st'. split; [done|].
      by rewrite Hec, checkpointsOf_cons, Ee.
    + (* TEntry *)
      assert (Hinv' : ∀ s, s ∈ pSeqNos w' → default 0 (pSkips st !! s) = occurrences s w').
      { intros s Hs. rewrite Hinv; [|by rewrite pSeqNos_cons, Ee].
        rewrite occurrences_cons, occurrences_one, Ee. lia. }
      cbn [lastPrepared preprepared]. rewrite Ee. subst le'. cbn [epochAfter] in *.
      cbn [visit collect_iterator onTEntry call ret].
      specialize (Hrest st eq_refl Hinv').
      destruct (lastPrepared _ w') as [ps|]; [|done].
      destruct (preprepared _ w') as [qs|]; [|done].
      destruct Hrest as (st' & -> & Hec). exists st'. split; [done|].
      by rewrite Hec, checkpointsOf_cons, Ee.
    + (* Suspect *)
      assert (Hinv' : ∀ s, s ∈ pSeqNos w' → default 0 (pSkips st !! s) = occurrences s w').
      { intros s Hs. rewrite Hinv; [|by rewrite pSeqNos_cons, Ee].
        rewrite occurrences_cons, occurrences_one, Ee. lia. }
      cbn [lastPrepared preprepared]. rewrite Ee. subst le'. cbn [epochAfter] in *.
      cbn [visit collect_iterator onSuspect call ret].
      specialize (Hrest st eq_refl Hinv').
      destruct (lastPrepared _ w') as [ps|]; [|done].
      destruct (preprepared _ w') as [qs|]; [|done].
      destruct Hrest as (st' & -> & Hec). exists st'. split; [done|].
      by rewrite Hec, checkpointsOf_cons, Ee.
Qed.

(** What [constructEpochChange] comes to, for a log of fewer than [2^63]
    entries: a panic at an entry without type in the walked part, a nil
    dereference where a [QEntry], or a [PEntry] that goes into the set, stands
    before any epoch is known, and else the epoch change of the walked part. *)
Lemma constructEpochChange_outcome newEpoch p :
  Z.of_nat (length (log p)) < 2 ^ 63 →
  constructEpochChange newEpoch p
  = if existsb unsupported (walked newEpoch None (log p))
    then Panic (ExplicitPanic "unsupported log entry type") p
    else match epochChangeOf newEpoch (log p) with
         | Some ec => Ok ec p
         | None => Panic NilDereference p
         end.
Proof.
  intros Hlen. unfold constructEpochChange, constructEpochChange_body, iterate.
  set (st0 := {| pSkips := ∅; logEpoch := None; newEpochChange := _ |}).
  unfold bind at 1.
  destruct (existsb unsupported (walked newEpoch None (log p))) eqn:Eu.
  - destruct (countSkips_walk_panics newEpoch (log p) st0 Eu) as (st' & ->). done.
  - destruct (countSkips_walk newEpoch (log p) st0) as (st1 & -> & Hec & Hc).
    + exact Eu.
    + intros s. subst st0. cbn. by rewrite lookup_empty.
    + intros s. subst st0. cbn. rewrite lookup_empty. cbn. lia.
    + unfold bind, modify.
      pose proof (collect_walk newEpoch (log p) (set_logEpoch None st1)) as H.
      cbn [logEpoch set_logEpoch pSkips newEpochChange] in H.
      specialize (H Eu). lapply H; [clear H; intros H|].
      * specialize (H Hlen). unfold epochChangeOf. cbv zeta.
        destruct (lastPrepared None _) as [ps|]; cbn [mbind option_bind];
          [|by destruct H as (st' & ->)].
        destruct (preprepared None _) as [qs|]; cbn [mbind option_bind];
          [|by destruct H as (st' & ->)].
        destruct H as (st' & -> & Hec'). rewrite Hec', Hec. done.
      * intros s _. rewrite Hc. subst st0. cbn. rewrite lookup_empty. cbn. lia.
Qed.

Lemma lastPrepared_known ep w : is_Some (lastPrepared (Some ep) w).
Proof.
  revert ep. induction w as [|e w IH]; intros ep; [by eexists|].
  cbn [lastPrepared]. destruct (entry e) as [pe| | | | | | | |]; cbn [epochAfter]; try apply IH.
  destruct (decide _); [apply IH|]. cbn [mbind option_bind].
  destruct (IH ep) as [ps ->]. by eexists.
Qed.

Lemma preprepared_known ep w : is_Some (preprepared (Some ep) w).
Proof.
  revert ep. induction w as [|e w IH]; intros ep; [by eexists|].
  cbn [preprepared]. destruct (entry e) as [|qe| | | | | | |]; cbn [epochAfter]; try apply IH.
  cbn [mbind option_bind]. destruct (IH ep) as [qs ->]. by eexists.
Qed.

Lemma epoch_comes_first_Some w :
  epoch_comes_first w = true →
  is_Some (lastPrepared None w) ∧ is_Some (preprepared None w).
Proof.
  induction w as [|e w IH]; [by split; eexists|].
  cbn [epoch_comes_first lastPrepared preprepared].
  destruct (entry e); cbn [epochAfter]; try done; try apply IH.
  all: intros _; split; [apply lastPrepared_known|apply preprepared_known].
Qed.

Lemma walked_prefix newEpoch epoch l : walked newEpoch epoch l `prefix_of` l.
Proof.
  revert epoch. induction l as [|e l IH]; intros epoch; [done|]. cbn [walked].
  apply prefix_cons. destruct (reached _ _); [apply prefix_nil|apply IH].
Qed.

Lemma epoch_comes_first_prefix w l :
  w `prefix_of` l → epoch_comes_first l = true → epoch_comes_first w = true.
Proof.
  revert w. induction l as [|e l IH]; intros w Hw.
  - apply prefix_nil_inv in Hw as ->. done.
  - destruct w as [|x w]; [done|].
    apply prefix_cons_inv_1 in Hw as Hx. apply prefix_cons_inv_2 in Hw. subst x.
    cbn [epoch_comes_first]. destruct (entry e); try done; by apply IH.
Qed.

Lemma existsb_prefix {A} (f : A → bool) w l :
  w `prefix_of` l → existsb f l = false → existsb f w = false.
Proof.
  intros [k ->]. rewrite existsb_app. by intros [? ?]%orb_false_iff.
Qed.

(** X9.  On a log in which every entry has a type and no [PEntry] or [QEntry] stands
    before the first [NEntry] or [FEntry], [constructEpochChange] returns, and
    returns the epoch change of the part of the log it walks. *)
Theorem constructEpochChange_returns (newEpoch : Z) (p : persisted) :
  Z.of_nat (length (log p)) < 2 ^ 63 →
  existsb unsupported (log p) = false →
  epoch_comes_first (log p) = true →
  ∃ ec, constructEpochChange newEpoch p = Ok ec p
        ∧ epochChangeOf newEpoch (log p) = Some ec.
Proof.
  intros Hlen Hu Hf. rewrite constructEpochChange_outcome by done.
  pose proof (walked_prefix newEpoch None (log p)) as Hp.
  rewrite (existsb_prefix _ _ _ Hp Hu).
  destruct (epoch_comes_first_Some _ (epoch_comes_first_prefix _ _ Hp Hf)) as [[ps Hps] [qs Hqs]].
  unfold epochChangeOf. cbv zeta. rewrite Hps, Hqs. cbn [mbind option_bind].
  by eexists.
Qed.

Lemma constructEpochChange_returns_witness :
  ∃ ec, constructEpochChange 2 Sample.wal = Ok ec Sample.wal
        ∧ epochChangeOf 2 (log Sample.wal) = Some ec.
Proof.
  apply (constructEpochChange_returns 2 Sample.wal); [vm_compute; reflexivity|reflexivity..].
Defined.

(** X10.  When [constructEpochChange] returns, it returns the epoch change of the part
    of the log it walked, and the store is as it was. *)
Theorem constructEpochChange_result (newEpoch : Z) (p p' : persisted) (ec : EpochChange) :
  Z.of_nat (length (log p)) < 2 ^ 63 →
  constructEpochChange newEpoch p = Ok ec p' →
  let w := walked newEpoch None (log p) in
  p' = p
  ∧ NewEpoch ec = newEpoch
  ∧ EC_Checkpoints ec = checkpointsOf w
  ∧ preprepared None w = Some (QSet ec)
  ∧ lastPrepared None w = Some (PSet ec).
Proof.
  intros Hlen. rewrite constructEpochChange_outcome by done.
  destruct (existsb _ _); [done|]. unfold epochChangeOf. cbv zeta.
  destruct (lastPrepared None _) as [ps|]; cbn [mbind option_bind]; [|done].
  destruct (preprepared None _) as [qs|]; cbn [mbind option_bind]; [|done].
  by intros [= <- <-].
Qed.

Lemma constructEpochChange_result_witness :
  Sample.wal = Sample.wal
  ∧ NewEpoch SampleChange.to3 = 3
  ∧ EC_Checkpoints SampleChange.to3 = checkpointsOf (walked 3 None (log Sample.wal))
  ∧ preprepared None (walked 3 None (log Sample.wal)) = Some (QSet SampleChange.to3)
  ∧ lastPrepared None (walked 3 None (log Sample.wal)) = Some (PSet SampleChange.to3).
Proof.
  apply (constructEpochChange_result 3 Sample.wal Sample.wal SampleChange.to3);
    vm_compute; reflexivity.
Defined.

Lemma lastPrepared_entries w : ∀ epoch ps,
  lastPrepared epoch w = Some ps →
  NoDup (SetEntry_SeqNo <$> ps)
  ∧ (∀ s, s ∈ SetEntry_SeqNo <$> ps ↔ s ∈ pSeqNos w)
  ∧ (∀ x, x ∈ ps →
       ∃ pre e post pe,
         w = pre ++ e :: post ∧ entry e = Persistent_PEntry pe
         ∧ SetEntry_SeqNo x = PEntry_SeqNo pe ∧ SetEntry_Digest x = PEntry_Digest pe
         ∧ PEntry_SeqNo pe ∉ pSeqNos post).
Proof.
  induction w as [|e w IH]; intros epoch ps.
  - intros [= <-]. split; [constructor|]. split; [done|]. intros x Hx. by apply elem_of_nil in Hx.
  - cbn [lastPrepared]. rewrite pSeqNos_cons.
    assert (Hlift : ∀ ep ps, lastPrepared ep w = Some ps →
              ∀ x, x ∈ ps →
                ∃ pre e0 post pe,
                  e :: w = pre ++ e0 :: post ∧ entry e0 = Persistent_PEntry pe
                  ∧ SetEntry_SeqNo x = PEntry_SeqNo pe ∧ SetEntry_Digest x = PEntry_Digest pe
                  ∧ PEntry_SeqNo pe ∉ pSeqNos post).
    { intros ep ps' H x Hx. destruct (IH _ _ H) as (_ & _ & Hl).
      destruct (Hl x Hx) as (pre & e0 & post & pe & -> & ? & ? & ? & ?).
      by exists (e :: pre), e0, post, pe. }
    destruct (entry e) as [pe| | | | | | | |] eqn:Ee; cbn [epochAfter];
      try (intros H; destruct (IH _ _ H) as (Hnd & Hin & _);
           split; [done|]; split; [done|]; by eapply Hlift).
    destruct (decide (PEntry_SeqNo pe ∈ pSeqNos w)) as [Hs|Hs].
    + intros H. destruct (IH _ _ H) as (Hnd & Hin & _).
      split; [done|]. split; [|by eapply Hlift].
      intros s. rewrite Hin, elem_of_cons. split; [by right|]. by intros [->|?].
    + destruct epoch as [ep|]; cbn [mbind option_bind]; [|done].
      destruct (lastPrepared (Some ep) w) as [ps'|] eqn:E; cbn [mbind option_bind]; [|done].
      intros [= <-]. destruct (IH _ _ E) as (Hnd & Hin & _).
      cbn [fmap list_fmap SetEntry_SeqNo]. split; [|split].
      * apply NoDup_cons. split; [|done]. by rewrite Hin.
      * intros s. rewrite !elem_of_cons. by rewrite Hin.
      * intros x [->|Hx]%elem_of_cons; [|by eapply Hlift].
        by exists [], e, w, pe.
Qed.

(** X11.  The prepared set that [constructEpochChange] returns holds one entry for
    every sequence number that a [PEntry] of the walked part carries, and no
    other entry; the entry has the digest of the last such [PEntry]. *)
Theorem constructEpochChange_last_PEntry_per_SeqNo
        (newEpoch : Z) (p p' : persisted) (ec : EpochChange) :
  Z.of_nat (length (log p)) < 2 ^ 63 →
  constructEpochChange newEpoch p = Ok ec p' →
  let w := walked newEpoch None (log p) in
  NoDup (SetEntry_SeqNo <$> PSet ec)
  ∧ (∀ s, s ∈ SetEntry_SeqNo <$> PSet ec ↔ s ∈ pSeqNos w)
  ∧ (∀ x, x ∈ PSet ec →
       ∃ pre e post pe,
         w = pre ++ e :: post ∧ entry e = Persistent_PEntry pe
         ∧ SetEntry_SeqNo x = PEntry_SeqNo pe ∧ SetEntry_Digest x = PEntry_Digest pe
         ∧ PEntry_SeqNo pe ∉ pSeqNos post).
Proof.
  intros Hlen. rewrite constructEpochChange_outcome by done.
  destruct (existsb _ _); [done|]. unfold epochChangeOf. cbv zeta.
  destruct (lastPrepared None _) as [ps|] eqn:E; cbn [mbind option_bind]; [|done].
  destruct (preprepared None _) as [qs|]; cbn [mbind option_bind]; [|done].
  intros [= <- <-]. cbn [PSet]. by apply (lastPrepared_entries _ None).
Qed.

Lemma constructEpochChange_last_PEntry_per_SeqNo_witness :
  NoDup (SetEntry_SeqNo <$> PSet SampleChange.to3)
  ∧ (∀ s, s ∈ SetEntry_SeqNo <$> PSet SampleChange.to3
          ↔ s ∈ pSeqNos (walked 3 None (log Sample.wal)))
  ∧ (∀ x, x ∈ PSet SampleChange.to3 →
       ∃ pre e post pe,
         walked 3 None (log Sample.wal) = pre ++ e :: post
         ∧ entry e = Persistent_PEntry pe
         ∧ SetEntry_SeqNo x = PEntry_SeqNo pe ∧ SetEntry_Digest x = PEntry_Digest pe
         ∧ PEntry_SeqNo pe ∉ pSeqNos post).
Proof.
  apply (constructEpochChange_last_PEntry_per_SeqNo 3 Sample.wal Sample.wal SampleChange.to3);
    vm_compute; reflexivity.
Defined.

Lemma walked_unreached newEpoch pre : ∀ rest,
  Forall (fun e => epochAfter None (entry e) = None) pre →
  walked newEpoch None (pre ++ rest) = pre ++ walked newEpoch None rest.
Proof.
  induction pre as [|e pre IH]; intros rest H; [done|].
  apply Forall_cons in H as [He H]. cbn [app walked]. rewrite He. cbn [reached].
  by rewrite IH.
Qed.

Lemma preprepared_unknown pre : ∀ e qe post,
  Forall (fun e => epochAfter None (entry e) = None) pre →
  entry e = Persistent_QEntry qe →
  preprepared None (pre ++ e :: post) = None.
Proof.
  induction pre as [|x pre IH]; intros e qe post H He.
  - cbn. by rewrite He.
  - apply Forall_cons in H as [Hx H]. cbn [app preprepared].
    destruct (entry x); try done; cbn [epochAfter]; try by eapply IH.
Qed.

(** X12.  A [QEntry] that stands in the log before any [NEntry] or [FEntry] keeps
    [constructEpochChange] from returning.  The first walk, which only counts,
    passes the [QEntry] and panics at an entry without type, if the part of the
    log that is walked has one, before or behind the [QEntry]; otherwise the
    second walk dereferences the nil [logEpoch] at the [QEntry].  The store is
    as it was. *)
Theorem constructEpochChange_QEntry_before_epoch
        (newEpoch : Z) (p : persisted) (pre post : list logEntry) (e : logEntry) (qe : QEntry) :
  Z.of_nat (length (log p)) < 2 ^ 63 →
  log p = pre ++ e :: post →
  Forall (fun e => epochAfter None (entry e) = None) pre →
  entry e = Persistent_QEntry qe →
  constructEpochChange newEpoch p
  = if existsb unsupported (walked newEpoch None (log p))
    then Panic (ExplicitPanic "unsupported log entry type") p
    else Panic NilDereference p.
Proof.
  intros Hlen Hl Hpre He. rewrite constructEpochChange_outcome by done.
  destruct (existsb unsupported (walked newEpoch None (log p))); [done|].
  unfold epochChangeOf. cbv zeta. rewrite Hl, walked_unreached by done.
  cbn [walked]. rewrite He. cbn [epochAfter reached].
  destruct (lastPrepared None _); cbn [mbind option_bind]; [|done].
  by erewrite preprepared_unknown.
Qed.

Lemma constructEpochChange_QEntry_before_epoch_witness :
  constructEpochChange 1 SampleChange.cut = Panic NilDereference SampleChange.cut.
Proof.
  apply (constructEpochChange_QEntry_before_epoch 1 SampleChange.cut
           [ {| index := 0; entry := Persistent_CEntry Toy.checkpoint0 |} ]
           [ {| index := 2; entry := Persistent_NEntry
                                       {| NEntry_SeqNo := 1;
                                          NEntry_EpochConfig := {| Number := 1; Leaders := [0] |} |} |} ]
           {| index := 1; entry := Persistent_QEntry {| QEntry_SeqNo := 1; QEntry_Digest := "a";
                                                        QEntry_Requests := [] |} |}
           {| QEntry_SeqNo := 1; QEntry_Digest := "a"; QEntry_Requests := [] |});
    [vm_compute; reflexivity | reflexivity | by repeat constructor | reflexivity].
Defined.

Lemma walked_reaches newEpoch pre e post post' : ∀ epoch,
  reaches newEpoch e = true →
  walked newEpoch epoch (pre ++ e :: post) = walked newEpoch epoch (pre ++ e :: post').
Proof.
  intros epoch He. revert epoch. induction pre as [|x pre IH]; intros epoch.
  - cbn [app walked]. unfold reaches in He.
    destruct (entry e); try done; cbn [epochAfter] in *; by rewrite He.
  - cbn [app walked]. by rewrite IH.
Qed.

(** X13.  What stands in the log behind the first [NEntry] or [FEntry] of an epoch
    that is [newEpoch] or later has no part in the epoch change. *)
Theorem constructEpochChange_stops_at_newEpoch
        (newEpoch : Z) (nextIndex1 nextIndex2 : Z) (pre post post' : list logEntry)
        (e : logEntry) :
  Z.of_nat (length (pre ++ e :: post)) < 2 ^ 63 →
  Z.of_nat (length (pre ++ e :: post')) < 2 ^ 63 →
  reaches newEpoch e = true →
  map_outcome (fun _ => tt)
    (constructEpochChange newEpoch {| nextIndex := nextIndex1; log := pre ++ e :: post |})
  = map_outcome (fun _ => tt)
      (constructEpochChange newEpoch {| nextIndex := nextIndex2; log := pre ++ e :: post' |}).
Proof.
  intros H1 H2 He. rewrite !constructEpochChange_outcome by done.
  unfold epochChangeOf. cbv zeta. cbn [log].
  rewrite (walked_reaches newEpoch pre e post post' None He).
  destruct (existsb _ _); [done|].
  by destruct (_ ≫= _).
Qed.

Lemma constructEpochChange_stops_at_newEpoch_witness :
  map_outcome (fun _ => tt)
    (constructEpochChange 2 {| nextIndex := 14;
                               log := take 7 (log Sample.wal)
                                      ++ {| index := 10;
                                            entry := Persistent_NEntry
                                                       {| NEntry_SeqNo := 6;
                                                          NEntry_EpochConfig :=
                                                            {| Number := 2; Leaders := [0; 1; 2; 3] |} |} |}
                                      :: drop 8 (log Sample.wal) |})
  = map_outcome (fun _ => tt)
      (constructEpochChange 2 {| nextIndex := 11;
                                 log := take 7 (log Sample.wal)
                                        ++ {| index := 10;
                                              entry := Persistent_NEntry
                                                         {| NEntry_SeqNo := 6;
                                                            NEntry_EpochConfig :=
                                                              {| Number := 2; Leaders := [0; 1; 2; 3] |} |} |}
                                        :: [] |}).
Proof.
  apply (constructEpochChange_stops_at_newEpoch 2 14 11); [vm_compute; reflexivity..|reflexivity].
Defined.
(** ** The life cycle of the state machine *)

Section Lifecycle.
Context {W : Type} {comps : Components W}.

(** X14.  An event that arrives in another state than the one it asks for is refused
    by an assertion, and the state machine is left as it was. *)
Theorem events_out_of_phase_refused (fuel : nat) (ev : StateEvent) (sm : StateMachine W)
        (st : stateMachineState) :
  phase ev = Some st → state sm ≠ st →
  applyEvent fuel ev sm = Panic (AssertionFailed (refusal ev)) sm.
Proof.
  intros Hp Hs.
  destruct ev; cbn in Hp; try done; injection Hp as <-;
    unfold applyEvent, dispatch, initialize, applyPersisted, completeInitialization,
      assertInitialized;
    unfold bind at 1; unfold bind at 1; unfold get; cbn [bind];
    unfold assertEqualf; rewrite decide_False by congruence; done.
Qed.

Lemma keeps_state_bind {A B} (m : M (StateMachine W) A) (k : A → M (StateMachine W) B) :
  keeps_state m → (∀ a, keeps_state (k a)) → keeps_state (bind m k).
Proof.
  intros Hm Hk sm. unfold bind. specialize (Hm sm).
  destruct (m sm) as [a sm'|p sm'|sm']; cbn [out_state] in *; [|done|done].
  by rewrite Hk.
Qed.

Lemma keeps_state_onStore {A} (m : M (store W) A) : keeps_state (onStore m).
Proof.
  intros sm. unfold onStore.
  destruct (thePersisted sm), (components sm); try done.
  by destruct (m _).
Qed.

Lemma keeps_state_ret {A} (a : A) : keeps_state (W := W) (ret a).
Proof. by intros sm. Qed.

Lemma keeps_state_assertEqualf lhs rhs format :
  keeps_state (W := W) (assertEqualf lhs rhs format).
Proof. intros sm. unfold assertEqualf. by destruct (decide _). Qed.

Lemma keeps_state_concatCall actions (m : M (StateMachine W) actionSet) :
  keeps_state m → keeps_state (concatCall actions m).
Proof.
  intros H. apply keeps_state_bind; [done|]. intros o sm. unfold concatM.
  by destruct (concat _ _).
Qed.

Lemma keeps_state_reinitialize : keeps_state reinitialize.
Proof. apply keeps_state_onStore. Qed.

Lemma keeps_state_dispatch ev : keeps_state (dispatch ev).
Proof.
  unfold dispatch, assertInitialized.
  destruct ev; try apply keeps_state_ret;
    repeat (first [ apply keeps_state_onStore
                  | apply keeps_state_assertEqualf
                  | apply keeps_state_concatCall
                  | apply keeps_state_reinitialize
                  | apply keeps_state_bind; [|intros ?]
                  | by intros sm ]).
Qed.

(** X15.  The state of the machine moves forward only, by [Initialize] on a machine
    that was not initialized and by [CompleteInitialization] on one that is
    loading; it is where it is after the event however the event ends, also
    when the event panics behind the guard. *)
Theorem state_after_event (fuel : nat) (ev : StateEvent) (sm : StateMachine W) :
  state (out_state (applyEvent fuel ev sm)) = stateAfter ev (state sm).
Proof.
  assert (Hrest : ∀ ev', keeps_state (actions <~ dispatch ev' ;;
                            onStore (actions <~ garbageCollectInEvent actions ;;
                                     drainAndAdvance fuel actions))).
  { intros ev'. apply keeps_state_bind; [apply keeps_state_dispatch|].
    intros a. apply keeps_state_onStore. }
  destruct ev; cbn [applyEvent]; try (rewrite Hrest; by destruct (state sm)).
  - (* Initialize *)
    unfold initialize. unfold bind at 1. unfold bind at 1. unfold get.
    unfold bind at 1. unfold assertEqualf.
    destruct (decide (iface_state (state sm) = iface_state smUninitialized)) as [Hs|Hs].
    + injection Hs as ->. cbn [ret stateAfter]. unfold bind at 1. unfold put.
      match goal with |- context [onStore ?m ?s] =>
        pose proof (keeps_state_onStore m s) as H; destruct (onStore m s) end;
        cbn [out_state ret state] in *; by rewrite H.
    + cbn [panic out_state]. destruct (state sm); done.
  - (* LoadEntry *)
    assert (H : keeps_state (applyPersisted (W := W) idx data ;;; ret emptyActions)).
    { unfold applyPersisted.
      repeat (first [ apply keeps_state_onStore | apply keeps_state_assertEqualf
                    | apply keeps_state_ret
                    | apply keeps_state_bind; [|intros ?] | by intros ? ]). }
    rewrite H. by destruct (state sm).
  - (* CompleteInitialization *)
    unfold completeInitialization. unfold bind at 1. unfold get.
    unfold bind at 1. unfold assertEqualf.
    destruct (decide (iface_state (state sm) = iface_state smLoadingPersisted)) as [Hs|Hs].
    + injection Hs as Hs. rewrite Hs. cbn [ret stateAfter]. unfold bind at 1. unfold modify.
      rewrite keeps_state_reinitialize. done.
    + cbn [panic out_state]. destruct (state sm); done.
  - done.
  - done.
  - done.
Qed.


Lemma applyEvent_LoadEntry fuel idx d (sm : StateMachine W) p w :
  state sm = smLoadingPersisted → thePersisted sm = Some p → components sm = Some w →
  applyEvent fuel (StateEvent_LoadEntry idx d) sm
  = match appendInitialLoad idx d p with
    | Ok _ p' => Ok emptyActions (with_log p' sm)
    | Panic k p' => Panic k (with_log p' sm)
    | OutOfFuel p' => OutOfFuel (with_log p' sm)
    end.
Proof.
  intros Hs Hp Hw. cbn [applyEvent]. unfold applyPersisted.
  unfold bind at 1. unfold bind at 1. unfold get. unfold bind at 1.
  rewrite Hs. unfold assertEqualf. rewrite decide_True by done. cbn [ret].
  unfold onStore, zoom. rewrite Hp, Hw. cbn [theLog].
  unfold with_log, set_store, set_theLog. cbn [theLog theComponents]. rewrite Hw.
  by destruct (appendInitialLoad idx d p).
Qed.

Lemma with_log_with_log (p q : persisted) (sm : StateMachine W) :
  with_log q (with_log p sm) = with_log q sm.
Proof. done. Qed.

Lemma run_loadEvents fuel l : ∀ (sm : StateMachine W) p p' w,
  state sm = smLoadingPersisted → thePersisted sm = Some p → components sm = Some w →
  load l p = Ok tt p' →
  Forall (fun o => ∃ sm', o = Ok emptyActions sm') (run fuel (loadEvents l) sm)
  ∧ last (run fuel (loadEvents l) sm)
    = match l with
      | [] => None
      | _ :: _ => Some (Ok emptyActions (with_log p' sm))
      end.
Proof.
  induction l as [|e l IH]; intros sm p p' w Hs Hp Hw Hl; [by split; [constructor|]|].
  unfold load in Hl. cbn [forEach] in Hl. unfold bind in Hl.
  destruct (appendInitialLoad (index e) (entry e) p) as [[] p1|k p1|p1] eqn:E; try done.
  fold (load l) in Hl.
  cbn [loadEvents fmap list_fmap run]. unfold ApplyEvent.
  rewrite (applyEvent_LoadEntry fuel _ _ sm p w) by done. rewrite E.
  fold (loadEvents l).
  destruct (IH (with_log p1 sm) p1 p' w Hs eq_refl Hw Hl) as [H1 H2].
  split; [constructor; [by eexists|exact H1]|].
  rewrite last_cons, H2. destruct l as [|e' l]; [|done].
  by injection Hl as <-.
Qed.

(** X16.  A stream of [LoadEntry] events does to the log store of a loading state
    machine what loading the entries does to the store, and to nothing else:
    every event returns the empty action set. *)
Theorem LoadEntry_events_load (fuel : nat) (l : list logEntry) (sm : StateMachine W)
        (p p' : persisted) :
  state sm = smLoadingPersisted → thePersisted sm = Some p → is_Some (components sm) →
  l ≠ [] → load l p = Ok tt p' →
  Forall (fun o => ∃ sm', o = Ok emptyActions sm') (run fuel (loadEvents l) sm)
  ∧ last (run fuel (loadEvents l) sm) = Some (Ok emptyActions (with_log p' sm)).
Proof.
  intros Hs Hp [w Hw] Hne Hl.
  destruct (run_loadEvents fuel l sm p p' w Hs Hp Hw Hl) as [H1 H2].
  split; [done|]. rewrite H2. by destruct l.
Qed.

Lemma concat_WriteAhead a o r :
  concat a o = Some r → WriteAhead r = WriteAhead a ++ WriteAhead o.
Proof.
  unfold concat. destruct (StateTransfer o), (StateTransfer a); try done; by intros [= <-].
Qed.

Lemma bind_Ok_inv {S A B} (m : M S A) (k : A → M S B) s r s' :
  bind m k s = Ok r s' → ∃ a s1, m s = Ok a s1 ∧ k a s1 = Ok r s'.
Proof. unfold bind. destruct (m s) as [a s1|?|?]; try done. by exists a, s1. Qed.

Lemma concatM_Ok_inv {S} a o (s : S) r s' :
  concatM a o s = Ok r s' → concat a o = Some r ∧ s' = s.
Proof. unfold concatM. destruct (concat a o); [|done]. by intros [= <- <-]. Qed.

Lemma writes_first_concatCall {S} actions (m : M S actionSet) :
  writes_first actions (concatCall actions m).
Proof.
  intros s r s' H. apply bind_Ok_inv in H as (o & s1 & _ & H).
  apply concatM_Ok_inv in H as [H _]. rewrite (concat_WriteAhead _ _ _ H).
  by apply prefix_app_r.
Qed.

Lemma writes_first_drainAndAdvance fuel : ∀ actions,
  writes_first actions (drainAndAdvance fuel actions).
Proof.
  induction fuel as [|fuel IH]; intros actions s r s' H; [done|].
  cbn [drainAndAdvance] in H.
  apply bind_Ok_inv in H as (a1 & s1 & H1 & H).
  apply writes_first_concatCall in H1.
  apply bind_Ok_inv in H as (la & s2 & _ & H).
  destruct (isEmpty la).
  - injection H as <- <-. done.
  - apply bind_Ok_inv in H as (a2 & s3 & H2 & H).
    apply concatM_Ok_inv in H2 as [H2 _]. apply IH in H.
    etrans; [exact H1|]. etrans; [|exact H].
    rewrite (concat_WriteAhead _ _ _ H2). by apply prefix_app_r.
Qed.

Lemma writes_first_garbageCollectInEvent actions :
  writes_first actions (garbageCollectInEvent actions).
Proof.
  intros s r s' H. unfold garbageCollectInEvent in H.
  apply bind_Ok_inv in H as (cp & s1 & _ & H).
  destruct (decide _); [|by injection H as <- <-].
  apply bind_Ok_inv in H as (newLow & s2 & _ & H).
  apply bind_Ok_inv in H as (? & s3 & _ & H).
  apply bind_Ok_inv in H as (nc & s4 & _ & H).
  destruct nc as [nc|]; [|done].
  apply bind_Ok_inv in H as (? & s5 & _ & H).
  by apply writes_first_concatCall in H.
Qed.

Lemma onStore_Ok_inv {A} (m : M (store W) A) sm r sm' :
  onStore m sm = Ok r sm' →
  ∃ p w s', thePersisted sm = Some p ∧ components sm = Some w
            ∧ m {| theLog := p; theComponents := w |} = Ok r s' ∧ sm' = set_store s' sm.
Proof.
  unfold onStore. destruct (thePersisted sm) as [p|], (components sm) as [w|]; try done.
  destruct (m _) as [a s'|?|?] eqn:E; try done. intros [= <- <-]. by exists p, w, s'.
Qed.

(** X17.  When a [Transfer] event returns, the first thing its actions ask to be
    written ahead is the checkpoint that was transferred, at the index that was
    next in the log. *)
Theorem Transfer_written_ahead_first (fuel : nat) (cEntry : CEntry)
        (sm sm' : StateMachine W) (p : persisted) (r : actionSet) :
  thePersisted sm = Some p →
  applyEvent fuel (StateEvent_Transfer cEntry) sm = Ok r sm' →
  ∃ rest, WriteAhead r
          = {| Append := Some (nextIndex p, Persistent_CEntry cEntry); Truncate := 0 |} :: rest.
Proof.
  intros Hp H. cbn [applyEvent] in H.
  apply bind_Ok_inv in H as (a1 & sm1 & Hd & H).
  apply onStore_Ok_inv in H as (p1 & w1 & s' & _ & _ & H & _).
  apply bind_Ok_inv in H as (a2 & s2 & Hg & H).
  apply writes_first_garbageCollectInEvent in Hg. apply writes_first_drainAndAdvance in H.
  assert (Hfirst : [{| Append := Some (nextIndex p, Persistent_CEntry cEntry); Truncate := 0 |}]
                   `prefix_of` WriteAhead a1).
  { clear H Hg. unfold dispatch in Hd.
    apply bind_Ok_inv in Hd as (? & sm2 & Hc & Hd).
    apply onStore_Ok_inv in Hc as (p2 & w2 & s2' & Hp2 & Hw2 & Hc & ->).
    apply bind_Ok_inv in Hc as (tr & s3 & Hr & Hc). injection Hr as <- <-.
    unfold assertEqualf in Hc. destruct (decide _); [|done].
    unfold ret in Hc. injection Hc as _ <-.
    apply bind_Ok_inv in Hd as (a0 & sm3 & Ha & Hd).
    apply writes_first_concatCall in Hd.
    apply onStore_Ok_inv in Ha as (p3 & w3 & s3' & Hp3 & _ & Ha & _).
    cbn [set_store thePersisted theLog] in Hp3. injection Hp3 as <-.
    rewrite Hp in Hp2. injection Hp2 as <-.
    apply bind_Ok_inv in Ha as (o & s4 & Ho & Ha).
    apply concatM_Ok_inv in Ha as [Ha _]. rewrite concat_empty_l in Ha. injection Ha as ->.
    unfold zoom in Ho. cbn [theLog] in Ho. rewrite addCEntry_appendLogEntry in Ho.
    unfold appendLogEntry in Ho. destruct (log p); cbn in Ho; [done|]. injection Ho as <- _.
    exact Hd. }
  destruct Hfirst as [k1 Hk1]. destruct Hg as [k2 Hk2]. destruct H as [k3 Hk3].
  rewrite Hk3, Hk2, Hk1. by eexists.
Qed.

End Lifecycle.

Lemma events_out_of_phase_refused_witness :
  applyEvent (comps := Toy.comps) 3 StateEvent_Tick SampleMachine.loading
  = Panic (AssertionFailed (refusal StateEvent_Tick)) SampleMachine.loading.
Proof.
  apply (events_out_of_phase_refused (comps := Toy.comps) 3 StateEvent_Tick
           SampleMachine.loading smInitialized); [reflexivity|discriminate].
Defined.

Lemma LoadEntry_events_load_witness :
  Forall (fun o => ∃ sm', o = Ok emptyActions sm')
         (run (comps := Toy.comps) 3 (loadEvents (log Sample.wal)) SampleMachine.loading)
  ∧ last (run (comps := Toy.comps) 3 (loadEvents (log Sample.wal)) SampleMachine.loading)
    = Some (Ok emptyActions (with_log Sample.wal SampleMachine.loading)).
Proof.
  apply (LoadEntry_events_load (comps := Toy.comps) 3 (log Sample.wal) SampleMachine.loading
           newPersisted Sample.wal);
    [reflexivity | reflexivity | by eexists | discriminate | vm_compute; reflexivity].
Defined.

Lemma Transfer_written_ahead_first_witness :
  ∃ rest, WriteAhead SampleMachine.transferActions
          = {| Append := Some (nextIndex Sample.wal, Persistent_CEntry SampleMachine.transferred);
               Truncate := 0 |} :: rest.
Proof.
  apply (Transfer_written_ahead_first (comps := Toy.comps) 3 SampleMachine.transferred
           SampleMachine.waiting (out_state SampleMachine.afterTransfer) Sample.wal
           SampleMachine.transferActions); [reflexivity | vm_compute; reflexivity].
Defined.

(** ** Outstanding requests: the buckets and their counters *)

Section OutstandingMore.
Context {cops : ClientOps} {W : Type} {sops : SequenceOps W}.

Lemma advanceRequests_loop_iterator pending : ∀ actions (t : tracker W),
  match advanceRequests_loop pending actions t with
  | Ok _ t' =>
      items (availableIterator (ao t')) = items (availableIterator (ao t))
      ∧ position (availableIterator (ao t'))
        = (position (availableIterator (ao t)) + length pending)%nat
  | _ => True
  end.
Proof.
  induction pending as [|ack pending IH]; intros actions t.
  - cbn. split; [done|lia].
  - rewrite advanceRequests_loop_step. cbv zeta.
    destruct (outstandingRequests (ao t) !! Digest ack) as [seq|].
    + destruct (satisfyOutstanding seq ack (heap t)) as [o w|?|?]; [|done|done].
      destruct (concat actions o) as [actions'|]; [|done].
      match goal with |- context [advanceRequests_loop pending actions' ?t1] =>
        specialize (IH actions' t1); destruct (advanceRequests_loop pending actions' t1) end;
        try done.
      cbn in IH. destruct IH as [-> ->]. cbn [length]. split; [done|lia].
    + match goal with |- context [advanceRequests_loop pending actions ?t1] =>
        specialize (IH actions t1); destruct (advanceRequests_loop pending actions t1) end;
        try done.
      cbn in IH. destruct IH as [-> ->]. cbn [length]. split; [done|lia].
Qed.

(** X18.  When [advanceRequests] returns, the iterator over the available
    acknowledgements is at its end, and a second call finds nothing to do: it
    returns the empty action set and changes nothing. *)
Theorem advanceRequests_drains_the_available (t t' : tracker W) (actions : actionSet) :
  advanceRequests t = Ok actions t' →
  remaining (availableIterator (ao t')) = []
  ∧ advanceRequests t' = Ok emptyActions t'.
Proof.
  unfold advanceRequests, bind, get. intros H.
  pose proof (advanceRequests_loop_iterator
                (remaining (availableIterator (ao t))) emptyActions t) as Hi.
  rewrite H in Hi. destruct Hi as [Hitems Hpos].
  assert (Hr : remaining (availableIterator (ao t')) = []).
  { unfold remaining in *. rewrite Hitems, Hpos. apply drop_ge.
    rewrite length_drop. lia. }
  split; [done|]. by rewrite Hr.
Qed.


Lemma forEach_initClient_uncommitted fuel cfg i cs : ∀ bo bo',
  forEach (initClient fuel cfg i) cs bo = Ok tt bo' →
  (∀ id co, clients bo !! id = Some co → isCommitted (nextReqNo co) (client co) = false) →
  ∀ id co, clients bo' !! id = Some co → isCommitted (nextReqNo co) (client co) = false.
Proof.
  induction cs as [|c cs IH]; intros bo bo' H Hbo; [by injection H as <-|].
  cbn [forEach] in H. unfold bind in H.
  destruct (initClient fuel cfg i c bo) as [[] bo1|?|?] eqn:E; try done.
  apply (IH _ _ H). intros id co Hco.
  apply initClient_Ok in E as (cors & Hc & ->). cbn in Hco.
  destruct (decide (id = Id c)) as [->|Hne].
  - rewrite lookup_insert_eq in Hco. injection Hco as <-.
    unfold initialCounter in Hc. by apply skipPreviouslyCommitted_Ok in Hc as (k & _ & Hu & _).
  - rewrite lookup_insert_ne in Hco by done. by eapply Hbo.
Qed.

Lemma forEach_initBucket_uncommitted fuel ns ids : ∀ a a',
  forEach (initBucket fuel ns) ids a = Ok tt a' →
  counters_uncommitted a → counters_uncommitted a'.
Proof.
  induction ids as [|i ids IH]; intros a a' H Ha; [by injection H as <-|].
  cbn [forEach] in H. unfold bind in H.
  destruct (initBucket fuel ns i a) as [[] a1|?|?] eqn:E; try done.
  apply (IH _ _ H). apply initBucket_Ok in E as (bo & Hbo & ->).
  intros b bo' id co Hb Hco. cbn in Hb.
  destruct (decide (b = i)) as [->|Hne].
  - rewrite lookup_insert_eq in Hb. injection Hb as <-.
    eapply (forEach_initClient_uncommitted _ _ _ _ _ _ Hbo); [|exact Hco].
    intros ? ? Hx. cbn in Hx. by rewrite lookup_empty in Hx.
  - rewrite lookup_insert_ne in Hb by done. by eapply Ha.
Qed.

Lemma applyAck_uncommitted fuel bucket seq os req a r a' :
  applyAck fuel bucket seq os req a = Ok r a' →
  counters_uncommitted a → counters_uncommitted a'.
Proof.
  intros H Ha. destruct (buckets a !! bucket) as [bo|] eqn:Eb.
  2:{ unfold applyAck, bind, get in H. by rewrite Eb in H. }
  destruct (matches_dec bucket a req) as [Hm|Hm].
  - destruct Hm as (bo' & co & Hbo & Hco & Hn). rewrite Eb in Hbo. injection Hbo as <-.
    rewrite (applyAck_accepts _ _ _ _ _ _ bo co) in H by done.
    destruct (skipPreviouslyCommitted _ _) as [[] co'|?|?] eqn:Es; try done.
    injection H as _ <-.
    apply skipPreviouslyCommitted_Ok in Es as (k & _ & Hu & _).
    intros b bo1 id co1 Hb Hc1. unfold storeCounter in Hb. cbn [buckets set_buckets] in Hb.
    destruct (decide (b = bucket)) as [->|Hne].
    + rewrite lookup_insert_eq in Hb. injection Hb as <-. cbn in Hc1.
      destruct (decide (id = ClientId req)) as [->|Hni].
      * rewrite lookup_insert_eq in Hc1. by injection Hc1 as <-.
      * rewrite lookup_insert_ne in Hc1 by done. by eapply Ha.
    + rewrite lookup_insert_ne in Hb by done. rewrite fileDigest_buckets in Hb. by eapply Ha.
  - rewrite applyAck_rejects in H; [|by eexists|done]. by injection H as _ <-.
Qed.

Lemma applyAcks_loop_uncommitted fuel bucket seq batch : ∀ os a r a',
  applyAcks_loop fuel bucket seq os batch a = Ok r a' →
  counters_uncommitted a → counters_uncommitted a'.
Proof.
  induction batch as [|req batch IH]; intros os a r a' H Ha; [by injection H as _ <-|].
  cbn [applyAcks_loop] in H. unfold bind in H.
  destruct (applyAck fuel bucket seq os req a) as [[os1|err] a1|?|?] eqn:E; try done.
  - eapply IH; [exact H|]. by eapply applyAck_uncommitted.
  - injection H as _ <-. by eapply applyAck_uncommitted.
Qed.

(** X19.  Every counter of the outstanding requests points at a request number that
    is not committed: this holds for what [newOutstandingReqs] returns, and
    [applyAcks] and [advanceRequests] keep it whenever they return. *)
Theorem counters_stay_uncommitted :
  (∀ fuel al ns (w w' : W) a,
      newOutstandingReqs fuel al ns w = Ok a w' → counters_uncommitted a)
  ∧ (∀ fuel bucket seq batch (t t' : tracker W) r,
        counters_uncommitted (ao t) → applyAcks fuel bucket seq batch t = Ok r t' →
        counters_uncommitted (ao t'))
  ∧ (∀ (t : tracker W),
        counters_uncommitted (ao t) → counters_uncommitted (ao (out_state (advanceRequests t)))).
Proof.
  split; [|split].
  - intros fuel al ns w w' a H. unfold newOutstandingReqs in H.
    destruct (forEach _ _ _) as [[] a1|?|?] eqn:E; try done.
    pose proof (advanceRequests_loop_buckets
                  (remaining (availableIterator a1)) emptyActions {| ao := a1; heap := w |}) as Hb.
    unfold advanceRequests, bind, get in H. cbn [ao] in H.
    destruct (advanceRequests_loop _ _ _) as [r t'|?|?]; try done.
    injection H as <- _. cbn in Hb.
    apply forEach_initBucket_uncommitted in E.
    + intros b bo id co. rewrite Hb. apply E.
    + intros b bo id co Hx. cbn in Hx. by rewrite lookup_empty in Hx.
  - intros fuel bucket seq batch t t' r Ha H.
    destruct (buckets (ao t) !! bucket) as [bo|] eqn:Eb.
    + rewrite applyAcks_unfold in H by (by eexists).
      destruct (applyAcks_loop _ _ _ _ _ _) as [[os|err] a1|?|?] eqn:E; try done.
      * destruct (allocate _ _ _ _); try done. injection H as _ <-. cbn.
        by eapply applyAcks_loop_uncommitted.
      * injection H as _ <-. cbn. by eapply applyAcks_loop_uncommitted.
    + unfold applyAcks, bind, get in H. cbn in H. rewrite Eb in H.
      rewrite bool_decide_false in H; [done|]. by intros [? ?].
  - intros t Ha b bo id co. unfold advanceRequests, bind, get.
    rewrite advanceRequests_loop_buckets. apply Ha.
Qed.

(** The bucket is not there: [applyAcks] fails its assertion before it looks at
    the batch; the outstanding requests and the sequences are as they were. *)
Lemma applyAcks_unknown_bucket (fuel : nat) (bucket : Z) (seq : sequence)
        (batch : list RequestAck) (t : tracker W) :
  buckets (ao t) !! bucket = None →
  applyAcks fuel bucket seq batch t
  = Panic (AssertionFailed "told to apply acks for bucket %d which does not exist") t.
Proof.
  intros H. unfold applyAcks, bind, get. rewrite H.
  rewrite bool_decide_false; [done|]. by intros [? ?].
Qed.


Lemma same_clients_refl bo : same_clients bo bo.
Proof. intros id. destruct (clients bo !! id); by constructor. Qed.

Lemma same_buckets_refl bucket a : same_buckets bucket a a.
Proof.
  intros b. destruct (buckets a !! b); constructor. split; [apply same_clients_refl|done].
Qed.

Lemma same_buckets_trans bucket a1 a2 a3 :
  same_buckets bucket a1 a2 → same_buckets bucket a2 a3 → same_buckets bucket a1 a3.
Proof.
  intros H12 H23 b. specialize (H12 b). specialize (H23 b).
  destruct H12 as [bo1 bo2 [Hc12 He12]|]; inversion H23 as [? bo3 [Hc23 He23]|]; subst;
    constructor.
  split.
  - intros id. specialize (Hc12 id). specialize (Hc23 id).
    destruct Hc12 as [c1 c2 [? ?]|]; inversion Hc23 as [? c3 [? ?]|]; subst; constructor.
    split; congruence.
  - intros Hb. rewrite He23, He12; done.
Qed.

Lemma applyAck_same_buckets fuel bucket seq os req a :
  same_buckets bucket a (out_state (applyAck fuel bucket seq os req a)).
Proof.
  destruct (buckets a !! bucket) as [bo|] eqn:Eb.
  2:{ unfold applyAck, bind, get. rewrite Eb. apply same_buckets_refl. }
  destruct (matches_dec bucket a req) as [Hm|Hm].
  - destruct Hm as (bo' & co & Hbo & Hco & Hn). rewrite Eb in Hbo. injection Hbo as <-.
    rewrite (applyAck_accepts _ _ _ _ _ _ bo co) by done.
    pose proof (skipPreviouslyCommitted_fields fuel
                  (set_nextReqNo (add64 (nextReqNo co) (numBuckets co)) co)) as [Hf1 Hf2].
    assert (Hgoal : ∀ co', numBuckets co' = numBuckets co → client co' = client co →
              same_buckets bucket a (storeCounter bucket bo (ClientId req) co'
                                       (fileDigest seq req a))).
    { intros co' H1 H2 b. unfold storeCounter. cbn [buckets set_buckets].
      destruct (decide (b = bucket)) as [->|Hne].
      - rewrite lookup_insert_eq, Eb. constructor. split; [|done].
        intros id. cbn [clients]. destruct (decide (id = ClientId req)) as [->|Hni].
        + rewrite lookup_insert_eq, Hco. by constructor.
        + rewrite lookup_insert_ne by done. destruct (clients bo !! id); by constructor.
      - rewrite lookup_insert_ne by done. rewrite fileDigest_buckets.
        destruct (buckets a !! b); constructor. split; [apply same_clients_refl|done]. }
    destruct (skipPreviouslyCommitted _ _) as [[] co'|? co'|co']; cbn [out_state] in *;
      by apply Hgoal.
  - rewrite applyAck_rejects; [|by eexists|done]. apply same_buckets_refl.
Qed.

Lemma applyAcks_loop_same_buckets fuel bucket seq batch : ∀ os a,
  same_buckets bucket a (out_state (applyAcks_loop fuel bucket seq os batch a)).
Proof.
  induction batch as [|req batch IH]; intros os a; [apply same_buckets_refl|].
  cbn [applyAcks_loop]. unfold bind.
  pose proof (applyAck_same_buckets fuel bucket seq os req a) as H.
  destruct (applyAck fuel bucket seq os req a) as [[os1|err] a1|?|?]; cbn [out_state] in *;
    try done.
  eapply same_buckets_trans; [exact H|apply IH].
Qed.

Lemma applyAck_availableIterator fuel bucket seq os req a :
  availableIterator (out_state (applyAck fuel bucket seq os req a)) = availableIterator a.
Proof.
  destruct (buckets a !! bucket) as [bo|] eqn:Eb.
  2:{ unfold applyAck, bind, get. by rewrite Eb. }
  destruct (matches_dec bucket a req) as [Hm|Hm].
  - destruct Hm as (bo' & co & Hbo & Hco & Hn). rewrite Eb in Hbo. injection Hbo as <-.
    rewrite (applyAck_accepts _ _ _ _ _ _ bo co) by done.
    assert (H : ∀ co', availableIterator (storeCounter bucket bo (ClientId req) co'
                                            (fileDigest seq req a)) = availableIterator a).
    { intros co'. unfold storeCounter, fileDigest. by destruct (correctRequests a !! _). }
    destruct (skipPreviouslyCommitted _ _); cbn [out_state]; apply H.
  - by rewrite applyAck_rejects; [|by eexists|done].
Qed.

Lemma applyAcks_loop_availableIterator fuel bucket seq batch : ∀ os a,
  availableIterator (out_state (applyAcks_loop fuel bucket seq os batch a))
  = availableIterator a.
Proof.
  induction batch as [|req batch IH]; intros os a; [done|].
  cbn [applyAcks_loop]. unfold bind.
  pose proof (applyAck_availableIterator fuel bucket seq os req a) as H.
  destruct (applyAck fuel bucket seq os req a) as [[os1|err] a1|?|?]; cbn [out_state] in *;
    try done.
  by rewrite IH.
Qed.

(** X20.  However [applyAcks] ends, the outstanding requests have the buckets they
    had, each for the clients it had and with the stride it had; no bucket but
    the one of the batch has changed, and the iterator over the available
    acknowledgements is where it was. *)
Theorem applyAcks_keeps_the_buckets (fuel : nat) (bucket : Z) (seq : sequence)
        (batch : list RequestAck) (t : tracker W) :
  same_buckets bucket (ao t) (ao (out_state (applyAcks fuel bucket seq batch t)))
  ∧ availableIterator (ao (out_state (applyAcks fuel bucket seq batch t)))
    = availableIterator (ao t).
Proof.
  destruct (buckets (ao t) !! bucket) as [bo|] eqn:Eb.
  - rewrite applyAcks_unfold by (by eexists).
    pose proof (applyAcks_loop_same_buckets fuel bucket seq batch ∅ (ao t)) as H1.
    pose proof (applyAcks_loop_availableIterator fuel bucket seq batch ∅ (ao t)) as H2.
    destruct (applyAcks_loop _ _ _ _ _ _) as [[os|err] a1|?|?]; cbn [out_state] in *;
      try done.
    by destruct (allocate _ _ _ _).
  - unfold applyAcks, bind, get. rewrite Eb.
    rewrite bool_decide_false by (by intros [? ?]).
    split; [apply same_buckets_refl|done].
Qed.


Lemma forEach_initClient_clients fuel cfg i cs : ∀ bo bo',
  forEach (initClient fuel cfg i) cs bo = Ok tt bo' →
  (∀ id, is_Some (clients bo' !! id) ↔ id ∈ Id <$> cs ∨ is_Some (clients bo !! id))
  ∧ (∀ id co, clients bo' !! id = Some co →
       clients bo !! id = Some co
       ∨ (numBuckets co = to_uint64 (NumberOfBuckets cfg) ∧ client co ∈ cs
          ∧ Id (client co) = id)).
Proof.
  induction cs as [|c cs IH]; intros bo bo' H.
  - injection H as <-. split.
    + intros id. cbn. split; [by right|]. intros [Hx|?]; [by apply elem_of_nil in Hx|done].
    + intros id co Hc. by left.
  - cbn [forEach] in H. unfold bind in H.
    destruct (initClient fuel cfg i c bo) as [[] bo1|?|?] eqn:E; try done.
    destruct (IH _ _ H) as [IH1 IH2]. apply initClient_Ok in E as (cors & Hc & ->).
    unfold initialCounter in Hc.
    pose proof (skipPreviouslyCommitted_fields fuel
                  {| nextReqNo := firstUncommitted c cfg i (seqZ 0 (NumberOfBuckets cfg));
                     numBuckets := to_uint64 (NumberOfBuckets cfg); client := c |}) as [Hf1 Hf2].
    rewrite Hc in Hf1, Hf2. cbn in Hf1, Hf2.
    split.
    + intros id. rewrite IH1. cbn [clients fmap list_fmap]. rewrite elem_of_cons.
      destruct (decide (id = Id c)) as [->|Hne].
      * rewrite lookup_insert_eq. split; [by left; left|]. intros _. right. by eexists.
      * rewrite lookup_insert_ne by done. tauto.
    + intros id co Hco. destruct (IH2 id co Hco) as [Hx|(? & ? & ?)].
      * cbn in Hx. destruct (decide (id = Id c)) as [->|Hne].
        -- rewrite lookup_insert_eq in Hx. injection Hx as <-. right.
           rewrite Hf1, Hf2. repeat split; [left].
        -- rewrite lookup_insert_ne in Hx by done. by left.
      * right. repeat split; try done. by right.
Qed.

Lemma forEach_initBucket_buckets fuel ns ids : ∀ a a',
  forEach (initBucket fuel ns) ids a = Ok tt a' →
  (∀ i, is_Some (buckets a' !! i) ↔ i ∈ ids ∨ is_Some (buckets a !! i))
  ∧ (∀ i bo, buckets a' !! i = Some bo →
       buckets a !! i = Some bo
       ∨ forEach (initClient fuel (Config ns) i) (Clients ns) {| clients := ∅ |} = Ok tt bo).
Proof.
  induction ids as [|j ids IH]; intros a a' H.
  - injection H as <-. split.
    + intros i. split; [by right|]. intros [Hx|?]; [by apply elem_of_nil in Hx|done].
    + intros i bo Hb. by left.
  - cbn [forEach] in H. unfold bind in H.
    destruct (initBucket fuel ns j a) as [[] a1|?|?] eqn:E; try done.
    destruct (IH _ _ H) as [IH1 IH2]. apply initBucket_Ok in E as (bo & Hbo & ->).
    split.
    + intros i. rewrite IH1. cbn [buckets set_buckets]. rewrite elem_of_cons.
      destruct (decide (i = j)) as [->|Hne].
      * rewrite lookup_insert_eq. split; [by left; left|]. intros _. right. by eexists.
      * rewrite lookup_insert_ne by done. tauto.
    + intros i bo' Hb. destruct (IH2 i bo' Hb) as [Hx|Hx]; [|by right].
      cbn in Hx. destruct (decide (i = j)) as [->|Hne].
      * rewrite lookup_insert_eq in Hx. injection Hx as <-. by right.
      * rewrite lookup_insert_ne in Hx by done. by left.
Qed.

(** X21.  The outstanding requests that [newOutstandingReqs] returns have one bucket
    for every bucket number of the network configuration and no other; every
    bucket has one counter for every client of the network state and no other,
    filed under the client's id, with the number of buckets as its stride. *)
Theorem newOutstandingReqs_buckets_and_clients (fuel : nat) (al : availableList)
        (ns : NetworkState) (w w' : W) (a : allOutstandingReqs) :
  newOutstandingReqs fuel al ns w = Ok a w' →
  (∀ i, is_Some (buckets a !! i) ↔ 0 ≤ i < to_uint64 (NumberOfBuckets (Config ns)))
  ∧ (∀ i bo id, buckets a !! i = Some bo →
       (is_Some (clients bo !! id) ↔ id ∈ Id <$> Clients ns))
  ∧ (∀ i bo id co, buckets a !! i = Some bo → clients bo !! id = Some co →
       numBuckets co = to_uint64 (NumberOfBuckets (Config ns))
       ∧ client co ∈ Clients ns ∧ Id (client co) = id).
Proof.
  intros H. unfold newOutstandingReqs in H.
  destruct (forEach _ _ _) as [[] a1|?|?] eqn:E; try done.
  pose proof (advanceRequests_loop_buckets
                (remaining (availableIterator a1)) emptyActions {| ao := a1; heap := w |}) as Hb.
  unfold advanceRequests, bind, get in H. cbn [ao] in H.
  destruct (advanceRequests_loop _ _ _) as [r t'|?|?]; try done.
  injection H as <- _. cbn in Hb. rewrite Hb.
  destruct (forEach_initBucket_buckets _ _ _ _ _ E) as [H1 H2]. cbn [buckets] in H1, H2.
  assert (Hbo : ∀ i bo, buckets a1 !! i = Some bo →
            forEach (initClient fuel (Config ns) i) (Clients ns) {| clients := ∅ |} = Ok tt bo).
  { intros i bo Hi. destruct (H2 i bo Hi) as [Hx|Hx]; [|done]. by rewrite lookup_empty in Hx. }
  split; [|split].
  - intros i. rewrite H1, elem_of_seqZ, lookup_empty. split; [|intros ?; left; lia].
    intros [?|[? ?]]; [lia|done].
  - intros i bo id Hi. destruct (forEach_initClient_clients _ _ _ _ _ _ (Hbo i bo Hi)) as [Hc _].
    rewrite Hc. cbn. rewrite lookup_empty. split; [|by left]. intros [?|[? ?]]; done.
  - intros i bo id co Hi Hco.
    destruct (forEach_initClient_clients _ _ _ _ _ _ (Hbo i bo Hi)) as [_ Hc].
    destruct (Hc id co Hco) as [Hx|Hx]; [|done]. cbn in Hx. by rewrite lookup_empty in Hx.
Qed.

Lemma advanceRequests_loop_caches pending : ∀ actions (t : tracker W),
  outstandingRequests (ao t) = ∅ →
  ∃ t', advanceRequests_loop pending actions t = Ok actions t'
        ∧ heap t' = heap t
        ∧ outstandingRequests (ao t') = ∅
        ∧ ∀ key, correctRequests (ao t') !! key
                 = match last (filter (fun ack => Digest ack = key) pending) with
                   | Some ack => Some ack
                   | None => correctRequests (ao t) !! key
                   end.
Proof.
  induction pending as [|ack pending IH]; intros actions t Ho.
  - exists t. repeat split; done.
  - rewrite advanceRequests_loop_step. cbv zeta. rewrite Ho, lookup_empty.
    match goal with |- context [advanceRequests_loop pending actions ?t1] =>
      destruct (IH actions t1) as (t' & -> & Hh & Ho' & Hc) end; [done|].
    exists t'. repeat split; try done. intros key. rewrite Hc, filter_cons.
    cbn [ao set_ao set_correctRequests correctRequests].
    destruct (decide (Digest ack = key)) as [<-|Hne].
    + rewrite last_cons. rewrite lookup_insert_eq. by destruct (last _).
    + by rewrite lookup_insert_ne.
Qed.

(** X22.  [newOutstandingReqs] starts with no sequence allocated, so it asks nothing
    of the sequences: every acknowledgement of the available list, from its
    start, is filed as known correct under its digest, the later one winning
    where two share a digest; nothing is outstanding and the iterator is at
    the end of the list. *)
Theorem newOutstandingReqs_caches_the_available (fuel : nat) (al : availableList)
        (ns : NetworkState) (w w' : W) (a : allOutstandingReqs) :
  newOutstandingReqs fuel al ns w = Ok a w' →
  w' = w
  ∧ outstandingRequests a = ∅
  ∧ items (availableIterator a) = items al
  ∧ remaining (availableIterator a) = []
  ∧ ∀ key, correctRequests a !! key
           = last (filter (fun ack => Digest ack = key) (items al)).
Proof.
  intros H. unfold newOutstandingReqs in H.
  destruct (forEach_initBucket_maps fuel ns
              (seqZ 0 (to_uint64 (NumberOfBuckets (Config ns))))
              {| buckets := ∅; availableIterator := resetIterator al;
                 correctRequests := ∅; outstandingRequests := ∅ |}) as [b Hb].
  destruct (forEach _ _ _) as [[] a1|?|?] eqn:E; try done.
  cbn [out_state] in Hb. subst a1.
  unfold advanceRequests, bind, get in H. cbn [ao set_buckets availableIterator] in H.
  match type of H with context [advanceRequests_loop ?p ?acts ?t] =>
    destruct (advanceRequests_loop_caches p acts t) as (t' & Ht & Hh & Ho & Hc); [done|];
    pose proof (advanceRequests_loop_iterator p acts t) as Hi end.
  rewrite Ht in H, Hi. injection H as <- <-. destruct Hi as [Hitems Hpos]. cbn in Hitems, Hpos, Hh.
  split; [done|]. split; [done|]. split; [done|]. split.
  - unfold remaining. rewrite Hitems, Hpos. apply drop_ge. unfold remaining. cbn.
    rewrite drop_0. lia.
  - intros key. rewrite Hc. cbn. unfold remaining. cbn. rewrite drop_0, lookup_empty.
    by destruct (last _).
Qed.

End OutstandingMore.

Lemma advanceRequests_drains_the_available_witness :
  remaining (availableIterator (ao SampleTracker.advanced)) = []
  ∧ advanceRequests (sops := Toy.sops) SampleTracker.advanced
    = Ok emptyActions SampleTracker.advanced.
Proof.
  apply (advanceRequests_drains_the_available (sops := Toy.sops)
           SampleTracker.rewound SampleTracker.advanced emptyActions).
  vm_compute. reflexivity.
Defined.

Lemma newOutstandingReqs_buckets_and_clients_witness :
  (∀ i, is_Some (buckets (ao Toy.tracker0) !! i)
        ↔ 0 ≤ i < to_uint64 (NumberOfBuckets (Config Toy.networkState)))
  ∧ (∀ i bo id, buckets (ao Toy.tracker0) !! i = Some bo →
       (is_Some (clients bo !! id) ↔ id ∈ Id <$> Clients Toy.networkState))
  ∧ (∀ i bo id co, buckets (ao Toy.tracker0) !! i = Some bo → clients bo !! id = Some co →
       numBuckets co = to_uint64 (NumberOfBuckets (Config Toy.networkState))
       ∧ client co ∈ Clients Toy.networkState ∧ Id (client co) = id).
Proof.
  apply (newOutstandingReqs_buckets_and_clients (cops := Toy.cops) (sops := Toy.sops)
           3 Toy.available Toy.networkState ∅ (heap Toy.tracker0) (ao Toy.tracker0)).
  vm_compute. reflexivity.
Defined.

Lemma newOutstandingReqs_caches_the_available_witness :
  heap Toy.tracker0 = ∅
  ∧ outstandingRequests (ao Toy.tracker0) = ∅
  ∧ items (availableIterator (ao Toy.tracker0)) = items Toy.available
  ∧ remaining (availableIterator (ao Toy.tracker0)) = []
  ∧ ∀ key, correctRequests (ao Toy.tracker0) !! key
           = last (filter (fun ack => Digest ack = key) (items Toy.available)).
Proof.
  apply (newOutstandingReqs_caches_the_available (cops := Toy.cops) (sops := Toy.sops)
           3 Toy.available Toy.networkState ∅ (heap Toy.tracker0) (ao Toy.tracker0)).
  vm_compute. reflexivity.
Defined.

(** ** The log replay tool *)

Lemma named_elem_of value names : Mircat.named value names = true ↔ value ∈ names.
Proof.
  induction names as [|name names IH]; cbn.
  - split; [done|]. intros H. by apply elem_of_nil in H.
  - rewrite elem_of_cons. destruct (decide (name = value)) as [->|Hne]; [tauto|].
    rewrite IH. split; [tauto|]. intros [->|?]; done.
Qed.

Lemma listed_elem_of nodeId ids : Mircat.listed nodeId ids = true ↔ nodeId ∈ ids.
Proof.
  induction ids as [|id ids IH]; cbn.
  - split; [done|]. intros H. by apply elem_of_nil in H.
  - rewrite elem_of_cons. destruct (decide (id = nodeId)) as [->|Hne]; [tauto|].
    rewrite IH. split; [tauto|]. intros [->|?]; done.
Qed.

(** X23.  With an include list, a value is excluded exactly when the list does not
    name it: the exclude list is not looked at, and an include list that is
    empty but not nil excludes everything.  Without an include list, a value is
    excluded exactly when the exclude list names it.  A node filter excludes
    the events of the nodes it does not list, and nothing when it is nil. *)
Theorem filters_exclude (value : string) (include exclude : option (list string))
        (re : Mircat.RecordedEvent) (nodeIDs : option (list Z)) :
  (Mircat.excludeByType value include exclude = true
   ↔ match include with
     | Some names => value ∉ names
     | None => value ∈ default [] exclude
     end)
  ∧ (Mircat.excludedByNodeID re nodeIDs = true
     ↔ ∃ ids, nodeIDs = Some ids ∧ Mircat.NodeId re ∉ ids).
Proof.
  split.
  - unfold Mircat.excludeByType. destruct include as [names|].
    + rewrite <- named_elem_of. by destruct (Mircat.named value names).
    + rewrite <- named_elem_of. by destruct (Mircat.named value _).
  - unfold Mircat.excludedByNodeID. destruct nodeIDs as [ids|].
    + split.
      * intros H. exists ids. split; [done|]. rewrite <- listed_elem_of.
        by destruct (Mircat.listed _ _).
      * intros (ids' & [= <-] & H). rewrite <- listed_elem_of in H.
        by destruct (Mircat.listed _ _).
    + split; [done|]. by intros (? & ? & _).
Qed.

(** X24.  The arguments that [parseArgs] accepts have at most one of the include and
    the exclude list for the event types, at most one for the step types, and
    status indices in the interactive mode only. *)
Theorem parseArgs_accepts (f : Mircat.flags) (a : Mircat.arguments) :
  Mircat.parseArgs f = inr a →
  (Mircat.eventTypes a = None ∨ Mircat.notEventTypes a = None)
  ∧ (Mircat.stepTypes a = None ∨ Mircat.notStepTypes a = None)
  ∧ (Mircat.statusIndices a ≠ None → Mircat.interactive a = true)
  ∧ Mircat.eventTypes a = Mircat.flag_eventTypes f
  ∧ Mircat.notEventTypes a = Mircat.flag_notEventTypes f
  ∧ Mircat.stepTypes a = Mircat.flag_stepTypes f
  ∧ Mircat.notStepTypes a = Mircat.flag_notStepTypes f
  ∧ Mircat.nodeIDs a = Mircat.flag_nodeIDs f.
Proof.
  unfold Mircat.parseArgs.
  case_bool_decide as H1; [done|]. case_bool_decide as H2; [done|].
  destruct (bool_decide (Mircat.flag_statusIndices f ≠ None) && _) eqn:H3; [done|].
  destruct (negb (String.eqb _ _) && _); [done|].
  intros [= <-]. cbn.
  repeat split.
  - destruct (Mircat.flag_eventTypes f), (Mircat.flag_notEventTypes f); auto.
    exfalso. by apply H1.
  - destruct (Mircat.flag_stepTypes f), (Mircat.flag_notStepTypes f); auto.
    exfalso. by apply H2.
  - intros Hs. apply andb_false_iff in H3 as [H3|H3].
    + by apply bool_decide_eq_false in H3.
    + by apply negb_false_iff in H3.
Qed.

Lemma not_named_in_allEventTypes names text :
  names ⊆ Mircat.allEventTypes → text ∉ Mircat.allEventTypes →
  Mircat.named text names = false.
Proof.
  intros Hs Ht. destruct (Mircat.named text names) eqn:E; [|done].
  apply named_elem_of in E. by apply Hs in E.
Qed.

(** X25.  The flags have no name for [AddClientResults] and [Transfer] events: when
    event types are asked for, such an event is never shown, and when event
    types are asked away, such an event is shown all the same. *)
Theorem shouldPrint_unlisted_events (a : Mircat.arguments) (event : Mircat.RecordedEvent)
        (names : list string) :
  unlisted event → names ⊆ Mircat.allEventTypes →
  (Mircat.eventTypes a = Some names → Mircat.shouldPrint a event = inr false)
  ∧ (Mircat.eventTypes a = None → Mircat.notEventTypes a = Some names →
     Mircat.shouldPrint a event = inr true).
Proof.
  intros Hu Hs. unfold unlisted in Hu. unfold Mircat.shouldPrint.
  assert (H1 : "AddClientResults" ∉ Mircat.allEventTypes)
    by (unfold Mircat.allEventTypes; rewrite !elem_of_cons, elem_of_nil; intros H;
        repeat destruct H as [H|H]; done).
  assert (H2 : "StateTransfer" ∉ Mircat.allEventTypes)
    by (unfold Mircat.allEventTypes; rewrite !elem_of_cons, elem_of_nil; intros H;
        repeat destruct H as [H|H]; done).
  destruct (Mircat.RecordedStateEvent event) as [[[]|]|]; try done; cbn;
    (split; [intros -> | intros -> ->]); unfold Mircat.excludeByType; cbn;
    by rewrite (not_named_in_allEventTypes names).
Qed.

Section Replay.
Context {W : Type} {comps : Components W}.

(** An event of a node that was not initialized, other than [Initialize], is
    answered with the error of a malformed log; no state machine is made for
    the node and none is touched. *)
Lemma apply_before_Initialize (fuel : nat) (event : Mircat.RecordedEvent)
        (s : Mircat.stateMachines W) :
  initializes event = false → is_Some (Mircat.RecordedStateEvent event) →
  s !! Mircat.NodeId event = None →
  Mircat.apply fuel event s = Ok (Mircat.Failed (Mircat.MalformedLog (Mircat.NodeId event))) s.
Proof.
  intros Hi He Hs. unfold Mircat.apply, initializes in *. rewrite Hs.
  by destruct (Mircat.RecordedStateEvent event) as [[[]|]|].
Qed.

Lemma actionsConcat_empty_r a : Mircat.actionsConcat a emptyActions = Some a.
Proof. destruct a. unfold Mircat.actionsConcat. cbn. by rewrite !app_nil_r. Qed.

Lemma clientActionsConcat_empty_r a : Mircat.clientActionsConcat a emptyActions = a.
Proof. destruct a. unfold Mircat.clientActionsConcat. cbn. by rewrite !app_nil_r. Qed.

(** [ActionsReceived] hands out what is pending for the node and leaves nothing
    pending; [ClientActionsReceived] does the same for the actions on the
    clients' requests.  Neither touches the state machine of the node or what
    is pending on the other side. *)
Lemma apply_hands_out_pending (fuel : nat) (nodeId : Z) (s : Mircat.stateMachines W)
        (node : Mircat.stateMachine W) (pending : actionSet) :
  s !! nodeId = Some node → Mircat.pendingActions node = Some pending →
  Mircat.apply fuel {| Mircat.NodeId := nodeId;
                       Mircat.RecordedStateEvent := Some (Mircat.Recorded StateEvent_ActionsReceived) |} s
  = Ok (Mircat.Handed (Some pending))
       (<[nodeId := {| Mircat.machine := Mircat.machine node;
                       Mircat.pendingActions := Some emptyActions;
                       Mircat.pendingClientActions := Mircat.pendingClientActions node |}]> s)
  ∧ Mircat.apply fuel {| Mircat.NodeId := nodeId;
                         Mircat.RecordedStateEvent :=
                           Some (Mircat.Recorded StateEvent_ClientActionsReceived) |} s
    = Ok (Mircat.Handed (Some (Mircat.pendingClientActions node)))
         (<[nodeId := {| Mircat.machine := Mircat.machine node;
                         Mircat.pendingActions := Some pending;
                         Mircat.pendingClientActions := emptyActions |}]> s).
Proof.
  intros Hs Hp. unfold Mircat.apply.
  cbn [Mircat.NodeId Mircat.RecordedStateEvent Mircat.toStateEvent ApplyEvent applyEvent ret].
  rewrite Hs, Hp. by rewrite actionsConcat_empty_r, clientActionsConcat_empty_r.
Qed.

Lemma apply_other_nodes (fuel : nat) (event : Mircat.RecordedEvent)
      (s : Mircat.stateMachines W) (nodeId : Z) :
  nodeId ≠ Mircat.NodeId event →
  out_state (Mircat.apply fuel event s) !! nodeId = s !! nodeId.
Proof.
  intros Hne. unfold Mircat.apply. cbv zeta.
  destruct (Mircat.RecordedStateEvent event) as [stateEvent|]; [|done].
  set (found := match stateEvent with
                | Mircat.Recorded (StateEvent_Initialize _) => _
                | _ => _ end).
  assert (Hfound : ∀ node s1, found = Some (node, s1) → s1 !! nodeId = s !! nodeId).
  { subst found. intros node s1 H.
    destruct stateEvent as [[]|];
      try (destruct (s !! Mircat.NodeId event); [by injection H as _ <-|done]).
    injection H as Hn Hs1. subst s1. rewrite lookup_insert_ne by done.
    by rewrite lookup_delete_ne. }
  destruct found as [[node s1]|]; [|done].
  specialize (Hfound node s1 eq_refl).
  destruct (ApplyEvent fuel _ _) as [actions m|p m|m]; cbn [out_state];
    [|by rewrite lookup_insert_ne|by rewrite lookup_insert_ne].
  destruct (Mircat.pendingActions node) as [pending|];
    [|cbn [out_state]; by rewrite lookup_insert_ne].
  destruct (Mircat.actionsConcat pending actions);
    [|cbn [out_state]; by rewrite lookup_insert_ne].
  destruct stateEvent as [[]|]; cbn [out_state]; by rewrite lookup_insert_ne.
Qed.

(** X26.  [apply] panics on one kind of event only, a recorded event without a
    [StateEvent]: the type test dereferences the nil pointer before the
    deferred function that recovers is installed, and no node is touched.
    Whatever the state machine does with an event that is there is recovered.
    And [apply] touches no node but the one of the event. *)
Theorem apply_touches_one_node (fuel : nat) (event : Mircat.RecordedEvent)
        (s : Mircat.stateMachines W) :
  (∀ p s', Mircat.apply fuel event s = Panic p s'
           ↔ Mircat.RecordedStateEvent event = None ∧ p = NilDereference ∧ s' = s)
  ∧ ∀ nodeId, nodeId ≠ Mircat.NodeId event →
      out_state (Mircat.apply fuel event s) !! nodeId = s !! nodeId.
Proof.
  split; [|intros nodeId Hne; by apply apply_other_nodes].
  intros p s'. unfold Mircat.apply. cbv zeta.
  destruct (Mircat.RecordedStateEvent event) as [stateEvent|].
  2:{ split; [by intros [= <- <-]|by intros (_ & -> & ->)]. }
  split; [|by intros [? _]]. intros H. exfalso. revert H.
  destruct (match stateEvent with
            | Mircat.Recorded (StateEvent_Initialize _) => _
            | _ => _ end) as [[node s1]|]; [|done].
  destruct (ApplyEvent fuel _ _) as [actions m|p' m|m]; [|done|done].
  destruct (Mircat.pendingActions node) as [pending|]; [|done].
  destruct (Mircat.actionsConcat pending actions); [|done].
  by destruct stateEvent as [[]|].
Qed.

(** X27.  An [Initialize] starts the node afresh: what was there for the node, its
    state machine and what was pending for it, has no part in what follows. *)
Theorem apply_Initialize_starts_afresh (fuel : nat) (event : Mircat.RecordedEvent)
        (s : Mircat.stateMachines W) :
  initializes event = true →
  Mircat.apply fuel event s = Mircat.apply fuel event (delete (Mircat.NodeId event) s).
Proof.
  unfold initializes, Mircat.apply. cbv zeta.
  destruct (Mircat.RecordedStateEvent event) as [[[]|]|]; try done. intros _.
  by rewrite delete_delete_eq.
Qed.

Lemma actionsConcat_no_client a o r :
  Mircat.actionsConcat a o = Some r → no_client_actions a → no_client_actions r.
Proof.
  unfold Mircat.actionsConcat, no_client_actions. cbn.
  destruct (StateTransfer o); [destruct (StateTransfer a); [done|]|]; by intros [= <-].
Qed.

Lemma clientActionsConcat_only_client a o :
  only_client_actions a → only_client_actions (Mircat.clientActionsConcat a o).
Proof. by unfold only_client_actions. Qed.

Lemma no_client_actions_empty : no_client_actions emptyActions.
Proof. done. Qed.

Lemma only_client_actions_empty : only_client_actions emptyActions.
Proof. done. Qed.

Lemma pending_split_insert id node (s : Mircat.stateMachines W) :
  pending_split s →
  (∀ p, Mircat.pendingActions node = Some p → no_client_actions p) →
  only_client_actions (Mircat.pendingClientActions node) →
  pending_split (<[id := node]> s).
Proof.
  intros Hs H1 H2 id' node' Hl. destruct (decide (id' = id)) as [->|Hne].
  - rewrite lookup_insert_eq in Hl. by injection Hl as <-.
  - rewrite lookup_insert_ne in Hl by done. by eapply Hs.
Qed.

(** X28.  The replay keeps what is pending split, from the empty set of nodes on: what
    [apply] hands out at [ActionsReceived] asks nothing of the clients' requests,
    and what it hands out at [ClientActionsReceived] asks for nothing else. *)
Theorem apply_keeps_pending_split (fuel : nat) (event : Mircat.RecordedEvent)
        (s : Mircat.stateMachines W) :
  pending_split s →
  pending_split (out_state (Mircat.apply fuel event s))
  ∧ ∀ r s', Mircat.apply fuel event s = Ok (Mircat.Handed (Some r)) s' →
      match Mircat.RecordedStateEvent event with
      | Some (Mircat.Recorded StateEvent_ActionsReceived) => no_client_actions r
      | _ => only_client_actions r
      end.
Proof.
  intros Hs. unfold Mircat.apply. cbv zeta.
  destruct (Mircat.RecordedStateEvent event) as [stateEvent|]; [|by split].
  set (found := match stateEvent with
                | Mircat.Recorded (StateEvent_Initialize _) => _
                | _ => _ end).
  assert (Hfound : ∀ node s1, found = Some (node, s1) →
            pending_split s1
            ∧ (∀ p, Mircat.pendingActions node = Some p → no_client_actions p)
            ∧ only_client_actions (Mircat.pendingClientActions node)).
  { subst found. intros node s1 H.
    destruct stateEvent as [[]|];
      try (destruct (s !! Mircat.NodeId event) eqn:E; [|done]; injection H as <- <-;
           split; [done|]; by eapply Hs).
    injection H as <- <-. cbn. split; [|split; [by intros p [= <-]|done]].
    apply pending_split_insert; [|by intros p [= <-]|done].
    intros id' node' Hl. apply lookup_delete_Some in Hl as [_ Hl]. by eapply Hs. }
  destruct found as [[node s1]|]; [|by split].
  destruct (Hfound node s1 eq_refl) as (Hs1 & Hp & Hc). clear Hfound.
  destruct (ApplyEvent fuel _ _) as [actions m|p m|m]; cbn [out_state].
  - destruct (Mircat.pendingActions node) as [pending|] eqn:Ep.
    + destruct (Mircat.actionsConcat pending actions) as [pending'|] eqn:Ea.
      * pose proof (actionsConcat_no_client _ _ _ Ea (Hp pending eq_refl)) as Hp'.
        pose proof (clientActionsConcat_only_client _ actions Hc) as Hc'.
        destruct stateEvent as [[]|]; cbn [out_state];
          (split; [apply pending_split_insert; cbn; try done; by intros ? [= <-]|]);
          intros r s'; try done; by intros [= <- _].
      * split; [|done]. apply pending_split_insert; cbn; done.
    + split; [|done]. apply pending_split_insert; cbn; done.
  - split; [|done]. apply pending_split_insert; cbn; done.
  - split; [|done]. apply pending_split_insert; cbn; done.
Qed.

End Replay.

Lemma parseArgs_accepts_witness :
  (Mircat.eventTypes SampleReplay.accepted = None
   ∨ Mircat.notEventTypes SampleReplay.accepted = None)
  ∧ (Mircat.stepTypes SampleReplay.accepted = None
     ∨ Mircat.notStepTypes SampleReplay.accepted = None)
  ∧ (Mircat.statusIndices SampleReplay.accepted ≠ None
     → Mircat.interactive SampleReplay.accepted = true)
  ∧ Mircat.eventTypes SampleReplay.accepted = Mircat.flag_eventTypes SampleReplay.ticksOfNode1
  ∧ Mircat.notEventTypes SampleReplay.accepted
    = Mircat.flag_notEventTypes SampleReplay.ticksOfNode1
  ∧ Mircat.stepTypes SampleReplay.accepted = Mircat.flag_stepTypes SampleReplay.ticksOfNode1
  ∧ Mircat.notStepTypes SampleReplay.accepted
    = Mircat.flag_notStepTypes SampleReplay.ticksOfNode1
  ∧ Mircat.nodeIDs SampleReplay.accepted = Mircat.flag_nodeIDs SampleReplay.ticksOfNode1.
Proof.
  apply (parseArgs_accepts SampleReplay.ticksOfNode1 SampleReplay.accepted). reflexivity.
Defined.

Lemma shouldPrint_unlisted_events_witness :
  (Mircat.eventTypes SampleReplay.accepted = Some ["Tick"] →
   Mircat.shouldPrint SampleReplay.accepted
     {| Mircat.NodeId := 1;
        Mircat.RecordedStateEvent := Some (Mircat.Recorded (StateEvent_Transfer Toy.checkpoint0)) |}
   = inr false)
  ∧ (Mircat.eventTypes SampleReplay.accepted = None →
     Mircat.notEventTypes SampleReplay.accepted = Some ["Tick"] →
     Mircat.shouldPrint SampleReplay.accepted
       {| Mircat.NodeId := 1;
          Mircat.RecordedStateEvent := Some (Mircat.Recorded (StateEvent_Transfer Toy.checkpoint0)) |}
     = inr true).
Proof.
  apply (shouldPrint_unlisted_events SampleReplay.accepted
           {| Mircat.NodeId := 1;
              Mircat.RecordedStateEvent := Some (Mircat.Recorded (StateEvent_Transfer Toy.checkpoint0)) |}
           ["Tick"]); [exact I|].
  apply (bool_decide_unpack _). vm_compute. exact I.
Defined.

Lemma apply_Initialize_starts_afresh_witness :
  Mircat.apply (comps := Toy.comps) 3
    {| Mircat.NodeId := 1;
       Mircat.RecordedStateEvent := Some (Mircat.Recorded (StateEvent_Initialize Toy.parameters)) |}
    SampleReplay.nodes
  = Mircat.apply (comps := Toy.comps) 3
      {| Mircat.NodeId := 1;
         Mircat.RecordedStateEvent := Some (Mircat.Recorded (StateEvent_Initialize Toy.parameters)) |}
      (delete 1 SampleReplay.nodes).
Proof.
  apply (apply_Initialize_starts_afresh (comps := Toy.comps) 3
           {| Mircat.NodeId := 1;
              Mircat.RecordedStateEvent :=
                Some (Mircat.Recorded (StateEvent_Initialize Toy.parameters)) |}
           SampleReplay.nodes).
  reflexivity.
Defined.

Lemma apply_keeps_pending_split_witness :
  pending_split (out_state (Mircat.apply (comps := Toy.comps) 3
                              {| Mircat.NodeId := 1;
                                 Mircat.RecordedStateEvent :=
                                   Some (Mircat.Recorded StateEvent_ActionsReceived) |}
                              SampleReplay.nodes))
  ∧ ∀ r s', Mircat.apply (comps := Toy.comps) 3
              {| Mircat.NodeId := 1;
                 Mircat.RecordedStateEvent := Some (Mircat.Recorded StateEvent_ActionsReceived) |}
              SampleReplay.nodes
            = Ok (Mircat.Handed (Some r)) s' →
      no_client_actions r.
Proof.
  apply (apply_keeps_pending_split (comps := Toy.comps) 3
           {| Mircat.NodeId := 1;
              Mircat.RecordedStateEvent := Some (Mircat.Recorded StateEvent_ActionsReceived) |}
           SampleReplay.nodes).
  intros id node H. unfold SampleReplay.nodes in H.
  apply lookup_singleton_Some in H as [_ <-].
  split; [intros p Hp; injection Hp as <-|]; repeat split.
Defined.

(** ** The replay tool: the run over the input *)

Section Cat.
Context {W : Type} {comps : Components W}.
Variable textFormatEvent : Mircat.RecordedEvent → bool → option bytes.
Variable textFormatActions : actionSet → bool → option bytes.
Variable prettyStatus : StateMachine W → bytes.
Variable logged : Mircat.LogLevel → StateMachine W → StateEvent → list bytes.

Lemma selectedLines_cons a index e input :
  selectedLines textFormatEvent a index (e :: input)
  = match (if selected a e
           then Mircat.EventLine (index + 1) <$> textFormatEvent e (negb (Mircat.verboseText a))
           else None) with
    | Some l => l :: selectedLines textFormatEvent a (index + 1) input
    | None => selectedLines textFormatEvent a (index + 1) input
    end.
Proof.
  unfold selectedLines, numbered. rewrite imap_cons. cbn [omap list_omap].
  replace (index + Z.of_nat 1) with (index + 1) by lia.
  assert (Hrest : imap ((fun i event => (index + Z.of_nat (S i), event)) ∘ S) input
                  = imap (fun i event => (index + 1 + Z.of_nat (S i), event)) input).
  { apply imap_ext. intros i x _. cbn. f_equal. lia. }
  by rewrite Hrest.
Qed.

Lemma executeEvent_cat (a : Mircat.arguments) (fuel : nat) index e s out shown text :
  Mircat.interactive a = false → Mircat.statusIndices a = None →
  (Mircat.excludedByNodeID e (Mircat.nodeIDs a) = false → Mircat.shouldPrint a e = inr shown) →
  textFormatEvent e (negb (Mircat.verboseText a)) = Some text →
  Mircat.executeEvent textFormatEvent textFormatActions prettyStatus logged a fuel index e
    {| Mircat.nodes := s; Mircat.output := out |}
  = Ok None {| Mircat.nodes := s;
               Mircat.output := out ++ (if selected a e then [Mircat.EventLine index text]
                                        else []) |}.
Proof.
  intros Hi Hs Hk Ht. unfold Mircat.executeEvent, selected.
  destruct (Mircat.excludedByNodeID e (Mircat.nodeIDs a)) eqn:Ex; cbn [negb andb].
  - cbn [ret]. by rewrite app_nil_r.
  - rewrite Hs, Hi, (Hk eq_refl), Ht. cbn [default].
    rewrite bool_decide_false by (intros Hx; by apply elem_of_nil in Hx).
    destruct shown; cbn; by rewrite ?app_nil_r.
Qed.

Lemma executeLoop_cat (a : Mircat.arguments) (fuel : nat) input : ∀ index s out,
  Mircat.interactive a = false → Mircat.statusIndices a = None →
  (∀ e, e ∈ input → Mircat.excludedByNodeID e (Mircat.nodeIDs a) = false →
        ∃ shown, Mircat.shouldPrint a e = inr shown) →
  (∀ e, e ∈ input → is_Some (textFormatEvent e (negb (Mircat.verboseText a)))) →
  0 ≤ index → index + Z.of_nat (length input) < 2 ^ 64 →
  Mircat.executeLoop textFormatEvent textFormatActions prettyStatus logged a fuel index input
    {| Mircat.nodes := s; Mircat.output := out |}
  = Ok None {| Mircat.nodes := s; Mircat.output := out ++ selectedLines textFormatEvent a index input |}.
Proof.
  induction input as [|e input IH]; intros index s out Hi Hs Hk Ht H0 Hlen.
  - cbn. by rewrite app_nil_r.
  - cbn [Mircat.executeLoop length] in *.
    assert (Hidx : add64 index 1 = index + 1).
    { unfold add64, wrap64. rewrite Z.mod_small; lia. }
    rewrite Hidx. destruct (Ht e) as [text Htext]; [left|].
    assert (Hshown : ∃ shown, Mircat.excludedByNodeID e (Mircat.nodeIDs a) = false →
                              Mircat.shouldPrint a e = inr shown).
    { destruct (Mircat.excludedByNodeID e (Mircat.nodeIDs a)) eqn:Ex; [by exists true|].
      destruct (Hk e) as [shown Hshown]; [left|done|]. by exists shown. }
    destruct Hshown as [shown Hshown].
    erewrite bind_Ok; [|by eapply executeEvent_cat]. cbv beta iota.
    rewrite IH; try done; try lia.
    + rewrite selectedLines_cons, Htext. cbn [fmap option_fmap option_map].
      rewrite <- app_assoc. by destruct (selected a e).
    + intros e' He'. apply Hk. by right.
    + intros e' He'. apply Ht. by right.
Qed.

(** X29.  Not interactive, the tool is a filter: it writes the events that pass the
    node filter and the filters on the types, each with its number in the
    input, makes no state machine and returns no error. *)
Theorem execute_not_interactive (f : Mircat.flags) (a : Mircat.arguments) (fuel : nat)
        (input : list Mircat.RecordedEvent) :
  Mircat.parseArgs f = inr a → Mircat.flag_interactive f = false →
  (∀ e, e ∈ input → Mircat.excludedByNodeID e (Mircat.nodeIDs a) = false →
        ∃ shown, Mircat.shouldPrint a e = inr shown) →
  (∀ e, e ∈ input → is_Some (textFormatEvent e (negb (Mircat.verboseText a)))) →
  Z.of_nat (length input) < 2 ^ 64 →
  Mircat.execute textFormatEvent textFormatActions prettyStatus logged a fuel input
  = Ok None {| Mircat.nodes := ∅; Mircat.output := selectedLines textFormatEvent a 0 input |}.
Proof.
  intros Hp Hf Hk Ht Hlen.
  assert (Ha : Mircat.interactive a = false ∧ Mircat.statusIndices a = None).
  { unfold Mircat.parseArgs in Hp. rewrite Hf in Hp.
    repeat case_bool_decide; try done; cbn in Hp;
      destruct (negb (String.eqb _ _)); try done; cbn in Hp; injection Hp as <-; cbn;
      split; try done.
    all: by destruct (Mircat.flag_statusIndices f). }
  destruct Ha as [Hi Hs]. unfold Mircat.execute. unfold bind.
  rewrite executeLoop_cat by (try done; lia). by rewrite Hi.
Qed.

Lemma print_Ok_inv (l : Mircat.line) (r r' : Mircat.replay W) x :
  Mircat.print l r = Ok x r' → Mircat.nodes r' = Mircat.nodes r.
Proof. unfold Mircat.print, modify. by intros [= _ <-]. Qed.

Lemma forEach_print_nodes (f : bytes → Mircat.line) (texts : list bytes) :
  ∀ r : Mircat.replay W,
    ∃ r', forEach (fun text => Mircat.print (f text)) texts r = Ok tt r'
          ∧ Mircat.nodes r' = Mircat.nodes r.
Proof.
  induction texts as [|text texts IH]; intros r; [by exists r|].
  cbn [forEach]. unfold bind at 1. unfold Mircat.print at 1, modify.
  destruct (IH {| Mircat.nodes := Mircat.nodes r;
                  Mircat.output := Mircat.output r ++ [f text] |}) as (r' & H & Hn).
  exists r'. by split.
Qed.

Lemma loggerLines_nodes (a : Mircat.arguments) (e : Mircat.RecordedEvent) (r : Mircat.replay W) :
  ∃ r', Mircat.loggerLines logged a e r = Ok tt r' ∧ Mircat.nodes r' = Mircat.nodes r.
Proof.
  unfold Mircat.loggerLines. unfold bind, get.
  destruct (Mircat.applies e (Mircat.nodes r)) as [[sm ev]|]; [|by exists r].
  apply forEach_print_nodes.
Qed.

Lemma executeEvent_other_nodes (a : Mircat.arguments) fuel index e (r r' : Mircat.replay W)
      x nodeId :
  nodeId ≠ Mircat.NodeId e →
  Mircat.executeEvent textFormatEvent textFormatActions prettyStatus logged a fuel index e r = Ok x r' →
  Mircat.nodes r' !! nodeId = Mircat.nodes r !! nodeId.
Proof.
  intros Hne H. unfold Mircat.executeEvent in H.
  destruct (Mircat.excludedByNodeID e _); [by injection H as _ <-|].
  apply bind_Ok_inv in H as (shown & r1 & H1 & H).
  assert (Hr1 : r1 = r).
  { destruct (bool_decide _); [by injection H1 as _ <-|].
    destruct (Mircat.shouldPrint a e); [done|by injection H1 as _ <-]. }
  subst r1. clear H1.
  apply bind_Ok_inv in H as (err & r2 & H2 & H).
  assert (Hr2 : Mircat.nodes r2 = Mircat.nodes r).
  { destruct shown; [|by injection H2 as _ <-].
    destruct (textFormatEvent e _); [|by injection H2 as _ <-].
    apply bind_Ok_inv in H2 as (? & r3 & Hp & H2). injection H2 as _ <-.
    by apply print_Ok_inv in Hp. }
  clear H2. destruct err; [injection H as _ <-; by rewrite Hr2|].
  destruct (Mircat.interactive a); [|injection H as _ <-; by rewrite Hr2].
  apply bind_Ok_inv in H as ([] & rl & Hl & H).
  destruct (loggerLines_nodes a e r2) as (rl' & Hl' & Hrl). rewrite Hl' in Hl.
  injection Hl as ->. rewrite Hr2 in Hrl. clear Hl'.
  apply bind_Ok_inv in H as (res & r3 & Ha & H).
  assert (Hr3 : Mircat.nodes r3 !! nodeId = Mircat.nodes r !! nodeId).
  { unfold zoom in Ha. pose proof (apply_other_nodes fuel e (Mircat.nodes rl) nodeId Hne) as Hf.
    destruct (Mircat.apply fuel e (Mircat.nodes rl)); try done.
    injection Ha as _ <-. cbn in *. by rewrite Hf, Hrl. }
  clear Ha. destruct res as [actions|err]; [|injection H as _ <-; done].
  apply bind_Ok_inv in H as (err & r4 & H4 & H).
  assert (Hr4 : Mircat.nodes r4 = Mircat.nodes r3).
  { destruct actions as [acts|]; [|by injection H4 as _ <-].
    destruct (textFormatActions acts _); [|by injection H4 as _ <-].
    apply bind_Ok_inv in H4 as (? & r5 & Hp & H4). injection H4 as _ <-.
    by apply print_Ok_inv in Hp. }
  clear H4. destruct err; [injection H as _ <-; by rewrite Hr4|].
  destruct (bool_decide _); [|injection H as _ <-; by rewrite Hr4].
  apply bind_Ok_inv in H as (text & r5 & H5 & H).
  unfold Mircat.status in H5. destruct (Mircat.nodes r4 !! _); [|done]. injection H5 as _ <-.
  apply bind_Ok_inv in H as (? & r6 & Hp & H). injection H as _ <-.
  apply print_Ok_inv in Hp. by rewrite Hp, Hr4.
Qed.

Lemma executeLoop_other_nodes (a : Mircat.arguments) fuel input nodeId : ∀ index r r',
  (∀ e, e ∈ input → Mircat.NodeId e ≠ nodeId) →
  Mircat.executeLoop textFormatEvent textFormatActions prettyStatus logged a fuel index input r
  = Ok None r' →
  Mircat.nodes r' !! nodeId = Mircat.nodes r !! nodeId.
Proof.
  induction input as [|e input IH]; intros index r r' Hin H; [by injection H as <-|].
  cbn [Mircat.executeLoop] in H. apply bind_Ok_inv in H as (err & r1 & He & H).
  apply executeEvent_other_nodes with (nodeId := nodeId) in He.
  2:{ intros Heq. by apply (Hin e); [left|]. }
  destruct err; [done|]. rewrite <- He. eapply IH; [|exact H].
  intros e' He'. apply Hin. by right.
Qed.

Lemma completed_absent_node (a : Mircat.arguments) ids nodeId (r : Mircat.replay W) :
  Mircat.nodeIDs a = Some ids → nodeId ∈ ids → Mircat.nodes r !! nodeId = None →
  ∃ r', Mircat.completed a r = Panic NilDereference r'.
Proof.
  intros Hids Hin Hnone. unfold Mircat.completed. unfold bind at 1. unfold get. rewrite Hids.
  clear Hids. revert r Hnone. induction ids as [|id ids IH]; intros r Hnone.
  - by apply elem_of_nil in Hin.
  - cbn [forEach]. unfold bind at 1. unfold bind at 1. unfold get.
    destruct (Mircat.nodes r !! id) as [node|] eqn:E; [|by eexists].
    apply elem_of_cons in Hin as [->|Hin]; [congruence|].
    unfold Mircat.print, modify. apply IH; done.
Qed.

(** X30.  In the interactive mode, a node filter that names a node of which the input
    has no event makes [execute] dereference a nil pointer at the very end:
    once all events are replayed without error, the closing line for that node
    reads the node that was never made. *)
Theorem execute_filter_names_absent_node (a : Mircat.arguments) (fuel : nat)
        (input : list Mircat.RecordedEvent) (ids : list Z) (nodeId : Z)
        (r : Mircat.replay W) :
  Mircat.interactive a = true → Mircat.nodeIDs a = Some ids → nodeId ∈ ids →
  (∀ e, e ∈ input → Mircat.NodeId e ≠ nodeId) →
  Mircat.executeLoop textFormatEvent textFormatActions prettyStatus logged a fuel 0 input
    {| Mircat.nodes := ∅; Mircat.output := [] |} = Ok None r →
  ∃ r', Mircat.execute textFormatEvent textFormatActions prettyStatus logged a fuel input
        = Panic NilDereference r'.
Proof.
  intros Hi Hids Hin Hno Hloop. unfold Mircat.execute, Mircat.newStateMachines.
  unfold bind at 1. rewrite Hloop, Hi.
  pose proof (executeLoop_other_nodes a fuel input nodeId _ _ _ Hno Hloop) as Hn.
  cbn in Hn. rewrite lookup_empty in Hn.
  destruct (completed_absent_node a ids nodeId r Hids Hin Hn) as [r' Hr'].
  exists r'. unfold bind. by rewrite Hr'.
Qed.

End Cat.

Lemma execute_not_interactive_witness :
  Mircat.execute (comps := Toy.comps) SampleCat.textOfEvent SampleCat.textOfActions
    SampleCat.textOfStatus SampleCat.logOf SampleCat.filtering 3 SampleCat.input
  = Ok None {| Mircat.nodes := ∅;
               Mircat.output := [Mircat.EventLine 1 "event"; Mircat.EventLine 4 "event"] |}.
Proof.
  apply (execute_not_interactive (comps := Toy.comps) SampleCat.textOfEvent
           SampleCat.textOfActions SampleCat.textOfStatus SampleCat.logOf SampleCat.ticksOfNode1
           SampleCat.filtering 3 SampleCat.input).
  - reflexivity.
  - reflexivity.
  - intros e He _. unfold SampleCat.input in He.
    repeat (apply elem_of_cons in He as [->|He]); try (eexists; reflexivity).
    by apply elem_of_nil in He.
  - intros e _. by eexists.
  - vm_compute. reflexivity.
Defined.

Lemma execute_filter_names_absent_node_witness :
  ∃ r', Mircat.execute (comps := Toy.comps) SampleCat.textOfEvent SampleCat.textOfActions
          SampleCat.textOfStatus SampleCat.logOf SampleCat.replaying 3 SampleCat.inputOfNode1
        = Panic NilDereference r'.
Proof.
  eapply (execute_filter_names_absent_node (comps := Toy.comps) SampleCat.textOfEvent
            SampleCat.textOfActions SampleCat.textOfStatus SampleCat.logOf SampleCat.replaying 3
            SampleCat.inputOfNode1 [1; 2] 2).
  - reflexivity.
  - reflexivity.
  - right. left.
  - intros e He. unfold SampleCat.inputOfNode1 in He.
    repeat (apply elem_of_cons in He as [->|He]); try discriminate.
    by apply elem_of_nil in He.
  - vm_compute. reflexivity.
Defined.

(** The interactive replay of the start-up of node 1: the events with their
    numbers, the status after the second event, the line that the logger of
    the state machine writes while the fourth event is applied, the actions
    handed out at the fifth, and the closing line. *)
Lemma execute_interactive_sample :
  match Mircat.execute (comps := Toy.comps) SampleCat.textOfEvent SampleCat.textOfActions
          SampleCat.textOfStatus SampleCat.logOf SampleCat.withStatus 3
          SampleCat.startupOfNode1 with
  | Ok None r =>
      Mircat.output r
      = [ Mircat.EventLine 1 "event"; Mircat.EventLine 2 "event"; Mircat.StatusLine "status";
          Mircat.EventLine 3 "event"; Mircat.EventLine 4 "event";
          Mircat.LoggerLine 1 "state machine reinitialized";
          Mircat.EventLine 5 "event"; Mircat.ActionsLine "actions";
          Mircat.CompletedLine 1 ]
  | _ => False
  end.
Proof. vm_compute. reflexivity. Qed.
